(** * CAN-FD transport core of the gateway board: model and verification

    Shallow embedding of [Core/Src/can_bus.c] (DLC codec, ISR-to-thread ring,
    fragmentation, reassembly, subscriber fan-out) and of the time-sync
    arithmetic of [Core/Src/telemetry.c].

    Conventions.  C integers are [Z] values with the wrap-around of their type
    written out ([u8], [u16], [u32], [u64], [s64]).  Byte buffers are
    [list byte].  Arrays updated in place are lists with stdpp's lookup and
    insert.  Static variables of the C module are threaded explicitly. *)

From Stdlib Require Import ZArith Lia List Permutation.
From Stdlib.Strings Require Import Byte.
From stdpp Require Import base list.

Local Open Scope Z_scope.

(** ** Machine integers and bytes *)

Definition u8 (z : Z) : Z := z mod 2 ^ 8.
Definition u16 (z : Z) : Z := z mod 2 ^ 16.
Definition u32 (z : Z) : Z := z mod 2 ^ 32.
Definition u64 (z : Z) : Z := z mod 2 ^ 64.

(** Conversion of a 64-bit pattern to [int64_t] (two's complement). *)
Definition s64 (z : Z) : Z := (z + 2 ^ 63) mod 2 ^ 64 - 2 ^ 63.

Definition Z_of_byte (b : byte) : Z := Z.of_N (Byte.to_N b).

Definition byte_of_Z (z : Z) : byte :=
  match Byte.of_N (Z.to_N (z mod 256)) with
  | Some b => b
  | None => x00
  end.

(** [memcpy(dst + off, src, n)] on a buffer held as a list.  The C call
    requires [n] readable bytes at [src] and [off + n] writable bytes at
    [dst]; every call site below meets this. *)
Definition memcpy_at (dst : list byte) (off : nat) (src : list byte) (n : nat)
  : list byte :=
  take off dst ++ take n src ++ drop (off + n) dst.

Definition memcpy (dst src : list byte) (n : nat) : list byte :=
  memcpy_at dst 0 src n.

Definition zeros (n : nat) : list byte := replicate n x00.

(** ** HAL status codes *)

Inductive HAL_StatusTypeDef := HAL_OK | HAL_ERROR | HAL_BUSY | HAL_TIMEOUT.

Definition HAL_status_eqb (a b : HAL_StatusTypeDef) : bool :=
  match a, b with
  | HAL_OK, HAL_OK | HAL_ERROR, HAL_ERROR
  | HAL_BUSY, HAL_BUSY | HAL_TIMEOUT, HAL_TIMEOUT => true
  | _, _ => false
  end.

(** ** FD DLC helpers *)

(** Modelled from the spec: the [FDCAN_DLC_BYTES_n] macros of the vendor HAL
    header are not part of the sources at hand.  The glossary says that CAN-FD
    "uses DLC codes 0-15 mapping to the length table", a 4-bit field, so the
    macro for the k-th table length is the code k. *)
Definition FDCAN_DLC_BYTES_0 : Z := 0.
Definition FDCAN_DLC_BYTES_1 : Z := 1.
Definition FDCAN_DLC_BYTES_2 : Z := 2.
Definition FDCAN_DLC_BYTES_3 : Z := 3.
Definition FDCAN_DLC_BYTES_4 : Z := 4.
Definition FDCAN_DLC_BYTES_5 : Z := 5.
Definition FDCAN_DLC_BYTES_6 : Z := 6.
Definition FDCAN_DLC_BYTES_7 : Z := 7.
Definition FDCAN_DLC_BYTES_8 : Z := 8.
Definition FDCAN_DLC_BYTES_12 : Z := 9.
Definition FDCAN_DLC_BYTES_16 : Z := 10.
Definition FDCAN_DLC_BYTES_20 : Z := 11.
Definition FDCAN_DLC_BYTES_24 : Z := 12.
Definition FDCAN_DLC_BYTES_32 : Z := 13.
Definition FDCAN_DLC_BYTES_48 : Z := 14.
Definition FDCAN_DLC_BYTES_64 : Z := 15.

(** The [map] table local to [can_bus_dlc_to_len]. *)
Definition dlc_len_map : list Z :=
  [0; 1; 2; 3; 4; 5; 6; 7; 8; 12; 16; 20; 24; 32; 48; 64].

Definition can_bus_dlc_to_len (dlc : Z) : Z :=
  let dlc := Z.land dlc 0xF in
  nth (Z.to_nat dlc) dlc_len_map 0.

Definition DLC_INVALID : Z := 0xFFFFFFFF.

Definition can_bus_len_to_dlc (len : Z) : Z :=
  match len with
  | 0 => FDCAN_DLC_BYTES_0
  | 1 => FDCAN_DLC_BYTES_1
  | 2 => FDCAN_DLC_BYTES_2
  | 3 => FDCAN_DLC_BYTES_3
  | 4 => FDCAN_DLC_BYTES_4
  | 5 => FDCAN_DLC_BYTES_5
  | 6 => FDCAN_DLC_BYTES_6
  | 7 => FDCAN_DLC_BYTES_7
  | 8 => FDCAN_DLC_BYTES_8
  | 12 => FDCAN_DLC_BYTES_12
  | 16 => FDCAN_DLC_BYTES_16
  | 20 => FDCAN_DLC_BYTES_20
  | 24 => FDCAN_DLC_BYTES_24
  | 32 => FDCAN_DLC_BYTES_32
  | 48 => FDCAN_DLC_BYTES_48
  | 64 => FDCAN_DLC_BYTES_64
  | _ => DLC_INVALID
  end.

Definition can_bus_round_up_fd_len (len : Z) : Z :=
  if len <=? 8 then len
  else if len <=? 12 then 12
  else if len <=? 16 then 16
  else if len <=? 20 then 20
  else if len <=? 24 then 24
  else if len <=? 32 then 32
  else if len <=? 48 then 48
  else if len <=? 64 then 64
  else 64.

(** ** RX ring buffer (ISR -> thread) *)

Definition CAN_BUS_RX_RING_DEPTH : Z := 64.

Record can_bus_rx_frame_t := mk_rx_frame {
  rx_std_id : Z;          (* uint32_t std_id *)
  rx_len : Z;             (* uint8_t len *)
  rx_data : list byte     (* uint8_t data[64] *)
}.

Definition zero_frame : can_bus_rx_frame_t :=
  {| rx_std_id := 0; rx_len := 0; rx_data := zeros 64 |}.

Record rx_ring := mk_rx_ring {
  g_rx_head : Z;
  g_rx_tail : Z;
  g_rx_ring : list can_bus_rx_frame_t
}.

(** Static zero initialisation, which [can_bus_init] restores for the two
    indices. *)
Definition rb_init : rx_ring :=
  {| g_rx_head := 0; g_rx_tail := 0;
     g_rx_ring := replicate (Z.to_nat CAN_BUS_RX_RING_DEPTH) zero_frame |}.

Definition rb_slot (r : rx_ring) (i : Z) : can_bus_rx_frame_t :=
  default zero_frame (g_rx_ring r !! Z.to_nat i).

Definition rb_next (v : Z) : Z :=
  let v := u16 (v + 1) in
  if v >=? CAN_BUS_RX_RING_DEPTH then 0 else v.

Definition rb_is_empty (r : rx_ring) : bool := g_rx_head r =? g_rx_tail r.

Definition rb_is_full (r : rx_ring) : bool :=
  rb_next (g_rx_head r) =? g_rx_tail r.

Definition rb_push_drop_oldest (std_id : Z) (data : list byte) (len : Z)
    (r : rx_ring) : rx_ring :=
  let len := if len >? 64 then 64 else len in
  let tail := if rb_is_full r then rb_next (g_rx_tail r) else g_rx_tail r in
  let h := g_rx_head r in
  let slot :=
    {| rx_std_id := std_id;
       rx_len := len;
       rx_data := memcpy (rx_data (rb_slot r h)) data (Z.to_nat len) |} in
  {| g_rx_head := rb_next h;
     g_rx_tail := tail;
     g_rx_ring := <[Z.to_nat h := slot]> (g_rx_ring r) |}.

(** [rb_pop] returns 0 and leaves [*out] alone on an empty ring ([None]),
    else copies the slot at the tail out and returns 1. *)
Definition rb_pop (r : rx_ring) : option can_bus_rx_frame_t * rx_ring :=
  let t := g_rx_tail r in
  let h := g_rx_head r in
  if h =? t then (None, r)
  else (Some (rb_slot r t),
        {| g_rx_head := h; g_rx_tail := rb_next t; g_rx_ring := g_rx_ring r |}).

(** Sequential clients of the ring: one ISR push or one thread pop. *)
Inductive rb_op :=
| OpPush (std_id : Z) (data : list byte) (len : Z)
| OpPop.

Definition rb_step (r : rx_ring) (op : rb_op) : rx_ring :=
  match op with
  | OpPush std_id data len => rb_push_drop_oldest std_id data len r
  | OpPop => snd (rb_pop r)
  end.

Definition rb_run (ops : list rb_op) (r : rx_ring) : rx_ring :=
  fold_left rb_step ops r.

(** Pops until the ring reports empty; [fuel] bounds the number of pops. *)
Fixpoint rb_drain (fuel : nat) (r : rx_ring) : list can_bus_rx_frame_t :=
  match fuel with
  | O => []
  | S fuel' =>
      match rb_pop r with
      | (Some f, r') => f :: rb_drain fuel' r'
      | (None, _) => []
      end
  end.

(** ** Subscriber fan-out *)

Definition CAN_BUS_MAX_SUBSCRIBERS : nat := 8.

(** A callback pointer is [None] for NULL, else the identity of the function;
    [sub_user] is the opaque [void *user]. *)
Record can_bus_sub_t := mk_sub {
  sub_cb : option nat;
  sub_user : Z
}.

(** One invocation [cb(data, len, user)]; the readable bytes at [data] are
    the first [len] ones. *)
Record rx_event := mk_rx_event {
  ev_cb : nat;
  ev_data : list byte;
  ev_len : Z;
  ev_user : Z
}.

Definition can_bus_notify_rx (g_subs : list can_bus_sub_t) (data : list byte)
    (len : Z) : list rx_event :=
  omap (fun s =>
          match sub_cb s with
          | Some cb => Some {| ev_cb := cb; ev_data := take (Z.to_nat len) data;
                               ev_len := len; ev_user := sub_user s |}
          | None => None
          end)
       (take CAN_BUS_MAX_SUBSCRIBERS g_subs).

(** ** Fragmentation protocol *)

Definition CAN_BUS_FRAG_MAGIC : Z := 0x5344.
Definition CAN_BUS_FRAG_WIRE_LEN : Z := 64.
Definition CAN_BUS_REASM_TIMEOUT_MS : Z := 250.

Record can_bus_frag_hdr_t := mk_hdr {
  hdr_magic : Z;      (* uint16_t *)
  hdr_seq : Z;        (* uint8_t *)
  hdr_frag_idx : Z;   (* uint8_t *)
  hdr_frag_cnt : Z;   (* uint8_t *)
  hdr_flags : Z;      (* uint8_t *)
  hdr_total_len : Z   (* uint16_t *)
}.

Definition sizeof_hdr : Z := 8.

Definition CAN_BUS_FRAG_F_FIRST : Z := Z.shiftl 1 0.
Definition CAN_BUS_FRAG_F_LAST : Z := Z.shiftl 1 1.

(** The packed struct as it lies in memory on the little-endian target:
    what [memcpy(frame, &hdr, hdr_sz)] writes. *)
Definition hdr_bytes (h : can_bus_frag_hdr_t) : list byte :=
  [ byte_of_Z (hdr_magic h); byte_of_Z (Z.shiftr (hdr_magic h) 8);
    byte_of_Z (hdr_seq h); byte_of_Z (hdr_frag_idx h);
    byte_of_Z (hdr_frag_cnt h); byte_of_Z (hdr_flags h);
    byte_of_Z (hdr_total_len h); byte_of_Z (Z.shiftr (hdr_total_len h) 8) ].

Definition byte_at (bs : list byte) (i : nat) : Z := Z_of_byte (nth i bs x00).

(** What [memcpy(&hdr, f->data, sizeof(hdr))] reads back. *)
Definition hdr_of_bytes (bs : list byte) : can_bus_frag_hdr_t :=
  {| hdr_magic := Z.lor (byte_at bs 0) (Z.shiftl (byte_at bs 1) 8);
     hdr_seq := byte_at bs 2;
     hdr_frag_idx := byte_at bs 3;
     hdr_frag_cnt := byte_at bs 4;
     hdr_flags := byte_at bs 5;
     hdr_total_len := Z.lor (byte_at bs 6) (Z.shiftl (byte_at bs 7) 8) |}.

(** ** Reassembly state *)

Definition CAN_BUS_REASM_SLOTS : nat := 4.
Definition CAN_BUS_REASM_MAX_BYTES : Z := 2048.
Definition CAN_BUS_REASM_MAX_FRAGS : Z := 64.
Definition GOT_MASK_WORDS : nat := Z.to_nat ((CAN_BUS_REASM_MAX_FRAGS + 63) / 64).

(** [s_active] is the [uint8_t active] flag, which only ever holds 0 or 1. *)
Record can_bus_reasm_slot_t := mk_slot {
  s_active : bool;
  s_std_id : Z;          (* uint32_t *)
  s_seq : Z;             (* uint8_t *)
  s_frag_cnt : Z;        (* uint8_t *)
  s_total_len : Z;       (* uint16_t *)
  s_data_cap : Z;        (* uint8_t *)
  s_last_tick_ms : Z;    (* uint32_t *)
  s_got_mask : list Z;   (* uint64_t [GOT_MASK_WORDS] *)
  s_got_count : Z;       (* uint16_t *)
  s_buf : list byte      (* uint8_t [CAN_BUS_REASM_MAX_BYTES] *)
}.

Definition reasm_reset (s : can_bus_reasm_slot_t) : can_bus_reasm_slot_t :=
  {| s_active := false; s_std_id := 0; s_seq := 0; s_frag_cnt := 0;
     s_total_len := 0; s_data_cap := 0; s_last_tick_ms := 0;
     s_got_mask := replicate GOT_MASK_WORDS 0;
     s_got_count := 0; s_buf := s_buf s |}.

(** The statically zeroed table. *)
Definition zero_slot : can_bus_reasm_slot_t :=
  {| s_active := false; s_std_id := 0; s_seq := 0; s_frag_cnt := 0;
     s_total_len := 0; s_data_cap := 0; s_last_tick_ms := 0;
     s_got_mask := replicate GOT_MASK_WORDS 0;
     s_got_count := 0; s_buf := zeros (Z.to_nat CAN_BUS_REASM_MAX_BYTES) |}.

Definition reasm_init : list can_bus_reasm_slot_t :=
  replicate CAN_BUS_REASM_SLOTS zero_slot.

Definition slot_at (g : list can_bus_reasm_slot_t) (i : nat)
  : can_bus_reasm_slot_t :=
  default zero_slot (g !! i).

Definition set_last_tick (now_ms : Z) (s : can_bus_reasm_slot_t)
  : can_bus_reasm_slot_t :=
  {| s_active := s_active s; s_std_id := s_std_id s; s_seq := s_seq s;
     s_frag_cnt := s_frag_cnt s; s_total_len := s_total_len s;
     s_data_cap := s_data_cap s; s_last_tick_ms := now_ms;
     s_got_mask := s_got_mask s; s_got_count := s_got_count s;
     s_buf := s_buf s |}.

(** [reasm_reset] followed by the four assignments that claim the slot. *)
Definition reasm_claim (std_id seq now_ms : Z) (s : can_bus_reasm_slot_t)
  : can_bus_reasm_slot_t :=
  let s := reasm_reset s in
  {| s_active := true; s_std_id := std_id; s_seq := seq;
     s_frag_cnt := s_frag_cnt s; s_total_len := s_total_len s;
     s_data_cap := s_data_cap s; s_last_tick_ms := now_ms;
     s_got_mask := s_got_mask s; s_got_count := s_got_count s;
     s_buf := s_buf s |}.

Definition slot_age (now_ms : Z) (s : can_bus_reasm_slot_t) : Z :=
  u32 (now_ms - s_last_tick_ms s).

(** Third loop of [reasm_get_slot]: the last index of greatest age. *)
Definition stalest_step (now_ms : Z) (acc : nat * Z)
    (e : nat * can_bus_reasm_slot_t) : nat * Z :=
  let age := slot_age now_ms (snd e) in
  if age >=? snd acc then (fst e, age) else acc.

Definition reasm_stalest (now_ms : Z) (g : list can_bus_reasm_slot_t) : nat :=
  fst (fold_left (stalest_step now_ms) (imap pair g) (0%nat, 0)).

Definition slot_is_for (std_id : Z) (s : can_bus_reasm_slot_t) : Prop :=
  s_active s = true /\ s_std_id s = std_id.

Definition slot_is_free (s : can_bus_reasm_slot_t) : Prop :=
  s_active s = false.

(** Returns the index of the slot the C function returns a pointer to, and
    the table after its writes. *)
Definition reasm_get_slot (std_id seq now_ms : Z)
    (g : list can_bus_reasm_slot_t) : nat * list can_bus_reasm_slot_t :=
  match list_find (slot_is_for std_id) g with
  | Some (i, s) =>
      let s := if s_seq s =? seq then s else reasm_reset s in
      (i, <[i := set_last_tick now_ms s]> g)
  | None =>
      match list_find slot_is_free g with
      | Some (i, s) => (i, <[i := reasm_claim std_id seq now_ms s]> g)
      | None =>
          let stalest := reasm_stalest now_ms g in
          (stalest,
           <[stalest := reasm_claim std_id seq now_ms (slot_at g stalest)]> g)
      end
  end.

Definition mask_word (mask : list Z) (w : nat) : Z := default 0 (mask !! w).

Definition bit_test (mask : list Z) (idx : Z) : bool :=
  let w := u16 (idx / 64) in
  let b := u16 (idx mod 64) in
  negb (Z.land (Z.shiftr (mask_word mask (Z.to_nat w)) b) 1 =? 0).

Definition bit_set (mask : list Z) (idx : Z) : list Z :=
  let w := u16 (idx / 64) in
  let b := u16 (idx mod 64) in
  <[Z.to_nat w := Z.lor (mask_word mask (Z.to_nat w)) (u64 (Z.shiftl 1 b))]>
    mask.

Definition reasm_expire_slot (now_ms : Z) (s : can_bus_reasm_slot_t)
  : can_bus_reasm_slot_t :=
  if negb (s_active s) then s
  else if slot_age now_ms s >? CAN_BUS_REASM_TIMEOUT_MS then reasm_reset s
  else s.

Definition reasm_expire_old (now_ms : Z) (g : list can_bus_reasm_slot_t)
  : list can_bus_reasm_slot_t :=
  map (reasm_expire_slot now_ms) g.

(** ** Handling one RX frame (thread context) *)

(** Which [return] of [handle_rx_frame] was taken. *)
Inductive rx_path :=
| PathRaw            (* not a fragment: delivered raw *)
| PathHdrRejected    (* one of the five header checks failed *)
| PathMismatch       (* disagrees with the message in flight: slot reset *)
| PathOffRange       (* [off >= s->total_len] *)
| PathAccepted.      (* reached the final [return] of the fragment branch *)

Record rx_result := mk_rx_result {
  res_reasm : list can_bus_reasm_slot_t;   (* [g_reasm] afterwards *)
  res_events : list rx_event;              (* callbacks invoked, in order *)
  res_path : rx_path
}.

(** The five checks under "Validate header fields", in source order. *)
Definition hdr_rejected (hdr : can_bus_frag_hdr_t) : bool :=
  if hdr_frag_cnt hdr =? 0 then true
  else if hdr_frag_idx hdr >=? hdr_frag_cnt hdr then true
  else if hdr_frag_cnt hdr >? CAN_BUS_REASM_MAX_FRAGS then true
  else if hdr_total_len hdr =? 0 then true
  else if hdr_total_len hdr >? CAN_BUS_REASM_MAX_BYTES then true
  else false.

(** "If slot was newly created (or reset), initialize message params". *)
Definition slot_init_params (hdr : can_bus_frag_hdr_t) (payload_len : Z)
    (s : can_bus_reasm_slot_t) : can_bus_reasm_slot_t :=
  {| s_active := s_active s; s_std_id := s_std_id s; s_seq := s_seq s;
     s_frag_cnt := hdr_frag_cnt hdr; s_total_len := hdr_total_len hdr;
     s_data_cap := payload_len; s_last_tick_ms := s_last_tick_ms s;
     s_got_mask := replicate GOT_MASK_WORDS 0;
     s_got_count := 0; s_buf := s_buf s |}.

(** "Mark + copy if not already received". *)
Definition slot_mark_copy (idx : Z) (off take : Z) (payload : list byte)
    (s : can_bus_reasm_slot_t) : can_bus_reasm_slot_t :=
  {| s_active := s_active s; s_std_id := s_std_id s; s_seq := s_seq s;
     s_frag_cnt := s_frag_cnt s; s_total_len := s_total_len s;
     s_data_cap := s_data_cap s; s_last_tick_ms := s_last_tick_ms s;
     s_got_mask := bit_set (s_got_mask s) idx;
     s_got_count := u16 (s_got_count s + 1);
     s_buf := memcpy_at (s_buf s) (Z.to_nat off) payload (Z.to_nat take) |}.

(** From "Compute where this fragment's payload should land" to the end of
    the fragment branch; [s] is the slot [g !! i] with its pending writes. *)
Definition reasm_store (g_subs : list can_bus_sub_t)
    (hdr : can_bus_frag_hdr_t) (payload : list byte) (payload_len : Z)
    (now_ms : Z) (i : nat) (s : can_bus_reasm_slot_t)
    (g : list can_bus_reasm_slot_t) : rx_result :=
  let off := u32 (hdr_frag_idx hdr * s_data_cap s) in
  if off >=? s_total_len s then
    {| res_reasm := <[i := s]> g; res_events := []; res_path := PathOffRange |}
  else
    let take := payload_len in
    let take :=
      if u32 (off + take) >? s_total_len s then u32 (s_total_len s - off)
      else take in
    let s :=
      if negb (bit_test (s_got_mask s) (hdr_frag_idx hdr))
      then slot_mark_copy (hdr_frag_idx hdr) off take payload s
      else s in
    let s := set_last_tick now_ms s in
    if s_got_count s =? s_frag_cnt s then
      {| res_reasm := <[i := reasm_reset s]> g;
         res_events := can_bus_notify_rx g_subs (s_buf s) (s_total_len s);
         res_path := PathAccepted |}
    else
      {| res_reasm := <[i := s]> g; res_events := []; res_path := PathAccepted |}.

Definition is_fragment (f : can_bus_rx_frame_t) : bool :=
  (rx_len f >=? sizeof_hdr)
  && (hdr_magic (hdr_of_bytes (rx_data f)) =? CAN_BUS_FRAG_MAGIC).

Definition handle_rx_frame (g_subs : list can_bus_sub_t)
    (f : can_bus_rx_frame_t) (now_ms : Z) (g : list can_bus_reasm_slot_t)
  : rx_result :=
  let raw :=
    {| res_reasm := g;
       res_events := can_bus_notify_rx g_subs (rx_data f) (rx_len f);
       res_path := PathRaw |} in
  if rx_len f >=? sizeof_hdr then
    let hdr := hdr_of_bytes (rx_data f) in
    if hdr_magic hdr =? CAN_BUS_FRAG_MAGIC then
      if hdr_rejected hdr then
        {| res_reasm := g; res_events := []; res_path := PathHdrRejected |}
      else
        let payload := drop (Z.to_nat sizeof_hdr) (rx_data f) in
        let payload_len := u8 (rx_len f - sizeof_hdr) in
        let '(i, g) := reasm_get_slot (rx_std_id f) (hdr_seq hdr) now_ms g in
        let s := slot_at g i in
        if s_frag_cnt s =? 0 then
          reasm_store g_subs hdr payload payload_len now_ms i
            (slot_init_params hdr payload_len s) g
        else if negb (s_frag_cnt s =? hdr_frag_cnt hdr) then
          {| res_reasm := <[i := reasm_reset s]> g; res_events := [];
             res_path := PathMismatch |}
        else if negb (s_total_len s =? hdr_total_len hdr) then
          {| res_reasm := <[i := reasm_reset s]> g; res_events := [];
             res_path := PathMismatch |}
        else
          reasm_store g_subs hdr payload payload_len now_ms i s g
    else raw
  else raw.

(** Frames handled one after the other, each with its own tick value. *)
Fixpoint handle_rx_frames (g_subs : list can_bus_sub_t)
    (fs : list (can_bus_rx_frame_t * Z)) (g : list can_bus_reasm_slot_t)
  : list can_bus_reasm_slot_t * list rx_event :=
  match fs with
  | [] => (g, [])
  | (f, now_ms) :: fs' =>
      let r := handle_rx_frame g_subs f now_ms g in
      let '(g', evs) := handle_rx_frames g_subs fs' (res_reasm r) in
      (g', res_events r ++ evs)
  end.

(** ** [can_bus_process_rx]

    The receive side of the module: ring, reassembly table, subscribers.
    [HAL_GetTick()] is the argument [now].  The [while (rb_pop(&f))] loop is
    bounded by [fuel]; without the ISR running in between, the ring empties
    within [CAN_BUS_RX_RING_DEPTH] pops. *)
Record can_bus_rx := mk_can_bus_rx {
  rx_ringbuf : rx_ring;
  g_reasm : list can_bus_reasm_slot_t;
  g_subs : list can_bus_sub_t
}.

Fixpoint process_rx_loop (fuel : nat) (now : Z) (st : can_bus_rx)
    (evs : list rx_event) : option (can_bus_rx * list rx_event) :=
  match fuel with
  | O => None
  | S fuel' =>
      match rb_pop (rx_ringbuf st) with
      | (Some f, r') =>
          let res := handle_rx_frame (g_subs st) f now (g_reasm st) in
          process_rx_loop fuel' now
            {| rx_ringbuf := r'; g_reasm := res_reasm res;
               g_subs := g_subs st |}
            (evs ++ res_events res)
      | (None, r') =>
          Some ({| rx_ringbuf := r'; g_reasm := g_reasm st;
                   g_subs := g_subs st |}, evs)
      end
  end.

Definition can_bus_process_rx (now : Z) (st : can_bus_rx)
  : option (can_bus_rx * list rx_event) :=
  let st := {| rx_ringbuf := rx_ringbuf st;
               g_reasm := reasm_expire_old now (g_reasm st);
               g_subs := g_subs st |} in
  process_rx_loop (S (Z.to_nat CAN_BUS_RX_RING_DEPTH)) now st [].

(** ** Transmit side *)

(** The values the vendor HAL defines for the fields of the TX header, kept
    symbolic: only the names the module uses matter. *)
Inductive fdcan_id_type := FDCAN_STANDARD_ID | FDCAN_EXTENDED_ID.
Inductive fdcan_frame_type := FDCAN_DATA_FRAME | FDCAN_REMOTE_FRAME.
Inductive fdcan_esi := FDCAN_ESI_ACTIVE | FDCAN_ESI_PASSIVE.
Inductive fdcan_brs := FDCAN_BRS_OFF | FDCAN_BRS_ON.
Inductive fdcan_format := FDCAN_CLASSIC_CAN | FDCAN_FD_CAN.
Inductive fdcan_tx_events := FDCAN_NO_TX_EVENTS | FDCAN_STORE_TX_EVENTS.

Record FDCAN_TxHeaderTypeDef := mk_tx_header {
  Identifier : Z;
  IdType : fdcan_id_type;
  TxFrameType : fdcan_frame_type;
  DataLength : Z;
  ErrorStateIndicator : fdcan_esi;
  BitRateSwitch : fdcan_brs;
  FDFormat : fdcan_format;
  TxEventFifoControl : fdcan_tx_events;
  MessageMarker : Z
}.

(** One call [HAL_FDCAN_AddMessageToTxFifoQ(g_hfdcan, &txHeader, txData)]. *)
Record tx_call := mk_tx_call {
  tx_header : FDCAN_TxHeaderTypeDef;
  tx_data : list byte      (* uint8_t txData[64] *)
}.

(** The bus driver is outside the module: its answer to a call may depend on
    everything handed to it before. *)
Definition hal_driver := list tx_call -> tx_call -> HAL_StatusTypeDef.

Record can_bus_tx := mk_can_bus_tx {
  g_hfdcan : bool;            (* handle set by [can_bus_init], else NULL *)
  g_seq : Z;                  (* [static uint8_t g_seq] of can_bus_send_large *)
  tx_log : list tx_call       (* calls made to the driver, oldest first *)
}.

Definition hal_add_message (drv : hal_driver) (c : tx_call) (st : can_bus_tx)
  : HAL_StatusTypeDef * can_bus_tx :=
  (drv (tx_log st) c,
   {| g_hfdcan := g_hfdcan st; g_seq := g_seq st;
      tx_log := tx_log st ++ [c] |}).

(** [bytes] is [None] for a NULL pointer. *)
Definition can_bus_send_bytes (drv : hal_driver) (bytes : option (list byte))
    (len : Z) (std_id : Z) (st : can_bus_tx) : HAL_StatusTypeDef * can_bus_tx :=
  if negb (g_hfdcan st) then (HAL_ERROR, st)
  else
    match bytes with
    | None => (HAL_ERROR, st)
    | Some bs =>
        if len =? 0 then (HAL_ERROR, st)
        else
          let len := if len >? 64 then 64 else len in
          let wire_len := can_bus_round_up_fd_len len in
          let dlc := can_bus_len_to_dlc wire_len in
          if dlc =? DLC_INVALID then (HAL_ERROR, st)
          else
            let txHeader :=
              {| Identifier := Z.land std_id 0x7FF;
                 IdType := FDCAN_STANDARD_ID;
                 TxFrameType := FDCAN_DATA_FRAME;
                 DataLength := dlc;
                 ErrorStateIndicator := FDCAN_ESI_ACTIVE;
                 BitRateSwitch := FDCAN_BRS_OFF;
                 FDFormat := FDCAN_FD_CAN;
                 TxEventFifoControl := FDCAN_NO_TX_EVENTS;
                 MessageMarker := 0 |} in
            let txData := memcpy (zeros 64) bs (Z.to_nat len) in
            hal_add_message drv
              {| tx_header := txHeader; tx_data := txData |} st
    end.

(** Body of the [for (uint8_t idx = 0; idx < frag_cnt; idx++)] loop of
    [can_bus_send_large], entered with the current [idx] and [off]. *)
Fixpoint send_large_loop (fuel : nat) (drv : hal_driver) (bs : list byte)
    (len std_id seq frag_cnt data_cap : Z) (idx off : Z) (st : can_bus_tx)
  : option (HAL_StatusTypeDef * can_bus_tx) :=
  match fuel with
  | O => None
  | S fuel' =>
      if idx <? frag_cnt then
        let frame := zeros 64 in
        let flags := 0 in
        let flags :=
          if idx =? 0 then Z.lor flags CAN_BUS_FRAG_F_FIRST else flags in
        let flags :=
          if idx =? u8 (frag_cnt - 1) then Z.lor flags CAN_BUS_FRAG_F_LAST
          else flags in
        let hdr :=
          {| hdr_magic := CAN_BUS_FRAG_MAGIC; hdr_seq := seq;
             hdr_frag_idx := idx; hdr_frag_cnt := frag_cnt;
             hdr_flags := flags; hdr_total_len := u16 len |} in
        let frame := memcpy frame (hdr_bytes hdr) (Z.to_nat sizeof_hdr) in
        let take := u32 (len - off) in
        let take := if take >? data_cap then data_cap else take in
        let frame :=
          memcpy_at frame (Z.to_nat sizeof_hdr) (drop (Z.to_nat off) bs)
            (Z.to_nat take) in
        let off := u32 (off + take) in
        let '(status, st) :=
          can_bus_send_bytes drv (Some frame) CAN_BUS_FRAG_WIRE_LEN std_id st in
        if HAL_status_eqb status HAL_OK then
          send_large_loop fuel' drv bs len std_id seq frag_cnt data_cap
            (u8 (idx + 1)) off st
        else Some (status, st)
      else Some (HAL_OK, st)
  end.

Definition with_g_seq (v : Z) (st : can_bus_tx) : can_bus_tx :=
  {| g_hfdcan := g_hfdcan st; g_seq := v; tx_log := tx_log st |}.

(** [None] only if the loop bound of the model were too small; the loop runs
    at most 255 times, see [can_bus_send_large_total]. *)
Definition can_bus_send_large (drv : hal_driver) (bytes : option (list byte))
    (len : Z) (std_id : Z) (st : can_bus_tx)
  : option (HAL_StatusTypeDef * can_bus_tx) :=
  if negb (g_hfdcan st) then Some (HAL_ERROR, st)
  else
    match bytes with
    | None => Some (HAL_ERROR, st)
    | Some bs =>
        if len =? 0 then Some (HAL_ERROR, st)
        else if len >? 0xFFFF then Some (HAL_ERROR, st)
        else
          let seq := g_seq st in
          let st := with_g_seq (u8 (g_seq st + 1)) st in
          let hdr_sz := sizeof_hdr in
          let wire_len := CAN_BUS_FRAG_WIRE_LEN in
          if wire_len >? 64 then Some (HAL_ERROR, st)
          else
            let data_cap := u32 (wire_len - hdr_sz) in
            if data_cap =? 0 then Some (HAL_ERROR, st)
            else
              let frag_cnt_sz := u32 (len + data_cap - 1) / data_cap in
              let frag_cnt_sz := if frag_cnt_sz =? 0 then 1 else frag_cnt_sz in
              if frag_cnt_sz >? 255 then Some (HAL_ERROR, st)
              else
                let frag_cnt := u8 frag_cnt_sz in
                send_large_loop 256 drv bs len std_id seq frag_cnt data_cap
                  0 0 st
    end.

(** ** ISR side: from a frame on the bus to a ring slot *)

(** What [HAL_FDCAN_RxFifo1Callback] computes from the received header
    ([Identifier], [DataLength]) before pushing. *)
Definition isr_std_id (identifier : Z) : Z := Z.land identifier 0x7FF.

Definition isr_len (data_length : Z) : Z :=
  let len := can_bus_dlc_to_len data_length in
  u8 (if len >? 64 then 64 else len).

Definition HAL_FDCAN_RxFifo1Callback_one (identifier data_length : Z)
    (data : list byte) (r : rx_ring) : rx_ring :=
  rb_push_drop_oldest (isr_std_id identifier) data (isr_len data_length) r.

(** The frame a peer's thread pops for a transmitted frame that crossed the
    bus unchanged: identifier and DLC code of the header, and the payload. *)
Definition wire_frame (c : tx_call) : can_bus_rx_frame_t :=
  let len := isr_len (DataLength (tx_header c)) in
  {| rx_std_id := isr_std_id (Identifier (tx_header c));
     rx_len := len;
     rx_data := take (Z.to_nat len) (tx_data c) |}.

(** ** Time sync (telemetry.c) *)

(** [int64_t] sums and differences wrap here; in C their overflow is
    undefined, and the theorems say where it cannot occur. *)
Definition compute_offset_delay (t1 t2 t3 t4 : Z) : Z * Z :=
  let o := Z.quot (s64 (s64 (u64 (t2 - t1)) + s64 (u64 (t3 - t4)))) 2 in
  let d := s64 (s64 (u64 (t4 - t1)) - s64 (u64 (t3 - t2))) in
  (o, if d <? 0 then 0 else u64 d).

(** The ThreadX system clock; [tx_set_log] records the arguments of the
    [tx_time_set] calls, oldest first. *)
Record threadx_clock := mk_clock {
  tx_ticks : Z;             (* ULONG, 32 bits *)
  tx_set_log : list Z
}.

Definition tx_time_get (c : threadx_clock) : Z := tx_ticks c.

Definition tx_time_set (v : Z) (c : threadx_clock) : threadx_clock :=
  {| tx_ticks := v; tx_set_log := tx_set_log c ++ [v] |}.

(** [tps] is [TX_TIMER_TICKS_PER_SECOND], fixed by the ThreadX port. *)
Definition threadx_apply_offset_ms (tps : Z) (offset_ms : Z)
    (c : threadx_clock) : threadx_clock :=
  if (offset_ms >? 30 * 1000) || (offset_ms <? - (30 * 1000)) then c
  else
    let delta_ticks := Z.quot (s64 (offset_ms * tps)) 1000 in
    let cur := tx_time_get c in
    let new_ticks := s64 (u32 cur + delta_ticks) in
    let new_ticks := if new_ticks <? 0 then 0 else new_ticks in
    tx_time_set (u32 new_ticks) c.

(** Static locals of [tx_raw_now_ms]. *)
Record tick_extender := mk_ext {
  last_ticks32 : Z;
  high : Z
}.

Definition tx_raw_now_ms (tps : Z) (c : threadx_clock) (e : tick_extender)
  : Z * tick_extender :=
  let cur32 := u32 (tx_time_get c) in
  let high' := if cur32 <? last_ticks32 e then u64 (high e + 2 ^ 32)
               else high e in
  let ticks64 := Z.lor high' cur32 in
  (u64 (ticks64 * 1000) / tps, {| last_ticks32 := cur32; high := high' |}).

(** Little-endian [uint64_t] read by [memcpy(&x, payload + off, 8)]. *)
Definition le_u64 (bs : list byte) (off : nat) : Z :=
  fold_right (fun b acc => Z_of_byte b + 256 * acc) 0 (take 8 (drop off bs)).

Record SedsPacketView := mk_pkt {
  pkt_ty : Z;
  pkt_payload : option (list byte);   (* [None] for a NULL payload *)
  pkt_payload_len : Z
}.

Inductive SedsResult := SEDS_OK | SEDS_ERR.

(** [resp_ty] is [SEDS_DT_TIME_SYNC_RESPONSE], a constant of the generated
    schema header.  The packet pointer itself is taken to be non-NULL. *)
Definition on_timesync (tps resp_ty : Z) (pkt : SedsPacketView)
    (c : threadx_clock) (e : tick_extender)
  : SedsResult * threadx_clock * tick_extender :=
  match pkt_payload pkt with
  | None => (SEDS_ERR, c, e)
  | Some payload =>
      if (pkt_ty pkt =? resp_ty) && (pkt_payload_len pkt >=? 32) then
        let t1 := le_u64 payload 8 in
        let t2 := le_u64 payload 16 in
        let t3 := le_u64 payload 24 in
        let '(t4, e) := tx_raw_now_ms tps c e in
        let '(offset_ms, delay_ms) := compute_offset_delay t1 t2 t3 t4 in
        (SEDS_OK, threadx_apply_offset_ms tps offset_ms c, e)
      else (SEDS_OK, c, e)
  end.

(** ** Specification vocabulary for the ring *)

Definition rb_wf (r : rx_ring) : Prop :=
  length (g_rx_ring r) = Z.to_nat CAN_BUS_RX_RING_DEPTH
  /\ 0 <= g_rx_head r < CAN_BUS_RX_RING_DEPTH
  /\ 0 <= g_rx_tail r < CAN_BUS_RX_RING_DEPTH.

(** Occupancy: the number of slots between tail and head. *)
Definition rb_count (r : rx_ring) : Z :=
  (g_rx_head r - g_rx_tail r) mod CAN_BUS_RX_RING_DEPTH.

(** The queued frames, oldest first. *)
Definition rb_contents (r : rx_ring) : list can_bus_rx_frame_t :=
  map (fun k => rb_slot r ((g_rx_tail r + Z.of_nat k) mod CAN_BUS_RX_RING_DEPTH))
      (seq 0 (Z.to_nat (rb_count r))).

(** What a consumer can observe of a frame: id, length and the [len]
    payload bytes (the rest of [data] is left over from earlier frames). *)
Definition frame_view (f : can_bus_rx_frame_t) : Z * Z * list byte :=
  (rx_std_id f, rx_len f, take (Z.to_nat (rx_len f)) (rx_data f)).

(** Arguments of one [rb_push_drop_oldest] call. *)
Record rb_push_args := mk_push {
  push_std_id : Z;
  push_data : list byte;
  push_len : Z
}.

Definition push_clamped_len (p : rb_push_args) : Z :=
  if push_len p >? 64 then 64 else push_len p.

Definition push_view (p : rb_push_args) : Z * Z * list byte :=
  (push_std_id p, push_clamped_len p,
   take (Z.to_nat (push_clamped_len p)) (push_data p)).

(** [len] is a [uint8_t] and [data] has at least the bytes that are copied. *)
Definition push_ok (p : rb_push_args) : Prop :=
  0 <= push_len p < 256
  /\ (Z.to_nat (push_clamped_len p) <= length (push_data p))%nat.

(** The slot contents a push writes at the head. *)
Definition rb_stored (p : rb_push_args) (r : rx_ring) : can_bus_rx_frame_t :=
  {| rx_std_id := push_std_id p;
     rx_len := push_clamped_len p;
     rx_data := memcpy (rx_data (rb_slot r (g_rx_head r))) (push_data p)
                  (Z.to_nat (push_clamped_len p)) |}.

Definition rb_push (p : rb_push_args) (r : rx_ring) : rx_ring :=
  rb_push_drop_oldest (push_std_id p) (push_data p) (push_len p) r.

Definition rb_push_all (ps : list rb_push_args) (r : rx_ring) : rx_ring :=
  fold_left (fun r p => rb_push p r) ps r.

(** The overflow scenario: 65 frames pushed back to back, frame number [k]
    carrying id [k] and the one payload byte [k]. *)
Definition numbered_push (k : nat) : rb_push_args :=
  {| push_std_id := Z.of_nat k;
     push_data := [byte_of_Z (Z.of_nat k)];
     push_len := 1 |}.

Definition overflow_scenario : list rb_push_args :=
  map numbered_push (seq 1 65).

(** The last [n] elements of a list. *)
Definition lastn {A : Type} (n : nat) (l : list A) : list A :=
  drop (length l - n) l.

(** ** Specification vocabulary for time sync *)

(** The formulas of the four-timestamp exchange over the integers, with the
    division of C (truncation toward zero). *)
Definition ntp_offset (t1 t2 t3 t4 : Z) : Z :=
  Z.quot ((t2 - t1) + (t3 - t4)) 2.

Definition ntp_delay (t1 t2 t3 t4 : Z) : Z :=
  Z.max 0 ((t4 - t1) - (t3 - t2)).

(** The tick value a correction of [offset_ms] moves the clock to. *)
Definition corrected_ticks (tps offset_ms cur : Z) : Z :=
  u32 (Z.max 0 (u32 cur + Z.quot (offset_ms * tps) 1000)).

(** Little-endian image of a [uint64_t]. *)
Definition u64_le (z : Z) : list byte :=
  map (fun i => byte_of_Z (Z.shiftr z (8 * Z.of_nat i))) (seq 0 8).

(** A reply payload [{seq, t1, t2, t3}]. *)
Definition timesync_reply (sq t1 t2 t3 : Z) : list byte :=
  u64_le sq ++ u64_le t1 ++ u64_le t2 ++ u64_le t3.

(** ** Specification vocabulary for the receive path *)

(** The magic as the first two payload bytes spell it, little-endian. *)
Definition wire_magic (f : can_bus_rx_frame_t) : Z :=
  byte_at (rx_data f) 0 + 256 * byte_at (rx_data f) 1.

(** The table of [g_subs] as the callbacks to run, in order. *)
Definition registered (subs : list can_bus_sub_t) : list (nat * Z) :=
  omap (fun s => match sub_cb s with
                 | Some cb => Some (cb, sub_user s)
                 | None => None
                 end) (take CAN_BUS_MAX_SUBSCRIBERS subs).

(** Scenario 1 of the specification: a 16-byte frame [00..0F], id 0x100. *)
Definition raw_scenario_frame : can_bus_rx_frame_t :=
  {| rx_std_id := 0x100; rx_len := 16;
     rx_data := map (fun k => byte_of_Z (Z.of_nat k)) (seq 0 16) ++ zeros 48 |}.

Definition one_subscriber : list can_bus_sub_t :=
  {| sub_cb := Some 1%nat; sub_user := 0 |}
    :: replicate 7 {| sub_cb := None; sub_user := 0 |}.

(** ** Specification vocabulary for the transmit path *)

(** The header [can_bus_send_bytes] fills in for identifier [std_id] and DLC
    code [dlc]. *)
Definition fd_tx_header (std_id dlc : Z) : FDCAN_TxHeaderTypeDef :=
  {| Identifier := Z.land std_id 0x7FF;
     IdType := FDCAN_STANDARD_ID;
     TxFrameType := FDCAN_DATA_FRAME;
     DataLength := dlc;
     ErrorStateIndicator := FDCAN_ESI_ACTIVE;
     BitRateSwitch := FDCAN_BRS_OFF;
     FDFormat := FDCAN_FD_CAN;
     TxEventFifoControl := FDCAN_NO_TX_EVENTS;
     MessageMarker := 0 |}.

(** [ceil (L / 56)]. *)
Definition frag_count (L : Z) : Z := (L + 55) / 56.

(** The [i]-th 56-byte chunk of a buffer (the last one may be shorter). *)
Definition frag_chunk (bs : list byte) (i : nat) : list byte :=
  take 56 (drop (56 * i) bs).

(** FIRST (bit 0) on index 0, LAST (bit 1) on index [cnt - 1]. *)
Definition frag_flags (cnt : Z) (i : nat) : Z :=
  (if Z.of_nat i =? 0 then 1 else 0) + (if Z.of_nat i =? cnt - 1 then 2 else 0).

Definition frag_hdr (sq L : Z) (i : nat) : can_bus_frag_hdr_t :=
  {| hdr_magic := 0x5344; hdr_seq := sq; hdr_frag_idx := Z.of_nat i;
     hdr_frag_cnt := frag_count L; hdr_flags := frag_flags (frag_count L) i;
     hdr_total_len := L |}.

(** The 64 bytes of fragment [i] on the wire: header, chunk, zero padding. *)
Definition frag_frame (sq L : Z) (bs : list byte) (i : nat) : list byte :=
  hdr_bytes (frag_hdr sq L i) ++ frag_chunk bs i
    ++ zeros (56 - length (frag_chunk bs i)).

Definition frag_call (std_id sq L : Z) (bs : list byte) (i : nat) : tx_call :=
  {| tx_header := fd_tx_header std_id FDCAN_DLC_BYTES_64;
     tx_data := frag_frame sq L bs i |}.

(** A driver that accepts every frame. *)
Definition drv_ok : hal_driver := fun _ _ => HAL_OK.

(** A driver whose TX FIFO is full from the [n]-th call on. *)
Definition drv_full_after (n : nat) : hal_driver :=
  fun log _ => if (length log <? n)%nat then HAL_OK else HAL_ERROR.

Definition tx_ready : can_bus_tx :=
  {| g_hfdcan := true; g_seq := 0; tx_log := [] |}.

(** A test buffer [00 01 02 ...] of [n] bytes. *)
Definition counting_bytes (n : nat) : list byte :=
  map (fun k => byte_of_Z (Z.of_nat k)) (seq 0 n).

(** ** Specification vocabulary for reassembly *)

Definition collecting (L : Z) (bs : list byte) (S : list nat)
    (s : can_bus_reasm_slot_t) : Prop :=
  s_frag_cnt s = frag_count L
  /\ s_total_len s = L
  /\ s_data_cap s = 56
  /\ (exists m, s_got_mask s = [m]
                /\ forall i : nat, Z.testbit m (Z.of_nat i) = true <-> In i S)
  /\ s_got_count s = Z.of_nat (length S)
  /\ length (s_buf s) = Z.to_nat CAN_BUS_REASM_MAX_BYTES
  /\ (forall i j : nat, In i S -> (56 * i <= j < 56 * i + 56)%nat ->
                        Z.of_nat j < L -> s_buf s !! j = bs !! j).

Definition reasm_wf (g : list can_bus_reasm_slot_t) : Prop :=
  length g = CAN_BUS_REASM_SLOTS
  /\ Forall (fun s => length (s_buf s) = Z.to_nat CAN_BUS_REASM_MAX_BYTES) g.

(** No reassembly is in progress for the CAN id. *)
Definition reasm_idle_for (id : Z) (g : list can_bus_reasm_slot_t) : Prop :=
  Forall (fun s => ~ slot_is_for id s) g.

(** Exactly one slot is active for the id; it holds the fragments [S] of
    the message [bs] with sequence number [sq]. *)
Definition reasm_collecting (id sq L : Z) (bs : list byte) (S : list nat)
    (g : list can_bus_reasm_slot_t) : Prop :=
  exists k s,
    g !! k = Some s /\ slot_is_for id s /\ s_seq s = sq
    /\ collecting L bs S s
    /\ forall j s', j <> k -> g !! j = Some s' -> ~ slot_is_for id s'.

Definition reasm_state (id sq L : Z) (bs : list byte) (S : list nat)
    (g : list can_bus_reasm_slot_t) : Prop :=
  reasm_wf g
  /\ match S with
     | [] => reasm_idle_for id g
     | _ :: _ => reasm_collecting id sq L bs S g
     end.

(** Fragment [i] of the message as the receiving thread pops it. *)
Definition rx_frag (std_id sq L : Z) (bs : list byte) (i : nat)
  : can_bus_rx_frame_t :=
  wire_frame (frag_call std_id sq L bs i).

(** ** Specification vocabulary for the staleness sweep *)

Definition slot_fresh (now : Z) (s : can_bus_reasm_slot_t) : Prop :=
  s_active s = true -> slot_age now s <= CAN_BUS_REASM_TIMEOUT_MS.

(** No active slot is older than the timeout. *)
Definition slots_fresh (now : Z) (g : list can_bus_reasm_slot_t) : Prop :=
  Forall (slot_fresh now) g.

(** The specification's wording of the worker: the sweep runs before each
    frame is processed. *)
Fixpoint process_rx_sweep_each (fuel : nat) (now : Z) (st : can_bus_rx)
    (evs : list rx_event) : option (can_bus_rx * list rx_event) :=
  match fuel with
  | O => None
  | S fuel' =>
      match rb_pop (rx_ringbuf st) with
      | (Some f, r') =>
          let g := reasm_expire_old now (g_reasm st) in
          let res := handle_rx_frame (g_subs st) f now g in
          process_rx_sweep_each fuel' now
            {| rx_ringbuf := r'; g_reasm := res_reasm res;
               g_subs := g_subs st |}
            (evs ++ res_events res)
      | (None, r') =>
          Some ({| rx_ringbuf := r'; g_reasm := g_reasm st;
                   g_subs := g_subs st |}, evs)
      end
  end.

Definition can_bus_process_rx_sweep_each (now : Z) (st : can_bus_rx)
  : option (can_bus_rx * list rx_event) :=
  let st := {| rx_ringbuf := rx_ringbuf st;
               g_reasm := reasm_expire_old now (g_reasm st);
               g_subs := g_subs st |} in
  process_rx_sweep_each (S (Z.to_nat CAN_BUS_RX_RING_DEPTH)) now st [].

Definition with_reasm (g : list can_bus_reasm_slot_t) (st : can_bus_rx)
  : can_bus_rx :=
  {| rx_ringbuf := rx_ringbuf st; g_reasm := g; g_subs := g_subs st |}.

(** What the ISR does with one received frame. *)
Definition isr_receive (c : tx_call) (st : can_bus_rx) : can_bus_rx :=
  {| rx_ringbuf :=
       HAL_FDCAN_RxFifo1Callback_one (Identifier (tx_header c))
         (DataLength (tx_header c)) (tx_data c) (rx_ringbuf st);
     g_reasm := g_reasm st; g_subs := g_subs st |}.

Definition rx_idle : can_bus_rx :=
  {| rx_ringbuf := rb_init; g_reasm := reasm_init; g_subs := one_subscriber |}.

(** A 100-byte message, two fragments, sent with id 3 and sequence 0. *)
Definition stale_msg : list byte := counting_bytes 100.

(** Fragment 0 arrives and the worker runs at tick [t0]; then fragment 1
    arrives.  The state with fragment 1 still in the ring. *)
Definition stale_pending (t0 : Z) : can_bus_rx :=
  match can_bus_process_rx t0 (isr_receive (frag_call 3 0 100 stale_msg 0) rx_idle) with
  | Some (st1, _) => isr_receive (frag_call 3 0 100 stale_msg 1) st1
  | None => rx_idle
  end.

(** The callbacks of the worker call at tick [t1] that follows. *)
Definition two_call_scenario (t0 t1 : Z) : option (list rx_event) :=
  match can_bus_process_rx t1 (stale_pending t0) with
  | Some (_, evs) => Some evs
  | None => None
  end.

(** An unfinished message (only fragment 0, sequence 0) followed by both
    fragments of the next message of the same id (sequence 1). *)
Definition seq_change_scenario : list (can_bus_rx_frame_t * Z) :=
  [ (rx_frag 3 0 100 stale_msg 0, 10);
    (rx_frag 3 1 100 stale_msg 0, 20);
    (rx_frag 3 1 100 stale_msg 1, 30) ].

(** A fragment frame whose header says [frag_cnt = 0]. *)
Definition bad_header_frame : can_bus_rx_frame_t :=
  {| rx_std_id := 3; rx_len := 64;
     rx_data := hdr_bytes {| hdr_magic := 0x5344; hdr_seq := 0;
                             hdr_frag_idx := 0; hdr_frag_cnt := 0;
                             hdr_flags := 0; hdr_total_len := 10 |}
                ++ zeros 56 |}.

(** ** Subscriber registry *)

Definition sub_is (cb : nat) (user : Z) (s : can_bus_sub_t) : Prop :=
  sub_cb s = Some cb /\ sub_user s = user.

Definition sub_is_null (s : can_bus_sub_t) : Prop := sub_cb s = None.

(** The static table [g_subs], zeroed. *)
Definition subs_init : list can_bus_sub_t :=
  replicate CAN_BUS_MAX_SUBSCRIBERS {| sub_cb := None; sub_user := 0 |}.

(** [cb] is [None] for a NULL callback; the NULL [user] pointer is 0. *)
Definition can_bus_subscribe_rx (cb : option nat) (user : Z)
    (subs : list can_bus_sub_t) : HAL_StatusTypeDef * list can_bus_sub_t :=
  match cb with
  | None => (HAL_ERROR, subs)
  | Some c =>
      match list_find (sub_is c user) (take CAN_BUS_MAX_SUBSCRIBERS subs) with
      | Some _ => (HAL_ERROR, subs)
      | None =>
          match list_find sub_is_null (take CAN_BUS_MAX_SUBSCRIBERS subs) with
          | Some (i, _) =>
              (HAL_OK, <[i := {| sub_cb := Some c; sub_user := user |}]> subs)
          | None => (HAL_ERROR, subs)
          end
      end
  end.

Definition can_bus_unsubscribe_rx (cb : option nat) (user : Z)
    (subs : list can_bus_sub_t) : HAL_StatusTypeDef * list can_bus_sub_t :=
  match cb with
  | None => (HAL_ERROR, subs)
  | Some c =>
      match list_find (sub_is c user) (take CAN_BUS_MAX_SUBSCRIBERS subs) with
      | Some (i, _) =>
          (HAL_OK, <[i := {| sub_cb := None; sub_user := 0 |}]> subs)
      | None => (HAL_ERROR, subs)
      end
  end.

(** The callback a table entry stands for, if any. *)
Definition sub_entry (s : can_bus_sub_t) : option (nat * Z) :=
  match sub_cb s with
  | Some cb => Some (cb, sub_user s)
  | None => None
  end.

(** Calls of the registry API, as a client issues them. *)
Inductive sub_op :=
| OpSubscribe (cb : option nat) (user : Z)
| OpUnsubscribe (cb : option nat) (user : Z).

Definition sub_step (subs : list can_bus_sub_t) (op : sub_op)
  : list can_bus_sub_t :=
  match op with
  | OpSubscribe cb user => snd (can_bus_subscribe_rx cb user subs)
  | OpUnsubscribe cb user => snd (can_bus_unsubscribe_rx cb user subs)
  end.

Definition sub_run (ops : list sub_op) (subs : list can_bus_sub_t)
  : list can_bus_sub_t :=
  fold_left sub_step ops subs.

(** ** [can_bus_init]

    [hfdcan] tells whether the handle passed in is non-NULL.  The two HAL
    calls act on the peripheral only and their results are discarded. *)
Definition can_bus_init (hfdcan : bool) (rx : can_bus_rx) (tx : can_bus_tx)
  : can_bus_rx * can_bus_tx :=
  ({| rx_ringbuf := {| g_rx_head := 0; g_rx_tail := 0;
                       g_rx_ring := g_rx_ring (rx_ringbuf rx) |};
      g_reasm := fold_left (fun g i => alter reasm_reset i g)
                   (seq 0 CAN_BUS_REASM_SLOTS) (g_reasm rx);
      g_subs := g_subs rx |},
   {| g_hfdcan := hfdcan; g_seq := g_seq tx; tx_log := tx_log tx |}).

(** ** [HAL_FDCAN_RxFifo1Callback]

    The fields of [FDCAN_RxHeaderTypeDef] the ISR reads. *)
Record FDCAN_RxHeaderTypeDef := mk_rx_header {
  rxh_Identifier : Z;
  rxh_DataLength : Z
}.

(** One [HAL_FDCAN_GetRxMessage] call made while the fill level is above
    zero: its status and, on [HAL_OK], the header and the 64-byte local
    buffer [data] as the call leaves them. *)
Record rx_fifo_read := mk_fifo_read {
  rd_status : HAL_StatusTypeDef;
  rd_hdr : FDCAN_RxHeaderTypeDef;
  rd_data : list byte
}.

(** The [while] loop; [fifo] lists the reads until the fill level is zero. *)
Fixpoint isr_drain_fifo (fifo : list rx_fifo_read) (r : rx_ring) : rx_ring :=
  match fifo with
  | [] => r
  | rd :: fifo' =>
      if negb (HAL_status_eqb (rd_status rd) HAL_OK) then r
      else
        isr_drain_fifo fifo'
          (HAL_FDCAN_RxFifo1Callback_one (rxh_Identifier (rd_hdr rd))
             (rxh_DataLength (rd_hdr rd)) (rd_data rd) r)
  end.

(** [new_message] is the HAL's [FDCAN_IT_RX_FIFO1_NEW_MESSAGE] bit. *)
Definition HAL_FDCAN_RxFifo1Callback (new_message RxFifo1ITs : Z)
    (fifo : list rx_fifo_read) (r : rx_ring) : rx_ring :=
  if Z.land RxFifo1ITs new_message =? 0 then r else isr_drain_fifo fifo r.

(** ** Vocabulary for the interrupt, the registry and the invariants *)

(** The reads of the ISR up to the first failing one. *)
Fixpoint reads_before_error (fifo : list rx_fifo_read) : list rx_fifo_read :=
  match fifo with
  | [] => []
  | rd :: fifo' =>
      if HAL_status_eqb (rd_status rd) HAL_OK
      then rd :: reads_before_error fifo' else []
  end.

(** The push the ISR makes for one read. *)
Definition isr_push (rd : rx_fifo_read) : rb_push_args :=
  {| push_std_id := isr_std_id (rxh_Identifier (rd_hdr rd));
     push_data := rd_data rd;
     push_len := isr_len (rxh_DataLength (rd_hdr rd)) |}.

(** A read that returns a transmitted frame unchanged. *)
Definition read_of_call (c : tx_call) : rx_fifo_read :=
  {| rd_status := HAL_OK;
     rd_hdr := {| rxh_Identifier := Identifier (tx_header c);
                  rxh_DataLength := DataLength (tx_header c) |};
     rd_data := tx_data c |}.

(** The fragment indices below [n] that a slot has marked. *)
Definition marked (s : can_bus_reasm_slot_t) (n : nat) : list nat :=
  List.filter (fun i => bit_test (s_got_mask s) (Z.of_nat i)) (seq 0 n).

(** All fragments of the slot's message are marked. *)
Definition slot_complete (s : can_bus_reasm_slot_t) : Prop :=
  forall i, 0 <= i < s_frag_cnt s -> bit_test (s_got_mask s) i = true.

(** Bookkeeping of a slot that holds message parameters: the parameters
    are within the limits of the header check, the counter is the number of
    marked fragments, and at least one fragment is missing. *)
Definition slot_counts (s : can_bus_reasm_slot_t) : Prop :=
  s_frag_cnt s <> 0 ->
  1 <= s_frag_cnt s <= CAN_BUS_REASM_MAX_FRAGS
  /\ 1 <= s_total_len s <= CAN_BUS_REASM_MAX_BYTES
  /\ length (s_got_mask s) = GOT_MASK_WORDS
  /\ s_got_count s = Z.of_nat (length (marked s (Z.to_nat (s_frag_cnt s))))
  /\ s_got_count s < s_frag_cnt s.

Definition slot_ok (s : can_bus_reasm_slot_t) : Prop :=
  length (s_buf s) = Z.to_nat CAN_BUS_REASM_MAX_BYTES /\ slot_counts s.

(** The table invariant of the receive path. *)
Definition reasm_inv (g : list can_bus_reasm_slot_t) : Prop :=
  length g = CAN_BUS_REASM_SLOTS /\ Forall slot_ok g.

(** The distinct fragment indices among those received, newest first. *)
Definition seen_add (S : list nat) (i : nat) : list nat :=
  if in_dec Nat.eq_dec i S then S else i :: S.

Definition seen (S : list nat) (idxs : list nat) : list nat :=
  fold_left seen_add idxs S.

(** A frame as the ring hands it over: at most 64 bytes, all present. *)
Definition frame_ok (f : can_bus_rx_frame_t) : Prop :=
  0 <= rx_len f <= 64 /\ (Z.to_nat (rx_len f) <= length (rx_data f))%nat.

(** What a callback may rely on: the length is at most the reassembly
    limit and the buffer holds that many bytes. *)
Definition event_ok (e : rx_event) : Prop :=
  0 <= ev_len e <= CAN_BUS_REASM_MAX_BYTES
  /\ Z.of_nat (length (ev_data e)) = ev_len e.

(** The two contexts that drive the receive side: the interrupt, with the
    flags it is entered with and the reads it makes, and a worker call at a
    tick.  [new_message] is the HAL's new-message bit. *)
Inductive rx_op :=
| RxIsr (its : Z) (fifo : list rx_fifo_read)
| RxWorker (now : Z).

Definition rx_step (new_message : Z) (st : can_bus_rx * list rx_event)
    (op : rx_op) : can_bus_rx * list rx_event :=
  match op with
  | RxIsr its fifo =>
      ({| rx_ringbuf := HAL_FDCAN_RxFifo1Callback new_message its fifo
                          (rx_ringbuf (fst st));
          g_reasm := g_reasm (fst st); g_subs := g_subs (fst st) |}, snd st)
  | RxWorker now =>
      match can_bus_process_rx now (fst st) with
      | Some (st', evs) => (st', snd st ++ evs)
      | None => st
      end
  end.

(** The module after start-up with the subscriber table [subs], run through
    [ops]; the callbacks made are collected in order. *)
Definition rx_run (new_message : Z) (subs : list can_bus_sub_t)
    (ops : list rx_op) : can_bus_rx * list rx_event :=
  fold_left (rx_step new_message) ops
    ({| rx_ringbuf := rb_init; g_reasm := reasm_init; g_subs := subs |}, []).

(** The ISR's local buffer has 64 bytes. *)
Definition rx_op_ok (op : rx_op) : Prop :=
  match op with
  | RxIsr _ fifo => Forall (fun rd => (64 <= length (rd_data rd))%nat) fifo
  | RxWorker _ => True
  end.

(** True delay and clock difference of a time-sync exchange: the request
    takes [d1] ms, the master answers after [p] ms, the reply takes [d2] ms,
    and the master's clock is [theta] ms ahead. *)
Definition exchange (t1 d1 p d2 theta : Z) : Z * Z * Z * Z :=
  let t2 := t1 + d1 + theta in
  let t3 := t2 + p in
  let t4 := t3 - theta + d2 in
  (t1, t2, t3, t4).

(** The tick count since boot that the extender stands for. *)
Definition ext_ticks (e : tick_extender) : Z := high e + last_ticks32 e.

Definition ext_wf (e : tick_extender) : Prop :=
  0 <= last_ticks32 e < 2 ^ 32
  /\ 0 <= high e /\ high e mod 2 ^ 32 = 0 /\ high e + 2 ^ 32 < 2 ^ 64.

(** ** A message that follows an unfinished one *)

(** The message that follows [stale_msg] on the same id: 100 other bytes. *)
Definition next_msg : list byte := rev (counting_bytes 100).

(** Two messages sent back to back with id 3, from a fresh sender whose
    driver accepts every frame: the frames of the first and of the second
    call, and the status of the second call. *)
Definition back_to_back
  : option (list tx_call * list tx_call * HAL_StatusTypeDef) :=
  match can_bus_send_large drv_ok (Some stale_msg) 100 3 tx_ready with
  | Some (_, st1) =>
      match can_bus_send_large drv_ok (Some next_msg) 100 3 st1 with
      | Some (status, st2) =>
          Some (tx_log st1, drop (length (tx_log st1)) (tx_log st2), status)
      | None => None
      end
  | None => None
  end.

(** The table of a receiver that got the first frame of the first message
    and then nothing more of it: the second frame was lost on the way. *)
Definition reasm_after_lost_frame (first : list tx_call)
  : list can_bus_reasm_slot_t :=
  fst (handle_rx_frames one_subscriber
         (map (fun c => (wire_frame c, 10)) (take 1 first)) reasm_init).

(** The same through the interrupt and the worker: the first frame of the
    first message is queued and handled at tick 10, then the frames [cs]
    are queued and the worker runs at tick 20.  The callbacks of the second
    worker call. *)
Definition worker_after_lost_frame (first cs : list tx_call)
  : option (list rx_event) :=
  match can_bus_process_rx 10 (fold_right isr_receive rx_idle (take 1 first)) with
  | Some (rx1, _) =>
      match can_bus_process_rx 20 (fold_right isr_receive rx1 (rev cs)) with
      | Some (_, evs) => Some evs
      | None => None
      end
  | None => None
  end.

(** * Verification *)

(** ** Bytes and machine integers *)

Lemma Z_of_byte_range (b : byte) : 0 <= Z_of_byte b < 256.
Proof. unfold Z_of_byte. pose proof (Byte.to_N_bounded b). lia. Qed.

Lemma Z_of_byte_of_Z (z : Z) : Z_of_byte (byte_of_Z z) = z mod 256.
Proof.
  unfold Z_of_byte, byte_of_Z.
  pose proof (Z.mod_pos_bound z 256 ltac:(lia)) as Hb.
  destruct (Byte.of_N (Z.to_N (z mod 256))) eqn:E.
  - apply Byte.to_of_N in E. rewrite E. lia.
  - apply Byte.of_N_None_iff in E. lia.
Qed.

Lemma byte_of_Z_of_byte (b : byte) : byte_of_Z (Z_of_byte b) = b.
Proof.
  unfold Z_of_byte, byte_of_Z. pose proof (Byte.to_N_bounded b).
  rewrite Z.mod_small by lia. rewrite N2Z.id, Byte.of_to_N. reflexivity.
Qed.

Lemma u8_small (z : Z) : 0 <= z < 256 -> u8 z = z.
Proof. intros. unfold u8. apply Z.mod_small. lia. Qed.

Lemma u16_small (z : Z) : 0 <= z < 65536 -> u16 z = z.
Proof. intros. unfold u16. apply Z.mod_small. lia. Qed.

Lemma u32_small (z : Z) : 0 <= z < 2 ^ 32 -> u32 z = z.
Proof. intros. unfold u32. apply Z.mod_small. lia. Qed.

Lemma u64_small (z : Z) : 0 <= z < 2 ^ 64 -> u64 z = z.
Proof. intros. unfold u64. apply Z.mod_small. lia. Qed.

Lemma s64_small (z : Z) : - 2 ^ 63 <= z < 2 ^ 63 -> s64 z = z.
Proof. intros. unfold s64. rewrite Z.mod_small; lia. Qed.

Lemma s64_range (z : Z) : - 2 ^ 63 <= s64 z < 2 ^ 63.
Proof.
  unfold s64. pose proof (Z.mod_pos_bound (z + 2 ^ 63) (2 ^ 64) ltac:(lia)).
  lia.
Qed.

(** Reinterpreting the unsigned difference as [int64_t] gives the exact
    difference whenever that fits. *)
Lemma s64_u64_sub (a b : Z) :
  - 2 ^ 63 <= a - b < 2 ^ 63 -> s64 (u64 (a - b)) = a - b.
Proof.
  intros H. unfold s64, u64.
  rewrite Zplus_mod_idemp_l. rewrite Z.mod_small; lia.
Qed.

Lemma s64_u64 (z : Z) : s64 (u64 z) = s64 z.
Proof. unfold s64, u64. rewrite Zplus_mod_idemp_l. reflexivity. Qed.

(** ** DLC codec *)

Lemma len_to_dlc_off_table (L : Z) :
  ~ In L dlc_len_map -> can_bus_len_to_dlc L = DLC_INVALID.
Proof.
  intros H. unfold can_bus_len_to_dlc.
  destruct L as [|p|p]; try reflexivity.
  - exfalso. apply H. simpl. auto.
  - do 7 (try (destruct p as [p|p|]; try reflexivity));
      exfalso; apply H; simpl; tauto.
Qed.

Lemma dlc_len_on_table (L : Z) :
  In L dlc_len_map -> can_bus_dlc_to_len (can_bus_len_to_dlc L) = L.
Proof.
  simpl. intros H.
  repeat (destruct H as [<- | H]; [reflexivity |]). destruct H.
Qed.

Lemma dlc_to_len_in_table (d : Z) : In (can_bus_dlc_to_len d) dlc_len_map.
Proof.
  unfold can_bus_dlc_to_len.
  assert (Hr : 0 <= Z.land d 0xF < 16).
  { change 0xF with (Z.ones 4). rewrite Z.land_ones by lia.
    apply Z.mod_pos_bound. lia. }
  apply nth_In. simpl. lia.
Qed.

Lemma dlc_table_le_64 (L : Z) : In L dlc_len_map -> 0 <= L <= 64.
Proof.
  simpl. intros H.
  repeat (destruct H as [<- | H]; [lia |]). destruct H.
Qed.

(** C8, counterexample: for the length 65 the rejection code of
    [can_bus_len_to_dlc] decodes to 64, which is below the length. *)
Lemma dlc_roundtrip_fails_above_64 :
  ~ (can_bus_dlc_to_len (can_bus_len_to_dlc 65) >= 65).
Proof. vm_compute. intros H. apply H. reflexivity. Qed.

(** C8, as the code has it: [len_to_dlc (dlc_to_len d) = d] for every DLC code
    [d] in 0..15; [dlc_to_len (len_to_dlc L) >= L] for every length up to
    64, while every longer length gives 64; and the round trip returns [L]
    exactly when [L] is one of the 16 table lengths. *)
Theorem dlc_codec_roundtrip (d L : Z) (Hd : 0 <= d <= 15) (HL : 0 <= L) :
  can_bus_len_to_dlc (can_bus_dlc_to_len d) = d
  /\ (L <= 64 -> can_bus_dlc_to_len (can_bus_len_to_dlc L) >= L)
  /\ (64 < L -> can_bus_dlc_to_len (can_bus_len_to_dlc L) = 64)
  /\ (can_bus_dlc_to_len (can_bus_len_to_dlc L) = L <-> In L dlc_len_map).
Proof.
  split; [| split; [| split]].
  - assert (Hc : d = 0 \/ d = 1 \/ d = 2 \/ d = 3 \/ d = 4 \/ d = 5 \/ d = 6
                 \/ d = 7 \/ d = 8 \/ d = 9 \/ d = 10 \/ d = 11 \/ d = 12
                 \/ d = 13 \/ d = 14 \/ d = 15) by lia.
    repeat (destruct Hc as [-> | Hc]; [reflexivity |]). subst d. reflexivity.
  - intros Hle. destruct (in_dec Z.eq_dec L dlc_len_map) as [Hin | Hout].
    + rewrite dlc_len_on_table by assumption. lia.
    + rewrite len_to_dlc_off_table by assumption.
      change (can_bus_dlc_to_len DLC_INVALID) with 64. lia.
  - intros Hgt. rewrite len_to_dlc_off_table.
    + reflexivity.
    + intros Hin. apply dlc_table_le_64 in Hin. lia.
  - split.
    + intros Heq. rewrite <- Heq. apply dlc_to_len_in_table.
    + apply dlc_len_on_table.
Qed.

Lemma dlc_codec_roundtrip_witness :
  can_bus_len_to_dlc (can_bus_dlc_to_len 9) = 9
  /\ (12 <= 64 -> can_bus_dlc_to_len (can_bus_len_to_dlc 12) >= 12)
  /\ (64 < 12 -> can_bus_dlc_to_len (can_bus_len_to_dlc 12) = 64)
  /\ (can_bus_dlc_to_len (can_bus_len_to_dlc 12) = 12 <-> In 12 dlc_len_map).
Proof. apply (dlc_codec_roundtrip 9 12); lia. Defined.

(** ** RX ring: the ring as a bounded queue *)

Lemma rb_next_spec (v : Z) :
  0 <= v < CAN_BUS_RX_RING_DEPTH ->
  rb_next v = (v + 1) mod CAN_BUS_RX_RING_DEPTH
  /\ 0 <= rb_next v < CAN_BUS_RX_RING_DEPTH.
Proof.
  unfold rb_next, CAN_BUS_RX_RING_DEPTH. intros Hv.
  rewrite u16_small by lia.
  destruct (Z.geb_spec (v + 1) 64) as [Hge | Hlt].
  - assert (v = 63) as -> by lia. split; [reflexivity | lia].
  - rewrite Z.mod_small by lia. lia.
Qed.

Lemma rb_count_range (r : rx_ring) : 0 <= rb_count r <= 63.
Proof.
  unfold rb_count, CAN_BUS_RX_RING_DEPTH.
  pose proof (Z.mod_pos_bound (g_rx_head r - g_rx_tail r) 64 ltac:(lia)). lia.
Qed.

Lemma rb_contents_length (r : rx_ring) :
  Z.of_nat (length (rb_contents r)) = rb_count r.
Proof.
  unfold rb_contents. rewrite length_map, length_seq.
  pose proof (rb_count_range r). lia.
Qed.

Lemma rb_init_wf : rb_wf rb_init.
Proof. unfold rb_wf, rb_init, CAN_BUS_RX_RING_DEPTH. simpl. split; [reflexivity | lia]. Qed.

Lemma rb_full_iff (r : rx_ring) :
  rb_wf r -> (rb_is_full r = true <-> rb_count r = 63).
Proof.
  intros (_ & Hh & Ht). unfold rb_is_full, rb_count.
  destruct (rb_next_spec _ Hh) as [-> _].
  unfold CAN_BUS_RX_RING_DEPTH in *. rewrite Z.eqb_eq.
  Z.div_mod_to_equations. lia.
Qed.

Lemma rb_empty_iff (r : rx_ring) :
  rb_wf r -> (g_rx_head r = g_rx_tail r <-> rb_count r = 0).
Proof.
  intros (_ & Hh & Ht). unfold rb_count, CAN_BUS_RX_RING_DEPTH in *.
  Z.div_mod_to_equations. lia.
Qed.

(** A pop on a non-empty ring removes the head of the queue. *)
Lemma rb_pop_nonempty (r : rx_ring) :
  rb_wf r -> g_rx_head r <> g_rx_tail r ->
  exists f r', rb_pop r = (Some f, r') /\ rb_wf r'
               /\ rb_contents r = f :: rb_contents r'
               /\ rb_count r' = rb_count r - 1.
Proof.
  intros Hwf Hne. destruct Hwf as (Hlen & Hh & Ht).
  unfold rb_pop. destruct (Z.eqb_spec (g_rx_head r) (g_rx_tail r)) as [? | _];
    [contradiction |].
  eexists _, _. split; [reflexivity |].
  destruct (rb_next_spec _ Ht) as [Hn Hnr].
  assert (Hc : (g_rx_head r - rb_next (g_rx_tail r)) mod CAN_BUS_RX_RING_DEPTH
               = rb_count r - 1).
  { rewrite Hn. unfold rb_count, CAN_BUS_RX_RING_DEPTH in *.
    Z.div_mod_to_equations. lia. }
  split; [| split].
  - unfold rb_wf. simpl. auto.
  - unfold rb_contents at 1 2. unfold rb_count at 2. simpl g_rx_head.
    simpl g_rx_tail. rewrite Hc.
    pose proof (rb_count_range r) as Hr.
    assert (Hpos : 1 <= rb_count r).
    { unfold rb_count, CAN_BUS_RX_RING_DEPTH in *.
      Z.div_mod_to_equations. lia. }
    replace (Z.to_nat (rb_count r)) with (S (Z.to_nat (rb_count r - 1))) by lia.
    simpl seq. simpl map. f_equal.
    + f_equal. rewrite Z.add_0_r. apply Z.mod_small. exact Ht.
    + rewrite <- seq_shift, map_map. apply map_ext. intros k.
      unfold rb_slot. simpl g_rx_ring. do 3 f_equal.
      rewrite Hn. unfold CAN_BUS_RX_RING_DEPTH.
      rewrite Zplus_mod_idemp_l. f_equal. lia.
  - unfold rb_count at 1. simpl. exact Hc.
Qed.

Lemma rb_pop_empty (r : rx_ring) :
  g_rx_head r = g_rx_tail r -> rb_pop r = (None, r).
Proof. intros H. unfold rb_pop. rewrite H, Z.eqb_refl. reflexivity. Qed.

Lemma rb_pop_wf (r : rx_ring) : rb_wf r -> rb_wf (snd (rb_pop r)).
Proof.
  intros Hwf. destruct (Z.eq_dec (g_rx_head r) (g_rx_tail r)) as [He | Hne].
  - rewrite rb_pop_empty by assumption. exact Hwf.
  - destruct (rb_pop_nonempty r Hwf Hne) as (f & r' & -> & Hwf' & _).
    exact Hwf'.
Qed.

Lemma rb_push_not_full (p : rb_push_args) (r : rx_ring) :
  rb_wf r -> rb_is_full r = false ->
  rb_wf (rb_push p r)
  /\ rb_contents (rb_push p r) = rb_contents r ++ [rb_stored p r]
  /\ rb_count (rb_push p r) = rb_count r + 1
  /\ g_rx_tail (rb_push p r) = g_rx_tail r.
Proof.
  intros Hwf Hnf.
  assert (Hc63 : rb_count r <> 63).
  { intros Hc. apply rb_full_iff in Hc; [congruence | exact Hwf]. }
  pose proof (rb_count_range r) as Hr.
  destruct Hwf as (Hlen & Hh & Ht).
  destruct (rb_next_spec _ Hh) as [Hn Hnr].
  unfold rb_push, rb_push_drop_oldest. rewrite Hnf.
  assert (Hc : (rb_next (g_rx_head r) - g_rx_tail r) mod CAN_BUS_RX_RING_DEPTH
               = rb_count r + 1).
  { rewrite Hn. unfold rb_count, CAN_BUS_RX_RING_DEPTH in *.
    Z.div_mod_to_equations. lia. }
  split; [| split; [| split]].
  - unfold rb_wf. simpl. rewrite length_insert. auto.
  - unfold rb_contents at 1. unfold rb_count at 1. simpl g_rx_head.
    simpl g_rx_tail. rewrite Hc.
    replace (Z.to_nat (rb_count r + 1)) with (Z.to_nat (rb_count r) + 1)%nat
      by lia.
    rewrite seq_app, map_app. simpl seq. simpl map. f_equal.
    + unfold rb_contents. apply map_ext_in. intros k Hk.
      apply in_seq in Hk. unfold rb_slot. simpl g_rx_ring.
      rewrite list_lookup_insert_ne; [reflexivity |].
      unfold rb_count, CAN_BUS_RX_RING_DEPTH in *.
      Z.div_mod_to_equations. lia.
    + f_equal. unfold rb_slot at 1. simpl g_rx_ring.
      replace ((g_rx_tail r + Z.of_nat (Z.to_nat (rb_count r)))
                 mod CAN_BUS_RX_RING_DEPTH) with (g_rx_head r).
      * rewrite list_lookup_insert_eq
          by (unfold CAN_BUS_RX_RING_DEPTH in *; lia).
        reflexivity.
      * unfold rb_count, CAN_BUS_RX_RING_DEPTH in *.
        Z.div_mod_to_equations. lia.
  - unfold rb_count at 1. simpl. exact Hc.
  - reflexivity.
Qed.

(** On a full ring the push behaves as a pop whose frame is discarded,
    followed by a push on the ring that is then no longer full. *)
Lemma rb_push_full (p : rb_push_args) (r : rx_ring) :
  rb_wf r -> rb_is_full r = true ->
  rb_push p r = rb_push p (snd (rb_pop r))
  /\ rb_is_full (snd (rb_pop r)) = false
  /\ g_rx_head r <> g_rx_tail r
  /\ g_rx_tail (rb_push p r) = rb_next (g_rx_tail r).
Proof.
  intros Hwf Hf.
  assert (Hc : rb_count r = 63) by (apply rb_full_iff; assumption).
  assert (Hne : g_rx_head r <> g_rx_tail r).
  { intros He. apply rb_empty_iff in He; [lia | exact Hwf]. }
  destruct (rb_pop_nonempty r Hwf Hne) as (f & r' & Hpop & Hwf' & _ & Hc').
  assert (Hnf : rb_is_full (snd (rb_pop r)) = false).
  { rewrite Hpop. simpl. destruct (rb_is_full r') eqn:E; [| reflexivity].
    apply rb_full_iff in E; [lia | exact Hwf']. }
  split; [| split; [| split]]; try assumption.
  - unfold rb_push, rb_push_drop_oldest at 2. rewrite Hnf.
    unfold rb_push_drop_oldest. rewrite Hf.
    unfold rb_pop. destruct (Z.eqb_spec (g_rx_head r) (g_rx_tail r));
      [contradiction |]. reflexivity.
  - unfold rb_push, rb_push_drop_oldest. rewrite Hf. reflexivity.
Qed.

Lemma rb_stored_after_pop (p : rb_push_args) (r : rx_ring) :
  rb_stored p (snd (rb_pop r)) = rb_stored p r.
Proof.
  unfold rb_stored, rb_pop.
  destruct (g_rx_head r =? g_rx_tail r); reflexivity.
Qed.

(** Drop-oldest as a queue operation. *)
Lemma rb_push_contents (p : rb_push_args) (r : rx_ring) :
  rb_wf r ->
  rb_wf (rb_push p r)
  /\ rb_contents (rb_push p r)
     = (if rb_is_full r then drop 1 (rb_contents r) else rb_contents r)
       ++ [rb_stored p r].
Proof.
  intros Hwf. destruct (rb_is_full r) eqn:Hf.
  - destruct (rb_push_full p r Hwf Hf) as (Heq & Hnf & Hne & _).
    destruct (rb_pop_nonempty r Hwf Hne) as (f & r' & Hpop & Hwf' & Hcont & _).
    rewrite Heq. rewrite Hpop in *. simpl in *.
    destruct (rb_push_not_full p r' Hwf' Hnf) as (Hwf2 & Hc2 & _).
    split; [exact Hwf2 |]. rewrite Hc2, Hcont. simpl. rewrite drop_0.
    do 2 f_equal. pose proof (rb_stored_after_pop p r) as Hs.
    rewrite Hpop in Hs. exact Hs.
  - destruct (rb_push_not_full p r Hwf Hf) as (Hwf2 & Hc2 & _). auto.
Qed.

Lemma rb_stored_view (p : rb_push_args) (r : rx_ring) :
  push_ok p -> frame_view (rb_stored p r) = push_view p.
Proof.
  intros [Hl Hd]. unfold frame_view, push_view, rb_stored. simpl.
  f_equal. unfold memcpy, memcpy_at. simpl.
  rewrite take_app_le by (rewrite length_take; lia).
  rewrite take_take. f_equal. lia.
Qed.

Lemma lastn_short {A : Type} (n : nat) (l : list A) :
  (length l <= n)%nat -> lastn n l = l.
Proof.
  intros H. unfold lastn. replace (length l - n)%nat with 0%nat by lia.
  apply drop_0.
Qed.

Lemma lastn_length {A : Type} (n : nat) (l : list A) :
  length (lastn n l) = Nat.min n (length l).
Proof. unfold lastn. rewrite length_drop. lia. Qed.

Lemma lastn_app_lastn {A : Type} (n : nat) (l k : list A) :
  lastn n (lastn n l ++ k) = lastn n (l ++ k).
Proof.
  destruct (Nat.le_gt_cases (length l) n) as [Hle | Hgt].
  - rewrite (lastn_short n l) by assumption. reflexivity.
  - unfold lastn. rewrite !length_app, length_drop.
    replace (length l - (length l - n) + length k - n)%nat
      with (length k) by lia.
    replace (length l + length k - n)%nat
      with ((length l - n) + length k)%nat by lia.
    rewrite <- drop_drop. f_equal.
    rewrite drop_app_le by lia. reflexivity.
Qed.

(** One push appends to the queue and keeps its last 63 elements. *)
Lemma rb_push_view (p : rb_push_args) (r : rx_ring) :
  rb_wf r -> push_ok p ->
  map frame_view (rb_contents (rb_push p r))
  = lastn 63 (map frame_view (rb_contents r) ++ [push_view p]).
Proof.
  intros Hwf Hok. destruct (rb_push_contents p r Hwf) as [_ ->].
  pose proof (rb_contents_length r) as Hlen.
  pose proof (rb_count_range r) as Hr.
  rewrite map_app. simpl map. rewrite rb_stored_view by assumption.
  destruct (rb_is_full r) eqn:Hf.
  - apply rb_full_iff in Hf; [| exact Hwf].
    unfold lastn. rewrite length_app, length_map. simpl length.
    replace (length (rb_contents r) + 1 - 63)%nat with 1%nat by lia.
    rewrite drop_app_le by (rewrite length_map; lia).
    rewrite skipn_map. reflexivity.
  - assert (rb_count r <> 63).
    { intros Hc. apply rb_full_iff in Hc; [congruence | exact Hwf]. }
    rewrite lastn_short; [reflexivity |].
    rewrite length_app, length_map. simpl. lia.
Qed.

Lemma rb_push_all_wf (ps : list rb_push_args) (r : rx_ring) :
  rb_wf r -> rb_wf (rb_push_all ps r).
Proof.
  revert r. induction ps as [| p ps IH]; intros r Hwf; [exact Hwf |].
  simpl. apply IH. apply rb_push_contents. exact Hwf.
Qed.

Lemma rb_push_all_view (ps : list rb_push_args) (r : rx_ring) :
  rb_wf r -> Forall push_ok ps ->
  map frame_view (rb_contents (rb_push_all ps r))
  = lastn 63 (map frame_view (rb_contents r) ++ map push_view ps).
Proof.
  revert r. induction ps as [| p ps IH]; intros r Hwf Hok.
  - simpl. rewrite app_nil_r. symmetry. apply lastn_short.
    rewrite length_map. pose proof (rb_contents_length r).
    pose proof (rb_count_range r). lia.
  - inversion Hok as [| ? ? Hp Hps]; subst. simpl.
    unfold rb_push_all in IH. rewrite IH; [| apply rb_push_contents, Hwf | exact Hps].
    rewrite rb_push_view by assumption.
    rewrite lastn_app_lastn. rewrite <- app_assoc. reflexivity.
Qed.

(** Popping until empty returns the queue, provided the bound covers it. *)
Lemma rb_drain_contents (fuel : nat) (r : rx_ring) :
  rb_wf r -> rb_drain fuel r = take fuel (rb_contents r).
Proof.
  revert r. induction fuel as [| fuel IH]; intros r Hwf; [reflexivity |].
  simpl rb_drain.
  destruct (Z.eq_dec (g_rx_head r) (g_rx_tail r)) as [He | Hne].
  - rewrite rb_pop_empty by assumption.
    apply rb_empty_iff in He; [| exact Hwf].
    unfold rb_contents. rewrite He. reflexivity.
  - destruct (rb_pop_nonempty r Hwf Hne) as (f & r' & -> & Hwf' & -> & _).
    simpl. f_equal. apply IH. exact Hwf'.
Qed.

Lemma rb_drain_all (r : rx_ring) :
  rb_wf r -> rb_drain 64 r = rb_contents r.
Proof.
  intros Hwf. rewrite rb_drain_contents by assumption.
  apply take_ge. pose proof (rb_contents_length r).
  pose proof (rb_count_range r). lia.
Qed.

Lemma rb_run_wf (ops : list rb_op) (r : rx_ring) :
  rb_wf r -> rb_wf (rb_run ops r).
Proof.
  revert r. induction ops as [| op ops IH]; intros r Hwf; [exact Hwf |].
  simpl. apply IH. destruct op as [id d l |]; simpl.
  - apply (rb_push_contents (mk_push id d l) r Hwf).
  - apply rb_pop_wf, Hwf.
Qed.

Lemma overflow_scenario_ok : Forall push_ok overflow_scenario.
Proof.
  unfold overflow_scenario. apply List.Forall_forall. intros p Hp.
  apply in_map_iff in Hp. destruct Hp as (k & <- & _).
  unfold push_ok, push_clamped_len, numbered_push. simpl. lia.
Qed.

(** C2, counterexample: with frames #1..#65 pushed into the empty ring and
    no pop in between, the first pop does not return frame #2.  The ring
    holds 63 frames, so frame #64 already evicted #1 and #65 evicts #2. *)
Lemma rb_overflow_first_pop_not_second :
  ~ (exists f r',
        rb_pop (rb_push_all overflow_scenario rb_init) = (Some f, r')
        /\ frame_view f = push_view (numbered_push 2)).
Proof.
  intros (f & r' & Hpop & Hview).
  assert (Hid : rx_std_id f = 3).
  { vm_compute in Hpop. injection Hpop as <- _. reflexivity. }
  unfold frame_view, push_view in Hview. injection Hview as Hid2 _ _.
  rewrite Hid in Hid2. discriminate Hid2.
Qed.

(** C2, as the code has it: a push on a full ring advances the tail by one,
    evicting exactly the oldest frame, and then writes the new frame; a push
    on a ring that is not full leaves the tail alone.  The ring holds 63
    frames: after 65 pushes into the empty ring with no pop in between, the
    pops return frames #3 to #65 in order, so the first pop returns frame #3
    (frames #1 and #2 were dropped) and the last pop returns frame #65. *)
Theorem rb_drop_oldest_policy (p : rb_push_args) (r : rx_ring)
    (ps : list rb_push_args)
    (Hwf : rb_wf r) (Hok : Forall push_ok ps) (Hn : length ps = 65%nat) :
  (if rb_is_full r
   then g_rx_tail (rb_push p r) = rb_next (g_rx_tail r)
        /\ rb_contents (rb_push p r) = drop 1 (rb_contents r) ++ [rb_stored p r]
   else g_rx_tail (rb_push p r) = g_rx_tail r
        /\ rb_contents (rb_push p r) = rb_contents r ++ [rb_stored p r])
  /\ map frame_view (rb_drain 64 (rb_push_all ps rb_init))
     = map push_view (drop 2 ps)
  /\ head (map frame_view (rb_drain 64 (rb_push_all ps rb_init)))
     = push_view <$> ps !! 2%nat
  /\ last (map frame_view (rb_drain 64 (rb_push_all ps rb_init)))
     = push_view <$> ps !! 64%nat.
Proof.
  assert (Hdrain : map frame_view (rb_drain 64 (rb_push_all ps rb_init))
                   = map push_view (drop 2 ps)).
  { rewrite rb_drain_all by (apply rb_push_all_wf, rb_init_wf).
    rewrite rb_push_all_view by (auto using rb_init_wf).
    change (rb_contents rb_init) with (@nil can_bus_rx_frame_t). simpl app.
    unfold lastn. rewrite length_map, Hn. simpl Nat.sub.
    apply skipn_map. }
  split; [| split; [exact Hdrain | split]].
  - pose proof (rb_push_contents p r Hwf) as [_ Hc].
    destruct (rb_is_full r) eqn:Hf.
    + split; [| exact Hc]. apply rb_push_full; assumption.
    + split; [| exact Hc]. apply rb_push_not_full; assumption.
  - rewrite Hdrain.
    do 65 (destruct ps as [| ? ps]; [discriminate Hn |]). reflexivity.
  - rewrite Hdrain.
    do 65 (destruct ps as [| ? ps]; [discriminate Hn |]).
    destruct ps; [reflexivity | discriminate Hn].
Qed.

Lemma rb_drop_oldest_policy_witness :
  (if rb_is_full rb_init
   then g_rx_tail (rb_push (numbered_push 1) rb_init)
        = rb_next (g_rx_tail rb_init)
        /\ rb_contents (rb_push (numbered_push 1) rb_init)
           = drop 1 (rb_contents rb_init)
             ++ [rb_stored (numbered_push 1) rb_init]
   else g_rx_tail (rb_push (numbered_push 1) rb_init) = g_rx_tail rb_init
        /\ rb_contents (rb_push (numbered_push 1) rb_init)
           = rb_contents rb_init ++ [rb_stored (numbered_push 1) rb_init])
  /\ map frame_view (rb_drain 64 (rb_push_all overflow_scenario rb_init))
     = map push_view (drop 2 overflow_scenario)
  /\ head (map frame_view (rb_drain 64 (rb_push_all overflow_scenario rb_init)))
     = push_view <$> overflow_scenario !! 2%nat
  /\ last (map frame_view (rb_drain 64 (rb_push_all overflow_scenario rb_init)))
     = push_view <$> overflow_scenario !! 64%nat.
Proof.
  apply (rb_drop_oldest_policy (numbered_push 1) rb_init overflow_scenario).
  - exact rb_init_wf.
  - exact overflow_scenario_ok.
  - reflexivity.
Defined.

(** C9: whatever sequence of pushes and pops runs on the empty ring, head
    and tail stay in [0, 64), the occupancy [(head - tail) mod 64] is at
    most 63, and it is the number of frames the ring holds: draining the
    ring returns exactly that many frames, never more than 63. *)
Theorem rb_occupancy_invariant (ops : list rb_op) :
  let r := rb_run ops rb_init in
  0 <= g_rx_head r < 64
  /\ 0 <= g_rx_tail r < 64
  /\ (g_rx_head r - g_rx_tail r) mod 64 <= 63
  /\ Z.of_nat (length (rb_drain 64 r)) = (g_rx_head r - g_rx_tail r) mod 64
  /\ (forall fuel, (length (rb_drain fuel r) <= 63)%nat).
Proof.
  intros r. assert (Hwf : rb_wf r) by apply rb_run_wf, rb_init_wf.
  pose proof (rb_count_range r) as Hr.
  pose proof (rb_contents_length r) as Hl.
  destruct Hwf as (Hlen & Hh & Ht).
  assert (Hwf : rb_wf r) by (unfold rb_wf; auto).
  unfold rb_count, CAN_BUS_RX_RING_DEPTH in *.
  split; [exact Hh | split; [exact Ht | split; [lia | split]]].
  - rewrite rb_drain_all by exact Hwf. exact Hl.
  - intros fuel. rewrite rb_drain_contents by exact Hwf.
    rewrite length_take. lia.
Qed.

(** The bound of 63 is reached: 63 pushes fill the ring, and further pushes
    keep the occupancy at 63. *)
Lemma rb_capacity_is_63 (n : nat) :
  (63 <= n <= 200)%nat ->
  rb_count (rb_push_all (map numbered_push (seq 1 n)) rb_init) = 63.
Proof.
  intros Hn.
  assert (Hwf : rb_wf (rb_push_all (map numbered_push (seq 1 n)) rb_init))
    by apply rb_push_all_wf, rb_init_wf.
  rewrite <- rb_contents_length.
  rewrite <- (length_map frame_view).
  rewrite rb_push_all_view; [| exact rb_init_wf |].
  - rewrite lastn_length. change (rb_contents rb_init) with (@nil can_bus_rx_frame_t).
    simpl app. rewrite !length_map, length_seq. lia.
  - apply List.Forall_forall. intros p Hp. apply in_map_iff in Hp.
    destruct Hp as (k & <- & _).
    unfold push_ok, push_clamped_len, numbered_push. simpl. lia.
Qed.

(** ** Time sync *)

Section TimeSync.

Variable tps : Z.
Hypothesis tps_range : 0 < tps < 2 ^ 32.

Lemma compute_offset_delay_exact (t1 t2 t3 t4 : Z) :
  0 <= t1 < 2 ^ 62 -> 0 <= t2 < 2 ^ 62 ->
  0 <= t3 < 2 ^ 62 -> 0 <= t4 < 2 ^ 62 ->
  compute_offset_delay t1 t2 t3 t4
  = (ntp_offset t1 t2 t3 t4, ntp_delay t1 t2 t3 t4).
Proof.
  intros H1 H2 H3 H4. unfold compute_offset_delay, ntp_offset, ntp_delay.
  rewrite !s64_u64_sub by lia. rewrite !s64_small by lia. f_equal.
  destruct (Z.ltb_spec (t4 - t1 - (t3 - t2)) 0) as [Hneg | Hpos].
  - lia.
  - rewrite u64_small by lia. lia.
Qed.

(** Without any bound the unsigned subtractions still agree with signed
    64-bit ones: only the wrap-around of [int64_t] is left. *)
Lemma compute_offset_delay_signed (t1 t2 t3 t4 : Z) :
  fst (compute_offset_delay t1 t2 t3 t4)
  = Z.quot (s64 (s64 (t2 - t1) + s64 (t3 - t4))) 2.
Proof. unfold compute_offset_delay. simpl. rewrite !s64_u64. reflexivity. Qed.

Lemma apply_offset_out_of_range (offset_ms : Z) (c : threadx_clock) :
  30000 < Z.abs offset_ms -> threadx_apply_offset_ms tps offset_ms c = c.
Proof.
  intros H. unfold threadx_apply_offset_ms.
  destruct (Z.gtb_spec offset_ms (30 * 1000)) as [Hgt | Hle]; [reflexivity |].
  destruct (Z.ltb_spec offset_ms (- (30 * 1000))) as [Hlt | Hge];
    [reflexivity | lia].
Qed.

Lemma apply_offset_in_range (offset_ms : Z) (c : threadx_clock) :
  Z.abs offset_ms <= 30000 ->
  threadx_apply_offset_ms tps offset_ms c
  = tx_time_set (corrected_ticks tps offset_ms (tx_ticks c)) c.
Proof.
  intros H. unfold threadx_apply_offset_ms, corrected_ticks, tx_time_get.
  destruct (Z.gtb_spec offset_ms (30 * 1000)) as [Hgt | Hle]; [lia |].
  destruct (Z.ltb_spec offset_ms (- (30 * 1000))) as [Hlt | Hge]; [lia |].
  simpl orb. cbv iota.
  assert (Hprod : - 2 ^ 47 <= offset_ms * tps <= 2 ^ 47) by nia.
  rewrite (s64_small (offset_ms * tps)) by lia.
  assert (Hq : - 2 ^ 47 <= Z.quot (offset_ms * tps) 1000 <= 2 ^ 47).
  { revert Hprod. generalize (offset_ms * tps). intros z Hz.
    Z.quot_rem_to_equations. lia. }
  assert (Hu : 0 <= u32 (tx_ticks c) < 2 ^ 32)
    by (unfold u32; apply Z.mod_pos_bound; lia).
  rewrite s64_small by lia.
  destruct (Z.ltb_spec (u32 (tx_ticks c) + Z.quot (offset_ms * tps) 1000) 0).
  - rewrite Z.max_l by lia. reflexivity.
  - rewrite Z.max_r by lia. reflexivity.
Qed.

Lemma tx_time_set_logged (v : Z) (c : threadx_clock) :
  tx_set_log (tx_time_set v c) <> tx_set_log c.
Proof.
  unfold tx_time_set. simpl. intros H.
  apply (f_equal (@length Z)) in H. rewrite length_app in H. simpl in H. lia.
Qed.

(** C3: when a reply carrying [t1], [t2], [t3] is handled and [t4] is read
    on entry, the offset is [((t2 - t1) + (t3 - t4)) / 2] and the delay is
    [max 0 ((t4 - t1) - (t3 - t2))] in signed 64-bit arithmetic (exact for
    millisecond timestamps below [2^62]); the clock is set, to the corrected
    tick value, if and only if [|offset| <= 30000], and it is left unchanged
    when the offset is out of range. *)
Theorem timesync_reply_correction (resp_ty : Z) (payload : list byte)
    (len : Z) (c : threadx_clock) (e : tick_extender)
    (t1 t2 t3 t4 : Z)
    (Hlen : 32 <= len)
    (Ht1 : le_u64 payload 8 = t1) (Ht2 : le_u64 payload 16 = t2)
    (Ht3 : le_u64 payload 24 = t3) (Ht4 : fst (tx_raw_now_ms tps c e) = t4)
    (H1 : 0 <= t1 < 2 ^ 62) (H2 : 0 <= t2 < 2 ^ 62)
    (H3 : 0 <= t3 < 2 ^ 62) (H4 : 0 <= t4 < 2 ^ 62) :
  let pkt := {| pkt_ty := resp_ty; pkt_payload := Some payload;
                pkt_payload_len := len |} in
  let offset := ((t2 - t1) + (t3 - t4)) ÷ 2 in
  let delay := Z.max 0 ((t4 - t1) - (t3 - t2)) in
  let c' := snd (fst (on_timesync tps resp_ty pkt c e)) in
  compute_offset_delay t1 t2 t3 t4 = (offset, delay)
  /\ c' = threadx_apply_offset_ms tps offset c
  /\ (Z.abs offset <= 30000 <-> tx_set_log c' <> tx_set_log c)
  /\ (Z.abs offset <= 30000 ->
      c' = tx_time_set (corrected_ticks tps offset (tx_ticks c)) c)
  /\ (30000 < Z.abs offset -> c' = c).
Proof.
  intros pkt offset delay c'.
  pose proof (compute_offset_delay_exact t1 t2 t3 t4 H1 H2 H3 H4) as Hcod.
  fold offset in Hcod. unfold ntp_offset, ntp_delay in Hcod.
  fold offset delay in Hcod.
  assert (Hc' : c' = threadx_apply_offset_ms tps offset c).
  { unfold c', on_timesync, pkt. simpl pkt_payload. simpl pkt_ty.
    simpl pkt_payload_len. rewrite Z.eqb_refl.
    destruct (Z.geb_spec len 32) as [_ | ?]; [| lia]. simpl andb. cbv iota.
    rewrite Ht1, Ht2, Ht3.
    destruct (tx_raw_now_ms tps c e) as [t4' e'] eqn:Hraw.
    simpl in Ht4. subst t4'. rewrite Hcod. reflexivity. }
  split; [exact Hcod | split; [exact Hc' | split; [| split]]].
  - rewrite Hc'. split.
    + intros Hin. rewrite apply_offset_in_range by exact Hin.
      apply tx_time_set_logged.
    + intros Hlog. destruct (Z_le_gt_dec (Z.abs offset) 30000) as [? | Hout];
        [assumption |].
      rewrite apply_offset_out_of_range in Hlog by lia. congruence.
  - intros Hin. rewrite Hc'. apply apply_offset_in_range. exact Hin.
  - intros Hout. rewrite Hc'. apply apply_offset_out_of_range. exact Hout.
Qed.

End TimeSync.

(** Scenario 6 of the specification: ticks at 1 kHz, the clock at 10020 when
    the reply with [t1 = 10000], [t2 = 10100], [t3 = 10110] arrives. *)
Lemma timesync_reply_correction_witness :
  let c := {| tx_ticks := 10020; tx_set_log := [] |} in
  let pkt := {| pkt_ty := 7; pkt_payload := Some (timesync_reply 1 10000 10100 10110);
                pkt_payload_len := 32 |} in
  let c' := snd (fst (on_timesync 1000 7 pkt c {| last_ticks32 := 0; high := 0 |})) in
  compute_offset_delay 10000 10100 10110 10020 = (95, 10)
  /\ c' = threadx_apply_offset_ms 1000 95 c
  /\ (Z.abs 95 <= 30000 <-> tx_set_log c' <> tx_set_log c)
  /\ (Z.abs 95 <= 30000 -> c' = tx_time_set (corrected_ticks 1000 95 10020) c)
  /\ (30000 < Z.abs 95 -> c' = c).
Proof.
  intros c pkt c'.
  assert (Hr : forall t, 0 <= t < 20000 -> 0 <= t < 2 ^ 62) by (intros; lia).
  exact (timesync_reply_correction 1000 ltac:(lia) 7
           (timesync_reply 1 10000 10100 10110) 32 c
           {| last_ticks32 := 0; high := 0 |} 10000 10100 10110 10020
           ltac:(lia) eq_refl eq_refl eq_refl eq_refl
           (Hr 10000 ltac:(lia)) (Hr 10100 ltac:(lia)) (Hr 10110 ltac:(lia))
           (Hr 10020 ltac:(lia))).
Defined.

(** ** Fragment header codec *)

Lemma lor_shiftl_8 (a b : Z) :
  0 <= a < 256 -> 0 <= b -> Z.lor a (Z.shiftl b 8) = a + 256 * b.
Proof.
  intros Ha Hb.
  assert (Hland : Z.land a (Z.shiftl b 8) = 0).
  { apply Z.bits_inj'. intros n Hn. rewrite Z.land_spec, Z.bits_0.
    destruct (Z.lt_ge_cases n 8) as [Hlt | Hge].
    - rewrite Z.shiftl_spec_low by assumption. apply andb_false_r.
    - replace (Z.testbit a n) with false; [reflexivity |].
      symmetry. apply Z.bits_above_log2; [lia |].
      destruct (Z.eq_dec a 0) as [-> | Hnz]; [simpl; lia |].
      apply Z.log2_lt_pow2; [lia |].
      apply Z.lt_le_trans with (2 ^ 8); [lia |].
      apply Z.pow_le_mono_r; lia. }
  rewrite <- Z.lxor_lor by exact Hland.
  rewrite <- Z.add_nocarry_lxor by exact Hland.
  rewrite Z.shiftl_mul_pow2 by lia. lia.
Qed.

Lemma byte_at_range (bs : list byte) (i : nat) : 0 <= byte_at bs i < 256.
Proof. apply Z_of_byte_range. Qed.

Lemma hdr_magic_le (bs : list byte) :
  hdr_magic (hdr_of_bytes bs) = byte_at bs 0 + 256 * byte_at bs 1.
Proof.
  unfold hdr_of_bytes. simpl.
  apply lor_shiftl_8; [apply byte_at_range | apply byte_at_range].
Qed.

Lemma hdr_total_len_le (bs : list byte) :
  hdr_total_len (hdr_of_bytes bs) = byte_at bs 6 + 256 * byte_at bs 7.
Proof.
  unfold hdr_of_bytes. simpl.
  apply lor_shiftl_8; [apply byte_at_range | apply byte_at_range].
Qed.

(** Encode then decode of a header yields the original field values. *)
Lemma hdr_roundtrip (h : can_bus_frag_hdr_t) (rest : list byte) :
  0 <= hdr_magic h < 65536 -> 0 <= hdr_seq h < 256 ->
  0 <= hdr_frag_idx h < 256 -> 0 <= hdr_frag_cnt h < 256 ->
  0 <= hdr_flags h < 256 -> 0 <= hdr_total_len h < 65536 ->
  hdr_of_bytes (hdr_bytes h ++ rest) = h.
Proof.
  intros Hm Hs Hi Hc Hf Ht. destruct h as [m s i c f t]. simpl in *.
  assert (H16 : forall z, 0 <= z < 65536 ->
            Z.lor (Z_of_byte (byte_of_Z z))
                  (Z.shiftl (Z_of_byte (byte_of_Z (Z.shiftr z 8))) 8) = z).
  { intros z Hz. rewrite lor_shiftl_8 by apply Z_of_byte_range.
    rewrite !Z_of_byte_of_Z. rewrite Z.shiftr_div_pow2 by lia.
    change (2 ^ 8) with 256. Z.div_mod_to_equations. lia. }
  unfold hdr_of_bytes, hdr_bytes, byte_at. simpl.
  rewrite !H16 by assumption.
  rewrite !Z_of_byte_of_Z. rewrite !Z.mod_small by lia. reflexivity.
Qed.

(** ** Raw frames and header validation *)

Lemma is_fragment_spec (f : can_bus_rx_frame_t) :
  is_fragment f = true
  <-> sizeof_hdr <= rx_len f
      /\ wire_magic f = CAN_BUS_FRAG_MAGIC.
Proof.
  unfold is_fragment, wire_magic. rewrite andb_true_iff, Z.geb_le, Z.eqb_eq, hdr_magic_le.
  reflexivity.
Qed.

Lemma reasm_store_path (subs : list can_bus_sub_t) hdr payload payload_len
    now_ms i s g :
  let r := reasm_store subs hdr payload payload_len now_ms i s g in
  res_path r = PathOffRange \/ res_path r = PathAccepted.
Proof.
  unfold reasm_store.
  repeat match goal with
         | |- context [if ?b then _ else _] => destruct b
         end; simpl; auto.
Qed.

Lemma handle_rx_frame_raw (subs : list can_bus_sub_t) f now_ms g :
  is_fragment f = false ->
  handle_rx_frame subs f now_ms g
  = {| res_reasm := g;
       res_events := can_bus_notify_rx subs (rx_data f) (rx_len f);
       res_path := PathRaw |}.
Proof.
  unfold is_fragment, handle_rx_frame. intros H.
  destruct (rx_len f >=? sizeof_hdr); [| reflexivity].
  cbn [andb] in H. rewrite H. reflexivity.
Qed.

Lemma handle_rx_frame_rejected (subs : list can_bus_sub_t) f now_ms g :
  is_fragment f = true -> hdr_rejected (hdr_of_bytes (rx_data f)) = true ->
  handle_rx_frame subs f now_ms g
  = {| res_reasm := g; res_events := []; res_path := PathHdrRejected |}.
Proof.
  unfold is_fragment, handle_rx_frame. intros H Hr.
  apply andb_true_iff in H. destruct H as [-> ->]. rewrite Hr. reflexivity.
Qed.

Lemma handle_rx_frame_valid_path (subs : list can_bus_sub_t) f now_ms g :
  is_fragment f = true -> hdr_rejected (hdr_of_bytes (rx_data f)) = false ->
  let r := handle_rx_frame subs f now_ms g in
  res_path r = PathMismatch \/ res_path r = PathOffRange
  \/ res_path r = PathAccepted.
Proof.
  unfold is_fragment, handle_rx_frame. intros H Hr.
  apply andb_true_iff in H. destruct H as [-> ->]. rewrite Hr.
  destruct (reasm_get_slot _ _ _ _) as [i g1].
  destruct (s_frag_cnt (slot_at g1 i) =? 0).
  - right. apply reasm_store_path.
  - destruct (negb _); [left; reflexivity |].
    destruct (negb _); [left; reflexivity |].
    right. apply reasm_store_path.
Qed.

Lemma hdr_rejected_spec (hdr : can_bus_frag_hdr_t) :
  hdr_rejected hdr = true
  <-> hdr_frag_cnt hdr = 0 \/ hdr_frag_idx hdr >= hdr_frag_cnt hdr
      \/ hdr_frag_cnt hdr > 64 \/ hdr_total_len hdr = 0
      \/ hdr_total_len hdr > 2048.
Proof.
  unfold hdr_rejected, CAN_BUS_REASM_MAX_FRAGS, CAN_BUS_REASM_MAX_BYTES.
  destruct (Z.eqb_spec (hdr_frag_cnt hdr) 0);
    [split; [auto | reflexivity] |].
  destruct (Z.geb_spec (hdr_frag_idx hdr) (hdr_frag_cnt hdr));
    [split; [intros _; lia | reflexivity] |].
  destruct (Z.gtb_spec (hdr_frag_cnt hdr) 64);
    [split; [intros _; lia | reflexivity] |].
  destruct (Z.eqb_spec (hdr_total_len hdr) 0);
    [split; [auto | reflexivity] |].
  destruct (Z.gtb_spec (hdr_total_len hdr) 2048);
    [split; [intros _; lia | reflexivity] |].
  split; [discriminate | lia].
Qed.

Lemma notify_rx_events (subs : list can_bus_sub_t) (data : list byte) (len : Z) :
  let evs := can_bus_notify_rx subs data len in
  Forall (fun e => ev_data e = take (Z.to_nat len) data /\ ev_len e = len) evs
  /\ map (fun e => (ev_cb e, ev_user e)) evs = registered subs.
Proof.
  unfold can_bus_notify_rx, registered.
  induction (take CAN_BUS_MAX_SUBSCRIBERS subs) as [| s l [IH1 IH2]]; simpl.
  - split; [constructor | reflexivity].
  - destruct (sub_cb s) as [cb |]; simpl.
    + split; [constructor; [split; reflexivity | exact IH1] |].
      f_equal. exact IH2.
    + split; assumption.
Qed.

(** C7: a frame enters the reassembly path if and only if its length is at
    least the 8 header bytes and its first two bytes spell 0x5344 in little
    endian; any other frame is handed to every registered subscriber once,
    with exactly its [len] bytes and its length, and no reassembly slot is
    written. *)
Theorem raw_frame_delivery (subs : list can_bus_sub_t)
    (f : can_bus_rx_frame_t) (now_ms : Z) (g : list can_bus_reasm_slot_t) :
  let r := handle_rx_frame subs f now_ms g in
  (res_path r <> PathRaw <-> 8 <= rx_len f /\ wire_magic f = 0x5344)
  /\ (~ (8 <= rx_len f /\ wire_magic f = 0x5344) ->
      res_reasm r = g
      /\ res_events r = can_bus_notify_rx subs (rx_data f) (rx_len f)
      /\ Forall (fun e => ev_data e = take (Z.to_nat (rx_len f)) (rx_data f)
                          /\ ev_len e = rx_len f) (res_events r)
      /\ map (fun e => (ev_cb e, ev_user e)) (res_events r) = registered subs).
Proof.
  intros r. pose proof (is_fragment_spec f) as Hspec.
  change sizeof_hdr with 8 in Hspec. change CAN_BUS_FRAG_MAGIC with 0x5344 in Hspec.
  destruct (is_fragment f) eqn:Hfrag.
  - assert (Hc : 8 <= rx_len f /\ wire_magic f = 0x5344) by (apply Hspec; reflexivity).
    split; [| intros Hn; contradiction].
    split; [intros _; exact Hc |]. intros _.
    destruct (hdr_rejected (hdr_of_bytes (rx_data f))) eqn:Hrej.
    + unfold r. rewrite handle_rx_frame_rejected by assumption. discriminate.
    + pose proof (handle_rx_frame_valid_path subs f now_ms g Hfrag Hrej) as Hp.
      fold r in Hp. simpl in Hp. destruct Hp as [-> | [-> | ->]]; discriminate.
  - assert (Hn : ~ (8 <= rx_len f /\ wire_magic f = 0x5344)).
    { intros Hc. apply Hspec in Hc. discriminate Hc. }
    unfold r. rewrite handle_rx_frame_raw by assumption. simpl.
    split.
    + split; [intros H; exfalso; apply H; reflexivity | intros Hc; contradiction].
    + intros _.
      pose proof (notify_rx_events subs (rx_data f) (rx_len f)) as [H1 H2].
      auto.
Qed.

Lemma raw_frame_delivery_witness :
  let r := handle_rx_frame one_subscriber raw_scenario_frame 0 reasm_init in
  res_reasm r = reasm_init
  /\ res_events r
     = can_bus_notify_rx one_subscriber (rx_data raw_scenario_frame) 16
  /\ Forall (fun e => ev_data e = take 16 (rx_data raw_scenario_frame)
                      /\ ev_len e = 16) (res_events r)
  /\ map (fun e => (ev_cb e, ev_user e)) (res_events r) = [(1%nat, 0)].
Proof.
  apply (raw_frame_delivery one_subscriber raw_scenario_frame 0 reasm_init).
  vm_compute. intros [_ H]. discriminate H.
Defined.

(** ** Transmit path *)

Lemma zeros_length (n : nat) : length (zeros n) = n.
Proof. apply length_replicate. Qed.

Lemma drop_zeros (n m : nat) : drop n (zeros m) = zeros (m - n).
Proof. unfold zeros. apply drop_replicate. Qed.

Lemma memcpy_zeros_full (bs : list byte) (n : nat) :
  (n <= length bs)%nat -> memcpy (zeros n) bs n = take n bs.
Proof.
  intros H. unfold memcpy, memcpy_at. simpl.
  rewrite drop_zeros, Nat.sub_diag. apply app_nil_r.
Qed.

(** C10: with the bus initialised, a non-NULL buffer and [len > 64], the
    call does not fail on the length: it hands the driver one frame with
    the DLC code for 64 bytes whose data are the first 64 bytes of the
    buffer, and returns the driver's status. *)
Theorem send_bytes_truncates (drv : hal_driver) (bs : list byte)
    (len std_id : Z) (st : can_bus_tx)
    (Hinit : g_hfdcan st = true) (Hlen : 64 < len)
    (Hbs : Z.of_nat (length bs) = len) :
  let c := {| tx_header := fd_tx_header std_id FDCAN_DLC_BYTES_64;
              tx_data := take 64 bs |} in
  let res := can_bus_send_bytes drv (Some bs) len std_id st in
  fst res = drv (tx_log st) c
  /\ tx_log (snd res) = tx_log st ++ [c]
  /\ length (tx_data c) = 64%nat
  /\ can_bus_dlc_to_len (DataLength (tx_header c)) = 64
  /\ res = can_bus_send_bytes drv (Some (take 64 bs)) 64 std_id st.
Proof.
  intros c res.
  assert (Hres : res = hal_add_message drv c st).
  { unfold res, can_bus_send_bytes. rewrite Hinit. simpl negb. cbv iota.
    destruct (Z.eqb_spec len 0) as [? | _]; [lia |].
    destruct (Z.gtb_spec len 64) as [_ | ?]; [| lia].
    change (can_bus_len_to_dlc (can_bus_round_up_fd_len 64) =? DLC_INVALID)
      with false. cbv iota.
    change (Z.to_nat 64) with 64%nat.
    rewrite memcpy_zeros_full by lia. reflexivity. }
  assert (Hres64 : can_bus_send_bytes drv (Some (take 64 bs)) 64 std_id st
                   = hal_add_message drv c st).
  { unfold can_bus_send_bytes. rewrite Hinit. simpl negb. cbv iota.
    change (64 =? 0) with false. change (64 >? 64) with false. cbv iota.
    change (can_bus_len_to_dlc (can_bus_round_up_fd_len 64) =? DLC_INVALID)
      with false. cbv iota.
    change (Z.to_nat 64) with 64%nat.
    rewrite memcpy_zeros_full by (rewrite length_take; lia).
    rewrite take_take. reflexivity. }
  rewrite Hres64, Hres. unfold hal_add_message. simpl.
  repeat split. rewrite length_take. lia.
Qed.

Lemma send_bytes_truncates_witness :
  let bs := counting_bytes 100 in
  let c := {| tx_header := fd_tx_header 3 FDCAN_DLC_BYTES_64;
              tx_data := take 64 bs |} in
  let res := can_bus_send_bytes drv_ok (Some bs) 100 3 tx_ready in
  fst res = HAL_OK
  /\ tx_log (snd res) = [c]
  /\ length (tx_data c) = 64%nat
  /\ can_bus_dlc_to_len (DataLength (tx_header c)) = 64
  /\ res = can_bus_send_bytes drv_ok (Some (take 64 bs)) 64 3 tx_ready.
Proof.
  exact (send_bytes_truncates drv_ok (counting_bytes 100) 100 3 tx_ready
           eq_refl eq_refl eq_refl).
Defined.

Lemma frag_count_bounds (L : Z) :
  56 * (frag_count L - 1) < L <= 56 * frag_count L.
Proof. unfold frag_count. Z.div_mod_to_equations. lia. Qed.

Section SendLarge.

Variable drv : hal_driver.
Variables (bs : list byte) (L std_id sq : Z).
Hypothesis L_range : 1 <= L <= 65535.
Hypothesis cnt_range : frag_count L <= 255.
Hypothesis bs_length : Z.of_nat (length bs) = L.

Lemma frag_chunk_length (i : nat) :
  Z.of_nat (length (frag_chunk bs i)) = Z.max 0 (Z.min 56 (L - 56 * Z.of_nat i)).
Proof. unfold frag_chunk. rewrite length_take, length_drop. lia. Qed.

Lemma frag_frame_length (i : nat) : length (frag_frame sq L bs i) = 64%nat.
Proof.
  unfold frag_frame. rewrite !length_app, zeros_length.
  pose proof (frag_chunk_length i). simpl length. lia.
Qed.

Lemma frag_frame_built (i : nat) :
  Z.of_nat i < frag_count L ->
  let idx := Z.of_nat i in
  let off := Z.min (56 * idx) L in
  let flags := 0 in
  let flags := if idx =? 0 then Z.lor flags CAN_BUS_FRAG_F_FIRST else flags in
  let flags :=
    if idx =? u8 (frag_count L - 1) then Z.lor flags CAN_BUS_FRAG_F_LAST
    else flags in
  let hdr :=
    {| hdr_magic := CAN_BUS_FRAG_MAGIC; hdr_seq := sq;
       hdr_frag_idx := idx; hdr_frag_cnt := frag_count L;
       hdr_flags := flags; hdr_total_len := u16 L |} in
  let tk := u32 (L - off) in
  let tk := if tk >? 56 then 56 else tk in
  memcpy_at (memcpy (zeros 64) (hdr_bytes hdr) (Z.to_nat sizeof_hdr))
    (Z.to_nat sizeof_hdr) (drop (Z.to_nat off) bs) (Z.to_nat tk)
  = frag_frame sq L bs i
  /\ u32 (off + tk) = Z.min (56 * Z.of_nat (S i)) L.
Proof.
  intros Hi idx off flags flags0 flags1 hdr tk tk0.
  pose proof (frag_count_bounds L) as Hb.
  assert (Hoff : off = 56 * idx) by (unfold off, idx in *; lia).
  assert (Htake : tk0 = Z.min 56 (L - 56 * idx)).
  { unfold tk0, tk. rewrite Hoff. rewrite u32_small by lia.
    destruct (Z.gtb_spec (L - 56 * idx) 56); lia. }
  assert (Hhdr : hdr = frag_hdr sq L i).
  { unfold hdr, frag_hdr. f_equal.
    - unfold flags1, flags0, flags, frag_flags. fold idx.
      rewrite u8_small by lia.
      destruct (idx =? 0), (idx =? frag_count L - 1); reflexivity.
    - apply u16_small. lia. }
  split.
  - rewrite Hhdr. unfold frag_frame, memcpy, memcpy_at.
    change (Z.to_nat sizeof_hdr) with 8%nat. rewrite take_0, app_nil_l. change (0 + 8)%nat with 8%nat.
    assert (Hlen8 : length (hdr_bytes (frag_hdr sq L i)) = 8%nat) by reflexivity.
    rewrite (take_ge (hdr_bytes _) 8) by lia.
    rewrite take_app_length' by exact Hlen8.
    rewrite drop_app_ge by lia.
    rewrite Hlen8. pose proof (frag_chunk_length i) as Hcl. fold idx in Hcl.
    f_equal.
    assert (Hchunk : take (Z.to_nat tk0) (drop (Z.to_nat off) bs) = frag_chunk bs i).
    { unfold frag_chunk. rewrite Hoff. replace (Z.to_nat (56 * idx)) with (56 * i)%nat by lia.
      rewrite Htake.
      destruct (Z.le_gt_cases 56 (L - 56 * idx)).
      - rewrite Z.min_l by lia. reflexivity.
      - rewrite Z.min_r by lia. rewrite !take_ge; [reflexivity | |]; rewrite length_drop; lia. }
    rewrite Hchunk. f_equal.
    rewrite !drop_zeros. f_equal. lia.
  - rewrite Htake, Hoff. rewrite u32_small by lia. unfold idx. lia.
Qed.

Lemma send_bytes_frag (i : nat) (st : can_bus_tx) :
  g_hfdcan st = true ->
  can_bus_send_bytes drv (Some (frag_frame sq L bs i)) CAN_BUS_FRAG_WIRE_LEN
    std_id st
  = hal_add_message drv (frag_call std_id sq L bs i) st.
Proof.
  intros Hinit. unfold can_bus_send_bytes, CAN_BUS_FRAG_WIRE_LEN.
  rewrite Hinit. simpl negb. cbv iota.
  change (64 =? 0) with false. change (64 >? 64) with false. cbv iota.
  change (can_bus_len_to_dlc (can_bus_round_up_fd_len 64) =? DLC_INVALID)
    with false. cbv iota.
  change (Z.to_nat 64) with 64%nat.
  rewrite memcpy_zeros_full by (rewrite frag_frame_length; lia).
  rewrite take_ge by (rewrite frag_frame_length; lia). reflexivity.
Qed.

Lemma send_large_loop_step (fuel i : nat) (st : can_bus_tx) :
  Z.of_nat i < frag_count L -> g_hfdcan st = true ->
  send_large_loop (S fuel) drv bs L std_id sq (frag_count L) 56
    (Z.of_nat i) (Z.min (56 * Z.of_nat i) L) st
  = let c := frag_call std_id sq L bs i in
    let st1 := snd (hal_add_message drv c st) in
    if HAL_status_eqb (drv (tx_log st) c) HAL_OK
    then send_large_loop fuel drv bs L std_id sq (frag_count L) 56
           (Z.of_nat (S i)) (Z.min (56 * Z.of_nat (S i)) L) st1
    else Some (drv (tx_log st) c, st1).
Proof.
  intros Hi Hinit. cbn [send_large_loop].
  destruct (Z.ltb_spec (Z.of_nat i) (frag_count L)) as [_ | ?]; [| lia].
  destruct (frag_frame_built i Hi) as [Hframe Hoff]. cbv zeta in Hframe, Hoff.
  rewrite Hframe, Hoff. rewrite send_bytes_frag by exact Hinit.
  unfold hal_add_message. cbv zeta. cbn [snd].
  rewrite (u8_small (Z.of_nat i + 1)) by lia.
  replace (Z.of_nat i + 1) with (Z.of_nat (S i)) by lia. reflexivity.
Qed.

Lemma send_large_loop_spec (n : nat) :
  forall (i fuel : nat) (st : can_bus_tx),
    Z.of_nat (i + n) = frag_count L -> (n < fuel)%nat -> g_hfdcan st = true ->
    exists status st' m,
      send_large_loop fuel drv bs L std_id sq (frag_count L) 56
        (Z.of_nat i) (Z.min (56 * Z.of_nat i) L) st = Some (status, st')
      /\ (m <= n)%nat
      /\ tx_log st' = tx_log st ++ map (frag_call std_id sq L bs) (seq i m)
      /\ g_seq st' = g_seq st /\ g_hfdcan st' = true
      /\ (status = HAL_OK -> m = n).
Proof.
  induction n as [| n IH]; intros i fuel st Hcnt Hfuel Hinit.
  - destruct fuel as [| fuel]; [lia |]. cbn [send_large_loop].
    destruct (Z.ltb_spec (Z.of_nat i) (frag_count L)) as [? | _]; [lia |].
    exists HAL_OK, st, 0%nat. simpl. rewrite app_nil_r. repeat split; auto.
  - destruct fuel as [| fuel]; [lia |].
    rewrite send_large_loop_step by (auto; lia). cbv zeta.
    set (c := frag_call std_id sq L bs i).
    destruct (HAL_status_eqb (drv (tx_log st) c) HAL_OK) eqn:Hst.
    + destruct (IH (S i) fuel (snd (hal_add_message drv c st)))
        as (status & st' & m & Hrun & Hm & Hlog & Hseq & Hh & Hok);
        [lia | lia | exact Hinit |].
      exists status, st', (S m). split; [exact Hrun |].
      split; [lia |]. split; [| split; [exact Hseq | split; [exact Hh |]]].
      * rewrite Hlog. simpl. rewrite <- app_assoc. reflexivity.
      * intros H. f_equal. auto.
    + exists (drv (tx_log st) c), (snd (hal_add_message drv c st)), 1%nat.
      split; [reflexivity |]. split; [lia |].
      split; [reflexivity |]. split; [reflexivity |]. split; [exact Hinit |].
      intros H. rewrite H in Hst. discriminate Hst.
Qed.

End SendLarge.

Lemma send_large_loop_total (drv : hal_driver) (bs : list byte)
    (len std_id sq cnt cap : Z) (n : nat) :
  forall (fuel : nat) (idx off : Z) (st : can_bus_tx),
    0 <= idx -> cnt <= 255 -> Z.to_nat (cnt - idx) = n -> (n < fuel)%nat ->
    exists res,
      send_large_loop fuel drv bs len std_id sq cnt cap idx off st = Some res.
Proof.
  induction n as [| n IH]; intros fuel idx off st Hidx Hcnt Hn Hfuel;
    (destruct fuel as [| fuel]; [lia |]); cbn [send_large_loop].
  - destruct (Z.ltb_spec idx cnt) as [? | _]; [lia |]. eauto.
  - destruct (Z.ltb_spec idx cnt) as [Hlt | ?]; [| lia].
    destruct (can_bus_send_bytes _ _ _ _ _) as [status st1].
    destruct (HAL_status_eqb status HAL_OK); [| eauto].
    apply IH; rewrite ?u8_small by lia; lia.
Qed.

(** [can_bus_send_large] always returns: the bound of 256 iterations given
    to the model of its loop is never exhausted. *)
Lemma can_bus_send_large_total (drv : hal_driver) (bytes : option (list byte))
    (len std_id : Z) (st : can_bus_tx) :
  exists res, can_bus_send_large drv bytes len std_id st = Some res.
Proof.
  unfold can_bus_send_large.
  destruct (negb (g_hfdcan st)); [eauto |].
  destruct bytes as [bs |]; [| eauto].
  destruct (len =? 0); [eauto |].
  destruct (len >? 0xFFFF); [eauto |].
  destruct (CAN_BUS_FRAG_WIRE_LEN >? 64); [eauto |].
  destruct (u32 (CAN_BUS_FRAG_WIRE_LEN - sizeof_hdr) =? 0); [eauto |].
  match goal with
  | |- context [if ?c >? 255 then _ else _] =>
      destruct (Z.gtb_spec c 255) as [? | Hle]; [eauto |];
      generalize dependent c
  end.
  intros cnt _.
  assert (Hu : 0 <= u8 cnt < 256) by (unfold u8; apply Z.mod_pos_bound; lia).
  apply send_large_loop_total with (n := Z.to_nat (u8 cnt - 0)); lia.
Qed.

Lemma can_bus_send_large_ok (drv : hal_driver) (bs : list byte)
    (L std_id : Z) (st st' : can_bus_tx) :
  Z.of_nat (length bs) = L ->
  can_bus_send_large drv (Some bs) L std_id st = Some (HAL_OK, st') ->
  g_hfdcan st = true /\ 1 <= L /\ frag_count L <= 255
  /\ tx_log st'
     = tx_log st ++ map (frag_call std_id (g_seq st) L bs)
                        (seq 0 (Z.to_nat (frag_count L)))
  /\ g_seq st' = u8 (g_seq st + 1).
Proof.
  intros Hbs. unfold can_bus_send_large.
  destruct (g_hfdcan st) eqn:Hinit; [| discriminate]. simpl negb. cbv iota.
  destruct (Z.eqb_spec L 0) as [? | HL0]; [discriminate |].
  destruct (Z.gtb_spec L 0xFFFF) as [? | HLmax]; [discriminate |].
  change (CAN_BUS_FRAG_WIRE_LEN >? 64) with false. cbv iota.
  change (u32 (CAN_BUS_FRAG_WIRE_LEN - sizeof_hdr)) with 56.
  change (56 =? 0) with false. cbv iota.
  assert (HL : 1 <= L <= 65535) by lia.
  replace (u32 (L + 56 - 1) / 56) with (frag_count L)
    by (unfold frag_count; rewrite u32_small by lia; f_equal; lia).
  pose proof (frag_count_bounds L) as Hb.
  destruct (Z.eqb_spec (frag_count L) 0) as [? | _]; [lia |].
  destruct (Z.gtb_spec (frag_count L) 255) as [? | Hcnt]; [discriminate |].
  rewrite u8_small by lia. intros Hrun.
  destruct (send_large_loop_spec drv bs L std_id (g_seq st) HL Hcnt Hbs
              (Z.to_nat (frag_count L)) 0%nat 256%nat
              (with_g_seq (u8 (g_seq st + 1)) st))
    as (status & st1 & m & Hrun' & Hm & Hlog & Hseq & Hh & Hok);
    [lia | lia | exact Hinit |].
  change (Z.of_nat 0) with 0 in Hrun'.
  replace (Z.min (56 * 0) L) with 0 in Hrun' by lia.
  rewrite Hrun in Hrun'. injection Hrun' as <- <-.
  rewrite Hok in Hlog by reflexivity.
  repeat split; try assumption; lia.
Qed.

Lemma frag_flags_bits (cnt : Z) (i : nat) :
  (Z.testbit (frag_flags cnt i) 0 = true <-> i = 0%nat)
  /\ (Z.testbit (frag_flags cnt i) 1 = true <-> Z.of_nat i = cnt - 1)
  /\ 0 <= frag_flags cnt i < 4.
Proof.
  unfold frag_flags.
  destruct (Z.eqb_spec (Z.of_nat i) 0), (Z.eqb_spec (Z.of_nat i) (cnt - 1));
    simpl; (split; [| split]); try lia;
    split; intros; try discriminate; try reflexivity; lia.
Qed.

(** C6: when [can_bus_send_large] succeeds on an [L]-byte buffer, the number
    of fragments is [ceil (L / 56)] and the frames handed to the driver are,
    in order, the 64-byte frames made of the 8-byte little-endian header
    [{magic = 0x5344, seq, frag_idx = i, frag_cnt, flags, total_len = L}]
    (FIRST set iff [i = 0], LAST set iff [i = frag_cnt - 1]) followed by the
    [i]-th 56-byte chunk of the buffer, the last chunk shorter and padded
    with zeros. *)
Theorem send_large_fragments (drv : hal_driver) (bs : list byte)
    (L std_id : Z) (st st' : can_bus_tx)
    (Hbs : Z.of_nat (length bs) = L) (Hseq : 0 <= g_seq st < 256)
    (Hok : can_bus_send_large drv (Some bs) L std_id st = Some (HAL_OK, st')) :
  let cnt := Z.to_nat (frag_count L) in
  56 * (frag_count L - 1) < L <= 56 * frag_count L
  /\ tx_log st'
     = tx_log st ++ map (frag_call std_id (g_seq st) L bs) (seq 0 cnt)
  /\ forall i, (i < cnt)%nat ->
       let fr := frag_frame (g_seq st) L bs i in
       let h := hdr_of_bytes fr in
       length fr = 64%nat
       /\ can_bus_dlc_to_len
            (DataLength (tx_header (frag_call std_id (g_seq st) L bs i))) = 64
       /\ take 8 fr = hdr_bytes h
       /\ h = {| hdr_magic := 0x5344; hdr_seq := g_seq st;
                 hdr_frag_idx := Z.of_nat i; hdr_frag_cnt := frag_count L;
                 hdr_flags := hdr_flags h; hdr_total_len := L |}
       /\ (Z.testbit (hdr_flags h) 0 = true <-> i = 0%nat)
       /\ (Z.testbit (hdr_flags h) 1 = true <-> Z.of_nat i = frag_count L - 1)
       /\ drop 8 fr = frag_chunk bs i ++ zeros (56 - length (frag_chunk bs i))
       /\ Z.of_nat (length (frag_chunk bs i)) = Z.min 56 (L - 56 * Z.of_nat i).
Proof.
  intros cnt.
  destruct (can_bus_send_large_ok drv bs L std_id st st' Hbs Hok)
    as (Hinit & HL & Hcnt & Hlog & _).
  pose proof (frag_count_bounds L) as Hb.
  split; [exact Hb | split; [exact Hlog |]].
  intros i Hi fr h.
  pose proof (frag_flags_bits (frag_count L) i) as (Hf0 & Hf1 & Hfr).
  assert (Hh : h = frag_hdr (g_seq st) L i).
  { unfold h, fr, frag_frame. apply hdr_roundtrip; simpl; lia. }
  split; [apply frag_frame_length; exact Hbs |].
  split; [reflexivity |].
  split; [rewrite Hh; reflexivity |].
  split; [rewrite Hh; reflexivity |].
  rewrite Hh. simpl hdr_flags.
  split; [exact Hf0 | split; [exact Hf1 | split; [reflexivity |]]].
  rewrite (frag_chunk_length bs L Hbs). lia.
Qed.

Lemma send_large_fragments_witness :
  let bs := counting_bytes 150 in
  let st' := {| g_hfdcan := true; g_seq := 1;
                tx_log := map (frag_call 3 0 150 bs) (seq 0 3) |} in
  56 * (frag_count 150 - 1) < 150 <= 56 * frag_count 150
  /\ tx_log st' = [] ++ map (frag_call 3 0 150 bs) (seq 0 3).
Proof.
  intros bs st'.
  assert (Hok : can_bus_send_large drv_ok (Some bs) 150 3 tx_ready
                = Some (HAL_OK, st')) by (vm_compute; reflexivity).
  assert (Hseq : 0 <= g_seq tx_ready < 256) by (simpl; lia).
  pose proof (send_large_fragments drv_ok bs 150 3 tx_ready st' eq_refl
                Hseq Hok) as H.
  cbv zeta in H. destruct H as (H1 & H2 & _). split; [exact H1 | exact H2].
Defined.

(** A bus error aborts the send and is returned; the fragments already
    handed to the driver are not taken back. *)
Lemma send_large_aborts_on_bus_error :
  can_bus_send_large (drv_full_after 1) (Some (counting_bytes 150)) 150 3
    tx_ready
  = Some (HAL_ERROR,
          {| g_hfdcan := true; g_seq := 1;
             tx_log := map (frag_call 3 0 150 (counting_bytes 150))
                           (seq 0 2) |}).
Proof. vm_compute. reflexivity. Qed.

(** ** Buffers and bit masks *)

Lemma memcpy_at_length (dst src : list byte) (off n : nat) :
  (off + n <= length dst)%nat -> (n <= length src)%nat ->
  length (memcpy_at dst off src n) = length dst.
Proof.
  intros Hd Hs. unfold memcpy_at.
  rewrite !length_app, !length_take, length_drop. lia.
Qed.

Lemma memcpy_at_lookup (dst src : list byte) (off n j : nat) :
  (off + n <= length dst)%nat -> (n <= length src)%nat ->
  memcpy_at dst off src n !! j
  = if decide (off <= j < off + n)%nat then src !! (j - off)%nat else dst !! j.
Proof.
  intros Hd Hs. unfold memcpy_at.
  destruct (decide (j < off)%nat) as [Hlt | Hge].
  - rewrite lookup_app_l by (rewrite length_take; lia).
    rewrite lookup_take. destruct (decide (j < off)%nat); [| lia].
    destruct (decide (off <= j < off + n)%nat); [lia | reflexivity].
  - rewrite lookup_app_r by (rewrite length_take; lia).
    rewrite length_take. replace (off `min` length dst)%nat with off by lia.
    destruct (decide (off <= j < off + n)%nat) as [Hin | Hout].
    + rewrite lookup_app_l by (rewrite length_take; lia).
      rewrite lookup_take. destruct (decide (j - off < n)%nat); [reflexivity | lia].
    + rewrite lookup_app_r by (rewrite length_take; lia).
      rewrite length_take. replace (n `min` length src)%nat with n by lia.
      rewrite lookup_drop. f_equal. lia.
Qed.

Lemma bit_test_single (m i : Z) :
  0 <= i < 64 -> bit_test [m] i = Z.testbit m i.
Proof.
  intros Hi. unfold bit_test.
  rewrite Z.div_small, Z.mod_small by lia.
  rewrite !u16_small by lia. change (mask_word [m] (Z.to_nat 0)) with m.
  change 1 with (Z.ones 1). rewrite Z.land_ones by lia.
  change (2 ^ 1) with 2. rewrite Zmod_odd.
  rewrite <- Z.bit0_odd, Z.shiftr_spec by lia. rewrite Z.add_0_l.
  destruct (Z.testbit m i); reflexivity.
Qed.

Lemma bit_set_single (m i : Z) :
  0 <= i < 64 -> bit_set [m] i = [Z.lor m (2 ^ i)].
Proof.
  intros Hi. unfold bit_set.
  rewrite Z.div_small, Z.mod_small by lia.
  rewrite !u16_small by lia. simpl. do 2 f_equal.
  rewrite Z.shiftl_mul_pow2, Z.mul_1_l by lia.
  apply u64_small. split; [apply Z.pow_nonneg; lia |].
  apply Z.pow_lt_mono_r; lia.
Qed.

Lemma testbit_lor_pow2 (m i n : Z) :
  0 <= i -> 0 <= n ->
  Z.testbit (Z.lor m (2 ^ i)) n = Z.testbit m n || (i =? n).
Proof.
  intros Hi Hn. rewrite Z.lor_spec, Z.pow2_bits_eqb by lia. reflexivity.
Qed.

(** ** Slot lookup *)

Lemma stalest_fold_lt (now : Z) (n : nat)
    (l : list (nat * can_bus_reasm_slot_t)) :
  forall acc,
    (fst acc < n)%nat -> Forall (fun e => (fst e < n)%nat) l ->
    (fst (fold_left (stalest_step now) l acc) < n)%nat.
Proof.
  induction l as [| e l IH]; intros acc Hacc Hl; simpl; [exact Hacc |].
  inversion Hl; subst. apply IH; [| assumption].
  unfold stalest_step. destruct (_ >=? _); simpl; assumption.
Qed.

Lemma reasm_stalest_lt (now : Z) (g : list can_bus_reasm_slot_t) :
  (0 < length g)%nat -> (reasm_stalest now g < length g)%nat.
Proof.
  intros Hg. unfold reasm_stalest. apply stalest_fold_lt; [exact Hg |].
  apply Forall_forall. intros e He.
  apply elem_of_lookup_imap in He as (i & y & -> & Hl). simpl.
  apply lookup_lt_Some in Hl. exact Hl.
Qed.

(** The three ways [reasm_get_slot] returns: the message in flight for the
    id goes on; the id has a slot for another sequence number, which is
    reset; or no slot is active for the id and one is claimed. *)
Lemma reasm_get_slot_cases (id sq now : Z) (g : list can_bus_reasm_slot_t) :
  (0 < length g)%nat ->
  exists k s0 s1,
    reasm_get_slot id sq now g = (k, <[k := s1]> g)
    /\ g !! k = Some s0
    /\ ((slot_is_for id s0 /\ s_seq s0 = sq /\ s1 = set_last_tick now s0)
        \/ (slot_is_for id s0 /\ s_seq s0 <> sq
            /\ s1 = set_last_tick now (reasm_reset s0))
        \/ (Forall (fun s => ~ slot_is_for id s) g
            /\ s1 = reasm_claim id sq now s0)).
Proof.
  intros Hg. unfold reasm_get_slot.
  destruct (list_find (slot_is_for id) g) as [[k s0] |] eqn:Hfind.
  - apply list_find_Some in Hfind as (Hk & Hfor & _).
    exists k, s0. destruct (Z.eqb_spec (s_seq s0) sq) as [Heq | Hne].
    + exists (set_last_tick now s0).
      split; [reflexivity | split; [exact Hk | left; auto]].
    + exists (set_last_tick now (reasm_reset s0)).
      split; [reflexivity | split; [exact Hk | right; left; auto]].
  - apply list_find_None in Hfind.
    destruct (list_find slot_is_free g) as [[k s0] |] eqn:Hfree.
    + apply list_find_Some in Hfree as (Hk & _ & _).
      exists k, s0, (reasm_claim id sq now s0).
      split; [reflexivity | split; [exact Hk | right; right; auto]].
    + pose proof (reasm_stalest_lt now g Hg) as Hlt.
      apply lookup_lt_is_Some in Hlt as [s0 Hs0].
      exists (reasm_stalest now g), s0, (reasm_claim id sq now s0).
      replace (slot_at g (reasm_stalest now g)) with s0
        by (unfold slot_at; rewrite Hs0; reflexivity).
      split; [reflexivity | split; [exact Hs0 | right; right; auto]].
Qed.

(** ** Reassembly of a fragmented message *)

Lemma frag_count_small (L : Z) :
  1 <= L <= 2048 -> 1 <= frag_count L <= 37.
Proof. intros HL. unfold frag_count. Z.div_mod_to_equations. lia. Qed.

Section Reassembly.

Variable subs : list can_bus_sub_t.
Variables (bs : list byte) (L sq : Z).
Hypothesis L_range : 1 <= L <= 2048.
Hypothesis bs_length : Z.of_nat (length bs) = L.
Hypothesis sq_range : 0 <= sq < 256.

Lemma frag_payload_take (i : nat) :
  Z.of_nat i < frag_count L ->
  take (Z.to_nat (Z.min 56 (L - 56 * Z.of_nat i)))
       (drop 8 (frag_frame sq L bs i))
  = frag_chunk bs i.
Proof.
  intros Hi. unfold frag_frame.
  rewrite drop_app_length' by reflexivity.
  pose proof (frag_chunk_length bs L bs_length i) as Hl.
  pose proof (frag_count_bounds L) as Hb.
  rewrite take_app_length'; [reflexivity | lia].
Qed.

Lemma frag_chunk_lookup (i j : nat) :
  (j < length (frag_chunk bs i))%nat ->
  frag_chunk bs i !! j = bs !! (56 * i + j)%nat.
Proof.
  intros Hj. unfold frag_chunk in *. rewrite length_take in Hj.
  rewrite lookup_take. destruct (decide (j < 56)%nat); [| lia].
  apply lookup_drop.
Qed.

Lemma reasm_store_new (S : list nat) (i : nat) (now : Z) (k : nat)
    (s : can_bus_reasm_slot_t) (g : list can_bus_reasm_slot_t) :
  collecting L bs S s -> ~ In i S -> Z.of_nat i < frag_count L ->
  Z.of_nat (length S) < frag_count L ->
  let payload := drop 8 (frag_frame sq L bs i) in
  let s' := set_last_tick now
              (slot_mark_copy (Z.of_nat i) (56 * Z.of_nat i)
                 (Z.min 56 (L - 56 * Z.of_nat i)) payload s) in
  collecting L bs (i :: S) s'
  /\ reasm_store subs (frag_hdr sq L i) payload 56 now k s g
     = if Z.of_nat (length (i :: S)) =? frag_count L
       then {| res_reasm := <[k := reasm_reset s']> g;
               res_events := can_bus_notify_rx subs (s_buf s') L;
               res_path := PathAccepted |}
       else {| res_reasm := <[k := s']> g; res_events := [];
               res_path := PathAccepted |}.
Proof.
  intros (Hcnt & Hlen & Hcap & (m & Hmask & Hbits) & Hcount & Hbuflen & Hbuf)
         HiS Hi HS payload s'.
  pose proof (frag_count_small L L_range) as Hsmall.
  pose proof (frag_count_bounds L) as Hb.
  pose proof (frag_chunk_length bs L bs_length i) as Hcl.
  change (Z.to_nat CAN_BUS_REASM_MAX_BYTES) with 2048%nat in *.
  assert (Hpl : length payload = 56%nat).
  { unfold payload. rewrite length_drop, (frag_frame_length bs L sq bs_length).
    reflexivity. }
  split.
  - unfold collecting, s'. simpl.
    split; [exact Hcnt | split; [exact Hlen | split; [exact Hcap |]]].
    split; [| split; [| split]].
    + exists (Z.lor m (2 ^ Z.of_nat i)). rewrite Hmask.
      split; [apply bit_set_single; lia |].
      intros n. rewrite testbit_lor_pow2 by lia.
      rewrite orb_true_iff, Hbits, Z.eqb_eq. simpl In.
      split.
      * intros [H | H]; [right; exact H | left; lia].
      * intros [H | H]; [right; lia | left; exact H].
    + rewrite Hcount. rewrite u16_small by lia. lia.
    + rewrite memcpy_at_length; [exact Hbuflen | lia | lia].
    + intros i' j HjS Hrange Hj. rewrite memcpy_at_lookup by lia.
      destruct (decide _) as [Hin | Hout].
      * unfold payload, frag_frame.
        rewrite drop_app_length' by reflexivity.
        rewrite lookup_app_l by lia.
        rewrite frag_chunk_lookup by lia. f_equal. lia.
      * destruct HjS as [Heq | HjS]; [| apply (Hbuf i'); assumption].
        exfalso. apply Hout. subst i'. lia.
  - unfold reasm_store. simpl hdr_frag_idx. rewrite Hcap, Hlen.
    replace (u32 (Z.of_nat i * 56)) with (56 * Z.of_nat i)
      by (rewrite u32_small by lia; lia).
    destruct (Z.geb_spec (56 * Z.of_nat i) L) as [? | _]; [lia |].
    replace (if u32 (56 * Z.of_nat i + 56) >? L
             then u32 (L - 56 * Z.of_nat i) else 56)
      with (Z.min 56 (L - 56 * Z.of_nat i)).
    2:{ rewrite !u32_small by lia.
        destruct (Z.gtb_spec (56 * Z.of_nat i + 56) L); lia. }
    rewrite Hmask, bit_test_single by lia.
    assert (Hbit : Z.testbit m (Z.of_nat i) = false).
    { destruct (Z.testbit m (Z.of_nat i)) eqn:E; [| reflexivity].
      apply Hbits in E. contradiction. }
    rewrite Hbit. simpl negb. cbv iota. fold payload. fold s'.
    replace (s_got_count s') with (Z.of_nat (length (i :: S))).
    2:{ unfold s'. simpl. rewrite Hcount, u16_small by lia. lia. }
    replace (s_frag_cnt s') with (frag_count L) by (symmetry; exact Hcnt).
    replace (s_total_len s') with L by (symmetry; exact Hlen).
    reflexivity.
Qed.

Lemma collecting_complete (S : list nat) (s : can_bus_reasm_slot_t) :
  collecting L bs S s ->
  (forall i : nat, Z.of_nat i < frag_count L -> In i S) ->
  take (Z.to_nat L) (s_buf s) = bs.
Proof.
  intros (_ & _ & _ & _ & _ & Hbuflen & Hbuf) Hall.
  pose proof (frag_count_bounds L) as Hb.
  apply list_eq. intros j. rewrite lookup_take.
  destruct (decide (j < Z.to_nat L)%nat) as [Hlt | Hge].
  - pose proof (Nat.div_mod_eq j 56) as Hdm.
    pose proof (Nat.mod_upper_bound j 56 ltac:(lia)) as Hmod.
    apply (Hbuf (j / 56)%nat); [| lia | lia]. apply Hall. nia.
  - symmetry. apply lookup_ge_None. lia.
Qed.

Variable std_id : Z.
Local Abbreviation id := (Z.land std_id 0x7FF).

Lemma rx_frag_eq (i : nat) :
  rx_frag std_id sq L bs i
  = {| rx_std_id := id; rx_len := 64; rx_data := frag_frame sq L bs i |}.
Proof.
  unfold rx_frag, wire_frame, frag_call. simpl tx_header. simpl tx_data.
  unfold fd_tx_header. simpl Identifier. simpl DataLength.
  change (isr_len FDCAN_DLC_BYTES_64) with 64. f_equal.
  - unfold isr_std_id. rewrite <- Z.land_assoc. reflexivity.
  - apply take_ge. rewrite (frag_frame_length bs L sq bs_length). simpl. lia.
Qed.

Lemma frag_hdr_decoded (i : nat) :
  Z.of_nat i < frag_count L ->
  hdr_of_bytes (frag_frame sq L bs i) = frag_hdr sq L i.
Proof.
  intros Hi. pose proof (frag_count_small L L_range).
  pose proof (frag_flags_bits (frag_count L) i) as (_ & _ & Hf).
  unfold frag_frame. apply hdr_roundtrip; simpl; lia.
Qed.

Lemma frag_hdr_accepted (i : nat) :
  Z.of_nat i < frag_count L -> hdr_rejected (frag_hdr sq L i) = false.
Proof.
  intros Hi. pose proof (frag_count_small L L_range).
  unfold hdr_rejected, frag_hdr, CAN_BUS_REASM_MAX_FRAGS,
    CAN_BUS_REASM_MAX_BYTES. simpl.
  destruct (Z.eqb_spec (frag_count L) 0); [lia |].
  destruct (Z.geb_spec (Z.of_nat i) (frag_count L)); [lia |].
  destruct (Z.gtb_spec (frag_count L) 64); [lia |].
  destruct (Z.eqb_spec L 0); [lia |].
  destruct (Z.gtb_spec L 2048); [lia | reflexivity].
Qed.

Lemma handle_fragment_prestore (S : list nat) (i : nat) (now : Z)
    (g : list can_bus_reasm_slot_t) :
  reasm_state id sq L bs S g -> Z.of_nat i < frag_count L ->
  exists k s1 sx,
    (k < length g)%nat
    /\ handle_rx_frame subs (rx_frag std_id sq L bs i) now g
       = reasm_store subs (frag_hdr sq L i) (drop 8 (frag_frame sq L bs i))
           56 now k s1 (<[k := sx]> g)
    /\ slot_is_for id s1 /\ s_seq s1 = sq /\ collecting L bs S s1
    /\ forall j s', j <> k -> g !! j = Some s' -> ~ slot_is_for id s'.
Proof.
  intros [[Hlen Hbufs] Hst] Hi. pose proof (frag_count_small L L_range) as Hsmall.
  assert (Hg : (0 < length g)%nat) by (rewrite Hlen; unfold CAN_BUS_REASM_SLOTS; lia).
  rewrite rx_frag_eq. unfold handle_rx_frame.
  simpl rx_len. simpl rx_data. simpl rx_std_id.
  change (64 >=? sizeof_hdr) with true. cbv iota.
  rewrite frag_hdr_decoded by exact Hi.
  change (hdr_magic (frag_hdr sq L i) =? CAN_BUS_FRAG_MAGIC) with true.
  cbv iota. rewrite frag_hdr_accepted by exact Hi.
  change (u8 (64 - sizeof_hdr)) with 56.
  change (Z.to_nat sizeof_hdr) with 8%nat.
  simpl hdr_seq.
  destruct (reasm_get_slot_cases id sq now g Hg)
    as (k & s0 & s1 & -> & Hk & Hcase).
  assert (Hklt : (k < length g)%nat) by (apply lookup_lt_Some in Hk; exact Hk).
  assert (Hat : slot_at (<[k := s1]> g) k = s1).
  { unfold slot_at. rewrite list_lookup_insert_eq by exact Hklt. reflexivity. }
  rewrite Hat.
  destruct S as [| x S'].
  - (* nothing in flight: a slot is claimed *)
    assert (Hnot : ~ slot_is_for id s0)
      by (apply (Forall_lookup_1 _ _ _ _ Hst Hk)).
    destruct Hcase as [(Hfor & _) | [(Hfor & _) | (_ & ->)]];
      [contradiction | contradiction |].
    simpl s_frag_cnt. change (0 =? 0) with true. cbv iota.
    eexists k, _, _. split; [exact Hklt |]. split; [reflexivity |].
    split; [split; reflexivity |]. split; [reflexivity |].
    split.
    + unfold collecting. simpl.
      split; [reflexivity | split; [reflexivity | split; [reflexivity |]]].
      split; [| split; [reflexivity | split]].
      * exists 0. split; [reflexivity |]. intros n. rewrite Z.bits_0.
        split; [discriminate | intros []].
      * apply (Forall_lookup_1 _ _ _ _ Hbufs Hk).
      * intros ? ? [].
    + intros j s' _ Hj. apply (Forall_lookup_1 _ _ _ _ Hst Hj).
  - (* the message is in flight in slot k0 *)
    destruct Hst as (k0 & s & Hk0 & Hfor & Hseq & Hcol & Hothers).
    assert (Hsame : slot_is_for id s0 -> k = k0 /\ s0 = s).
    { intros Hfor0. destruct (Nat.eq_dec k k0) as [-> | Hne].
      - split; [reflexivity | congruence].
      - exfalso. apply (Hothers k s0 Hne Hk). exact Hfor0. }
    destruct Hcase as [(Hfor0 & Hsq0 & ->) | [(Hfor0 & Hsq0 & _) | (Hidle & _)]].
    + destruct (Hsame Hfor0) as [-> ->].
      destruct Hcol as (Hcnt & Htl & Hrest).
      simpl s_frag_cnt. simpl s_total_len. rewrite Hcnt, Htl.
      destruct (Z.eqb_spec (frag_count L) 0); [lia |].
      simpl hdr_frag_cnt. simpl hdr_total_len. rewrite !Z.eqb_refl.
      simpl negb. cbv iota.
      eexists k0, _, _. split; [exact Hklt |]. split; [reflexivity |].
      split; [exact Hfor |]. split; [exact Hseq |].
      split; [| exact Hothers].
      unfold collecting. simpl. auto.
    + destruct (Hsame Hfor0) as [-> ->]. contradiction.
    + exfalso. apply (Forall_lookup_1 _ _ _ _ Hidle Hk0). exact Hfor.
Qed.

Lemma notify_rx_take (d1 d2 : list byte) (len : Z) :
  take (Z.to_nat len) d1 = take (Z.to_nat len) d2 ->
  can_bus_notify_rx subs d1 len = can_bus_notify_rx subs d2 len.
Proof. intros H. unfold can_bus_notify_rx. rewrite H. reflexivity. Qed.

Lemma indices_complete (l : list nat) (n : nat) :
  List.NoDup l -> Forall (fun x => (x < n)%nat) l ->
  (length l <= n)%nat
  /\ (length l = n -> forall x, (x < n)%nat -> In x l).
Proof.
  intros Hnd Hlt.
  assert (Hincl : incl l (seq 0 n)).
  { intros x Hx. apply in_seq. rewrite List.Forall_forall in Hlt.
    specialize (Hlt x Hx). lia. }
  split.
  - pose proof (NoDup_incl_length Hnd Hincl) as H.
    rewrite length_seq in H. exact H.
  - intros Hlen x Hx.
    assert (Hback : incl (seq 0 n) l).
    { apply NoDup_length_incl; [exact Hnd | rewrite length_seq; lia | exact Hincl]. }
    apply Hback. apply in_seq. lia.
Qed.

Lemma handle_fragment_step (S : list nat) (i : nat) (now : Z)
    (g : list can_bus_reasm_slot_t) :
  reasm_state id sq L bs S g ->
  List.NoDup (i :: S) ->
  Forall (fun x => (x < Z.to_nat (frag_count L))%nat) (i :: S) ->
  let r := handle_rx_frame subs (rx_frag std_id sq L bs i) now g in
  if Z.of_nat (length (i :: S)) =? frag_count L
  then res_events r = can_bus_notify_rx subs bs L
       /\ reasm_state id sq L bs [] (res_reasm r)
  else res_events r = []
       /\ reasm_state id sq L bs (i :: S) (res_reasm r).
Proof.
  intros Hst Hnd Hlt r. pose proof (frag_count_small L L_range) as Hsmall.
  destruct (indices_complete _ _ Hnd Hlt) as [Hle Hall].
  assert (Hi : Z.of_nat i < frag_count L).
  { inversion Hlt; subst. lia. }
  assert (HiS : ~ In i S) by (inversion Hnd; assumption).
  assert (HS : Z.of_nat (length S) < frag_count L) by (simpl in Hle; lia).
  destruct (handle_fragment_prestore S i now g Hst Hi)
    as (k & s1 & sx & Hk & Hrun & Hfor & Hseq & Hcol & Hothers).
  destruct (reasm_store_new S i now k s1 (<[k := sx]> g) Hcol HiS Hi HS)
    as [Hcol' Hstore].
  cbv zeta in Hcol', Hstore.
  unfold r. rewrite Hrun, Hstore. clear Hrun Hstore.
  set (s' := set_last_tick now _) in *.
  destruct Hst as [[Hlen Hbufs] _].
  assert (Hbuf' : length (s_buf s') = Z.to_nat CAN_BUS_REASM_MAX_BYTES)
    by apply Hcol'.
  destruct (Z.eqb_spec (Z.of_nat (length (i :: S))) (frag_count L)) as [Heq | Hne];
    cbn [res_events res_reasm]; rewrite list_insert_insert_eq.
  - split.
    + apply notify_rx_take. rewrite (collecting_complete (i :: S) s' Hcol').
      * rewrite take_ge by lia. reflexivity.
      * intros x Hx. apply Hall; lia.
    + split; [split |].
      * rewrite length_insert. exact Hlen.
      * apply Forall_insert; [exact Hbufs | exact Hbuf'].
      * apply Forall_lookup. intros j y Hj.
        destruct (Nat.eq_dec j k) as [-> | Hjk].
        -- rewrite list_lookup_insert_eq in Hj by exact Hk.
           injection Hj as <-. intros [Hact _]. discriminate Hact.
        -- rewrite list_lookup_insert_ne in Hj by auto.
           apply (Hothers j y Hjk Hj).
  - split; [reflexivity |]. split; [split |].
    + rewrite length_insert. exact Hlen.
    + apply Forall_insert; [exact Hbufs | exact Hbuf'].
    + exists k, s'. split; [apply list_lookup_insert_eq; exact Hk |].
      split; [exact Hfor |]. split; [exact Hseq |]. split; [exact Hcol' |].
      intros j y Hjk Hj. rewrite list_lookup_insert_ne in Hj by auto.
      apply (Hothers j y Hjk Hj).
Qed.

Lemma reassemble_rest (rest : list nat) :
  forall (rx : list (can_bus_rx_frame_t * Z)) (S : list nat)
         (g : list can_bus_reasm_slot_t),
    map fst rx = map (rx_frag std_id sq L bs) rest ->
    rest <> [] ->
    List.NoDup (rest ++ S) ->
    Forall (fun x => (x < Z.to_nat (frag_count L))%nat) (rest ++ S) ->
    Z.of_nat (length (rest ++ S)) = frag_count L ->
    reasm_state id sq L bs S g ->
    exists g',
      handle_rx_frames subs rx g = (g', can_bus_notify_rx subs bs L)
      /\ reasm_state id sq L bs [] g'.
Proof.
  induction rest as [| i rest IH]; intros rx S g Hrx Hne Hnd Hlt Hlen Hst;
    [contradiction |].
  destruct rx as [| [f now] rx]; [discriminate Hrx |].
  simpl in Hrx. injection Hrx as -> Hrx.
  assert (Hnd1 : List.NoDup (i :: S)).
  { simpl in Hnd. inversion Hnd as [| ? ? Hni Hnd']; subst. constructor.
    - intros Hin. apply Hni. apply in_or_app. right. exact Hin.
    - apply NoDup_app_remove_l in Hnd'. exact Hnd'. }
  assert (Hlt1 : Forall (fun x => (x < Z.to_nat (frag_count L))%nat) (i :: S)).
  { simpl in Hlt. inversion Hlt; subst. constructor; [assumption |].
    apply Forall_app in H2. apply H2. }
  pose proof (handle_fragment_step S i now g Hst Hnd1 Hlt1) as Hstep.
  cbv zeta in Hstep. simpl handle_rx_frames.
  destruct (Z.eqb_spec (Z.of_nat (length (i :: S))) (frag_count L)) as [Heq | Hneq].
  - assert (rest = []) as ->.
    { destruct rest; [reflexivity |]. simpl in Hlen, Heq.
      rewrite length_app in Hlen. simpl in Hlen. lia. }
    destruct rx; [| discriminate Hrx]. simpl.
    destruct Hstep as [-> Hst']. rewrite app_nil_r. eauto.
  - destruct Hstep as [-> Hst'].
    assert (Hrest : rest <> []).
    { intros ->. simpl in Hlen, Hneq. lia. }
    destruct (IH rx (i :: S)
                (res_reasm (handle_rx_frame subs (rx_frag std_id sq L bs i) now g))
                Hrx Hrest) as (g' & Hrun & Hfin).
    + apply (Permutation_NoDup (l := (i :: rest) ++ S)); [| exact Hnd].
      simpl. apply Permutation_middle.
    + apply List.Forall_forall. intros x Hx.
      rewrite List.Forall_forall in Hlt. apply Hlt. simpl.
      apply (Permutation_in x (Permutation_sym (Permutation_middle rest S i))).
      exact Hx.
    + rewrite <- Hlen. rewrite !length_app. simpl. lia.
    + exact Hst'.
    + exists g'. rewrite Hrun. simpl. auto.
Qed.

End Reassembly.

(** The round trip on a receiver with no reassembly in progress for the
    CAN id: for every buffer of [L] bytes with [1 <= L <= 2048], if
    [can_bus_send_large] fragments it successfully and the wire frames are
    handed to [handle_rx_frame] in any order, each exactly once, then the
    subscribers are notified exactly once, with the original [L] bytes; the
    slot used is free again afterwards.  The precondition on the receiver
    is needed: a message that follows an unfinished one of the same id is
    lost. *)
Theorem fragment_reassembly_roundtrip (drv : hal_driver)
    (subs : list can_bus_sub_t) (bs : list byte) (L std_id : Z)
    (st st' : can_bus_tx) (g : list can_bus_reasm_slot_t)
    (rx : list (can_bus_rx_frame_t * Z))
    (HL : 1 <= L <= 2048) (Hbs : Z.of_nat (length bs) = L)
    (Hseq : 0 <= g_seq st < 256)
    (Hsend : can_bus_send_large drv (Some bs) L std_id st = Some (HAL_OK, st'))
    (Hwf : reasm_wf g) (Hidle : reasm_idle_for (Z.land std_id 0x7FF) g)
    (Hperm : Permutation (map fst rx)
               (map wire_frame (drop (length (tx_log st)) (tx_log st')))) :
  exists g',
    handle_rx_frames subs rx g = (g', can_bus_notify_rx subs bs L)
    /\ Forall (fun e => ev_data e = bs /\ ev_len e = L)
              (can_bus_notify_rx subs bs L)
    /\ map (fun e => (ev_cb e, ev_user e)) (can_bus_notify_rx subs bs L)
       = registered subs
    /\ reasm_wf g' /\ reasm_idle_for (Z.land std_id 0x7FF) g'.
Proof.
  destruct (can_bus_send_large_ok drv bs L std_id st st' Hbs Hsend)
    as (_ & _ & _ & Hlog & _).
  rewrite Hlog, drop_app_length, map_map in Hperm.
  change (map (fun x => wire_frame (frag_call std_id (g_seq st) L bs x)))
    with (map (rx_frag std_id (g_seq st) L bs)) in Hperm.
  apply Permutation_map_inv in Hperm as (idxs & Hrx & Hidx).
  pose proof (frag_count_small L HL) as Hsmall.
  assert (Hlen : length idxs = Z.to_nat (frag_count L)).
  { rewrite <- (Permutation_length Hidx). apply length_seq. }
  destruct (reassemble_rest subs bs L (g_seq st) HL Hbs Hseq std_id idxs rx []
              g Hrx) as (g' & Hrun & Hwf' & Hidle').
  - intros ->. simpl in Hlen. lia.
  - rewrite app_nil_r. apply (Permutation_NoDup Hidx). apply seq_NoDup.
  - rewrite app_nil_r. apply List.Forall_forall. intros x Hx.
    apply (Permutation_in x (Permutation_sym Hidx)) in Hx.
    apply in_seq in Hx. lia.
  - rewrite app_nil_r. lia.
  - split; [exact Hwf | exact Hidle].
  - exists g'. split; [exact Hrun |].
    pose proof (notify_rx_events subs bs L) as [Hev Hreg]. cbv zeta in Hev, Hreg.
    rewrite take_ge in Hev by lia.
    split; [exact Hev | split; [exact Hreg | split; [exact Hwf' | exact Hidle']]].
Qed.

Lemma fragment_reassembly_roundtrip_witness :
  let bs := counting_bytes 150 in
  let st' := {| g_hfdcan := true; g_seq := 1;
                tx_log := map (frag_call 3 0 150 bs) (seq 0 3) |} in
  let rx := map (fun f => (f, 7)) (rev (map wire_frame (tx_log st'))) in
  exists g',
    handle_rx_frames one_subscriber rx reasm_init
    = (g', can_bus_notify_rx one_subscriber bs 150)
    /\ Forall (fun e => ev_data e = bs /\ ev_len e = 150)
              (can_bus_notify_rx one_subscriber bs 150)
    /\ map (fun e => (ev_cb e, ev_user e))
           (can_bus_notify_rx one_subscriber bs 150)
       = registered one_subscriber
    /\ reasm_wf g' /\ reasm_idle_for (Z.land 3 0x7FF) g'.
Proof.
  intros bs st' rx.
  assert (HL : 1 <= 150 <= 2048) by lia.
  assert (Hseq : 0 <= g_seq tx_ready < 256) by (simpl; lia).
  assert (Hsend : can_bus_send_large drv_ok (Some bs) 150 3 tx_ready
                  = Some (HAL_OK, st')) by (vm_compute; reflexivity).
  assert (Hwf : reasm_wf reasm_init).
  { split; [reflexivity |]. repeat constructor. }
  assert (Hidle : reasm_idle_for (Z.land 3 0x7FF) reasm_init).
  { repeat constructor; intros [Hact _]; discriminate Hact. }
  assert (Hperm : Permutation (map fst rx)
            (map wire_frame (drop (length (tx_log tx_ready)) (tx_log st')))).
  { unfold rx. rewrite map_map. simpl fst. rewrite map_id.
    simpl drop. symmetry. apply Permutation_rev. }
  exact (fragment_reassembly_roundtrip drv_ok one_subscriber bs 150 3 tx_ready
           st' reasm_init rx HL eq_refl Hseq Hsend Hwf Hidle Hperm).
Defined.

(** ** Staleness sweep *)

Lemma slot_age_now (now : Z) (s : can_bus_reasm_slot_t) :
  s_last_tick_ms s = now -> slot_age now s = 0.
Proof. intros H. unfold slot_age. rewrite H, Z.sub_diag. reflexivity. Qed.

Lemma slot_fresh_touched (now : Z) (s : can_bus_reasm_slot_t) :
  s_last_tick_ms s = now -> slot_fresh now s.
Proof.
  intros H _. rewrite slot_age_now by exact H.
  unfold CAN_BUS_REASM_TIMEOUT_MS. lia.
Qed.

Lemma slot_fresh_reset (now : Z) (s : can_bus_reasm_slot_t) :
  slot_fresh now (reasm_reset s).
Proof. intros H. discriminate H. Qed.

Lemma reasm_expire_slot_spec (now : Z) (s : can_bus_reasm_slot_t) :
  reasm_expire_slot now s
  = if s_active s && (slot_age now s >? CAN_BUS_REASM_TIMEOUT_MS)
    then reasm_reset s else s.
Proof.
  unfold reasm_expire_slot. destruct (s_active s); reflexivity.
Qed.

Lemma reasm_expire_slot_fresh (now : Z) (s : can_bus_reasm_slot_t) :
  slot_fresh now (reasm_expire_slot now s).
Proof.
  rewrite reasm_expire_slot_spec. destruct (s_active s) eqn:Ha; simpl.
  - destruct (Z.gtb_spec (slot_age now s) CAN_BUS_REASM_TIMEOUT_MS).
    + apply slot_fresh_reset.
    + intros _. assumption.
  - intros H. congruence.
Qed.

Lemma reasm_expire_old_fresh (now : Z) (g : list can_bus_reasm_slot_t) :
  slots_fresh now (reasm_expire_old now g).
Proof.
  unfold slots_fresh, reasm_expire_old.
  induction g; simpl; constructor; auto using reasm_expire_slot_fresh.
Qed.

(** On a table without stale slots the sweep changes nothing. *)
Lemma reasm_expire_old_id (now : Z) (g : list can_bus_reasm_slot_t) :
  slots_fresh now g -> reasm_expire_old now g = g.
Proof.
  unfold slots_fresh, reasm_expire_old.
  induction 1 as [| s g Hs Hg IH]; simpl; [reflexivity |].
  rewrite IH. f_equal. rewrite reasm_expire_slot_spec.
  destruct (s_active s) eqn:Ha; [| reflexivity]. simpl.
  specialize (Hs Ha).
  destruct (Z.gtb_spec (slot_age now s) CAN_BUS_REASM_TIMEOUT_MS);
    [lia | reflexivity].
Qed.

Lemma reasm_expire_old_lookup (now : Z) (g : list can_bus_reasm_slot_t)
    (j : nat) (s : can_bus_reasm_slot_t) :
  g !! j = Some s ->
  reasm_expire_old now g !! j = Some (reasm_expire_slot now s).
Proof.
  intros H. unfold reasm_expire_old.
  change (map (reasm_expire_slot now) g) with (reasm_expire_slot now <$> g).
  rewrite list_lookup_fmap, H. reflexivity.
Qed.

Lemma reasm_expire_old_insert_reset (now : Z) (g : list can_bus_reasm_slot_t)
    (k : nat) (s : can_bus_reasm_slot_t) :
  g !! k = Some s -> s_active s = true ->
  CAN_BUS_REASM_TIMEOUT_MS < slot_age now s ->
  reasm_expire_old now (<[k := reasm_reset s]> g) = reasm_expire_old now g.
Proof.
  intros Hk Ha Hage. unfold reasm_expire_old.
  change (map (reasm_expire_slot now) (<[k := reasm_reset s]> g))
    with (reasm_expire_slot now <$> <[k := reasm_reset s]> g).
  change (map (reasm_expire_slot now) g) with (reasm_expire_slot now <$> g).
  rewrite list_fmap_insert. apply list_insert_id.
  rewrite list_lookup_fmap, Hk. simpl. f_equal.
  rewrite !reasm_expire_slot_spec, Ha. simpl.
  destruct (Z.gtb_spec (slot_age now s) CAN_BUS_REASM_TIMEOUT_MS);
    [reflexivity | lia].
Qed.

(** What the fragment branch writes, by the return taken. *)
Lemma reasm_store_touch (subs : list can_bus_sub_t) hdr payload payload_len
    (now : Z) (i : nat) (s : can_bus_reasm_slot_t)
    (g : list can_bus_reasm_slot_t) :
  let r := reasm_store subs hdr payload payload_len now i s g in
  (res_path r = PathOffRange /\ res_reasm r = <[i := s]> g /\ res_events r = [])
  \/ (res_path r = PathAccepted
      /\ exists s',
          s_last_tick_ms s' = now
          /\ ((res_reasm r = <[i := s']> g /\ res_events r = [])
              \/ (res_reasm r = <[i := reasm_reset s']> g
                  /\ res_events r
                     = can_bus_notify_rx subs (s_buf s') (s_total_len s')))).
Proof.
  unfold reasm_store.
  destruct (_ >=? s_total_len s); [left; auto |]. right.
  match goal with
  | |- context [set_last_tick now ?x] => set (s' := set_last_tick now x)
  end.
  destruct (s_got_count s' =? s_frag_cnt s'); simpl;
    (split; [reflexivity |]); exists s'; (split; [reflexivity |]); auto.
Qed.

Lemma handle_rx_frame_touch (subs : list can_bus_sub_t)
    (f : can_bus_rx_frame_t) (now : Z) (g : list can_bus_reasm_slot_t) :
  (0 < length g)%nat ->
  let r := handle_rx_frame subs f now g in
  match res_path r with
  | PathRaw | PathHdrRejected => res_reasm r = g
  | PathMismatch =>
      exists k s, (k < length g)%nat /\ res_reasm r = <[k := reasm_reset s]> g
  | PathOffRange =>
      exists k s, (k < length g)%nat /\ res_reasm r = <[k := s]> g
                  /\ s_last_tick_ms s = now /\ res_events r = []
  | PathAccepted =>
      exists k s,
        (k < length g)%nat /\ s_last_tick_ms s = now
        /\ ((res_reasm r = <[k := s]> g /\ res_events r = [])
            \/ (res_reasm r = <[k := reasm_reset s]> g
                /\ res_events r
                   = can_bus_notify_rx subs (s_buf s) (s_total_len s)))
  end.
Proof.
  intros Hg. unfold handle_rx_frame.
  destruct (rx_len f >=? sizeof_hdr); [| reflexivity].
  destruct (hdr_magic _ =? CAN_BUS_FRAG_MAGIC); [| reflexivity].
  destruct (hdr_rejected _); [reflexivity |].
  destruct (reasm_get_slot_cases (rx_std_id f)
              (hdr_seq (hdr_of_bytes (rx_data f))) now g Hg)
    as (k & s0 & s1 & -> & Hk & Hcase).
  assert (Hklt : (k < length g)%nat) by (apply lookup_lt_Some in Hk; exact Hk).
  assert (Htick : s_last_tick_ms s1 = now).
  { destruct Hcase as [(_ & _ & ->) | [(_ & _ & ->) | (_ & ->)]]; reflexivity. }
  assert (Hat : slot_at (<[k := s1]> g) k = s1).
  { unfold slot_at. rewrite list_lookup_insert_eq by exact Hklt. reflexivity. }
  rewrite Hat.
  assert (Hstore : forall s, s_last_tick_ms s = now ->
            let r := reasm_store subs (hdr_of_bytes (rx_data f))
                       (drop (Z.to_nat sizeof_hdr) (rx_data f))
                       (u8 (rx_len f - sizeof_hdr)) now k s (<[k := s1]> g) in
            match res_path r with
            | PathRaw | PathHdrRejected => res_reasm r = g
            | PathMismatch =>
                exists k s, (k < length g)%nat
                            /\ res_reasm r = <[k := reasm_reset s]> g
            | PathOffRange =>
                exists k s, (k < length g)%nat /\ res_reasm r = <[k := s]> g
                            /\ s_last_tick_ms s = now /\ res_events r = []
            | PathAccepted =>
                exists k s,
                  (k < length g)%nat /\ s_last_tick_ms s = now
                  /\ ((res_reasm r = <[k := s]> g /\ res_events r = [])
                      \/ (res_reasm r = <[k := reasm_reset s]> g
                          /\ res_events r
                             = can_bus_notify_rx subs (s_buf s) (s_total_len s)))
            end).
  { intros s Hs r.
    destruct (reasm_store_touch subs (hdr_of_bytes (rx_data f))
                (drop (Z.to_nat sizeof_hdr) (rx_data f))
                (u8 (rx_len f - sizeof_hdr)) now k s (<[k := s1]> g))
      as [(Hp & Hr & He) | (Hp & s' & Hs' & Hr)]; fold r in Hp, Hr |- *;
      rewrite Hp.
    - fold r in He. exists k, s. rewrite Hr, list_insert_insert_eq. auto.
    - exists k, s'. split; [exact Hklt |]. split; [exact Hs' |].
      destruct Hr as [[Hr He] | [Hr He]]; rewrite Hr, list_insert_insert_eq;
        auto. }
  destruct (s_frag_cnt s1 =? 0).
  - apply Hstore. exact Htick.
  - destruct (negb _); simpl.
    + exists k, s1. rewrite list_insert_insert_eq. auto.
    + destruct (negb _); simpl.
      * exists k, s1. rewrite list_insert_insert_eq. auto.
      * apply Hstore. exact Htick.
Qed.

Lemma handle_rx_frame_length (subs : list can_bus_sub_t)
    (f : can_bus_rx_frame_t) (now : Z) (g : list can_bus_reasm_slot_t) :
  (0 < length g)%nat ->
  length (res_reasm (handle_rx_frame subs f now g)) = length g.
Proof.
  intros Hg. pose proof (handle_rx_frame_touch subs f now g Hg) as H.
  cbv zeta in H. destruct (res_path _).
  - rewrite H. reflexivity.
  - rewrite H. reflexivity.
  - destruct H as (k & s & _ & ->). apply length_insert.
  - destruct H as (k & s & _ & -> & _). apply length_insert.
  - destruct H as (k & s & _ & _ & [[-> _] | [-> _]]); apply length_insert.
Qed.

(** Handling a frame at tick [now] never leaves a slot stale for [now]. *)
Lemma handle_rx_frame_fresh (subs : list can_bus_sub_t)
    (f : can_bus_rx_frame_t) (now : Z) (g : list can_bus_reasm_slot_t) :
  (0 < length g)%nat -> slots_fresh now g ->
  slots_fresh now (res_reasm (handle_rx_frame subs f now g)).
Proof.
  intros Hg Hfresh. pose proof (handle_rx_frame_touch subs f now g Hg) as H.
  cbv zeta in H. unfold slots_fresh in *. destruct (res_path _).
  - rewrite H. exact Hfresh.
  - rewrite H. exact Hfresh.
  - destruct H as (k & s & _ & ->).
    apply Forall_insert; [exact Hfresh | apply slot_fresh_reset].
  - destruct H as (k & s & _ & -> & Hs & _).
    apply Forall_insert; [exact Hfresh | apply slot_fresh_touched, Hs].
  - destruct H as (k & s & _ & Hs & [[-> _] | [-> _]]);
      (apply Forall_insert; [exact Hfresh |]).
    + apply slot_fresh_touched, Hs.
    + apply slot_fresh_reset.
Qed.

Lemma process_rx_sweep_each_eq (now : Z) (fuel : nat) :
  forall (st : can_bus_rx) (evs : list rx_event),
    (0 < length (g_reasm st))%nat -> slots_fresh now (g_reasm st) ->
    process_rx_sweep_each fuel now st evs = process_rx_loop fuel now st evs.
Proof.
  induction fuel as [| fuel IH]; intros st evs Hg Hfresh; [reflexivity |].
  simpl. destruct (rb_pop (rx_ringbuf st)) as [[f |] r']; [| reflexivity].
  rewrite (reasm_expire_old_id now (g_reasm st) Hfresh).
  apply IH; simpl.
  - rewrite handle_rx_frame_length; assumption.
  - apply handle_rx_frame_fresh; assumption.
Qed.

(** The loop drains the ring within the bound and keeps the table fresh. *)
Lemma process_rx_loop_total (now : Z) (fuel : nat) :
  forall (st : can_bus_rx) (evs : list rx_event),
    rb_wf (rx_ringbuf st) -> (Z.to_nat (rb_count (rx_ringbuf st)) < fuel)%nat ->
    (0 < length (g_reasm st))%nat -> slots_fresh now (g_reasm st) ->
    exists st' evs',
      process_rx_loop fuel now st evs = Some (st', evs')
      /\ g_rx_head (rx_ringbuf st') = g_rx_tail (rx_ringbuf st')
      /\ slots_fresh now (g_reasm st')
      /\ length (g_reasm st') = length (g_reasm st).
Proof.
  induction fuel as [| fuel IH]; intros st evs Hwf Hfuel Hg Hfresh; [lia |].
  simpl. destruct (Z.eq_dec (g_rx_head (rx_ringbuf st)) (g_rx_tail (rx_ringbuf st)))
    as [He | Hne].
  - rewrite rb_pop_empty by exact He.
    eexists _, _. split; [reflexivity |]. simpl. auto.
  - destruct (rb_pop_nonempty _ Hwf Hne) as (f & r' & -> & Hwf' & _ & Hc).
    destruct (IH {| rx_ringbuf := r';
                    g_reasm := res_reasm (handle_rx_frame (g_subs st) f now (g_reasm st));
                    g_subs := g_subs st |}
                 (evs ++ res_events (handle_rx_frame (g_subs st) f now (g_reasm st))))
      as (st' & evs' & Hrun & Hempty & Hfresh' & Hlen'); simpl.
    + exact Hwf'.
    + pose proof (rb_count_range r'). lia.
    + rewrite handle_rx_frame_length; assumption.
    + apply handle_rx_frame_fresh; assumption.
    + exists st', evs'. split; [exact Hrun |]. split; [exact Hempty |].
      split; [exact Hfresh' |]. simpl in Hlen'.
      rewrite Hlen'. apply handle_rx_frame_length. exact Hg.
Qed.

(** C4, counterexample: fragment 0 of a two-fragment message is processed
    at tick 1000 and nothing is accepted for 250 ms; fragment 1, processed
    at tick 1250, still completes the message, because the sweep resets a
    slot only when its age exceeds 250. *)
Lemma stale_at_250_ms_still_completes :
  1250 - 1000 >= 250
  /\ two_call_scenario 1000 1250
     = Some (can_bus_notify_rx one_subscriber stale_msg 100)
  /\ two_call_scenario 1000 1250 <> Some [].
Proof.
  split; [lia |]. split; [vm_compute; reflexivity |].
  vm_compute. discriminate.
Qed.

(** One millisecond later the partial message is gone. *)
Lemma stale_at_251_ms_is_dropped : two_call_scenario 1000 1251 = Some [].
Proof. vm_compute. reflexivity. Qed.

(** ** Header validation *)

(** C5: a frame recognised as a fragment has its header rejected exactly
    when [frag_cnt = 0], or [frag_idx >= frag_cnt], or [frag_cnt > 64], or
    [total_len = 0], or [total_len > 2048]; a rejected frame is dropped
    with no slot modified and no subscriber notified, whereas a frame whose
    header passes goes on to the slot table, where a slot is written. *)
Theorem hdr_rejection (subs : list can_bus_sub_t)
    (f : can_bus_rx_frame_t) (now_ms : Z) (g : list can_bus_reasm_slot_t)
    (Hfrag : 8 <= rx_len f /\ wire_magic f = 0x5344)
    (Hg : length g = CAN_BUS_REASM_SLOTS) :
  let hdr := hdr_of_bytes (rx_data f) in
  let r := handle_rx_frame subs f now_ms g in
  let bad := hdr_frag_cnt hdr = 0 \/ hdr_frag_idx hdr >= hdr_frag_cnt hdr
             \/ hdr_frag_cnt hdr > 64 \/ hdr_total_len hdr = 0
             \/ hdr_total_len hdr > 2048 in
  (res_path r = PathHdrRejected <-> bad)
  /\ (bad -> res_reasm r = g /\ res_events r = [])
  /\ (~ bad ->
      exists k s, (k < length g)%nat /\ res_reasm r = <[k := s]> g
                  /\ (s_last_tick_ms s = now_ms \/ s_active s = false)).
Proof.
  intros hdr r bad. apply is_fragment_spec in Hfrag.
  assert (Hbad : hdr_rejected hdr = true <-> bad) by apply hdr_rejected_spec.
  assert (Hlen : (0 < length g)%nat)
    by (rewrite Hg; unfold CAN_BUS_REASM_SLOTS; lia).
  destruct (hdr_rejected hdr) eqn:Hrej.
  - assert (Hb : bad) by (apply Hbad; reflexivity).
    unfold r. rewrite handle_rx_frame_rejected by assumption. simpl.
    split; [split; auto | split; [auto | intros Hn; contradiction]].
  - assert (Hn : ~ bad) by (intros Hb; apply Hbad in Hb; discriminate Hb).
    pose proof (handle_rx_frame_valid_path subs f now_ms g Hfrag Hrej) as Hp.
    pose proof (handle_rx_frame_touch subs f now_ms g Hlen) as Ht.
    cbv zeta in Hp, Ht. fold r in Hp, Ht.
    split; [split; [| intros Hb; contradiction] | split;
      [intros Hb; contradiction |]].
    + intros Hr. rewrite Hr in Hp. destruct Hp as [? | [? | ?]]; discriminate.
    + intros _. destruct Hp as [Hp | [Hp | Hp]]; rewrite Hp in Ht.
      * destruct Ht as (k & s & Hk & Hr). exists k, (reasm_reset s). auto.
      * destruct Ht as (k & s & Hk & Hr & Hs & _). exists k, s. auto.
      * destruct Ht as (k & s & Hk & Hs & [[Hr _] | [Hr _]]).
        -- exists k, s. auto.
        -- exists k, (reasm_reset s). auto.
Qed.

Lemma hdr_rejection_witness :
  let r := handle_rx_frame one_subscriber bad_header_frame 0 reasm_init in
  res_path r = PathHdrRejected /\ res_reasm r = reasm_init /\ res_events r = [].
Proof.
  intros r.
  assert (Hfrag : 8 <= rx_len bad_header_frame
                  /\ wire_magic bad_header_frame = 0x5344)
    by (split; [simpl; lia | reflexivity]).
  destruct (hdr_rejection one_subscriber bad_header_frame 0 reasm_init Hfrag
              eq_refl) as (Hiff & Hdrop & _).
  assert (Hb : hdr_frag_cnt (hdr_of_bytes (rx_data bad_header_frame)) = 0)
    by reflexivity.
  split; [apply Hiff; left; exact Hb | apply Hdrop; left; exact Hb].
Defined.

(** ** A sequence change on a busy id *)

(** When a message follows an unfinished one of the same id,
    [reasm_get_slot] resets the slot for the new sequence number but leaves
    it inactive, with [std_id] and [seq] cleared.  The next fragment then
    finds no slot for the id and claims one afresh, and the new message is
    never delivered although all of its fragments arrived. *)
Lemma seq_change_loses_message :
  let '(g, evs) :=
    handle_rx_frames one_subscriber seq_change_scenario reasm_init in
  evs = []
  /\ map (fun s => (s_active s, s_seq s, s_frag_cnt s, s_got_count s)) g
     = [(true, 1, 2, 1); (false, 0, 0, 0); (false, 0, 0, 0); (false, 0, 0, 0)].
Proof. vm_compute. split; reflexivity. Qed.

(** C1, failing input: the claim promises one notification with the
    original bytes whenever the frames of a [can_bus_send_large] call are
    handled, each once, in any order.  A sender transmits two 100-byte
    messages with id 3, one after the other; the second frame of the first
    message is lost, so the receiver holds an unfinished message with
    sequence number 0 when the two frames of the second message, sequence
    number 1, arrive.  Handled in either order, through [handle_rx_frame]
    directly or through the interrupt and the worker, they give no callback
    at all, although one subscriber is registered; the same two frames on a
    receiver with nothing in flight deliver the message.  The cause is
    [reasm_get_slot]: on a change of sequence number it resets the slot,
    which clears [active], [std_id] and [seq], and returns it without
    claiming it again. *)
Theorem roundtrip_fails_after_unfinished_message :
  exists first second,
    back_to_back = Some (first, second, HAL_OK)
    /\ length first = 2%nat /\ length second = 2%nat
    /\ let g := reasm_after_lost_frame first in
       let rx := map (fun c => (wire_frame c, 20)) second in
       reasm_wf g
       /\ snd (handle_rx_frames one_subscriber rx reasm_init)
          = can_bus_notify_rx one_subscriber next_msg 100
       /\ length (can_bus_notify_rx one_subscriber next_msg 100) = 1%nat
       /\ snd (handle_rx_frames one_subscriber rx g) = []
       /\ snd (handle_rx_frames one_subscriber (rev rx) g) = []
       /\ worker_after_lost_frame first second = Some []
       /\ worker_after_lost_frame first (rev second) = Some [].
Proof.
  eexists _, _. split; [vm_compute; reflexivity |].
  split; [reflexivity |]. split; [reflexivity |].
  split; [split; [reflexivity | repeat constructor] |].
  split; [vm_compute; reflexivity |].
  split; [reflexivity |].
  repeat split; vm_compute; reflexivity.
Qed.

(** ** The ring as a FIFO, and the ISR that fills it *)

(** X1: frames pushed into a ring with room for them come out of the
    thread's pops in the order of the pushes, after the frames that were
    already queued, none lost: with [n] frames queued, up to [63 - n] more
    fit. *)
Theorem rb_fifo_without_loss (ps : list rb_push_args) (r : rx_ring)
    (Hwf : rb_wf r) (Hok : Forall push_ok ps)
    (Hroom : rb_count r + Z.of_nat (length ps) <= 63) :
  map frame_view (rb_drain 64 (rb_push_all ps r))
  = map frame_view (rb_contents r) ++ map push_view ps
  /\ rb_count (rb_push_all ps r) = rb_count r + Z.of_nat (length ps).
Proof.
  assert (Hv : map frame_view (rb_contents (rb_push_all ps r))
               = map frame_view (rb_contents r) ++ map push_view ps).
  { rewrite rb_push_all_view by assumption.
    apply lastn_short.
    rewrite length_app, !length_map.
    pose proof (rb_contents_length r). lia. }
  split.
  - rewrite rb_drain_all by (apply rb_push_all_wf, Hwf). exact Hv.
  - rewrite <- (rb_contents_length (rb_push_all ps r)).
    rewrite <- (length_map frame_view), Hv, length_app, !length_map.
    pose proof (rb_contents_length r). lia.
Qed.

Lemma rb_fifo_without_loss_witness :
  map frame_view
    (rb_drain 64 (rb_push_all (map numbered_push (seq 1 63)) rb_init))
  = map frame_view (rb_contents rb_init)
    ++ map push_view (map numbered_push (seq 1 63))
  /\ rb_count (rb_push_all (map numbered_push (seq 1 63)) rb_init)
     = rb_count rb_init + Z.of_nat (length (map numbered_push (seq 1 63))).
Proof.
  apply (rb_fifo_without_loss (map numbered_push (seq 1 63)) rb_init).
  - exact rb_init_wf.
  - apply Forall_map, Forall_forall. intros k _.
    unfold push_ok, push_clamped_len, numbered_push; simpl. lia.
  - vm_compute. discriminate.
Defined.

Lemma isr_len_range (d : Z) : 0 <= isr_len d <= 64 /\ In (isr_len d) dlc_len_map.
Proof.
  unfold isr_len.
  pose proof (dlc_to_len_in_table d) as Hin.
  pose proof (dlc_table_le_64 _ Hin) as Hb.
  destruct (can_bus_dlc_to_len d >? 64) eqn:E; [lia|].
  rewrite u8_small by lia. split; [lia | exact Hin].
Qed.

Lemma isr_push_ok (rd : rx_fifo_read) :
  (64 <= length (rd_data rd))%nat -> push_ok (isr_push rd).
Proof.
  intros Hd. unfold push_ok, push_clamped_len, isr_push; simpl.
  pose proof (isr_len_range (rxh_DataLength (rd_hdr rd))) as [Hr _].
  destruct (isr_len _ >? 64) eqn:E; lia.
Qed.

Lemma isr_drain_fifo_pushes (fifo : list rx_fifo_read) (r : rx_ring) :
  isr_drain_fifo fifo r = rb_push_all (map isr_push (reads_before_error fifo)) r.
Proof.
  revert r. induction fifo as [|rd fifo IH]; intros r; [reflexivity|].
  simpl. destruct (HAL_status_eqb (rd_status rd) HAL_OK); simpl; [|reflexivity].
  rewrite IH. reflexivity.
Qed.

(** X2: the receive interrupt does nothing unless the new-message bit is
    set; else it queues the messages read before the first failing read, in
    order, each with its identifier cut to 11 bits and the byte count of its
    DLC code, keeping the newest 63 frames. *)
Theorem isr_queues_reads_in_order (new_message its : Z)
    (fifo : list rx_fifo_read) (r : rx_ring)
    (Hwf : rb_wf r)
    (Hdata : Forall (fun rd => (64 <= length (rd_data rd))%nat) fifo) :
  let r' := HAL_FDCAN_RxFifo1Callback new_message its fifo r in
  let reads := reads_before_error fifo in
  rb_wf r'
  /\ (Z.land its new_message = 0 -> r' = r)
  /\ (Z.land its new_message <> 0 ->
      map frame_view (rb_contents r')
      = lastn 63 (map frame_view (rb_contents r)
                  ++ map (fun rd =>
                            (Z.land (rxh_Identifier (rd_hdr rd)) 0x7FF,
                             can_bus_dlc_to_len (rxh_DataLength (rd_hdr rd)),
                             take (Z.to_nat (can_bus_dlc_to_len
                                               (rxh_DataLength (rd_hdr rd))))
                                  (rd_data rd))) reads)).
Proof.
  intros r' reads. subst r'. unfold HAL_FDCAN_RxFifo1Callback.
  assert (Hreads : Forall (fun rd => (64 <= length (rd_data rd))%nat) reads).
  { subst reads. induction Hdata as [|rd fifo Hrd _ IH]; simpl; [constructor|].
    destruct (HAL_status_eqb (rd_status rd) HAL_OK); constructor; assumption. }
  destruct (Z.land its new_message =? 0) eqn:E.
  - apply Z.eqb_eq in E. split; [exact Hwf|]. split; [reflexivity | contradiction].
  - apply Z.eqb_neq in E. rewrite isr_drain_fifo_pushes.
    split; [apply rb_push_all_wf, Hwf|]. split; [contradiction|]. intros _.
    rewrite rb_push_all_view; [|exact Hwf|].
    + f_equal. f_equal. rewrite map_map. apply map_ext. intros rd.
      unfold push_view, push_clamped_len, isr_push, isr_std_id; simpl.
      pose proof (dlc_to_len_in_table (rxh_DataLength (rd_hdr rd))) as Hin.
      apply dlc_table_le_64 in Hin.
      assert (Hl : isr_len (rxh_DataLength (rd_hdr rd))
                   = can_bus_dlc_to_len (rxh_DataLength (rd_hdr rd))).
      { unfold isr_len.
        destruct (can_bus_dlc_to_len _ >? 64) eqn:E'; [lia|].
        apply u8_small. lia. }
      rewrite Hl.
      destruct (can_bus_dlc_to_len _ >? 64) eqn:E'; [lia|]. reflexivity.
    + apply Forall_map. eapply Forall_impl; [exact Hreads|].
      intros rd Hrd. apply isr_push_ok, Hrd.
Qed.

Lemma isr_queues_reads_in_order_witness :
  let fifo := map read_of_call (map (frag_call 3 0 150 (counting_bytes 150)) (seq 0 3)) in
  let r' := HAL_FDCAN_RxFifo1Callback 16 16 fifo rb_init in
  rb_wf r'
  /\ (Z.land 16 16 = 0 -> r' = rb_init)
  /\ (Z.land 16 16 <> 0 ->
      map frame_view (rb_contents r')
      = lastn 63 (map frame_view (rb_contents rb_init)
                  ++ map (fun rd =>
                            (Z.land (rxh_Identifier (rd_hdr rd)) 0x7FF,
                             can_bus_dlc_to_len (rxh_DataLength (rd_hdr rd)),
                             take (Z.to_nat (can_bus_dlc_to_len
                                               (rxh_DataLength (rd_hdr rd))))
                                  (rd_data rd))) (reads_before_error fifo))).
Proof.
  apply (isr_queues_reads_in_order 16 16
           (map read_of_call (map (frag_call 3 0 150 (counting_bytes 150)) (seq 0 3)))
           rb_init).
  - exact rb_init_wf.
  - repeat constructor.
Defined.

(** ** What [handle_rx_frame] reads of a frame *)

Lemma byte_at_take (bs : list byte) (n i : nat) :
  (i < n)%nat -> byte_at (take n bs) i = byte_at bs i.
Proof.
  intros Hi. unfold byte_at. f_equal.
  change (take n bs) with (firstn n bs).
  rewrite nth_firstn. destruct (Nat.ltb_spec i n); [reflexivity | lia].
Qed.

Lemma hdr_of_bytes_take (bs : list byte) (n : nat) :
  (8 <= n)%nat -> hdr_of_bytes (take n bs) = hdr_of_bytes bs.
Proof.
  intros Hn. unfold hdr_of_bytes. rewrite !byte_at_take by lia. reflexivity.
Qed.

Lemma take_drop_take {A : Type} (l : list A) (n k m : nat) :
  (k + m <= n)%nat -> take m (drop k (take n l)) = take m (drop k l).
Proof.
  intros H. rewrite !take_drop_commute, take_take.
  f_equal. f_equal. lia.
Qed.

Lemma u8_le (z : Z) : 0 <= z -> 0 <= u8 z <= z.
Proof.
  intros Hz. unfold u8. pose proof (Z.mod_pos_bound z (2 ^ 8) ltac:(lia)).
  pose proof (Z.mod_le z (2 ^ 8) Hz ltac:(lia)). lia.
Qed.

Lemma u32_range (z : Z) : 0 <= u32 z < 2 ^ 32.
Proof. unfold u32. apply Z.mod_pos_bound. lia. Qed.

(** The number of bytes [reasm_store] copies never exceeds the payload
    length it was given. *)
Lemma store_take_le (off pl tl : Z) :
  0 <= off < 2 ^ 32 -> 0 <= pl < 256 -> off < tl ->
  0 <= (if u32 (off + pl) >? tl then u32 (tl - off) else pl) <= pl.
Proof.
  intros Hoff Hpl Hlt.
  destruct (Z.gtb_spec (u32 (off + pl)) tl) as [Hgt | Hle]; [|lia].
  destruct (Z_lt_ge_dec (off + pl) (2 ^ 32)) as [Hs | Hb].
  - rewrite u32_small in Hgt by lia. rewrite u32_small by lia. lia.
  - exfalso. unfold u32 in Hgt.
    replace (off + pl) with (off + pl - 2 ^ 32 + 1 * 2 ^ 32) in Hgt by lia.
    rewrite Z.mod_add in Hgt by lia. rewrite Z.mod_small in Hgt by lia. lia.
Qed.

Lemma reasm_store_payload (subs : list can_bus_sub_t) hdr (p1 p2 : list byte)
    (pl now : Z) (i : nat) s g :
  0 <= pl < 256 ->
  take (Z.to_nat pl) p1 = take (Z.to_nat pl) p2 ->
  reasm_store subs hdr p1 pl now i s g = reasm_store subs hdr p2 pl now i s g.
Proof.
  intros Hpl Hp. unfold reasm_store.
  destruct (Z.geb_spec (u32 (hdr_frag_idx hdr * s_data_cap s)) (s_total_len s))
    as [|Hlt]; [reflexivity|].
  pose proof (u32_range (hdr_frag_idx hdr * s_data_cap s)) as Hoff.
  pose proof (store_take_le _ pl _ Hoff Hpl Hlt) as Htk.
  set (tk := if u32 (u32 (hdr_frag_idx hdr * s_data_cap s) + pl) >? s_total_len s
             then u32 (s_total_len s - u32 (hdr_frag_idx hdr * s_data_cap s))
             else pl) in *.
  assert (Hcopy : forall off,
             slot_mark_copy (hdr_frag_idx hdr) off tk p1 s
             = slot_mark_copy (hdr_frag_idx hdr) off tk p2 s).
  { intros off. unfold slot_mark_copy, memcpy_at. f_equal. f_equal. f_equal.
    assert (Ht : forall p : list byte,
               take (Z.to_nat tk) p = take (Z.to_nat tk) (take (Z.to_nat pl) p)).
    { intros p. rewrite take_take. f_equal. lia. }
    rewrite (Ht p1), (Ht p2), Hp. reflexivity. }
  rewrite Hcopy. reflexivity.
Qed.

Lemma frame_view_inv (f f' : can_bus_rx_frame_t) :
  frame_view f = frame_view f' ->
  rx_std_id f = rx_std_id f' /\ rx_len f = rx_len f'
  /\ take (Z.to_nat (rx_len f)) (rx_data f)
     = take (Z.to_nat (rx_len f)) (rx_data f').
Proof.
  unfold frame_view. intros H. injection H as H1 H2 H3.
  rewrite <- H2 in H3. auto.
Qed.

Lemma handle_rx_frame_view (subs : list can_bus_sub_t)
    (f f' : can_bus_rx_frame_t) (now : Z) (g : list can_bus_reasm_slot_t) :
  frame_view f = frame_view f' ->
  handle_rx_frame subs f now g = handle_rx_frame subs f' now g.
Proof.
  intros Hv. apply frame_view_inv in Hv as (Hid & Hlen & Hdata).
  unfold handle_rx_frame. rewrite <- Hid, <- Hlen.
  rewrite (notify_rx_take subs (rx_data f) (rx_data f') (rx_len f) Hdata).
  destruct (Z.geb_spec (rx_len f) sizeof_hdr) as [Hge | ]; [|reflexivity].
  unfold sizeof_hdr in Hge.
  assert (Hh : hdr_of_bytes (rx_data f) = hdr_of_bytes (rx_data f')).
  { rewrite <- (hdr_of_bytes_take (rx_data f) (Z.to_nat (rx_len f))) by lia.
    rewrite <- (hdr_of_bytes_take (rx_data f') (Z.to_nat (rx_len f))) by lia.
    rewrite Hdata. reflexivity. }
  rewrite <- Hh.
  destruct (hdr_magic (hdr_of_bytes (rx_data f)) =? CAN_BUS_FRAG_MAGIC);
    [|reflexivity].
  destruct (hdr_rejected (hdr_of_bytes (rx_data f))); [reflexivity|].
  pose proof (u8_le (rx_len f - sizeof_hdr) ltac:(unfold sizeof_hdr; lia)) as Hu.
  assert (Hpl : 0 <= u8 (rx_len f - sizeof_hdr) < 256)
    by (unfold u8; apply Z.mod_pos_bound; lia).
  assert (Hp : take (Z.to_nat (u8 (rx_len f - sizeof_hdr)))
                 (drop (Z.to_nat sizeof_hdr) (rx_data f))
               = take (Z.to_nat (u8 (rx_len f - sizeof_hdr)))
                   (drop (Z.to_nat sizeof_hdr) (rx_data f'))).
  { rewrite <- (take_drop_take (rx_data f) (Z.to_nat (rx_len f)))
      by (unfold sizeof_hdr in *; lia).
    rewrite <- (take_drop_take (rx_data f') (Z.to_nat (rx_len f)))
      by (unfold sizeof_hdr in *; lia).
    rewrite Hdata. reflexivity. }
  destruct (reasm_get_slot (rx_std_id f) (hdr_seq (hdr_of_bytes (rx_data f)))
              now g) as [i g1].
  rewrite !(reasm_store_payload subs _ _ _ _ _ _ _ _ Hpl Hp).
  reflexivity.
Qed.

Lemma handle_rx_frames_view (subs : list can_bus_sub_t)
    (rx rx' : list (can_bus_rx_frame_t * Z)) :
  map (fun p => (frame_view (fst p), snd p)) rx
  = map (fun p => (frame_view (fst p), snd p)) rx' ->
  forall g, handle_rx_frames subs rx g = handle_rx_frames subs rx' g.
Proof.
  revert rx'. induction rx as [|[f t] rx IH]; intros [|[f' t'] rx'] H g;
    try discriminate; [reflexivity|].
  rewrite !map_cons in H. cbn [fst snd] in H.
  assert (Hv : frame_view f = frame_view f') by congruence.
  assert (Ht : t = t') by congruence.
  assert (Hrest : map (fun p => (frame_view (fst p), snd p)) rx
                  = map (fun p => (frame_view (fst p), snd p)) rx')
    by congruence.
  subst t'. simpl. rewrite (handle_rx_frame_view subs f f' t g Hv).
  rewrite (IH rx' Hrest). reflexivity.
Qed.

(** X3: the receive path looks at a frame's identifier, its length and its
    first [len] data bytes only.  Two frame sequences that agree on these
    give the same callbacks and the same table; in particular whatever
    follows the first [len] bytes of a ring slot, left there by an earlier
    frame, can be replaced by anything without effect. *)
Theorem rx_reads_only_len_bytes (subs : list can_bus_sub_t)
    (rx rx' : list (can_bus_rx_frame_t * Z)) (g : list can_bus_reasm_slot_t)
    (f : can_bus_rx_frame_t) (junk : list byte) (now : Z)
    (Hview : map (fun p => (frame_view (fst p), snd p)) rx
             = map (fun p => (frame_view (fst p), snd p)) rx')
    (Hlen : (Z.to_nat (rx_len f) <= length (rx_data f))%nat) :
  handle_rx_frames subs rx g = handle_rx_frames subs rx' g
  /\ handle_rx_frame subs
       {| rx_std_id := rx_std_id f; rx_len := rx_len f;
          rx_data := take (Z.to_nat (rx_len f)) (rx_data f) ++ junk |} now g
     = handle_rx_frame subs f now g.
Proof.
  split.
  - revert rx' Hview g.
    induction rx as [| [f1 t1] rx IH]; intros [| [f2 t2] rx'] H g0;
      try discriminate; [reflexivity |].
    rewrite !map_cons in H. cbn [fst snd] in H.
    assert (Hv : frame_view f1 = frame_view f2) by congruence.
    assert (Ht : t1 = t2) by congruence.
    assert (Hrest : map (fun p => (frame_view (fst p), snd p)) rx
                    = map (fun p => (frame_view (fst p), snd p)) rx')
      by congruence.
    subst t2. simpl. rewrite (handle_rx_frame_view subs f1 f2 t1 g0 Hv).
    rewrite (IH rx' Hrest). reflexivity.
  - apply handle_rx_frame_view. unfold frame_view. cbn [rx_std_id rx_len rx_data].
    f_equal. rewrite take_app_le by (rewrite length_take; lia).
    rewrite take_take. f_equal. lia.
Qed.

Lemma rx_reads_only_len_bytes_witness :
  let f := {| rx_std_id := 0x100; rx_len := 16; rx_data := counting_bytes 64 |} in
  handle_rx_frames one_subscriber
    [({| rx_std_id := 0x100; rx_len := 16;
         rx_data := counting_bytes 16 ++ zeros 48 |}, 5)] reasm_init
  = handle_rx_frames one_subscriber [(f, 5)] reasm_init
  /\ handle_rx_frame one_subscriber
       {| rx_std_id := rx_std_id f; rx_len := rx_len f;
          rx_data := take (Z.to_nat (rx_len f)) (rx_data f) ++ zeros 3 |} 5
       reasm_init
     = handle_rx_frame one_subscriber f 5 reasm_init.
Proof.
  apply (rx_reads_only_len_bytes one_subscriber
           [({| rx_std_id := 0x100; rx_len := 16;
                rx_data := counting_bytes 16 ++ zeros 48 |}, 5)]
           [({| rx_std_id := 0x100; rx_len := 16;
                rx_data := counting_bytes 64 |}, 5)]
           reasm_init
           {| rx_std_id := 0x100; rx_len := 16; rx_data := counting_bytes 64 |}
           (zeros 3) 5).
  - reflexivity.
  - vm_compute. lia.
Defined.

(** ** [can_bus_process_rx] as one pass over the queue *)

Lemma handle_rx_frames_app (subs : list can_bus_sub_t)
    (a b : list (can_bus_rx_frame_t * Z)) (g : list can_bus_reasm_slot_t) :
  handle_rx_frames subs (a ++ b) g
  = let '(g1, e1) := handle_rx_frames subs a g in
    let '(g2, e2) := handle_rx_frames subs b g1 in
    (g2, e1 ++ e2).
Proof.
  revert g. induction a as [|[f t] a IH]; intros g; simpl.
  - destruct (handle_rx_frames subs b g). reflexivity.
  - rewrite IH.
    destruct (handle_rx_frames subs a _) as [g1 e1].
    destruct (handle_rx_frames subs b g1) as [g2 e2].
    rewrite app_assoc. reflexivity.
Qed.

Lemma process_rx_loop_frames (now : Z) (fuel : nat) :
  forall (st : can_bus_rx) (evs : list rx_event),
    rb_wf (rx_ringbuf st) ->
    (Z.to_nat (rb_count (rx_ringbuf st)) < fuel)%nat ->
    let res := handle_rx_frames (g_subs st)
                 (map (fun f => (f, now)) (rb_contents (rx_ringbuf st)))
                 (g_reasm st) in
    process_rx_loop fuel now st evs
    = Some ({| rx_ringbuf := {| g_rx_head := g_rx_head (rx_ringbuf st);
                                g_rx_tail := g_rx_head (rx_ringbuf st);
                                g_rx_ring := g_rx_ring (rx_ringbuf st) |};
               g_reasm := fst res; g_subs := g_subs st |},
            evs ++ snd res).
Proof.
  induction fuel as [|fuel IH]; intros st evs Hwf Hfuel; [lia|].
  cbv zeta. simpl process_rx_loop.
  destruct (Z.eq_dec (g_rx_head (rx_ringbuf st)) (g_rx_tail (rx_ringbuf st)))
    as [He | Hne].
  - rewrite (rb_pop_empty _ He).
    assert (Hc : rb_count (rx_ringbuf st) = 0)
      by (apply rb_empty_iff; assumption).
    unfold rb_contents. rewrite Hc. simpl. rewrite app_nil_r.
    destruct st as [[h t ring] g subs]; simpl in *. subst t. reflexivity.
  - destruct (rb_pop_nonempty _ Hwf Hne) as (f & r' & Hpop & Hwf' & Hcont & Hcnt).
    rewrite Hpop.
    assert (Hhd : g_rx_head r' = g_rx_head (rx_ringbuf st)
                  /\ g_rx_ring r' = g_rx_ring (rx_ringbuf st)).
    { unfold rb_pop in Hpop.
      destruct (g_rx_head (rx_ringbuf st) =? g_rx_tail (rx_ringbuf st));
        [discriminate|].
      injection Hpop as _ <-. split; reflexivity. }
    destruct Hhd as [Hh Hr].
    pose proof (rb_count_range (rx_ringbuf st)).
    pose proof (rb_count_range r').
    rewrite IH; cbn [rx_ringbuf g_reasm g_subs]; [| exact Hwf' | lia].
    rewrite Hcont. simpl map. simpl handle_rx_frames.
    destruct (handle_rx_frames (g_subs st)
                (map (fun f0 => (f0, now)) (rb_contents r'))
                (res_reasm (handle_rx_frame (g_subs st) f now (g_reasm st))))
      as [g' e'] eqn:E.
    cbn [fst snd]. rewrite Hh, Hr, app_assoc. reflexivity.
Qed.

(** X4: one call of the worker sweeps stale slots once, then handles the
    queued frames oldest first, all with the tick value read at entry, and
    returns with the ring empty; the callbacks it makes are those of the
    frames, in that order. *)
Theorem process_rx_handles_queue_in_order (now : Z) (st : can_bus_rx)
    (Hwf : rb_wf (rx_ringbuf st)) :
  let res := handle_rx_frames (g_subs st)
               (map (fun f => (f, now)) (rb_contents (rx_ringbuf st)))
               (reasm_expire_old now (g_reasm st)) in
  exists st',
    can_bus_process_rx now st = Some (st', snd res)
    /\ g_reasm st' = fst res
    /\ g_subs st' = g_subs st
    /\ rb_contents (rx_ringbuf st') = []
    /\ rb_wf (rx_ringbuf st').
Proof.
  cbv zeta. unfold can_bus_process_rx.
  pose proof (rb_count_range (rx_ringbuf st)) as Hc.
  rewrite process_rx_loop_frames; cbn [rx_ringbuf g_reasm g_subs];
    [| exact Hwf | unfold CAN_BUS_RX_RING_DEPTH; lia].
  eexists. split; [reflexivity|]. cbn [rx_ringbuf g_reasm g_subs].
  split; [reflexivity|]. split; [reflexivity|].
  destruct Hwf as (Hl & Hh & Ht). split.
  - unfold rb_contents, rb_count. cbn [g_rx_head g_rx_tail].
    rewrite Z.sub_diag. reflexivity.
  - unfold rb_wf. cbn [g_rx_head g_rx_tail g_rx_ring]. auto.
Qed.

Lemma process_rx_handles_queue_in_order_witness :
  let st := stale_pending 1000 in
  let res := handle_rx_frames (g_subs st)
               (map (fun f => (f, 1250)) (rb_contents (rx_ringbuf st)))
               (reasm_expire_old 1250 (g_reasm st)) in
  exists st',
    can_bus_process_rx 1250 st = Some (st', snd res)
    /\ g_reasm st' = fst res
    /\ g_subs st' = g_subs st
    /\ rb_contents (rx_ringbuf st') = []
    /\ rb_wf (rx_ringbuf st').
Proof.
  apply (process_rx_handles_queue_in_order 1250 (stale_pending 1000)).
  vm_compute. repeat split; discriminate.
Defined.

(** ** From [can_bus_send_large] on one node to a subscriber on another *)

Lemma isr_push_read_of_call (c : tx_call) :
  push_view (isr_push (read_of_call c)) = frame_view (wire_frame c).
Proof.
  unfold push_view, push_clamped_len, isr_push, read_of_call, frame_view,
    wire_frame; simpl.
  pose proof (isr_len_range (DataLength (tx_header c))) as [Hr _].
  destruct (isr_len (DataLength (tx_header c)) >? 64) eqn:E; [lia|].
  rewrite take_take, Nat.min_id. reflexivity.
Qed.

Lemma reads_before_error_ok (cs : list tx_call) :
  reads_before_error (map read_of_call cs) = map read_of_call cs.
Proof. induction cs as [|c cs IH]; simpl; [reflexivity | rewrite IH; reflexivity]. Qed.

Lemma reasm_expire_old_idle (now id : Z) (g : list can_bus_reasm_slot_t) :
  reasm_wf g -> reasm_idle_for id g ->
  reasm_wf (reasm_expire_old now g) /\ reasm_idle_for id (reasm_expire_old now g).
Proof.
  intros [Hlen Hbuf] Hidle. unfold reasm_expire_old. split; [split|].
  - rewrite length_map. exact Hlen.
  - apply Forall_map. eapply Forall_impl; [exact Hbuf|].
    intros s Hs. simpl. rewrite reasm_expire_slot_spec.
    destruct (s_active s && _); [simpl|]; exact Hs.
  - unfold reasm_idle_for. apply Forall_map. eapply Forall_impl; [exact Hidle|].
    intros s Hs. simpl. rewrite reasm_expire_slot_spec.
    destruct (s_active s && _); [|exact Hs].
    intros [Hact _]. discriminate Hact.
Qed.

(** X5: end to end.  A message of 1 to 2048 bytes that [can_bus_send_large]
    sent is delivered once, whole, to every subscriber of a node whose ring
    is empty and which has nothing in flight for the id: the interrupt
    queues the frames, in whatever order they arrive, and the next worker
    call reassembles them and leaves ring and table idle again. *)
Theorem bus_roundtrip_through_ring (drv : hal_driver) (bs : list byte)
    (L std_id : Z) (st st' : can_bus_tx) (rxst : can_bus_rx)
    (fifo : list rx_fifo_read) (new_message its now : Z)
    (HL : 1 <= L <= 2048) (Hbs : Z.of_nat (length bs) = L)
    (Hseq : 0 <= g_seq st < 256)
    (Hsend : can_bus_send_large drv (Some bs) L std_id st = Some (HAL_OK, st'))
    (Hring : rb_wf (rx_ringbuf rxst))
    (Hempty : g_rx_head (rx_ringbuf rxst) = g_rx_tail (rx_ringbuf rxst))
    (Hwf : reasm_wf (g_reasm rxst))
    (Hidle : reasm_idle_for (Z.land std_id 0x7FF) (g_reasm rxst))
    (Hits : Z.land its new_message <> 0)
    (Hperm : Permutation fifo
               (map read_of_call (drop (length (tx_log st)) (tx_log st')))) :
  exists rxst',
    can_bus_process_rx now
      {| rx_ringbuf := HAL_FDCAN_RxFifo1Callback new_message its fifo
                         (rx_ringbuf rxst);
         g_reasm := g_reasm rxst; g_subs := g_subs rxst |}
    = Some (rxst', can_bus_notify_rx (g_subs rxst) bs L)
    /\ rb_contents (rx_ringbuf rxst') = []
    /\ reasm_wf (g_reasm rxst')
    /\ reasm_idle_for (Z.land std_id 0x7FF) (g_reasm rxst').
Proof.
  destruct (can_bus_send_large_ok drv bs L std_id st st' Hbs Hsend)
    as (_ & _ & Hcnt & Hlog & _).
  rewrite Hlog, drop_app_length, map_map in Hperm.
  apply Permutation_map_inv in Hperm as (idxs & Hfifo & Hidx).
  pose proof (frag_count_small L HL) as Hsmall.
  assert (Hlen : length idxs = Z.to_nat (frag_count L)).
  { rewrite <- (Permutation_length Hidx). apply length_seq. }
  set (calls := map (frag_call std_id (g_seq st) L bs) idxs).
  assert (Hfifo' : fifo = map read_of_call calls).
  { subst calls. rewrite map_map. exact Hfifo. }
  set (ring' := HAL_FDCAN_RxFifo1Callback new_message its fifo (rx_ringbuf rxst)).
  assert (Hpush : ring' = rb_push_all (map isr_push fifo) (rx_ringbuf rxst)).
  { subst ring'. unfold HAL_FDCAN_RxFifo1Callback.
    destruct (Z.eqb_spec (Z.land its new_message) 0); [contradiction|].
    rewrite isr_drain_fifo_pushes, Hfifo', reads_before_error_ok. reflexivity. }
  assert (Hwf' : rb_wf ring') by (rewrite Hpush; apply rb_push_all_wf, Hring).
  assert (Hc0 : rb_contents (rx_ringbuf rxst) = []).
  { unfold rb_contents.
    replace (rb_count (rx_ringbuf rxst)) with 0; [reflexivity|].
    symmetry. apply rb_empty_iff; assumption. }
  assert (Hviews : map frame_view (rb_contents ring')
                   = map frame_view (map (rx_frag std_id (g_seq st) L bs) idxs)).
  { rewrite Hpush, rb_push_all_view; [| exact Hring |].
    - rewrite Hc0. simpl. rewrite lastn_short.
      + rewrite Hfifo'. subst calls. rewrite !map_map. apply map_ext.
        intros i. apply isr_push_read_of_call.
      + rewrite !length_map, Hfifo, length_map. lia.
    - rewrite Hfifo'. apply Forall_map, Forall_map. subst calls.
      apply Forall_map, Forall_forall. intros i _. apply isr_push_ok.
      cbn [read_of_call rd_data frag_call tx_data].
      rewrite (frag_frame_length bs L (g_seq st) Hbs). lia. }
  assert (Hrun : can_bus_process_rx now
                   {| rx_ringbuf := ring'; g_reasm := g_reasm rxst;
                      g_subs := g_subs rxst |}
                 = Some ({| rx_ringbuf := {| g_rx_head := g_rx_head ring';
                                             g_rx_tail := g_rx_head ring';
                                             g_rx_ring := g_rx_ring ring' |};
                            g_reasm := fst (handle_rx_frames (g_subs rxst)
                                              (map (fun f => (f, now))
                                                 (rb_contents ring'))
                                              (reasm_expire_old now (g_reasm rxst)));
                            g_subs := g_subs rxst |},
                         snd (handle_rx_frames (g_subs rxst)
                                (map (fun f => (f, now)) (rb_contents ring'))
                                (reasm_expire_old now (g_reasm rxst))))).
  { unfold can_bus_process_rx. pose proof (rb_count_range ring') as Hcr.
    rewrite process_rx_loop_frames; cbn [rx_ringbuf g_reasm g_subs];
      [reflexivity | exact Hwf' | unfold CAN_BUS_RX_RING_DEPTH; lia]. }
  destruct (reasm_expire_old_idle now _ _ Hwf Hidle) as [Hwf1 Hidle1].
  destruct (reassemble_rest (g_subs rxst) bs L (g_seq st) HL Hbs Hseq std_id idxs
              (map (fun i => (rx_frag std_id (g_seq st) L bs i, now)) idxs) []
              (reasm_expire_old now (g_reasm rxst)))
    as (g' & Hrx & Hwf2 & Hidle2).
  - rewrite map_map. reflexivity.
  - intros ->. simpl in Hlen. lia.
  - rewrite app_nil_r. apply (Permutation_NoDup Hidx). apply seq_NoDup.
  - rewrite app_nil_r. apply List.Forall_forall. intros x Hx.
    apply (Permutation_in x (Permutation_sym Hidx)) in Hx.
    apply in_seq in Hx. lia.
  - rewrite app_nil_r. lia.
  - split; [exact Hwf1 | exact Hidle1].
  - assert (Heq : handle_rx_frames (g_subs rxst)
                    (map (fun f => (f, now)) (rb_contents ring'))
                    (reasm_expire_old now (g_reasm rxst))
                  = (g', can_bus_notify_rx (g_subs rxst) bs L)).
    { rewrite <- Hrx. apply handle_rx_frames_view.
      rewrite !map_map. cbn [fst snd].
      rewrite <- (map_map frame_view (fun v => (v, now))), Hviews, !map_map.
      reflexivity. }
    rewrite Heq in Hrun. cbn [fst snd] in Hrun.
    eexists. split; [exact Hrun |]. cbn [rx_ringbuf g_reasm].
    split; [| split; [exact Hwf2 | exact Hidle2]].
    unfold rb_contents, rb_count. cbn [g_rx_head g_rx_tail].
    rewrite Z.sub_diag. reflexivity.
Qed.

Lemma bus_roundtrip_through_ring_witness :
  let bs := counting_bytes 150 in
  let fifo := rev (map read_of_call (map (frag_call 3 0 150 bs) (seq 0 3))) in
  exists rxst',
    can_bus_process_rx 7
      {| rx_ringbuf := HAL_FDCAN_RxFifo1Callback 1 1 fifo (rx_ringbuf rx_idle);
         g_reasm := g_reasm rx_idle; g_subs := g_subs rx_idle |}
    = Some (rxst', can_bus_notify_rx (g_subs rx_idle) bs 150)
    /\ rb_contents (rx_ringbuf rxst') = []
    /\ reasm_wf (g_reasm rxst')
    /\ reasm_idle_for (Z.land 3 0x7FF) (g_reasm rxst').
Proof.
  intros bs fifo.
  set (st' := {| g_hfdcan := true; g_seq := 1;
                 tx_log := map (frag_call 3 0 150 bs) (seq 0 3) |}).
  assert (HL : 1 <= 150 <= 2048) by lia.
  assert (Hseq : 0 <= g_seq tx_ready < 256) by (simpl; lia).
  assert (Hsend : can_bus_send_large drv_ok (Some bs) 150 3 tx_ready
                  = Some (HAL_OK, st')) by (vm_compute; reflexivity).
  assert (Hwf : reasm_wf (g_reasm rx_idle)).
  { split; [reflexivity |]. repeat constructor. }
  assert (Hidle : reasm_idle_for (Z.land 3 0x7FF) (g_reasm rx_idle)).
  { repeat constructor; intros [Hact _]; discriminate Hact. }
  assert (Hits : Z.land 1 1 <> 0) by discriminate.
  assert (Hperm : Permutation fifo
            (map read_of_call (drop (length (tx_log tx_ready)) (tx_log st')))).
  { unfold fifo. simpl drop. symmetry. apply Permutation_rev. }
  exact (bus_roundtrip_through_ring drv_ok bs 150 3 tx_ready st' rx_idle fifo
           1 1 7 HL eq_refl Hseq Hsend rb_init_wf eq_refl Hwf Hidle Hits Hperm).
Defined.

(** ** Rounding a payload length up to a CAN-FD length *)

Lemma round_up_cases (len : Z) :
  0 <= len <= 64 ->
  In (can_bus_round_up_fd_len len) dlc_len_map
  /\ len <= can_bus_round_up_fd_len len
  /\ forall n, In n dlc_len_map -> len <= n -> can_bus_round_up_fd_len len <= n.
Proof.
  intros Hlen. unfold can_bus_round_up_fd_len.
  repeat match goal with
         | |- context [?a <=? ?b] => destruct (Z.leb_spec a b)
         end;
    (split; [| split; [lia |]]);
    try (simpl; tauto); try lia;
    try (intros n Hn Hle; simpl in Hn;
         repeat (destruct Hn as [<- | Hn]; [lia |]); contradiction).
  assert (H8 : len = 0 \/ len = 1 \/ len = 2 \/ len = 3 \/ len = 4 \/ len = 5
               \/ len = 6 \/ len = 7 \/ len = 8) by lia.
  simpl. intuition lia.
Qed.

Lemma round_up_above_64 (len : Z) : 64 < len -> can_bus_round_up_fd_len len = 64.
Proof.
  intros H. unfold can_bus_round_up_fd_len.
  repeat match goal with
         | |- context [?a <=? ?b] => destruct (Z.leb_spec a b); try lia
         end.
Qed.

Lemma len_to_dlc_valid (L : Z) :
  In L dlc_len_map -> can_bus_len_to_dlc L <> DLC_INVALID /\ 0 <= can_bus_len_to_dlc L <= 15.
Proof.
  intros H. simpl in H.
  repeat (destruct H as [<- | H]; [vm_compute; split; [discriminate | split; discriminate] |]).
  contradiction.
Qed.

(** X6: for a length of 0 to 64 [can_bus_round_up_fd_len] gives the least
    CAN-FD frame length that holds it, a length that has a DLC code and that
    the code maps back to; the function leaves frame lengths as they are. *)
Theorem round_up_fd_len_least (len : Z) (Hlen : 0 <= len <= 64) :
  let w := can_bus_round_up_fd_len len in
  In w dlc_len_map
  /\ len <= w
  /\ (forall n, In n dlc_len_map -> len <= n -> w <= n)
  /\ can_bus_len_to_dlc w <> DLC_INVALID
  /\ can_bus_dlc_to_len (can_bus_len_to_dlc w) = w
  /\ can_bus_round_up_fd_len w = w.
Proof.
  cbv zeta. destruct (round_up_cases len Hlen) as (Hin & Hle & Hmin).
  split; [exact Hin|]. split; [exact Hle|]. split; [exact Hmin|].
  split; [apply len_to_dlc_valid, Hin|].
  split; [apply dlc_len_on_table, Hin|].
  pose proof (dlc_table_le_64 _ Hin) as Hb.
  destruct (round_up_cases (can_bus_round_up_fd_len len) Hb) as (_ & Hle' & Hmin').
  specialize (Hmin' _ Hin ltac:(lia)). lia.
Qed.

Lemma round_up_fd_len_least_witness :
  let w := can_bus_round_up_fd_len 9 in
  In w dlc_len_map
  /\ 9 <= w
  /\ (forall n, In n dlc_len_map -> 9 <= n -> w <= n)
  /\ can_bus_len_to_dlc w <> DLC_INVALID
  /\ can_bus_dlc_to_len (can_bus_len_to_dlc w) = w
  /\ can_bus_round_up_fd_len w = w.
Proof. apply (round_up_fd_len_least 9). lia. Defined.

(** ** [can_bus_send_bytes] *)

Lemma send_bytes_call (drv : hal_driver) (bs : list byte) (len std_id : Z)
    (st : can_bus_tx) :
  g_hfdcan st = true -> 1 <= len ->
  let n := Z.min len 64 in
  can_bus_send_bytes drv (Some bs) len std_id st
  = hal_add_message drv
      {| tx_header := fd_tx_header std_id
                        (can_bus_len_to_dlc (can_bus_round_up_fd_len n));
         tx_data := memcpy (zeros 64) bs (Z.to_nat n) |} st.
Proof.
  intros Hinit Hlen. cbv zeta. unfold can_bus_send_bytes. rewrite Hinit. simpl negb.
  cbv iota. destruct (Z.eqb_spec len 0); [lia|].
  assert (Hn : (if len >? 64 then 64 else len) = Z.min len 64).
  { destruct (Z.gtb_spec len 64); lia. }
  rewrite Hn.
  destruct (round_up_cases (Z.min len 64) ltac:(lia)) as (Hin & _).
  destruct (len_to_dlc_valid _ Hin) as [Hv _].
  destruct (Z.eqb_spec (can_bus_len_to_dlc (can_bus_round_up_fd_len (Z.min len 64)))
              DLC_INVALID); [contradiction|].
  reflexivity.
Qed.

Lemma send_bytes_short_frame (drv : hal_driver) (bs : list byte)
    (len std_id : Z) (st : can_bus_tx) :
  g_hfdcan st = true -> 1 <= len <= 64 -> Z.of_nat (length bs) = len ->
  let w := can_bus_round_up_fd_len len in
  let c := {| tx_header := fd_tx_header std_id (can_bus_len_to_dlc w);
              tx_data := bs ++ zeros (64 - length bs) |} in
  can_bus_send_bytes drv (Some bs) len std_id st
  = (drv (tx_log st) c,
     {| g_hfdcan := true; g_seq := g_seq st; tx_log := tx_log st ++ [c] |})
  /\ wire_frame c
     = {| rx_std_id := Z.land std_id 0x7FF; rx_len := w;
          rx_data := bs ++ zeros (Z.to_nat (w - len)) |}.
Proof.
  intros Hinit Hlen Hbs. cbv zeta.
  destruct (round_up_cases len ltac:(lia)) as (Hin & Hle & _).
  pose proof (dlc_table_le_64 _ Hin) as Hw.
  assert (Hdata : memcpy (zeros 64) bs (Z.to_nat len)
                  = bs ++ zeros (64 - length bs)).
  { unfold memcpy, memcpy_at. simpl take at 1. simpl app.
    rewrite take_ge by lia. rewrite drop_zeros. do 2 f_equal. lia. }
  split.
  - rewrite send_bytes_call by (assumption || lia).
    rewrite Z.min_l by lia. rewrite Hdata.
    unfold hal_add_message. rewrite Hinit. reflexivity.
  - unfold wire_frame. cbn [tx_header tx_data fd_tx_header Identifier DataLength].
    assert (Hl : isr_len (can_bus_len_to_dlc (can_bus_round_up_fd_len len))
                 = can_bus_round_up_fd_len len).
    { unfold isr_len. rewrite dlc_len_on_table by exact Hin.
      destruct (Z.gtb_spec (can_bus_round_up_fd_len len) 64); [lia|].
      apply u8_small. lia. }
    rewrite Hl. f_equal.
    + unfold isr_std_id. rewrite <- Z.land_assoc. reflexivity.
    + rewrite take_app_ge by lia. f_equal.
      unfold zeros. rewrite take_replicate. f_equal. lia.
Qed.

(** X7: a payload of 1 to 64 bytes goes out as one frame of the rounded-up
    length: identifier cut to 11 bits, the payload followed by zero bytes up
    to the frame length, and the driver's status handed back. *)
Theorem send_bytes_pads_with_zeros (drv : hal_driver) (bs : list byte)
    (len std_id : Z) (st : can_bus_tx)
    (Hinit : g_hfdcan st = true) (Hlen : 1 <= len <= 64)
    (Hbs : Z.of_nat (length bs) = len) :
  let w := can_bus_round_up_fd_len len in
  let c := {| tx_header := fd_tx_header std_id (can_bus_len_to_dlc w);
              tx_data := bs ++ zeros (64 - length bs) |} in
  can_bus_send_bytes drv (Some bs) len std_id st
  = (drv (tx_log st) c,
     {| g_hfdcan := true; g_seq := g_seq st; tx_log := tx_log st ++ [c] |})
  /\ wire_frame c
     = {| rx_std_id := Z.land std_id 0x7FF; rx_len := w;
          rx_data := bs ++ zeros (Z.to_nat (w - len)) |}
  /\ len <= w <= 64.
Proof.
  cbv zeta.
  destruct (send_bytes_short_frame drv bs len std_id st Hinit Hlen Hbs)
    as [H1 H2].
  destruct (round_up_cases len ltac:(lia)) as (Hin & Hle & _).
  pose proof (dlc_table_le_64 _ Hin).
  split; [exact H1 |]. split; [exact H2 | lia].
Qed.

Lemma send_bytes_pads_with_zeros_witness :
  let bs := counting_bytes 9 in
  let c := {| tx_header := fd_tx_header 0x123 (can_bus_len_to_dlc 12);
              tx_data := bs ++ zeros 55 |} in
  can_bus_send_bytes drv_ok (Some bs) 9 0x123 tx_ready
  = (HAL_OK, {| g_hfdcan := true; g_seq := 0; tx_log := [c] |})
  /\ wire_frame c
     = {| rx_std_id := 0x123; rx_len := 12; rx_data := bs ++ zeros 3 |}
  /\ 9 <= 12 <= 64.
Proof.
  apply (send_bytes_pads_with_zeros drv_ok (counting_bytes 9) 9 0x123 tx_ready).
  - reflexivity.
  - lia.
  - reflexivity.
Defined.

(** X8: [can_bus_send_bytes] hands nothing to the driver exactly when the
    bus is not initialised, the buffer is NULL or the length is zero, and
    then returns [HAL_ERROR] with the state untouched; in every other case
    it makes one driver call and returns that call's status: the DLC lookup
    cannot fail. *)
Theorem send_bytes_rejects (drv : hal_driver) (bytes : option (list byte))
    (len std_id : Z) (st : can_bus_tx) (Hlen : 0 <= len) :
  let res := can_bus_send_bytes drv bytes len std_id st in
  let bad := g_hfdcan st = false \/ bytes = None \/ len = 0 in
  (bad -> res = (HAL_ERROR, st))
  /\ (~ bad ->
      exists c, tx_log (snd res) = tx_log st ++ [c]
                /\ fst res = drv (tx_log st) c
                /\ can_bus_dlc_to_len (DataLength (tx_header c))
                   = can_bus_round_up_fd_len (Z.min len 64))
  /\ (bad <-> tx_log (snd res) = tx_log st).
Proof.
  cbv zeta.
  assert (Hbad : g_hfdcan st = false \/ bytes = None \/ len = 0 ->
                 can_bus_send_bytes drv bytes len std_id st = (HAL_ERROR, st)).
  { intros [H | [H | H]]; unfold can_bus_send_bytes.
    - rewrite H. reflexivity.
    - rewrite H. destruct (negb (g_hfdcan st)); reflexivity.
    - rewrite H. destruct (negb (g_hfdcan st)); [reflexivity|].
      destruct bytes; reflexivity. }
  assert (Hgood : ~ (g_hfdcan st = false \/ bytes = None \/ len = 0) ->
                  exists c, tx_log (snd (can_bus_send_bytes drv bytes len std_id st))
                            = tx_log st ++ [c]
                    /\ fst (can_bus_send_bytes drv bytes len std_id st)
                       = drv (tx_log st) c
                    /\ can_bus_dlc_to_len (DataLength (tx_header c))
                       = can_bus_round_up_fd_len (Z.min len 64)).
  { intros Hn. destruct bytes as [bs|]; [| tauto].
    destruct (g_hfdcan st) eqn:Hinit; [| tauto].
    assert (1 <= len) by lia.
    rewrite send_bytes_call by assumption. eexists. simpl.
    split; [reflexivity|]. split; [reflexivity|].
    apply dlc_len_on_table. apply round_up_cases. lia. }
  split; [exact Hbad|]. split; [exact Hgood|]. split.
  - intros H. rewrite (Hbad H). reflexivity.
  - intros Hlog.
    destruct (g_hfdcan st) eqn:Hinit; [| auto].
    destruct bytes as [bs|]; [| auto].
    destruct (Z.eq_dec len 0); [auto|]. exfalso.
    destruct Hgood as (c & Hc & _); [intros [H | [H | H]]; congruence|].
    rewrite Hlog in Hc. apply (f_equal (@length _)) in Hc.
    rewrite length_app in Hc. simpl in Hc. lia.
Qed.

Lemma send_bytes_rejects_witness :
  let res := can_bus_send_bytes drv_ok (Some (counting_bytes 9)) 9 3 tx_ready in
  let bad := g_hfdcan tx_ready = false \/ Some (counting_bytes 9) = None \/ 9 = 0 in
  (bad -> res = (HAL_ERROR, tx_ready))
  /\ (~ bad ->
      exists c, tx_log (snd res) = tx_log tx_ready ++ [c]
                /\ fst res = drv_ok (tx_log tx_ready) c
                /\ can_bus_dlc_to_len (DataLength (tx_header c))
                   = can_bus_round_up_fd_len (Z.min 9 64))
  /\ (bad <-> tx_log (snd res) = tx_log tx_ready).
Proof.
  apply (send_bytes_rejects drv_ok (Some (counting_bytes 9)) 9 3 tx_ready). lia.
Defined.

(** ** [can_bus_send_large]: refusals and bus errors *)

Lemma send_large_loop_trace (drv : hal_driver) (bs : list byte)
    (L std_id sq : Z) (n : nat) :
  1 <= L <= 65535 -> frag_count L <= 255 -> Z.of_nat (length bs) = L ->
  forall (i fuel : nat) (st : can_bus_tx),
    Z.of_nat (i + n) = frag_count L -> (n < fuel)%nat -> g_hfdcan st = true ->
    exists status st' m,
      send_large_loop fuel drv bs L std_id sq (frag_count L) 56
        (Z.of_nat i) (Z.min (56 * Z.of_nat i) L) st = Some (status, st')
      /\ (m <= n)%nat
      /\ tx_log st' = tx_log st ++ map (frag_call std_id sq L bs) (seq i m)
      /\ g_seq st' = g_seq st /\ g_hfdcan st' = true
      /\ (forall j, (S j < m)%nat \/ ((j < m)%nat /\ status = HAL_OK) ->
            drv (tx_log st ++ map (frag_call std_id sq L bs) (seq i j))
                (frag_call std_id sq L bs (i + j)) = HAL_OK)
      /\ (status = HAL_OK -> m = n)
      /\ (status <> HAL_OK ->
          exists m', m = S m'
            /\ drv (tx_log st ++ map (frag_call std_id sq L bs) (seq i m'))
                   (frag_call std_id sq L bs (i + m')) = status).
Proof.
  intros HL Hcnt Hbs.
  induction n as [| n IH]; intros i fuel st Hn Hfuel Hinit.
  - destruct fuel as [| fuel]; [lia |]. cbn [send_large_loop].
    destruct (Z.ltb_spec (Z.of_nat i) (frag_count L)) as [? | _]; [lia |].
    exists HAL_OK, st, 0%nat. simpl. rewrite app_nil_r.
    split; [reflexivity |]. split; [lia |]. split; [reflexivity |].
    split; [reflexivity |]. split; [exact Hinit |]. split; [| split].
    + intros j [? | [? _]]; lia.
    + intros _. lia.
    + intros H. contradiction.
  - destruct fuel as [| fuel]; [lia |].
    rewrite (send_large_loop_step drv bs L std_id sq HL Hcnt Hbs)
      by (auto; lia).
    cbv zeta. set (c := frag_call std_id sq L bs i).
    destruct (HAL_status_eqb (drv (tx_log st) c) HAL_OK) eqn:Hst.
    + assert (Hc : drv (tx_log st) c = HAL_OK)
        by (destruct (drv (tx_log st) c); try discriminate; reflexivity).
      destruct (IH (S i) fuel (snd (hal_add_message drv c st)))
        as (status & st' & m & Hrun & Hm & Hlog & Hseq & Hh & Hacc & Hok & Hbad);
        [lia | lia | exact Hinit |].
      cbn [hal_add_message snd tx_log] in Hlog, Hacc, Hbad.
      exists status, st', (S m). split; [exact Hrun |].
      split; [lia |]. split; [| split; [exact Hseq | split; [exact Hh |]]].
      { rewrite Hlog. simpl. rewrite <- app_assoc. reflexivity. }
      split; [| split].
      * intros [| j] Hj.
        -- simpl. rewrite app_nil_r, Nat.add_0_r. exact Hc.
        -- simpl.
           assert (Hj' : (S j < m)%nat \/ ((j < m)%nat /\ status = HAL_OK)).
           { destruct Hj as [Hj | [Hj Hs]]; [left; lia | right; split; [lia | exact Hs]]. }
           specialize (Hacc j Hj').
           rewrite <- app_assoc in Hacc. simpl in Hacc.
           replace (i + S j)%nat with (S i + j)%nat by lia. exact Hacc.
      * intros H. f_equal. auto.
      * intros H. destruct (Hbad H) as (m' & -> & Hd).
        exists (S m'). split; [reflexivity|]. simpl.
        rewrite <- app_assoc in Hd. simpl in Hd.
        replace (i + S m')%nat with (S i + m')%nat by lia. exact Hd.
    + exists (drv (tx_log st) c), (snd (hal_add_message drv c st)), 1%nat.
      split; [reflexivity |]. split; [lia |].
      split; [reflexivity |]. split; [reflexivity |]. split; [exact Hinit |].
      split; [| split].
      * intros j [? | [? H]]; [lia |]. rewrite H in Hst. discriminate Hst.
      * intros H. rewrite H in Hst. discriminate Hst.
      * intros _. exists 0%nat. split; [reflexivity|]. simpl.
        rewrite app_nil_r, Nat.add_0_r. reflexivity.
Qed.

Lemma send_large_enter (drv : hal_driver) (bs : list byte) (L std_id : Z)
    (st : can_bus_tx) :
  g_hfdcan st = true -> 1 <= L <= 65535 ->
  can_bus_send_large drv (Some bs) L std_id st
  = if frag_count L >? 255
    then Some (HAL_ERROR, with_g_seq (u8 (g_seq st + 1)) st)
    else send_large_loop 256 drv bs L std_id (g_seq st) (frag_count L) 56 0 0
           (with_g_seq (u8 (g_seq st + 1)) st).
Proof.
  intros Hinit HL. unfold can_bus_send_large. rewrite Hinit. simpl negb. cbv iota.
  destruct (Z.eqb_spec L 0) as [? | _]; [lia |].
  destruct (Z.gtb_spec L 0xFFFF) as [? | _]; [lia |].
  change (CAN_BUS_FRAG_WIRE_LEN >? 64) with false. cbv iota.
  change (u32 (CAN_BUS_FRAG_WIRE_LEN - sizeof_hdr)) with 56.
  change (56 =? 0) with false. cbv iota.
  replace (u32 (L + 56 - 1) / 56) with (frag_count L)
    by (unfold frag_count; rewrite u32_small by lia; f_equal; lia).
  pose proof (frag_count_bounds L) as Hb.
  destruct (Z.eqb_spec (frag_count L) 0) as [? | _]; [lia |].
  destruct (Z.gtb_spec (frag_count L) 255) as [? | Hcnt]; [reflexivity |].
  rewrite u8_small by lia. reflexivity.
Qed.

Lemma frag_count_255 (L : Z) : frag_count L <= 255 <-> L <= 14280.
Proof.
  unfold frag_count. split; intros H.
  - destruct (Z_le_gt_dec L 14280); [assumption|]. exfalso.
    assert (256 <= (L + 55) / 56) by (apply Z.div_le_lower_bound; lia). lia.
  - assert ((L + 55) / 56 < 256) by (apply Z.div_lt_upper_bound; lia). lia.
Qed.

(** X9: [can_bus_send_large] refuses, with [HAL_ERROR] and without a driver
    call, a NULL buffer, an uninitialised bus, the length 0 and every length
    above 14280 (more than 255 fragments).  For a length of 14281 to 65535
    the refusal comes after the sequence number was advanced; in the other
    cases the state is untouched. *)
Theorem send_large_refusals (drv : hal_driver) (bytes : option (list byte))
    (len std_id : Z) (st : can_bus_tx) (Hlen : 0 <= len) :
  (g_hfdcan st = false \/ bytes = None \/ len = 0 \/ 65535 < len ->
   can_bus_send_large drv bytes len std_id st = Some (HAL_ERROR, st))
  /\ (g_hfdcan st = true -> bytes <> None -> 14280 < len <= 65535 ->
      can_bus_send_large drv bytes len std_id st
      = Some (HAL_ERROR, with_g_seq (u8 (g_seq st + 1)) st)).
Proof.
  split.
  - intros H. unfold can_bus_send_large.
    destruct (g_hfdcan st); [| reflexivity]. simpl negb. cbv iota.
    destruct bytes as [bs |]; [| reflexivity].
    destruct (Z.eqb_spec len 0); [reflexivity |].
    destruct (Z.gtb_spec len 0xFFFF); [reflexivity |].
    exfalso. destruct H as [H | [H | [H | H]]]; try discriminate; lia.
  - intros Hinit Hb Hr. destruct bytes as [bs |]; [| contradiction].
    rewrite send_large_enter by (assumption || lia).
    destruct (Z.gtb_spec (frag_count len) 255) as [_ | Hc]; [reflexivity |].
    apply frag_count_255 in Hc. lia.
Qed.

Lemma send_large_refusals_witness :
  (g_hfdcan tx_ready = false \/ Some (counting_bytes 3) = None \/ 20000 = 0
   \/ 65535 < 20000 ->
   can_bus_send_large drv_ok (Some (counting_bytes 3)) 20000 3 tx_ready
   = Some (HAL_ERROR, tx_ready))
  /\ (g_hfdcan tx_ready = true -> Some (counting_bytes 3) <> None ->
      14280 < 20000 <= 65535 ->
      can_bus_send_large drv_ok (Some (counting_bytes 3)) 20000 3 tx_ready
      = Some (HAL_ERROR, with_g_seq (u8 (g_seq tx_ready + 1)) tx_ready)).
Proof.
  apply (send_large_refusals drv_ok (Some (counting_bytes 3)) 20000 3 tx_ready).
  lia.
Defined.

(** X10: for a message of 1 to 14280 bytes [can_bus_send_large] hands the
    fragments to the driver in index order and stops at the first one the
    driver does not accept: every frame before the last one handed over was
    accepted, a status other than [HAL_OK] is the driver's answer to the
    last one, and [HAL_OK] means all [ceil (L / 56)] were accepted.  The
    sequence number advances by one modulo 256 either way. *)
Theorem send_large_stops_at_first_refusal (drv : hal_driver) (bs : list byte)
    (L std_id : Z) (st : can_bus_tx)
    (Hinit : g_hfdcan st = true) (HL : 1 <= L <= 14280)
    (Hbs : Z.of_nat (length bs) = L) :
  let fc := frag_call std_id (g_seq st) L bs in
  exists status st' m,
    can_bus_send_large drv (Some bs) L std_id st = Some (status, st')
    /\ (1 <= m <= Z.to_nat (frag_count L))%nat
    /\ tx_log st' = tx_log st ++ map fc (seq 0 m)
    /\ g_seq st' = u8 (g_seq st + 1)
    /\ (forall j, (S j < m)%nat ->
          drv (tx_log st ++ map fc (seq 0 j)) (fc j) = HAL_OK)
    /\ drv (tx_log st ++ map fc (seq 0 (m - 1))) (fc (m - 1)%nat) = status
    /\ (status = HAL_OK <-> m = Z.to_nat (frag_count L)
                            /\ drv (tx_log st ++ map fc (seq 0 (m - 1)))
                                   (fc (m - 1)%nat) = HAL_OK).
Proof.
  cbv zeta.
  assert (Hcnt : frag_count L <= 255) by (apply frag_count_255; lia).
  pose proof (frag_count_bounds L) as Hb.
  rewrite send_large_enter by (assumption || lia).
  destruct (Z.gtb_spec (frag_count L) 255) as [? | _]; [lia |].
  destruct (send_large_loop_trace drv bs L std_id (g_seq st)
              (Z.to_nat (frag_count L)) ltac:(lia) Hcnt Hbs 0%nat 256%nat
              (with_g_seq (u8 (g_seq st + 1)) st))
    as (status & st' & m & Hrun & Hm & Hlog & Hseq & _ & Hacc & Hok & Hbad);
    [lia | lia | exact Hinit |].
  change (Z.of_nat 0) with 0 in Hrun.
  replace (Z.min (56 * 0) L) with 0 in Hrun by lia.
  cbn [with_g_seq tx_log g_seq] in Hlog, Hseq, Hacc, Hbad.
  assert (Hm1 : (1 <= m)%nat).
  { destruct (HAL_status_eqb status HAL_OK) eqn:E.
    - assert (status = HAL_OK) by (destruct status; try discriminate; reflexivity).
      rewrite (Hok H). lia.
    - destruct Hbad as (m' & -> & _); [intros ->; discriminate | lia]. }
  assert (Hlast : drv (tx_log st ++ map (frag_call std_id (g_seq st) L bs)
                                        (seq 0 (m - 1)))
                      (frag_call std_id (g_seq st) L bs (m - 1)%nat) = status).
  { destruct (HAL_status_eqb status HAL_OK) eqn:E.
    - assert (H : status = HAL_OK)
        by (destruct status; try discriminate; reflexivity).
      rewrite H. apply (Hacc (m - 1)%nat). right. split; [lia | exact H].
    - destruct Hbad as (m' & -> & Hd); [intros ->; discriminate |].
      replace (S m' - 1)%nat with m' by lia. exact Hd. }
  exists status, st', m. split; [exact Hrun |]. split; [lia |].
  split; [exact Hlog |]. split; [exact Hseq |].
  split; [intros j Hj; apply (Hacc j); left; exact Hj |].
  split; [exact Hlast |]. split.
  - intros H. split; [apply Hok, H | rewrite Hlast; exact H].
  - intros [_ H]. rewrite <- Hlast. exact H.
Qed.

Lemma send_large_stops_at_first_refusal_witness :
  let bs := counting_bytes 150 in
  let fc := frag_call 3 (g_seq tx_ready) 150 bs in
  exists status st' m,
    can_bus_send_large (drv_full_after 1) (Some bs) 150 3 tx_ready
    = Some (status, st')
    /\ (1 <= m <= Z.to_nat (frag_count 150))%nat
    /\ tx_log st' = tx_log tx_ready ++ map fc (seq 0 m)
    /\ g_seq st' = u8 (g_seq tx_ready + 1)
    /\ (forall j, (S j < m)%nat ->
          drv_full_after 1 (tx_log tx_ready ++ map fc (seq 0 j)) (fc j) = HAL_OK)
    /\ drv_full_after 1 (tx_log tx_ready ++ map fc (seq 0 (m - 1)))
         (fc (m - 1)%nat) = status
    /\ (status = HAL_OK <-> m = Z.to_nat (frag_count 150)
                            /\ drv_full_after 1
                                 (tx_log tx_ready ++ map fc (seq 0 (m - 1)))
                                 (fc (m - 1)%nat) = HAL_OK).
Proof.
  apply (send_large_stops_at_first_refusal (drv_full_after 1)
           (counting_bytes 150) 150 3 tx_ready).
  - reflexivity.
  - lia.
  - reflexivity.
Defined.

(** ** What the receiver makes of transmitted frames *)

Lemma frag_hdr_decoded_wide (bs : list byte) (L sq : Z) (i : nat) :
  1 <= L <= 65535 -> frag_count L <= 255 -> 0 <= sq < 256 ->
  Z.of_nat i < frag_count L ->
  hdr_of_bytes (frag_frame sq L bs i) = frag_hdr sq L i.
Proof.
  intros HL Hcnt Hsq Hi. pose proof (frag_count_bounds L).
  pose proof (frag_flags_bits (frag_count L) i) as (_ & _ & Hf).
  unfold frag_frame. apply hdr_roundtrip; simpl; lia.
Qed.

(** X11: the sender takes more than the receiver does.  A message of more
    than 2048 bytes that [can_bus_send_large] reported sent went out in
    [ceil (L / 56)] frames, and a receiving node drops every one of them at
    the header check: no callback runs and no reassembly state changes, in
    whatever order and at whatever time the frames are handled. *)
Theorem oversize_sent_but_never_received (drv : hal_driver) (bs : list byte)
    (L std_id : Z) (st st' : can_bus_tx)
    (subs : list can_bus_sub_t) (rx : list (can_bus_rx_frame_t * Z))
    (g : list can_bus_reasm_slot_t)
    (HL : 2048 < L) (Hbs : Z.of_nat (length bs) = L)
    (Hseq : 0 <= g_seq st < 256)
    (Hsend : can_bus_send_large drv (Some bs) L std_id st = Some (HAL_OK, st'))
    (Hrx : Forall (fun p => In (fst p)
                    (map wire_frame (drop (length (tx_log st)) (tx_log st'))))
                  rx) :
  Z.of_nat (length (drop (length (tx_log st)) (tx_log st'))) = frag_count L
  /\ L <= 14280
  /\ handle_rx_frames subs rx g = (g, [])
  /\ Forall (fun p => res_path (handle_rx_frame subs (fst p) (snd p) g)
                      = PathHdrRejected) rx.
Proof.
  destruct (can_bus_send_large_ok drv bs L std_id st st' Hbs Hsend)
    as (_ & _ & Hcnt & Hlog & _).
  rewrite Hlog, drop_app_length in *.
  pose proof (frag_count_bounds L) as Hb.
  assert (HL' : L <= 14280) by (apply frag_count_255; exact Hcnt).
  split; [rewrite length_map, length_seq; lia |]. split; [exact HL' |].
  assert (Hrej : forall f now g0,
             In f (map wire_frame
                     (map (frag_call std_id (g_seq st) L bs)
                        (seq 0 (Z.to_nat (frag_count L))))) ->
             handle_rx_frame subs f now g0
             = {| res_reasm := g0; res_events := []; res_path := PathHdrRejected |}).
  { intros f now g0 Hin. rewrite map_map in Hin.
    apply in_map_iff in Hin as (i & <- & Hi). apply in_seq in Hi.
    change (wire_frame (frag_call std_id (g_seq st) L bs i))
      with (rx_frag std_id (g_seq st) L bs i).
    rewrite (rx_frag_eq bs L (g_seq st) Hbs).
    assert (Hh : hdr_of_bytes (frag_frame (g_seq st) L bs i)
                 = frag_hdr (g_seq st) L i)
      by (apply frag_hdr_decoded_wide; lia).
    apply handle_rx_frame_rejected.
    - unfold is_fragment. cbn [rx_len rx_data]. rewrite Hh. reflexivity.
    - cbn [rx_data]. rewrite Hh. apply hdr_rejected_spec.
      cbn [frag_hdr hdr_total_len]. lia. }
  split.
  - revert g. induction Hrx as [| [f t] rx Hf _ IH]; intros g; [reflexivity |].
    simpl. rewrite (Hrej f t g Hf). cbn [res_reasm res_events].
    rewrite IH. reflexivity.
  - eapply Forall_impl; [exact Hrx |]. intros [f t] Hf. cbn [fst snd].
    rewrite (Hrej f t g Hf). reflexivity.
Qed.

Lemma oversize_sent_but_never_received_witness :
  let bs := counting_bytes 2049 in
  let calls := map (frag_call 3 0 2049 bs) (seq 0 37) in
  let st' := {| g_hfdcan := true; g_seq := 1; tx_log := calls |} in
  let rx := map (fun c => (wire_frame c, 5)) calls in
  Z.of_nat (length (drop (length (tx_log tx_ready)) (tx_log st')))
  = frag_count 2049
  /\ 2049 <= 14280
  /\ handle_rx_frames one_subscriber rx reasm_init = (reasm_init, [])
  /\ Forall (fun p => res_path (handle_rx_frame one_subscriber (fst p) (snd p)
                                  reasm_init) = PathHdrRejected) rx.
Proof.
  intros bs calls st' rx.
  assert (Hsend : can_bus_send_large drv_ok (Some bs) 2049 3 tx_ready
                  = Some (HAL_OK, st')) by (vm_compute; reflexivity).
  assert (Hseq : 0 <= g_seq tx_ready < 256) by (simpl; lia).
  assert (Hrx : Forall (fun p => In (fst p)
                         (map wire_frame
                            (drop (length (tx_log tx_ready)) (tx_log st')))) rx).
  { unfold rx. apply Forall_map, Forall_forall. intros c Hc. cbn [fst].
    apply in_map. simpl drop. apply list_elem_of_In, Hc. }
  exact (oversize_sent_but_never_received drv_ok bs 2049 3 tx_ready st'
           one_subscriber rx reasm_init ltac:(lia) eq_refl Hseq Hsend Hrx).
Defined.

Lemma byte_at_app_l (a b : list byte) (i : nat) :
  (i < length a)%nat -> byte_at (a ++ b) i = byte_at a i.
Proof. intros H. unfold byte_at. rewrite app_nth1 by exact H. reflexivity. Qed.

(** X12: a short payload crosses the bus padded.  What
    [can_bus_send_bytes] sends for 1 to 64 bytes that do not look like a
    fragment (fewer than 8 bytes, or not starting with the magic) is
    delivered raw by the receiver with the rounded-up frame length: the
    payload followed by zero bytes.  The callbacks see the original length
    only when it is one of the CAN-FD frame lengths. *)
Theorem raw_roundtrip_is_padded (drv : hal_driver) (subs : list can_bus_sub_t)
    (bs : list byte) (len std_id now : Z) (st : can_bus_tx)
    (g : list can_bus_reasm_slot_t)
    (Hinit : g_hfdcan st = true) (Hlen : 1 <= len <= 64)
    (Hbs : Z.of_nat (length bs) = len)
    (Hraw : len < 8 \/ byte_at bs 0 + 256 * byte_at bs 1 <> 0x5344) :
  let w := can_bus_round_up_fd_len len in
  exists c,
    tx_log (snd (can_bus_send_bytes drv (Some bs) len std_id st))
    = tx_log st ++ [c]
    /\ handle_rx_frame subs (wire_frame c) now g
       = {| res_reasm := g;
            res_events := can_bus_notify_rx subs
                            (bs ++ zeros (Z.to_nat (w - len))) w;
            res_path := PathRaw |}
    /\ Forall (fun e => ev_data e = bs ++ zeros (Z.to_nat (w - len))
                        /\ ev_len e = w)
              (res_events (handle_rx_frame subs (wire_frame c) now g))
    /\ (w = len <-> In len dlc_len_map).
Proof.
  cbv zeta.
  destruct (round_up_cases len ltac:(lia)) as (Hin & Hle & Hmin).
  pose proof (dlc_table_le_64 _ Hin) as Hw.
  destruct (send_bytes_short_frame drv bs len std_id st Hinit Hlen Hbs)
    as (Hsend & Hwire).
  eexists. split; [rewrite Hsend; reflexivity |].
  rewrite Hwire.
  assert (Hnf : is_fragment
                  {| rx_std_id := Z.land std_id 0x7FF;
                     rx_len := can_bus_round_up_fd_len len;
                     rx_data := bs ++ zeros (Z.to_nat (can_bus_round_up_fd_len len - len)) |}
                = false).
  { destruct (is_fragment _) eqn:E; [| reflexivity]. exfalso.
    apply is_fragment_spec in E as [E1 E2]. cbn [rx_len] in E1.
    unfold wire_magic in E2. cbn [rx_data] in E2. unfold sizeof_hdr in E1.
    destruct Hraw as [Hs | Hm].
    - assert (can_bus_round_up_fd_len len = len); [| lia].
      unfold can_bus_round_up_fd_len.
      destruct (Z.leb_spec len 8); [reflexivity | lia].
    - destruct (Z_lt_ge_dec len 2) as [H2 | H2].
      + assert (can_bus_round_up_fd_len len = len); [| lia].
        unfold can_bus_round_up_fd_len.
        destruct (Z.leb_spec len 8); [reflexivity | lia].
      + rewrite !byte_at_app_l in E2 by lia. contradiction. }
  rewrite (handle_rx_frame_raw subs _ now g Hnf). cbn [rx_data rx_len res_events].
  split; [reflexivity |]. split.
  - pose proof (notify_rx_events subs
                  (bs ++ zeros (Z.to_nat (can_bus_round_up_fd_len len - len)))
                  (can_bus_round_up_fd_len len)) as [Hev _].
    cbv zeta in Hev. rewrite take_ge in Hev; [exact Hev |].
    rewrite length_app, zeros_length. lia.
  - split; intros H.
    + rewrite <- H. exact Hin.
    + specialize (Hmin len H ltac:(lia)). lia.
Qed.

Lemma raw_roundtrip_is_padded_witness :
  let bs := counting_bytes 9 in
  let w := can_bus_round_up_fd_len 9 in
  exists c,
    tx_log (snd (can_bus_send_bytes drv_ok (Some bs) 9 0x123 tx_ready))
    = tx_log tx_ready ++ [c]
    /\ handle_rx_frame one_subscriber (wire_frame c) 5 reasm_init
       = {| res_reasm := reasm_init;
            res_events := can_bus_notify_rx one_subscriber
                            (bs ++ zeros (Z.to_nat (w - 9))) w;
            res_path := PathRaw |}
    /\ Forall (fun e => ev_data e = bs ++ zeros (Z.to_nat (w - 9))
                        /\ ev_len e = w)
              (res_events (handle_rx_frame one_subscriber (wire_frame c) 5
                             reasm_init))
    /\ (w = 9 <-> In 9 dlc_len_map).
Proof.
  apply (raw_roundtrip_is_padded drv_ok one_subscriber (counting_bytes 9) 9
           0x123 5 tx_ready reasm_init).
  - reflexivity.
  - lia.
  - reflexivity.
  - right. vm_compute. discriminate.
Defined.

(** ** The packed fragment header *)

Lemma byte_of_Z_add (a b : Z) : byte_of_Z (a + 256 * b) = byte_of_Z a.
Proof.
  unfold byte_of_Z. rewrite (Z.mul_comm 256 b), Z_mod_plus_full. reflexivity.
Qed.

Lemma byte_at_nth (bs : list byte) (i : nat) :
  byte_of_Z (byte_at bs i) = nth i bs x00.
Proof. unfold byte_at. apply byte_of_Z_of_byte. Qed.

(** X13: the 8-byte header survives the trip through memory both ways:
    decoding the bytes written for a header whose fields fit their C types
    gives the header back, whatever follows the 8 bytes, and encoding what
    was decoded from a buffer gives its first 8 bytes back.  The layout is
    little-endian: magic in bytes 0-1, then seq, index, count, flags, and
    the total length in bytes 6-7. *)
Theorem frag_hdr_codec_roundtrip (h : can_bus_frag_hdr_t) (bs rest : list byte)
    (Hmagic : 0 <= hdr_magic h < 65536) (Hseq : 0 <= hdr_seq h < 256)
    (Hidx : 0 <= hdr_frag_idx h < 256) (Hcnt : 0 <= hdr_frag_cnt h < 256)
    (Hflags : 0 <= hdr_flags h < 256) (Htot : 0 <= hdr_total_len h < 65536)
    (Hbs : (8 <= length bs)%nat) :
  hdr_of_bytes (hdr_bytes h ++ rest) = h
  /\ hdr_bytes (hdr_of_bytes bs) = take 8 bs
  /\ hdr_magic (hdr_of_bytes bs) = byte_at bs 0 + 256 * byte_at bs 1
  /\ hdr_total_len (hdr_of_bytes bs) = byte_at bs 6 + 256 * byte_at bs 7
  /\ length (hdr_bytes h) = 8%nat.
Proof.
  split; [apply hdr_roundtrip; assumption |].
  split; [| split; [apply hdr_magic_le |];
            split; [apply hdr_total_len_le | reflexivity]].
  unfold hdr_bytes, hdr_of_bytes.
  cbn [hdr_magic hdr_seq hdr_frag_idx hdr_frag_cnt hdr_flags hdr_total_len].
  pose proof (byte_at_range bs 0). pose proof (byte_at_range bs 1).
  pose proof (byte_at_range bs 6). pose proof (byte_at_range bs 7).
  rewrite !lor_shiftl_8 by lia.
  rewrite !byte_of_Z_add, !Z.shiftr_div_pow2 by lia.
  replace ((byte_at bs 0 + 256 * byte_at bs 1) / 2 ^ 8) with (byte_at bs 1)
    by (apply Z.div_unique with (r := byte_at bs 0); lia).
  replace ((byte_at bs 6 + 256 * byte_at bs 7) / 2 ^ 8) with (byte_at bs 7)
    by (apply Z.div_unique with (r := byte_at bs 6); lia).
  rewrite !byte_at_nth.
  do 8 (destruct bs as [| ? bs]; [simpl in Hbs; lia |]). reflexivity.
Qed.

Lemma frag_hdr_codec_roundtrip_witness :
  let h := frag_hdr 7 150 2 in
  let bs := counting_bytes 64 in
  hdr_of_bytes (hdr_bytes h ++ zeros 56) = h
  /\ hdr_bytes (hdr_of_bytes bs) = take 8 bs
  /\ hdr_magic (hdr_of_bytes bs) = byte_at bs 0 + 256 * byte_at bs 1
  /\ hdr_total_len (hdr_of_bytes bs) = byte_at bs 6 + 256 * byte_at bs 7
  /\ length (hdr_bytes h) = 8%nat.
Proof.
  apply (frag_hdr_codec_roundtrip (frag_hdr 7 150 2) (counting_bytes 64)
           (zeros 56));
    try (vm_compute; split; [discriminate | reflexivity]).
  vm_compute. lia.
Defined.

(** ** Subscriber registry *)

Lemma registered_entries (subs : list can_bus_sub_t) :
  registered subs = omap sub_entry (take CAN_BUS_MAX_SUBSCRIBERS subs).
Proof. reflexivity. Qed.

Lemma notify_rx_registered (subs : list can_bus_sub_t) (data : list byte)
    (len : Z) :
  can_bus_notify_rx subs data len
  = map (fun p => {| ev_cb := fst p; ev_data := take (Z.to_nat len) data;
                     ev_len := len; ev_user := snd p |}) (registered subs).
Proof.
  unfold can_bus_notify_rx, registered.
  match goal with
  | |- _ = map ?G (omap ?E ?T) => change (map G (omap E T)) with (G <$> omap E T)
  end.
  rewrite list_fmap_omap. apply list_omap_ext, Forall_Forall2_diag.
  apply Forall_forall. intros s _. destruct (sub_cb s); reflexivity.
Qed.

Lemma entries_cons (s : can_bus_sub_t) (l : list can_bus_sub_t) :
  omap sub_entry (s :: l) = option_list (sub_entry s) ++ omap sub_entry l.
Proof. simpl. destruct (sub_entry s); reflexivity. Qed.

Lemma entry_in (c : nat) (u : Z) (l : list can_bus_sub_t) :
  In (c, u) (omap sub_entry l) <-> Exists (sub_is c u) l.
Proof.
  induction l as [| s l IH].
  - simpl. split; [intros [] | intros H; inversion H].
  - rewrite entries_cons, Exists_cons, <- IH, in_app_iff.
    unfold sub_entry at 1, sub_is.
    destruct (sub_cb s) as [c' |]; simpl.
    + split.
      * intros [[H | []] | H]; [left; split; congruence | right; exact H].
      * intros [[H1 H2] | H]; [left; left; congruence | right; exact H].
    + split; [intros [[] | H]; right; exact H |].
      intros [[H _] | H]; [discriminate | right; exact H].
Qed.

Lemma entries_length (l : list can_bus_sub_t) :
  (length (omap sub_entry l) <= length l)%nat
  /\ (length (omap sub_entry l) = length l
      <-> Forall (fun s => ~ sub_is_null s) l).
Proof.
  induction l as [| s l [IH1 IH2]].
  - simpl. split; [lia |]. split; [constructor | reflexivity].
  - rewrite entries_cons, Forall_cons, length_app.
    assert (Hs : sub_entry s = None <-> sub_is_null s).
    { unfold sub_entry, sub_is_null. destruct (sub_cb s); split; congruence. }
    destruct (sub_entry s) as [e |]; cbv [option_list option_rect]; cbn [length Nat.add].
    + split; [lia |]. split.
      * intros H. split; [intros Hn; apply Hs in Hn; discriminate | apply IH2; lia].
      * intros [_ H]. f_equal. apply IH2, H.
    + split; [lia |]. split; [lia |].
      intros [H _]. exfalso. apply H, Hs. reflexivity.
Qed.

Lemma entries_insert (l : list can_bus_sub_t) (i : nat) (s0 s1 : can_bus_sub_t) :
  l !! i = Some s0 ->
  let l1 := omap sub_entry (take i l) in
  let l2 := omap sub_entry (drop (S i) l) in
  omap sub_entry l = l1 ++ option_list (sub_entry s0) ++ l2
  /\ omap sub_entry (<[i := s1]> l) = l1 ++ option_list (sub_entry s1) ++ l2.
Proof.
  intros Hi. cbv zeta.
  assert (Hlt : (i < length l)%nat) by (eapply lookup_lt_Some; exact Hi).
  split.
  - rewrite <- (take_drop_middle l i s0 Hi) at 1.
    rewrite omap_app, entries_cons. reflexivity.
  - rewrite insert_take_drop by exact Hlt.
    rewrite omap_app, entries_cons. reflexivity.
Qed.

Lemma take_insert_in (subs : list can_bus_sub_t) (i n : nat) (s : can_bus_sub_t) :
  (i < n)%nat -> take n (<[i := s]> subs) = <[i := s]> (take n subs).
Proof. intros H. apply take_insert_lt, H. Qed.

Lemma registered_short (l : list can_bus_sub_t) :
  (length l <= CAN_BUS_MAX_SUBSCRIBERS)%nat -> registered l = omap sub_entry l.
Proof. intros H. rewrite registered_entries, take_ge by exact H. reflexivity. Qed.

Lemma subscribe_rx_cases (c : nat) (user : Z) (subs : list can_bus_sub_t) :
  length subs = CAN_BUS_MAX_SUBSCRIBERS ->
  (In (c, user) (registered subs)
   /\ can_bus_subscribe_rx (Some c) user subs = (HAL_ERROR, subs))
  \/ (~ In (c, user) (registered subs)
      /\ length (registered subs) = CAN_BUS_MAX_SUBSCRIBERS
      /\ can_bus_subscribe_rx (Some c) user subs = (HAL_ERROR, subs))
  \/ (~ In (c, user) (registered subs)
      /\ exists i s0,
          subs !! i = Some s0 /\ sub_cb s0 = None
          /\ (forall j y, subs !! j = Some y -> (j < i)%nat -> sub_cb y <> None)
          /\ can_bus_subscribe_rx (Some c) user subs
             = (HAL_OK, <[i := {| sub_cb := Some c; sub_user := user |}]> subs)
          /\ registered subs
             = registered (take i subs) ++ registered (drop (S i) subs)
          /\ registered
               (<[i := {| sub_cb := Some c; sub_user := user |}]> subs)
             = registered (take i subs) ++ (c, user)
                 :: registered (drop (S i) subs)).
Proof.
  intros Hlen. unfold can_bus_subscribe_rx.
  assert (HT : take CAN_BUS_MAX_SUBSCRIBERS subs = subs)
    by (apply take_ge; lia).
  rewrite HT, (registered_short subs) by lia.
  destruct (list_find (sub_is c user) subs) as [[i s] |] eqn:Hdup.
  - left. apply list_find_Some in Hdup as (Hi & Hs & _).
    split; [| reflexivity]. apply entry_in, Exists_exists.
    exists s. split; [| exact Hs]. eapply list_elem_of_lookup_2, Hi.
  - apply list_find_None in Hdup. right.
    assert (Hnin : ~ In (c, user) (omap sub_entry subs)).
    { intros H. apply entry_in, Exists_exists in H as (s & Hin & Hs).
      rewrite Forall_forall in Hdup. exact (Hdup s Hin Hs). }
    destruct (list_find sub_is_null subs) as [[i s0] |] eqn:Hfree.
    + right. split; [exact Hnin |].
      apply list_find_Some in Hfree as (Hi & Hs0 & Hfirst).
      destruct (entries_insert subs i s0
                  {| sub_cb := Some c; sub_user := user |} Hi) as [H1 H2].
      cbv zeta in H1, H2. unfold sub_is_null in Hs0.
      assert (He0 : sub_entry s0 = None)
        by (unfold sub_entry; rewrite Hs0; reflexivity).
      rewrite He0 in H1.
      change (sub_entry {| sub_cb := Some c; sub_user := user |})
        with (Some (c, user)) in H2.
      cbv [option_list option_rect] in H1, H2. cbn [app] in H1, H2.
      assert (Hlt : (i < length subs)%nat) by (eapply lookup_lt_Some; exact Hi).
      exists i, s0.
      rewrite !registered_short
        by (rewrite ?length_insert, ?length_take, ?length_drop; lia).
      split; [exact Hi |]. split; [exact Hs0 |].
      split; [exact Hfirst |]. split; [reflexivity |].
      split; [exact H1 | exact H2].
    + left. split; [exact Hnin |]. split; [| reflexivity].
      apply list_find_None in Hfree.
      rewrite <- Hlen. apply entries_length, Hfree.
Qed.

(** X14: [can_bus_subscribe_rx] succeeds exactly when the callback is not
    NULL, the pair (callback, user) is not registered yet and fewer than 8
    callbacks are registered.  On success the pair is written to the first
    free table entry: the entry at that index was free, every entry below
    it is in use, and no other entry is touched.  The pair is therefore
    notified after the callbacks of the lower entries and before those of
    the higher ones.  On failure the table is left as it was. *)
Theorem subscribe_rx_outcome (cb : option nat) (user : Z)
    (subs : list can_bus_sub_t)
    (Hlen : length subs = CAN_BUS_MAX_SUBSCRIBERS) :
  let res := can_bus_subscribe_rx cb user subs in
  length (snd res) = CAN_BUS_MAX_SUBSCRIBERS
  /\ (fst res = HAL_OK
      <-> exists c, cb = Some c /\ ~ In (c, user) (registered subs)
                    /\ (length (registered subs) < CAN_BUS_MAX_SUBSCRIBERS)%nat)
  /\ (fst res <> HAL_OK -> fst res = HAL_ERROR /\ snd res = subs)
  /\ (forall c, cb = Some c -> fst res = HAL_OK ->
      exists i s0,
        subs !! i = Some s0 /\ sub_cb s0 = None
        /\ (forall j y, subs !! j = Some y -> (j < i)%nat -> sub_cb y <> None)
        /\ snd res = <[i := {| sub_cb := Some c; sub_user := user |}]> subs
        /\ length (registered (take i subs)) = i
        /\ registered subs
           = registered (take i subs) ++ registered (drop (S i) subs)
        /\ registered (snd res)
           = registered (take i subs) ++ (c, user)
               :: registered (drop (S i) subs)).
Proof.
  cbv zeta. destruct cb as [c |].
  - destruct (subscribe_rx_cases c user subs Hlen)
      as [(Hin & ->) | [(Hnin & Hfull & ->)
          | (Hnin & i & s0 & Hi & Hs0 & Hfirst & -> & Hr & Hr')]];
      cbn [fst snd].
    + split; [exact Hlen |]. split; [| split].
      * split; [discriminate |]. intros (c' & Hc & Hn & _).
        injection Hc as <-. contradiction.
      * intros _. split; reflexivity.
      * intros c' _ H. discriminate H.
    + split; [exact Hlen |]. split; [| split].
      * split; [discriminate |]. intros (c' & _ & _ & Hlt). lia.
      * intros _. split; reflexivity.
      * intros c' _ H. discriminate H.
    + assert (Hlt : (i < length subs)%nat) by (eapply lookup_lt_Some; exact Hi).
      assert (Hpos : length (registered (take i subs)) = i).
      { rewrite registered_short by (rewrite length_take; lia).
        pose proof (entries_length (take i subs)) as [_ Hall].
        rewrite length_take, Nat.min_l in Hall by lia.
        apply Hall, Forall_forall. intros y Hy Hnull.
        apply list_elem_of_lookup_1 in Hy as (j & Hj).
        apply lookup_take_Some in Hj as [Hj Hji].
        exact (Hfirst j y Hj Hji Hnull). }
      split; [rewrite length_insert; exact Hlen |]. split; [| split].
      * split; [| reflexivity]. intros _. exists c.
        split; [reflexivity |]. split; [exact Hnin |].
        pose proof (entries_length (drop (S i) subs)) as [Hle _].
        rewrite length_drop in Hle.
        rewrite Hr, length_app, Hpos.
        rewrite (registered_short (drop (S i) subs))
          by (rewrite length_drop; lia).
        lia.
      * intros H. contradiction.
      * intros c' Hc _. injection Hc as <-. exists i, s0. auto 10.
  - simpl. split; [exact Hlen |]. split; [| split].
    + split; [discriminate |]. intros (c & Hc & _). discriminate Hc.
    + intros _. split; reflexivity.
    + intros c Hc. discriminate Hc.
Qed.

Lemma subscribe_rx_outcome_witness :
  let res := can_bus_subscribe_rx (Some 2%nat) 5 one_subscriber in
  length (snd res) = CAN_BUS_MAX_SUBSCRIBERS
  /\ (fst res = HAL_OK
      <-> exists c, Some 2%nat = Some c
                    /\ ~ In (c, 5) (registered one_subscriber)
                    /\ (length (registered one_subscriber)
                        < CAN_BUS_MAX_SUBSCRIBERS)%nat)
  /\ (fst res <> HAL_OK -> fst res = HAL_ERROR /\ snd res = one_subscriber)
  /\ (forall c, Some 2%nat = Some c -> fst res = HAL_OK ->
      exists i s0,
        one_subscriber !! i = Some s0 /\ sub_cb s0 = None
        /\ (forall j y, one_subscriber !! j = Some y -> (j < i)%nat ->
                        sub_cb y <> None)
        /\ snd res = <[i := {| sub_cb := Some c; sub_user := 5 |}]> one_subscriber
        /\ length (registered (take i one_subscriber)) = i
        /\ registered one_subscriber
           = registered (take i one_subscriber)
               ++ registered (drop (S i) one_subscriber)
        /\ registered (snd res)
           = registered (take i one_subscriber) ++ (c, 5)
               :: registered (drop (S i) one_subscriber)).
Proof.
  apply (subscribe_rx_outcome (Some 2%nat) 5 one_subscriber). reflexivity.
Defined.

Lemma unsubscribe_rx_cases (c : nat) (user : Z) (subs : list can_bus_sub_t) :
  length subs = CAN_BUS_MAX_SUBSCRIBERS ->
  (~ In (c, user) (registered subs)
   /\ can_bus_unsubscribe_rx (Some c) user subs = (HAL_ERROR, subs))
  \/ (exists i s0 l1 l2,
        subs !! i = Some s0 /\ sub_is c user s0
        /\ can_bus_unsubscribe_rx (Some c) user subs
           = (HAL_OK, <[i := {| sub_cb := None; sub_user := 0 |}]> subs)
        /\ registered subs = l1 ++ (c, user) :: l2
        /\ ~ In (c, user) l1
        /\ registered (<[i := {| sub_cb := None; sub_user := 0 |}]> subs)
           = l1 ++ l2).
Proof.
  intros Hlen. unfold can_bus_unsubscribe_rx. rewrite !registered_entries.
  assert (HT : take CAN_BUS_MAX_SUBSCRIBERS subs = subs)
    by (apply take_ge; lia).
  rewrite HT.
  destruct (list_find (sub_is c user) subs) as [[i s0] |] eqn:Hfind.
  - right. apply list_find_Some in Hfind as (Hi & Hs0 & Hfirst).
    destruct (entries_insert subs i s0 {| sub_cb := None; sub_user := 0 |} Hi)
      as [H1 H2].
    cbv zeta in H1, H2.
    assert (He0 : sub_entry s0 = Some (c, user)).
    { destruct Hs0 as [Hc Hu]. unfold sub_entry. rewrite Hc, Hu. reflexivity. }
    rewrite He0 in H1.
    change (sub_entry {| sub_cb := None; sub_user := 0 |}) with (@None (nat * Z)) in H2.
    cbv [option_list option_rect] in H1, H2. cbn [app] in H1, H2.
    eexists i, s0, _, _. split; [exact Hi |]. split; [exact Hs0 |].
    split; [reflexivity |]. split; [exact H1 |]. split.
    + intros Hin. apply entry_in, Exists_exists in Hin as (y & Hy & Py).
      apply list_elem_of_lookup_1 in Hy as (j & Hj).
      apply lookup_take_Some in Hj as [Hj Hlt].
      exact (Hfirst j y Hj Hlt Py).
    + rewrite registered_entries, take_ge by (rewrite length_insert; lia).
      exact H2.
  - left. apply list_find_None in Hfind. split; [| reflexivity].
    intros H. apply entry_in, Exists_exists in H as (s & Hin & Hs).
    rewrite Forall_forall in Hfind. exact (Hfind s Hin Hs).
Qed.

(** X15: [can_bus_unsubscribe_rx] succeeds exactly when the callback is not
    NULL and the pair (callback, user) is registered.  It then clears the
    first entry holding the pair and keeps all other registrations in their
    order; on failure the table is left as it was. *)
Theorem unsubscribe_rx_outcome (cb : option nat) (user : Z)
    (subs : list can_bus_sub_t)
    (Hlen : length subs = CAN_BUS_MAX_SUBSCRIBERS) :
  let res := can_bus_unsubscribe_rx cb user subs in
  length (snd res) = CAN_BUS_MAX_SUBSCRIBERS
  /\ (fst res = HAL_OK
      <-> exists c, cb = Some c /\ In (c, user) (registered subs))
  /\ (fst res <> HAL_OK -> fst res = HAL_ERROR /\ snd res = subs)
  /\ (forall c, cb = Some c -> fst res = HAL_OK ->
      exists l1 l2, registered subs = l1 ++ (c, user) :: l2
                    /\ ~ In (c, user) l1
                    /\ registered (snd res) = l1 ++ l2).
Proof.
  cbv zeta. destruct cb as [c |].
  - destruct (unsubscribe_rx_cases c user subs Hlen)
      as [(Hnin & ->) | (i & s0 & l1 & l2 & Hi & Hs0 & -> & Hr & Hn1 & Hr')];
      cbn [fst snd].
    + split; [exact Hlen |]. split; [| split].
      * split; [discriminate |]. intros (c' & Hc & Hin).
        injection Hc as <-. contradiction.
      * intros _. split; reflexivity.
      * intros c' _ H. discriminate H.
    + split; [rewrite length_insert; exact Hlen |]. split; [| split].
      * split; [| reflexivity]. intros _. exists c.
        split; [reflexivity |]. rewrite Hr. apply in_elt.
      * intros H. contradiction.
      * intros c' Hc _. injection Hc as <-. exists l1, l2. auto.
  - simpl. split; [exact Hlen |]. split; [| split].
    + split; [discriminate |]. intros (c & Hc & _). discriminate Hc.
    + intros _. split; reflexivity.
    + intros c Hc. discriminate Hc.
Qed.

Lemma unsubscribe_rx_outcome_witness :
  let res := can_bus_unsubscribe_rx (Some 1%nat) 0 one_subscriber in
  length (snd res) = CAN_BUS_MAX_SUBSCRIBERS
  /\ (fst res = HAL_OK
      <-> exists c, Some 1%nat = Some c /\ In (c, 0) (registered one_subscriber))
  /\ (fst res <> HAL_OK -> fst res = HAL_ERROR /\ snd res = one_subscriber)
  /\ (forall c, Some 1%nat = Some c -> fst res = HAL_OK ->
      exists l1 l2, registered one_subscriber = l1 ++ (c, 0) :: l2
                    /\ ~ In (c, 0) l1
                    /\ registered (snd res) = l1 ++ l2).
Proof.
  apply (unsubscribe_rx_outcome (Some 1%nat) 0 one_subscriber). reflexivity.
Defined.

Lemma sub_step_inv (subs : list can_bus_sub_t) (op : sub_op) :
  length subs = CAN_BUS_MAX_SUBSCRIBERS
  /\ List.NoDup (registered subs)
  /\ Forall (fun s => sub_cb s = None -> sub_user s = 0) subs ->
  length (sub_step subs op) = CAN_BUS_MAX_SUBSCRIBERS
  /\ List.NoDup (registered (sub_step subs op))
  /\ Forall (fun s => sub_cb s = None -> sub_user s = 0) (sub_step subs op).
Proof.
  intros (Hlen & Hnd & Hz). destruct op as [[c |] user | [c |] user];
    cbn [sub_step]; try (simpl; auto; fail).
  - destruct (subscribe_rx_cases c user subs Hlen)
      as [(_ & ->) | [(_ & _ & ->)
          | (Hnin & i & s0 & _ & _ & _ & -> & Hr & Hr')]];
      cbn [snd]; auto.
    split; [rewrite length_insert; exact Hlen |]. split.
    + rewrite Hr'. rewrite Hr in Hnd, Hnin.
      apply (Permutation_NoDup (Permutation_middle _ _ (c, user))).
      constructor; assumption.
    + apply Forall_insert; [exact Hz |]. simpl. discriminate.
  - destruct (unsubscribe_rx_cases c user subs Hlen)
      as [(_ & ->) | (i & s0 & l1 & l2 & _ & _ & -> & Hr & _ & Hr')];
      cbn [snd]; auto.
    split; [rewrite length_insert; exact Hlen |]. split.
    + rewrite Hr'. rewrite Hr in Hnd. eapply NoDup_remove_1, Hnd.
    + apply Forall_insert; [exact Hz |]. reflexivity.
Qed.

(** X16: whatever sequence of subscribe and unsubscribe calls is made on
    the zeroed table, the table keeps its 8 entries, no (callback, user)
    pair is registered twice, so no subscriber is called twice for one
    message, and every free entry has a NULL user pointer. *)
Theorem registry_never_duplicates (ops : list sub_op) (data : list byte)
    (len : Z) :
  let subs := sub_run ops subs_init in
  length subs = CAN_BUS_MAX_SUBSCRIBERS
  /\ List.NoDup (registered subs)
  /\ List.NoDup (map (fun e => (ev_cb e, ev_user e))
                   (can_bus_notify_rx subs data len))
  /\ (length (can_bus_notify_rx subs data len) <= CAN_BUS_MAX_SUBSCRIBERS)%nat
  /\ Forall (fun s => sub_cb s = None -> sub_user s = 0) subs.
Proof.
  cbv zeta.
  assert (Hinv : length (sub_run ops subs_init) = CAN_BUS_MAX_SUBSCRIBERS
                 /\ List.NoDup (registered (sub_run ops subs_init))
                 /\ Forall (fun s => sub_cb s = None -> sub_user s = 0)
                      (sub_run ops subs_init)).
  { unfold sub_run.
    assert (H0 : length subs_init = CAN_BUS_MAX_SUBSCRIBERS
                 /\ List.NoDup (registered subs_init)
                 /\ Forall (fun s => sub_cb s = None -> sub_user s = 0) subs_init).
    { split; [reflexivity |]. split; [constructor |]. repeat constructor. }
    revert H0. generalize subs_init as subs.
    induction ops as [| op ops IH]; intros subs H0; [exact H0 |].
    simpl. apply IH, sub_step_inv, H0. }
  destruct Hinv as (Hlen & Hnd & Hz).
  pose proof (notify_rx_events (sub_run ops subs_init) data len) as [_ Hreg].
  cbv zeta in Hreg.
  split; [exact Hlen |]. split; [exact Hnd |].
  split; [rewrite Hreg; exact Hnd |]. split; [| exact Hz].
  rewrite <- (length_map (fun e => (ev_cb e, ev_user e))), Hreg.
  rewrite registered_entries.
  pose proof (entries_length (take CAN_BUS_MAX_SUBSCRIBERS (sub_run ops subs_init)))
    as [Hle _].
  rewrite length_take in Hle. lia.
Qed.

(** X17: subscribing and then unsubscribing the same pair is a round trip:
    on a table whose free entries are zeroed, as every table reached from
    the initial one is, the unsubscribe call succeeds and gives back the
    very table the subscribe call started from. *)
Theorem subscribe_unsubscribe_roundtrip (c : nat) (user : Z)
    (subs : list can_bus_sub_t)
    (Hlen : length subs = CAN_BUS_MAX_SUBSCRIBERS)
    (Hzero : Forall (fun s => sub_cb s = None -> sub_user s = 0) subs)
    (Hok : fst (can_bus_subscribe_rx (Some c) user subs) = HAL_OK) :
  can_bus_unsubscribe_rx (Some c) user
    (snd (can_bus_subscribe_rx (Some c) user subs))
  = (HAL_OK, subs).
Proof.
  destruct (subscribe_rx_cases c user subs Hlen)
    as [(_ & He) | [(_ & _ & He) | (Hnin & i & s0 & Hi & Hs0 & _ & He & _)]];
    rewrite He in *; try discriminate Hok.
  cbn [snd]. clear Hok He.
  assert (Hlt : (i < length subs)%nat) by (eapply lookup_lt_Some; exact Hi).
  unfold can_bus_unsubscribe_rx.
  rewrite take_ge by (rewrite length_insert; lia).
  assert (Hfind : list_find (sub_is c user)
                    (<[i := {| sub_cb := Some c; sub_user := user |}]> subs)
                  = Some (i, {| sub_cb := Some c; sub_user := user |})).
  { apply list_find_Some. split; [apply list_lookup_insert_eq, Hlt |].
    split; [split; reflexivity |]. intros j y Hj Hji Py.
    rewrite list_lookup_insert_ne in Hj by lia.
    apply Hnin. rewrite registered_entries, take_ge by lia.
    apply entry_in, Exists_exists. exists y.
    split; [eapply list_elem_of_lookup_2, Hj | exact Py]. }
  rewrite Hfind. f_equal. rewrite list_insert_insert_eq.
  apply list_insert_id. rewrite Hi. f_equal.
  rewrite Forall_forall in Hzero.
  specialize (Hzero s0 (list_elem_of_lookup_2 _ _ _ Hi) Hs0).
  destruct s0 as [cb0 u0]. simpl in *. subst. reflexivity.
Qed.

Lemma subscribe_unsubscribe_roundtrip_witness :
  can_bus_unsubscribe_rx (Some 2%nat) 5
    (snd (can_bus_subscribe_rx (Some 2%nat) 5 one_subscriber))
  = (HAL_OK, one_subscriber).
Proof.
  apply (subscribe_unsubscribe_roundtrip 2%nat 5 one_subscriber).
  - reflexivity.
  - repeat constructor.
  - reflexivity.
Defined.

(** ** [can_bus_init] *)

Lemma init_reasm_reset (g : list can_bus_reasm_slot_t) :
  length g = CAN_BUS_REASM_SLOTS ->
  fold_left (fun g i => alter reasm_reset i g) (seq 0 CAN_BUS_REASM_SLOTS) g
  = map reasm_reset g.
Proof.
  intros H. do 5 (destruct g as [| ? g]; try discriminate H). reflexivity.
Qed.

Lemma reset_slots_idle (g : list can_bus_reasm_slot_t) (id now : Z) :
  reasm_idle_for id (map reasm_reset g)
  /\ reasm_expire_old now (map reasm_reset g) = map reasm_reset g.
Proof.
  split.
  - apply Forall_map, Forall_forall. intros s _ [H _]. discriminate H.
  - unfold reasm_expire_old. rewrite map_map. apply map_ext. intros s.
    reflexivity.
Qed.



(** ** Time sync: what the offset formula recovers *)

(** X19: the four-timestamp formula recovers the clock difference.  If the
    master's clock is [theta] ms ahead, the request takes [d1] ms and the
    reply [d2] ms, then the delay computed is [d1 + d2] whatever the master's
    turnaround time, the offset is off from [theta] by at most half the
    delay (plus the rounding of the division), and it is [theta] exactly
    when the two directions take the same time. *)
Theorem timesync_offset_recovers_difference (t1 d1 p d2 theta : Z)
    (Hd1 : 0 <= d1) (Hd2 : 0 <= d2)
    (H1 : 0 <= t1 < 2 ^ 62)
    (H2 : 0 <= t1 + d1 + theta < 2 ^ 62)
    (H3 : 0 <= t1 + d1 + theta + p < 2 ^ 62)
    (H4 : 0 <= t1 + d1 + p + d2 < 2 ^ 62) :
  let '(t1, t2, t3, t4) := exchange t1 d1 p d2 theta in
  let '(offset_ms, delay_ms) := compute_offset_delay t1 t2 t3 t4 in
  delay_ms = d1 + d2
  /\ offset_ms = (2 * theta + d1 - d2) ÷ 2
  /\ 2 * Z.abs (offset_ms - theta) <= delay_ms + 1
  /\ (d1 = d2 -> offset_ms = theta).
Proof.
  unfold exchange.
  rewrite compute_offset_delay_exact by lia.
  unfold ntp_offset, ntp_delay.
  replace (t1 + d1 + theta - t1 + (t1 + d1 + theta + p - (t1 + d1 + theta + p - theta + d2)))
    with (2 * theta + d1 - d2) by lia.
  replace (t1 + d1 + theta + p - theta + d2 - t1 - (t1 + d1 + theta + p - (t1 + d1 + theta)))
    with (d1 + d2) by lia.
  split; [lia |]. split; [reflexivity |].
  split.
  - pose proof (Z.quot_rem' (2 * theta + d1 - d2) 2) as Hqr.
    pose proof (Z.rem_bound_abs (2 * theta + d1 - d2) 2 ltac:(lia)) as Hr.
    change (Z.abs 2) with 2 in Hr. lia.
  - intros ->. replace (2 * theta + d2 - d2) with (theta * 2) by lia.
    apply Z.quot_mul. lia.
Qed.

Lemma timesync_offset_recovers_difference_witness :
  let '(t1, t2, t3, t4) := exchange 10000 3 10 7 95 in
  let '(offset_ms, delay_ms) := compute_offset_delay t1 t2 t3 t4 in
  delay_ms = 3 + 7
  /\ offset_ms = (2 * 95 + 3 - 7) ÷ 2
  /\ 2 * Z.abs (offset_ms - 95) <= delay_ms + 1
  /\ (3 = 7 -> offset_ms = 95).
Proof.
  apply (timesync_offset_recovers_difference 10000 3 10 7 95); lia.
Defined.

(** ** The 32-to-64-bit tick extender of [tx_raw_now_ms] *)

Lemma lor_high_low (h lo : Z) :
  0 <= h -> h mod 2 ^ 32 = 0 -> 0 <= lo < 2 ^ 32 -> Z.lor h lo = h + lo.
Proof.
  intros Hh Hm Hlo.
  assert (Hland : Z.land h lo = 0).
  { apply Z.bits_inj'. intros n Hn. rewrite Z.land_spec, Z.bits_0.
    destruct (Z.lt_ge_cases n 32) as [Hlt | Hge].
    - replace (Z.testbit h n) with false; [reflexivity |].
      rewrite <- (Z.mod_pow2_bits_low h 32 n Hlt), Hm. symmetry. apply Z.bits_0.
    - replace (Z.testbit lo n) with false; [apply andb_false_r |].
      symmetry. destruct (Z.eq_dec lo 0) as [-> | Hnz]; [apply Z.bits_0 |].
      apply Z.bits_above_log2; [lia |].
      apply Z.log2_lt_pow2; [lia |].
      apply Z.lt_le_trans with (2 ^ 32); [lia |].
      apply Z.pow_le_mono_r; lia. }
  rewrite <- Z.lxor_lor by exact Hland.
  rewrite <- Z.add_nocarry_lxor by exact Hland. reflexivity.
Qed.

Lemma tx_raw_now_ms_step (tps : Z) (c : threadx_clock) (e : tick_extender) :
  ext_wf e ->
  let cur32 := u32 (tx_ticks c) in
  let e' := snd (tx_raw_now_ms tps c e) in
  last_ticks32 e' = cur32
  /\ high e' = (if cur32 <? last_ticks32 e then high e + 2 ^ 32 else high e)
  /\ fst (tx_raw_now_ms tps c e) = u64 (ext_ticks e' * 1000) / tps.
Proof.
  intros (Hl & Hh & Hm & Hb). cbv zeta. unfold tx_raw_now_ms, tx_time_get.
  cbn [fst snd last_ticks32 high]. unfold ext_ticks. cbn [last_ticks32 high].
  pose proof (u32_range (tx_ticks c)) as Hc.
  assert (Hhigh : (if u32 (tx_ticks c) <? last_ticks32 e
                   then u64 (high e + 2 ^ 32) else high e)
                  = (if u32 (tx_ticks c) <? last_ticks32 e
                     then high e + 2 ^ 32 else high e)).
  { destruct (u32 (tx_ticks c) <? last_ticks32 e); [| reflexivity].
    apply u64_small. lia. }
  rewrite Hhigh. split; [reflexivity |]. split; [reflexivity |].
  rewrite lor_high_low; [reflexivity | | | exact Hc].
  - destruct (u32 (tx_ticks c) <? last_ticks32 e); lia.
  - destruct (u32 (tx_ticks c) <? last_ticks32 e); [| exact Hm].
    rewrite <- Z.add_mod_idemp_l, Hm by lia. reflexivity.
Qed.

(** X20: the extender follows the tick counter across its 32-bit wrap as
    long as it is read at least once per wrap: if the counter stood at the
    extender's count and has advanced by [d < 2^32] ticks since, the read
    returns the milliseconds of the true count, which is what the extender
    holds afterwards. *)
Theorem tick_extender_follows_wrap (tps d : Z) (c : threadx_clock)
    (e : tick_extender)
    (Hwf : ext_wf e) (Hd : 0 <= d < 2 ^ 32)
    (Hc : tx_ticks c = u32 (ext_ticks e + d))
    (Hroom : ext_ticks e + d + 2 ^ 32 < 2 ^ 64) :
  let '(ms, e') := tx_raw_now_ms tps c e in
  ext_ticks e' = ext_ticks e + d
  /\ ext_wf e'
  /\ ms = u64 ((ext_ticks e + d) * 1000) / tps.
Proof.
  destruct (tx_raw_now_ms_step tps c e Hwf) as (Hl & Hh & Hms).
  cbv zeta in Hl, Hh, Hms.
  destruct (tx_raw_now_ms tps c e) as [ms e'] eqn:E. cbn [fst snd] in *.
  destruct Hwf as (Hl0 & Hh0 & Hm0 & Hb0). unfold ext_ticks in *.
  assert (Hcur : u32 (tx_ticks c) = (last_ticks32 e + d) mod 2 ^ 32).
  { rewrite Hc. unfold u32. rewrite Z.mod_mod by lia.
    rewrite <- Z.add_assoc, <- Z.add_mod_idemp_l, Hm0 by lia. reflexivity. }
  assert (Hsum : high e' + last_ticks32 e' = high e + last_ticks32 e + d).
  { rewrite Hl, Hh, Hcur.
    destruct (Z_lt_ge_dec (last_ticks32 e + d) (2 ^ 32)) as [Hs | Hw].
    - rewrite Z.mod_small by lia.
      destruct (Z.ltb_spec (last_ticks32 e + d) (last_ticks32 e)); lia.
    - replace (last_ticks32 e + d)
        with (last_ticks32 e + d - 2 ^ 32 + 1 * 2 ^ 32) by lia.
      rewrite Z.mod_add by lia. rewrite Z.mod_small by lia.
      destruct (Z.ltb_spec (last_ticks32 e + d - 2 ^ 32) (last_ticks32 e)); lia. }
  split; [exact Hsum |]. split.
  - unfold ext_wf. rewrite Hl.
    pose proof (u32_range (tx_ticks c)) as Hr.
    split; [exact Hr |].
    assert (Hhm : high e' mod 2 ^ 32 = 0).
    { rewrite Hh. destruct (u32 (tx_ticks c) <? last_ticks32 e); [| exact Hm0].
      rewrite <- Z.add_mod_idemp_l, Hm0 by lia. reflexivity. }
    assert (Hh' : 0 <= high e')
      by (rewrite Hh; destruct (u32 (tx_ticks c) <? last_ticks32 e); lia).
    split; [exact Hh' |]. split; [exact Hhm |].
    rewrite Hl in Hsum. lia.
  - rewrite Hms, Hsum. reflexivity.
Qed.

Lemma tick_extender_follows_wrap_witness :
  let c := {| tx_ticks := 5; tx_set_log := [] |} in
  let e := {| last_ticks32 := 2 ^ 32 - 10; high := 0 |} in
  let '(ms, e') := tx_raw_now_ms 1000 c e in
  ext_ticks e' = ext_ticks e + 15
  /\ ext_wf e'
  /\ ms = u64 ((ext_ticks e + 15) * 1000) / 1000.
Proof.
  apply (tick_extender_follows_wrap 1000 15
           {| tx_ticks := 5; tx_set_log := [] |}
           {| last_ticks32 := 2 ^ 32 - 10; high := 0 |}).
  - unfold ext_wf. cbn [last_ticks32 high].
    split; [lia |]. split; [lia |]. split; [reflexivity | lia].
  - lia.
  - reflexivity.
  - unfold ext_ticks. cbn [last_ticks32 high]. lia.
Defined.

(** X21: a backward step of the clock is read as a wrap.  When a time-sync
    reply yields a negative offset of at least one tick, [on_timesync] sets
    the tick counter below the value [tx_raw_now_ms] has just remembered, and
    the next read adds [2^32] ticks to the extended count: time as the
    router sees it jumps ahead by about [2^32] ticks instead of stepping
    back. *)
Theorem negative_correction_read_as_wrap (tps resp_ty len : Z)
    (payload : list byte) (c : threadx_clock) (e : tick_extender)
    (Htps : 0 < tps < 2 ^ 32) (Hlen : 32 <= len)
    (Hcur : 0 < tx_ticks c < 2 ^ 32) (Hwf : ext_wf e)
    (Hroom : high e + 2 ^ 33 < 2 ^ 64) :
  let pkt := {| pkt_ty := resp_ty; pkt_payload := Some payload;
                pkt_payload_len := len |} in
  let t4 := fst (tx_raw_now_ms tps c e) in
  let offset := fst (compute_offset_delay (le_u64 payload 8)
                       (le_u64 payload 16) (le_u64 payload 24) t4) in
  - 30000 <= offset -> offset * tps <= - 1000 ->
  let '(_, c', e') := on_timesync tps resp_ty pkt c e in
  let e'' := snd (tx_raw_now_ms tps c' e') in
  tx_ticks c' = Z.max 0 (tx_ticks c + (offset * tps) ÷ 1000)
  /\ tx_ticks c' < tx_ticks c
  /\ last_ticks32 e' = tx_ticks c
  /\ ext_ticks e'' = ext_ticks e' + 2 ^ 32 - (tx_ticks c - tx_ticks c').
Proof.
  cbv zeta. intros Hlo Hneg.
  unfold on_timesync. cbn [pkt_payload pkt_ty pkt_payload_len].
  rewrite Z.eqb_refl. destruct (Z.geb_spec len 32) as [_ | ?]; [| lia].
  cbn [andb].
  destruct (tx_raw_now_ms_step tps c e Hwf) as (Hl & Hh & _).
  cbv zeta in Hl, Hh.
  destruct (tx_raw_now_ms tps c e) as [t4 e'] eqn:E. cbn [fst snd] in *.
  destruct (compute_offset_delay (le_u64 payload 8) (le_u64 payload 16)
              (le_u64 payload 24) t4) as [offset delay] eqn:Eo.
  cbn [fst] in *.
  rewrite (apply_offset_in_range tps Htps) by lia.
  unfold corrected_ticks. cbn [tx_time_set tx_ticks].
  rewrite (u32_small (tx_ticks c)) in * by lia.
  assert (Hq : - 2 ^ 47 <= (offset * tps) ÷ 1000 <= - 1).
  { assert (Hp : - 2 ^ 47 <= offset * tps <= - 1000) by nia.
    revert Hp. generalize (offset * tps). intros z Hz.
    pose proof (Z.quot_rem' z 1000). pose proof (Z.rem_bound_neg_neg z 1000).
    Z.quot_rem_to_equations. lia. }
  set (new := Z.max 0 (tx_ticks c + (offset * tps) ÷ 1000)).
  assert (Hnew : 0 <= new < tx_ticks c) by (subst new; lia).
  rewrite (u32_small new) by lia.
  assert (Hwf' : ext_wf e').
  { destruct Hwf as (Hl0 & Hh0 & Hm0 & Hb0). unfold ext_wf.
    rewrite Hl, Hh. split; [lia |].
    destruct (tx_ticks c <? last_ticks32 e).
    - split; [lia |]. split; [| lia].
      rewrite <- Z.add_mod_idemp_l, Hm0 by lia. reflexivity.
    - split; [lia |]. split; [exact Hm0 | lia]. }
  destruct (tx_raw_now_ms_step tps (tx_time_set new c) e' Hwf')
    as (Hl2 & Hh2 & _).
  cbv zeta in Hl2, Hh2. cbn [tx_time_set tx_ticks] in Hl2, Hh2.
  rewrite (u32_small new) in Hl2, Hh2 by lia.
  split; [reflexivity |]. split; [lia |]. split; [exact Hl |].
  unfold ext_ticks. rewrite Hl2, Hh2, Hl.
  destruct (Z.ltb_spec new (tx_ticks c)); lia.
Qed.

Lemma negative_correction_read_as_wrap_witness :
  let c := {| tx_ticks := 10020; tx_set_log := [] |} in
  let e := {| last_ticks32 := 0; high := 0 |} in
  let pkt := {| pkt_ty := 7;
                pkt_payload := Some (timesync_reply 1 10000 9910 9915);
                pkt_payload_len := 32 |} in
  let '(_, c', e') := on_timesync 1000 7 pkt c e in
  let e'' := snd (tx_raw_now_ms 1000 c' e') in
  tx_ticks c' = Z.max 0 (tx_ticks c + (- 97 * 1000) ÷ 1000)
  /\ tx_ticks c' < tx_ticks c
  /\ last_ticks32 e' = tx_ticks c
  /\ ext_ticks e'' = ext_ticks e' + 2 ^ 32 - (tx_ticks c - tx_ticks c').
Proof.
  apply (negative_correction_read_as_wrap 1000 7 32
           (timesync_reply 1 10000 9910 9915)
           {| tx_ticks := 10020; tx_set_log := [] |}
           {| last_ticks32 := 0; high := 0 |}).
  - lia.
  - lia.
  - cbn [tx_ticks]. lia.
  - unfold ext_wf. cbn [last_ticks32 high].
    split; [lia |]. split; [lia |]. split; [reflexivity | lia].
  - cbn [high]. lia.
  - vm_compute. discriminate.
  - vm_compute. discriminate.
Defined.

(** ** What [on_timesync] reads of a packet *)

Lemma le_u64_window (bs bs' : list byte) (off : nat) :
  (8 <= off)%nat -> (off + 8 <= 32)%nat ->
  take 24 (drop 8 bs) = take 24 (drop 8 bs') ->
  le_u64 bs off = le_u64 bs' off.
Proof.
  intros H1 H2 Heq. unfold le_u64. f_equal.
  assert (Hw : forall l : list byte,
             take 8 (drop off l) = take 8 (drop (off - 8) (take 24 (drop 8 l)))).
  { intros l. rewrite take_drop_take by lia. rewrite drop_drop.
    do 2 f_equal. lia. }
  rewrite (Hw bs), (Hw bs'), Heq. reflexivity.
Qed.

(** X22: [on_timesync] acts on a packet only if it has a payload pointer,
    the reply type and at least 32 payload bytes; else clock and extender
    are left alone ([SEDS_ERR] for a NULL payload, [SEDS_OK] otherwise).  Of
    an accepted reply it reads bytes 8 to 31 only: the sequence number in
    bytes 0 to 7 is copied and never looked at, so a reply is applied
    whatever request it answers. *)
Theorem on_timesync_reads_timestamps_only (tps resp_ty : Z)
    (pkt : SedsPacketView) (payload payload' : list byte)
    (c : threadx_clock) (e : tick_extender)
    (Hpay : pkt_payload pkt = Some payload)
    (Hsame : take 24 (drop 8 payload) = take 24 (drop 8 payload')) :
  on_timesync tps resp_ty
    {| pkt_ty := pkt_ty pkt; pkt_payload := Some payload';
       pkt_payload_len := pkt_payload_len pkt |} c e
  = on_timesync tps resp_ty pkt c e
  /\ (pkt_ty pkt <> resp_ty \/ pkt_payload_len pkt < 32 ->
      on_timesync tps resp_ty pkt c e = (SEDS_OK, c, e))
  /\ on_timesync tps resp_ty
       {| pkt_ty := pkt_ty pkt; pkt_payload := None;
          pkt_payload_len := pkt_payload_len pkt |} c e
     = (SEDS_ERR, c, e)
  /\ fst (fst (on_timesync tps resp_ty pkt c e)) = SEDS_OK.
Proof.
  unfold on_timesync. cbn [pkt_payload pkt_ty pkt_payload_len]. rewrite Hpay.
  rewrite !(le_u64_window payload payload') by (exact Hsame || lia).
  split; [reflexivity |]. split; [| split; [reflexivity |]].
  - intros [Hty | Hlen].
    + destruct (Z.eqb_spec (pkt_ty pkt) resp_ty); [contradiction | reflexivity].
    + destruct (Z.geb_spec (pkt_payload_len pkt) 32); [lia |].
      rewrite andb_false_r. reflexivity.
  - destruct ((pkt_ty pkt =? resp_ty) && (pkt_payload_len pkt >=? 32));
      [| reflexivity].
    destruct (tx_raw_now_ms tps c e) as [t4 e'].
    destruct (compute_offset_delay _ _ _ t4). reflexivity.
Qed.

Lemma on_timesync_reads_timestamps_only_witness :
  let c := {| tx_ticks := 10020; tx_set_log := [] |} in
  let e := {| last_ticks32 := 0; high := 0 |} in
  let pkt := {| pkt_ty := 7;
                pkt_payload := Some (timesync_reply 1 10000 10100 10110);
                pkt_payload_len := 32 |} in
  on_timesync 1000 7
    {| pkt_ty := pkt_ty pkt;
       pkt_payload := Some (timesync_reply 99 10000 10100 10110);
       pkt_payload_len := pkt_payload_len pkt |} c e
  = on_timesync 1000 7 pkt c e
  /\ (pkt_ty pkt <> 7 \/ pkt_payload_len pkt < 32 ->
      on_timesync 1000 7 pkt c e = (SEDS_OK, c, e))
  /\ on_timesync 1000 7
       {| pkt_ty := pkt_ty pkt; pkt_payload := None;
          pkt_payload_len := pkt_payload_len pkt |} c e
     = (SEDS_ERR, c, e)
  /\ fst (fst (on_timesync 1000 7 pkt c e)) = SEDS_OK.
Proof.
  apply (on_timesync_reads_timestamps_only 1000 7
           {| pkt_ty := 7;
              pkt_payload := Some (timesync_reply 1 10000 10100 10110);
              pkt_payload_len := 32 |}
           (timesync_reply 1 10000 10100 10110)
           (timesync_reply 99 10000 10100 10110)).
  - reflexivity.
  - vm_compute. reflexivity.
Defined.

(** ** Reassembly: duplicates, sequence changes, mismatches *)

Lemma seen_props (idxs : list nat) (n : nat) :
  forall S, List.NoDup S -> Forall (fun x => (x < n)%nat) S ->
            Forall (fun x => (x < n)%nat) idxs ->
            List.NoDup (seen S idxs)
            /\ Forall (fun x => (x < n)%nat) (seen S idxs)
            /\ (length S <= length (seen S idxs))%nat
            /\ (forall x, In x (seen S idxs) <-> In x S \/ In x idxs).
Proof.
  induction idxs as [| i idxs IH]; intros S Hnd Hlt Hidx.
  - simpl. split; [exact Hnd |]. split; [exact Hlt |]. split; [lia |].
    intros x. simpl. tauto.
  - inversion Hidx as [| ? ? Hi Hidx']; subst.
    change (seen S (i :: idxs)) with (seen (seen_add S i) idxs).
    unfold seen_add.
    destruct (in_dec Nat.eq_dec i S) as [Hin | Hnin].
    + destruct (IH S Hnd Hlt Hidx') as (H1 & H2 & H3 & H4).
      split; [exact H1 |]. split; [exact H2 |]. split; [exact H3 |].
      intros x. rewrite H4. simpl. split; [tauto |].
      intros [H | [<- | H]]; auto.
    + destruct (IH (i :: S)) as (H1 & H2 & H3 & H4);
        [constructor; assumption | constructor; assumption | exact Hidx' |].
      split; [exact H1 |]. split; [exact H2 |]. split; [simpl in H3; lia |].
      intros x. rewrite H4. simpl. tauto.
Qed.

Section ReassemblyMore.

Variable subs : list can_bus_sub_t.
Variables (bs : list byte) (L sq std_id : Z).
Hypothesis L_range : 1 <= L <= 2048.
Hypothesis bs_length : Z.of_nat (length bs) = L.
Hypothesis sq_range : 0 <= sq < 256.

(** Fragments that do not complete the message are stored silently. *)
Lemma collect_partial (rest : list nat) :
  forall (rx : list (can_bus_rx_frame_t * Z)) (S : list nat)
         (g : list can_bus_reasm_slot_t),
    map fst rx = map (rx_frag std_id sq L bs) rest ->
    List.NoDup (rest ++ S) ->
    Forall (fun x => (x < Z.to_nat (frag_count L))%nat) (rest ++ S) ->
    Z.of_nat (length (rest ++ S)) < frag_count L ->
    reasm_state (Z.land std_id 0x7FF) sq L bs S g ->
    exists g',
      handle_rx_frames subs rx g = (g', [])
      /\ reasm_state (Z.land std_id 0x7FF) sq L bs (rev rest ++ S) g'.
Proof.
  induction rest as [| i rest IH]; intros rx S g Hrx Hnd Hlt Hlen Hst.
  - destruct rx; [| discriminate Hrx]. simpl. eauto.
  - destruct rx as [| [f now] rx]; [discriminate Hrx |].
    simpl in Hrx. injection Hrx as -> Hrx.
    assert (Hnd1 : List.NoDup (i :: S)).
    { simpl in Hnd. inversion Hnd as [| ? ? Hni Hnd']; subst. constructor.
      - intros Hin. apply Hni. apply in_or_app. right. exact Hin.
      - apply NoDup_app_remove_l in Hnd'. exact Hnd'. }
    assert (Hlt1 : Forall (fun x => (x < Z.to_nat (frag_count L))%nat) (i :: S)).
    { simpl in Hlt. inversion Hlt; subst. constructor; [assumption |].
      apply Forall_app in H2. apply H2. }
    pose proof (handle_fragment_step subs bs L sq L_range bs_length sq_range
                  std_id S i now g Hst Hnd1 Hlt1) as Hstep.
    cbv zeta in Hstep. simpl handle_rx_frames.
    destruct (Z.eqb_spec (Z.of_nat (length (i :: S))) (frag_count L))
      as [Heq | Hneq].
    { simpl in Heq, Hlen. rewrite length_app in Hlen. lia. }
    destruct Hstep as [-> Hst'].
    destruct (IH rx (i :: S)
                (res_reasm (handle_rx_frame subs (rx_frag std_id sq L bs i) now g))
                Hrx) as (g' & Hrun & Hfin).
    + apply (Permutation_NoDup (l := (i :: rest) ++ S)); [| exact Hnd].
      simpl. apply Permutation_middle.
    + apply List.Forall_forall. intros x Hx.
      rewrite List.Forall_forall in Hlt. apply Hlt. simpl.
      apply (Permutation_in x (Permutation_sym (Permutation_middle rest S i))).
      exact Hx.
    + rewrite !length_app in *. simpl in *. lia.
    + exact Hst'.
    + exists g'. rewrite Hrun. simpl. split; [reflexivity |].
      rewrite <- app_assoc. exact Hfin.
Qed.

Lemma duplicate_fragment_step (S : list nat) (i : nat) (now : Z)
    (g : list can_bus_reasm_slot_t) :
  reasm_state (Z.land std_id 0x7FF) sq L bs S g -> In i S ->
  Z.of_nat i < frag_count L -> Z.of_nat (length S) < frag_count L ->
  let r := handle_rx_frame subs (rx_frag std_id sq L bs i) now g in
  res_events r = [] /\ res_path r = PathAccepted
  /\ reasm_state (Z.land std_id 0x7FF) sq L bs S (res_reasm r).
Proof.
  intros Hst HiS Hi HS r.
  pose proof (frag_count_small L L_range) as Hsmall.
  pose proof (frag_count_bounds L) as Hb.
  destruct (handle_fragment_prestore subs bs L sq L_range bs_length sq_range
              std_id S i now g Hst Hi)
    as (k & s1 & sx & Hk & Hrun & Hfor & Hseq & Hcol & Hothers).
  destruct S as [| x S']; [contradiction |].
  destruct Hst as [[Hlen Hbufs] (k0 & s & Hk0 & Hfor0 & Hseq0 & Hcol0 & Hothers0)].
  assert (Hstore : reasm_store subs (frag_hdr sq L i)
                     (drop 8 (frag_frame sq L bs i)) 56 now k s1 (<[k := sx]> g)
                   = {| res_reasm := <[k := set_last_tick now s1]> g;
                        res_events := []; res_path := PathAccepted |}).
  { destruct Hcol as (Hcnt & Htl & Hcap & (m & Hmask & Hbits) & Hcount & _).
    unfold reasm_store. simpl hdr_frag_idx. rewrite Hcap, Htl.
    replace (u32 (Z.of_nat i * 56)) with (56 * Z.of_nat i)
      by (rewrite u32_small by lia; lia).
    destruct (Z.geb_spec (56 * Z.of_nat i) L) as [? | _]; [lia |].
    rewrite Hmask, bit_test_single by lia.
    assert (Hbit : Z.testbit m (Z.of_nat i) = true) by (apply Hbits, HiS).
    rewrite Hbit. simpl negb. cbv iota.
    cbn [set_last_tick s_got_count s_frag_cnt]. rewrite Hcount, Hcnt.
    destruct (Z.eqb_spec (Z.of_nat (length (x :: S'))) (frag_count L)); [lia |].
    rewrite list_insert_insert_eq. reflexivity. }
  unfold r. rewrite Hrun, Hstore. cbn [res_events res_path res_reasm].
  split; [reflexivity |]. split; [reflexivity |].
  assert (Hbuf1 : length (s_buf s1) = Z.to_nat CAN_BUS_REASM_MAX_BYTES)
    by apply Hcol.
  split; [split |].
  - rewrite length_insert. exact Hlen.
  - apply Forall_insert; [exact Hbufs | exact Hbuf1].
  - exists k, (set_last_tick now s1).
    split; [apply list_lookup_insert_eq; exact Hk |].
    split; [exact Hfor |]. split; [exact Hseq |]. split; [exact Hcol |].
    intros j y Hjk Hj. rewrite list_lookup_insert_ne in Hj by auto.
    apply (Hothers j y Hjk Hj).
Qed.

Lemma seq_change_first (i : nat) (now : Z) (k : nat)
    (s0 : can_bus_reasm_slot_t) (g : list can_bus_reasm_slot_t) :
  reasm_wf g -> g !! k = Some s0 ->
  slot_is_for (Z.land std_id 0x7FF) s0 -> s_seq s0 <> sq ->
  (forall j s', j <> k -> g !! j = Some s' ->
                ~ slot_is_for (Z.land std_id 0x7FF) s') ->
  Z.of_nat i < frag_count L -> 2 <= frag_count L ->
  let r := handle_rx_frame subs (rx_frag std_id sq L bs i) now g in
  res_events r = [] /\ res_path r = PathAccepted
  /\ reasm_state (Z.land std_id 0x7FF) sq L bs [] (res_reasm r)
  /\ (exists s', res_reasm r = <[k := s']> g /\ s_active s' = false
                 /\ s_got_count s' = 1 /\ s_frag_cnt s' = frag_count L).
Proof.
  intros [Hlen Hbufs] Hk Hfor Hsq Hothers Hi Hcnt2 r.
  pose proof (frag_count_small L L_range) as Hsmall.
  assert (Hg : (0 < length g)%nat)
    by (rewrite Hlen; unfold CAN_BUS_REASM_SLOTS; lia).
  unfold r. rewrite (rx_frag_eq bs L sq bs_length). unfold handle_rx_frame.
  simpl rx_len. simpl rx_data. simpl rx_std_id.
  change (64 >=? sizeof_hdr) with true. cbv iota.
  rewrite (frag_hdr_decoded bs L sq L_range sq_range) by exact Hi.
  change (hdr_magic (frag_hdr sq L i) =? CAN_BUS_FRAG_MAGIC) with true.
  cbv iota. rewrite (frag_hdr_accepted bs L sq L_range) by exact Hi.
  change (u8 (64 - sizeof_hdr)) with 56.
  change (Z.to_nat sizeof_hdr) with 8%nat.
  simpl hdr_seq.
  destruct (reasm_get_slot_cases (Z.land std_id 0x7FF) sq now g Hg)
    as (k' & s0' & s1 & -> & Hk' & Hcase).
  assert (Hsame : slot_is_for (Z.land std_id 0x7FF) s0' -> k' = k /\ s0' = s0).
  { intros Hfor0. destruct (Nat.eq_dec k' k) as [-> | Hne].
    - split; [reflexivity | congruence].
    - exfalso. apply (Hothers k' s0' Hne Hk'). exact Hfor0. }
  assert (Hs1 : k' = k /\ s1 = set_last_tick now (reasm_reset s0)).
  { destruct Hcase as [(Hf & He & _) | [(Hf & _ & ->) | (Hidle & _)]].
    - destruct (Hsame Hf) as [-> ->]. contradiction.
    - destruct (Hsame Hf) as [-> ->]. auto.
    - exfalso. apply (Forall_lookup_1 _ _ _ _ Hidle Hk). exact Hfor. }
  destruct Hs1 as [-> ->]. clear Hcase Hsame Hk'.
  assert (Hklt : (k < length g)%nat) by (apply lookup_lt_Some in Hk; exact Hk).
  assert (Hat : slot_at (<[k := set_last_tick now (reasm_reset s0)]> g) k
                = set_last_tick now (reasm_reset s0)).
  { unfold slot_at. rewrite list_lookup_insert_eq by exact Hklt. reflexivity. }
  rewrite Hat. simpl s_frag_cnt. change (0 =? 0) with true. cbv iota.
  set (s := slot_init_params (frag_hdr sq L i) 56
              (set_last_tick now (reasm_reset s0))).
  assert (Hcol : collecting L bs [] s).
  { unfold collecting, s. simpl.
    split; [reflexivity | split; [reflexivity | split; [reflexivity |]]].
    split; [| split; [reflexivity | split]].
    - exists 0. split; [reflexivity |]. intros n. rewrite Z.bits_0.
      split; [discriminate | intros []].
    - apply (Forall_lookup_1 _ _ _ _ Hbufs Hk).
    - intros ? ? []. }
  destruct (reasm_store_new subs bs L sq L_range bs_length [] i now k s
              (<[k := set_last_tick now (reasm_reset s0)]> g) Hcol
              ltac:(intros []) Hi ltac:(simpl; lia)) as [Hcol' Hstore].
  cbv zeta in Hcol', Hstore. rewrite Hstore. clear Hstore.
  set (s' := set_last_tick now (slot_mark_copy _ _ _ _ s)) in *.
  destruct (Z.eqb_spec (Z.of_nat (length [i])) (frag_count L)) as [Heq | _];
    [simpl in Heq; lia |].
  cbn [res_events res_path res_reasm]. rewrite list_insert_insert_eq.
  split; [reflexivity |]. split; [reflexivity |].
  assert (Hact : s_active s' = false) by reflexivity.
  split; [split; [split |] |].
  - rewrite length_insert. exact Hlen.
  - apply Forall_insert; [exact Hbufs | apply Hcol'].
  - apply Forall_lookup. intros j y Hj.
    destruct (Nat.eq_dec j k) as [-> | Hjk].
    + rewrite list_lookup_insert_eq in Hj by exact Hklt.
      injection Hj as <-. intros [Ha _]. change (false = true) in Ha.
      discriminate Ha.
    + rewrite list_lookup_insert_ne in Hj by auto.
      apply (Hothers j y Hjk Hj).
  - exists s'. split; [reflexivity |]. split; [exact Hact |].
    split; [| apply Hcol'].
    destruct Hcol' as (_ & _ & _ & _ & Hc & _). rewrite Hc. reflexivity.
Qed.

(** Fragments, duplicates among them, that leave the message incomplete. *)
Lemma collect_with_duplicates (idxs : list nat) :
  forall (rx : list (can_bus_rx_frame_t * Z)) (S : list nat)
         (g : list can_bus_reasm_slot_t),
    map fst rx = map (rx_frag std_id sq L bs) idxs ->
    Forall (fun x => (x < Z.to_nat (frag_count L))%nat) idxs ->
    List.NoDup S -> Forall (fun x => (x < Z.to_nat (frag_count L))%nat) S ->
    Z.of_nat (length (seen S idxs)) < frag_count L ->
    reasm_state (Z.land std_id 0x7FF) sq L bs S g ->
    exists g',
      handle_rx_frames subs rx g = (g', [])
      /\ reasm_state (Z.land std_id 0x7FF) sq L bs (seen S idxs) g'.
Proof.
  induction idxs as [| i idxs IH]; intros rx S g Hrx Hidx Hnd Hlt Hlen Hst.
  - destruct rx; [| discriminate Hrx]. simpl. eauto.
  - destruct rx as [| [f now] rx]; [discriminate Hrx |].
    simpl in Hrx. injection Hrx as -> Hrx.
    apply Forall_cons in Hidx as [Hi Hidx'].
    change (seen S (i :: idxs)) with (seen (seen_add S i) idxs) in *.
    simpl handle_rx_frames. unfold seen_add in *.
    destruct (in_dec Nat.eq_dec i S) as [Hin | Hnin].
    + destruct (seen_props idxs _ S Hnd Hlt Hidx') as (_ & _ & Hle & _).
      destruct (duplicate_fragment_step S i now g Hst Hin ltac:(lia) ltac:(lia))
        as (Hev & _ & Hst').
      rewrite Hev.
      destruct (IH rx S _ Hrx Hidx' Hnd Hlt Hlen Hst') as (g' & Hrun & Hfin).
      exists g'. rewrite Hrun. auto.
    + assert (Hnd1 : List.NoDup (i :: S)) by (constructor; assumption).
      assert (Hlt1 : Forall (fun x => (x < Z.to_nat (frag_count L))%nat) (i :: S))
        by (constructor; assumption).
      destruct (seen_props idxs _ (i :: S) Hnd1 Hlt1 Hidx') as (_ & _ & Hle & _).
      pose proof (handle_fragment_step subs bs L sq L_range bs_length sq_range
                    std_id S i now g Hst Hnd1 Hlt1) as Hstep.
      cbv zeta in Hstep.
      destruct (Z.eqb_spec (Z.of_nat (length (i :: S))) (frag_count L));
        [lia |].
      destruct Hstep as [Hev Hst']. rewrite Hev.
      destruct (IH rx (i :: S) _ Hrx Hidx' Hnd1 Hlt1 Hlen Hst')
        as (g' & Hrun & Hfin).
      exists g'. rewrite Hrun. auto.
Qed.

End ReassemblyMore.

Lemma all_indices_length (l : list nat) (n : nat) :
  List.NoDup l -> Forall (fun x => (x < n)%nat) l ->
  (forall x, (x < n)%nat -> In x l) -> length l = n.
Proof.
  intros Hnd Hlt Hall.
  destruct (indices_complete [] l n Hnd Hlt) as [Hle _].
  assert (Hge : (length (seq 0 n) <= length l)%nat).
  { apply NoDup_incl_length; [apply seq_NoDup |].
    intros x Hx. apply in_seq in Hx. apply Hall. lia. }
  rewrite length_seq in Hge. lia.
Qed.

(** ** Staleness sweep, continued: what a swept slot leaves behind *)

Lemma reasm_expire_old_wf (now : Z) (g : list can_bus_reasm_slot_t) :
  reasm_wf g -> reasm_wf (reasm_expire_old now g).
Proof.
  intros [Hlen Hbuf]. unfold reasm_expire_old. split.
  - rewrite length_map. exact Hlen.
  - apply Forall_map. eapply Forall_impl; [exact Hbuf |].
    intros x Hx. simpl. rewrite reasm_expire_slot_spec.
    destruct (s_active x && _); exact Hx.
Qed.

(** Sweeping a table whose only slot for the id is stale leaves nothing in
    flight for the id. *)
Lemma reasm_expire_old_drops (now id sq L : Z) (bs : list byte) (S : list nat)
    (g : list can_bus_reasm_slot_t) (k : nat) (s : can_bus_reasm_slot_t) :
  reasm_wf g -> reasm_collecting id sq L bs S g ->
  g !! k = Some s -> slot_is_for id s ->
  CAN_BUS_REASM_TIMEOUT_MS < slot_age now s ->
  reasm_state id sq L bs [] (reasm_expire_old now g).
Proof.
  intros Hwf (k0 & s0 & Hk0 & Hfor0 & _ & _ & Hothers) Hk Hfor Hage.
  split; [apply reasm_expire_old_wf, Hwf |].
  assert (Hkk : k = k0).
  { destruct (Nat.eq_dec k k0) as [E | Hne]; [exact E |].
    exfalso. exact (Hothers k s Hne Hk Hfor). }
  subst k0. unfold reasm_idle_for. apply Forall_lookup. intros j y Hj.
  destruct (g !! j) as [x |] eqn:Ex.
  2:{ apply lookup_ge_None in Ex. apply lookup_lt_Some in Hj.
      unfold reasm_expire_old in Hj. rewrite length_map in Hj. lia. }
  rewrite (reasm_expire_old_lookup now g j x Ex) in Hj. injection Hj as <-.
  rewrite reasm_expire_slot_spec.
  destruct (Nat.eq_dec j k) as [-> | Hne].
  - assert (x = s) as -> by congruence.
    destruct Hfor as [Ha Hid]. rewrite Ha. cbn [andb].
    destruct (Z.gtb_spec (slot_age now s) CAN_BUS_REASM_TIMEOUT_MS); [| lia].
    intros [Hact _]. discriminate Hact.
  - pose proof (Hothers j x Hne Ex) as Hx.
    destruct (s_active x && _); [| exact Hx].
    intros [Hact _]. discriminate Hact.
Qed.

(** C4, as the code has it: the sweep resets every active slot whose age
    [(now - last_tick_ms) mod 2^32] exceeds 250 -- the slot is then inactive
    with identifier, sequence number, fragment count, total length, mask
    and counter all zero, only its buffer bytes left -- and leaves the
    others alone; it runs once per [can_bus_process_rx] call, which handles
    every frame of the call with the same tick and is therefore the same as
    sweeping before each frame; the call returns with an empty ring and no
    stale slot.  A partial reassembly whose age exceeds 250 ms when the
    worker runs contributes to nothing later.  First, the call gives the
    same callbacks and the same state as on a table whose slot holds no
    message at all.  Second, whatever fragments [got] the slot had collected,
    if the ring holds fragments of the same message, in any order and
    number, and at least one fragment index is not among them, no callback
    runs, and afterwards the table knows the queued fragments only: the
    fragments collected before the sweep have to arrive again.  Every
    fragment that reaches the end of the fragment branch leaves its slot
    with [last_tick_ms = now], unless it completes the message, in which
    case the subscribers are notified and the slot is reset. *)
Theorem staleness_sweep (now : Z) (st : can_bus_rx) (k : nat)
    (s : can_bus_reasm_slot_t) (f : can_bus_rx_frame_t)
    (bs : list byte) (L sq std_id : Z) (got idxs : list nat)
    (Hring : rb_wf (rx_ringbuf st))
    (Hlen : length (g_reasm st) = CAN_BUS_REASM_SLOTS)
    (Hk : g_reasm st !! k = Some s) :
  let free := {| s_active := false; s_std_id := 0; s_seq := 0;
                 s_frag_cnt := 0; s_total_len := 0; s_data_cap := 0;
                 s_last_tick_ms := 0;
                 s_got_mask := replicate GOT_MASK_WORDS 0;
                 s_got_count := 0; s_buf := s_buf s |} in
  reasm_expire_old now (g_reasm st) !! k
  = Some (if s_active s && (slot_age now s >? 250) then free else s)
  /\ can_bus_process_rx now st = can_bus_process_rx_sweep_each now st
  /\ (exists st' evs,
        can_bus_process_rx now st = Some (st', evs)
        /\ g_rx_head (rx_ringbuf st') = g_rx_tail (rx_ringbuf st')
        /\ slots_fresh now (g_reasm st'))
  /\ (s_active s = true -> 250 < slot_age now s ->
      can_bus_process_rx now st
      = can_bus_process_rx now (with_reasm (<[k := free]> (g_reasm st)) st))
  /\ (1 <= L <= 2048 -> Z.of_nat (length bs) = L -> 0 <= sq < 256 ->
      reasm_wf (g_reasm st) ->
      reasm_collecting (Z.land std_id 0x7FF) sq L bs got (g_reasm st) ->
      slot_is_for (Z.land std_id 0x7FF) s -> 250 < slot_age now s ->
      map frame_view (rb_contents (rx_ringbuf st))
      = map frame_view (map (rx_frag std_id sq L bs) idxs) ->
      Forall (fun i => Z.of_nat i < frag_count L) idxs ->
      (exists i : nat, Z.of_nat i < frag_count L /\ ~ In i idxs) ->
      exists st',
        can_bus_process_rx now st = Some (st', [])
        /\ reasm_state (Z.land std_id 0x7FF) sq L bs (seen [] idxs)
             (g_reasm st'))
  /\ (let r := handle_rx_frame (g_subs st) f now (g_reasm st) in
      res_path r = PathAccepted ->
      exists j sj,
        (j < length (g_reasm st))%nat /\ s_last_tick_ms sj = now
        /\ ((res_reasm r = <[j := sj]> (g_reasm st) /\ res_events r = [])
            \/ (res_reasm r = <[j := reasm_reset sj]> (g_reasm st)
                /\ res_events r
                   = can_bus_notify_rx (g_subs st) (s_buf sj) (s_total_len sj)))).
Proof.
  intros free.
  assert (Hg : (0 < length (g_reasm st))%nat)
    by (rewrite Hlen; unfold CAN_BUS_REASM_SLOTS; lia).
  assert (Hg' : (0 < length (reasm_expire_old now (g_reasm st)))%nat)
    by (unfold reasm_expire_old; rewrite length_map; exact Hg).
  pose proof (reasm_expire_old_fresh now (g_reasm st)) as Hfresh.
  pose proof (rb_count_range (rx_ringbuf st)) as Hcr.
  split; [| split; [| split; [| split; [| split]]]].
  - rewrite (reasm_expire_old_lookup now _ k s Hk), reasm_expire_slot_spec.
    reflexivity.
  - unfold can_bus_process_rx, can_bus_process_rx_sweep_each.
    symmetry. apply process_rx_sweep_each_eq; assumption.
  - unfold can_bus_process_rx.
    destruct (process_rx_loop_total now (S (Z.to_nat CAN_BUS_RX_RING_DEPTH))
                {| rx_ringbuf := rx_ringbuf st;
                   g_reasm := reasm_expire_old now (g_reasm st);
                   g_subs := g_subs st |} [])
      as (st' & evs' & Hrun & Hempty & Hfresh' & _);
      cbn [rx_ringbuf g_reasm g_subs]; try assumption.
    + unfold CAN_BUS_RX_RING_DEPTH. lia.
    + exists st', evs'. auto.
  - intros Ha Hage. unfold can_bus_process_rx, with_reasm.
    cbn [rx_ringbuf g_reasm g_subs].
    change free with (reasm_reset s).
    rewrite reasm_expire_old_insert_reset; auto.
  - intros HL Hbs Hsq Hwf Hcol Hfor Hage Hview Hidx (i0 & Hi0 & Hni0).
    pose proof (frag_count_small L HL) as Hsmall.
    assert (Hidx' : Forall (fun x => (x < Z.to_nat (frag_count L))%nat) idxs).
    { eapply Forall_impl; [exact Hidx |]. simpl. intros x Hx. lia. }
    destruct (seen_props idxs (Z.to_nat (frag_count L)) [] (List.NoDup_nil _)
                (List.Forall_nil _) Hidx') as (Hnd & Hslt & _ & Hmem).
    assert (Hshort : Z.of_nat (length (seen [] idxs)) < frag_count L).
    { destruct (indices_complete [] (seen [] idxs) (Z.to_nat (frag_count L))
                  Hnd Hslt) as [Hle Hall].
      destruct (Nat.eq_dec (length (seen [] idxs)) (Z.to_nat (frag_count L)))
        as [Heq | Hne]; [| lia].
      exfalso. apply Hni0. specialize (Hall Heq i0 ltac:(lia)).
      apply Hmem in Hall as [[] | Hin]. exact Hin. }
    pose proof (reasm_expire_old_drops now _ sq L bs got (g_reasm st) k s Hwf Hcol
                  Hk Hfor Hage) as Hidle.
    destruct (collect_with_duplicates (g_subs st) bs L sq std_id HL Hbs Hsq idxs
                (map (fun i => (rx_frag std_id sq L bs i, now)) idxs) []
                (reasm_expire_old now (g_reasm st)))
      as (g' & Hrun & Hfin);
      [rewrite map_map; reflexivity | exact Hidx' | apply List.NoDup_nil
       | apply List.Forall_nil | exact Hshort | exact Hidle |].
    assert (Heq : handle_rx_frames (g_subs st)
                    (map (fun x => (x, now)) (rb_contents (rx_ringbuf st)))
                    (reasm_expire_old now (g_reasm st))
                  = (g', [])).
    { rewrite <- Hrun. apply handle_rx_frames_view.
      rewrite !map_map. cbn [fst snd].
      rewrite <- (map_map frame_view (fun v => (v, now))), Hview, !map_map.
      reflexivity. }
    unfold can_bus_process_rx.
    rewrite process_rx_loop_frames; cbn [rx_ringbuf g_reasm g_subs];
      [| exact Hring | unfold CAN_BUS_RX_RING_DEPTH; lia].
    rewrite Heq. cbn [fst snd app].
    eexists. split; [reflexivity |]. cbn [g_reasm]. exact Hfin.
  - intros r Hp.
    pose proof (handle_rx_frame_touch (g_subs st) f now (g_reasm st) Hg) as H.
    cbv zeta in H. fold r in H. rewrite Hp in H. exact H.
Qed.

Lemma staleness_sweep_witness :
  let st := stale_pending 1000 in
  let s := slot_at (g_reasm st) 0 in
  let free := {| s_active := false; s_std_id := 0; s_seq := 0;
                 s_frag_cnt := 0; s_total_len := 0; s_data_cap := 0;
                 s_last_tick_ms := 0;
                 s_got_mask := replicate GOT_MASK_WORDS 0;
                 s_got_count := 0; s_buf := s_buf s |} in
  reasm_collecting (Z.land 3 0x7FF) 0 100 stale_msg [0%nat] (g_reasm st)
  /\ slot_is_for (Z.land 3 0x7FF) s /\ 250 < slot_age 1251 s
  /\ reasm_expire_old 1251 (g_reasm st) !! 0%nat = Some free
  /\ can_bus_process_rx 1251 st
     = can_bus_process_rx 1251
         (with_reasm (<[0%nat := free]> (g_reasm st)) st)
  /\ exists st',
       can_bus_process_rx 1251 st = Some (st', [])
       /\ reasm_state (Z.land 3 0x7FF) 0 100 stale_msg (seen [] [1%nat])
            (g_reasm st').
Proof.
  intros st s free.
  assert (Hring : rb_wf (rx_ringbuf st))
    by (vm_compute; repeat split; first [reflexivity | discriminate]).
  assert (Hlen : length (g_reasm st) = CAN_BUS_REASM_SLOTS)
    by (vm_compute; reflexivity).
  assert (Hk : g_reasm st !! 0%nat = Some s) by (vm_compute; reflexivity).
  assert (Hinit : reasm_state (Z.land 3 0x7FF) 0 100 stale_msg [] reasm_init).
  { split; [split; [reflexivity | repeat constructor] |].
    repeat constructor; intros [Hact _]; discriminate Hact. }
  pose proof (handle_fragment_step one_subscriber stale_msg 100 0
                ltac:(lia) eq_refl ltac:(lia) 3 [] 0%nat 1000 reasm_init Hinit
                ltac:(repeat constructor; intros [])
                ltac:(repeat constructor)) as Hstep.
  cbv zeta in Hstep.
  change (Z.of_nat (length [0%nat]) =? frag_count 100) with false in Hstep.
  destruct Hstep as [_ [Hwf Hcol]].
  assert (Hg : g_reasm st
               = res_reasm (handle_rx_frame one_subscriber
                              (rx_frag 3 0 100 stale_msg 0) 1000 reasm_init))
    by (vm_compute; reflexivity).
  rewrite <- Hg in Hwf, Hcol.
  assert (Hfor : slot_is_for (Z.land 3 0x7FF) s) by (split; reflexivity).
  assert (Hage : 250 < slot_age 1251 s) by (vm_compute; reflexivity).
  destruct (staleness_sweep 1251 st 0 s (rx_frag 3 0 100 stale_msg 1)
              stale_msg 100 0 3 [0%nat] [1%nat] Hring Hlen Hk)
    as (H1 & _ & _ & H4 & H5 & _).
  split; [exact Hcol |]. split; [exact Hfor |]. split; [exact Hage |].
  split; [exact H1 |]. split; [apply H4; [reflexivity | exact Hage] |].
  apply H5; try assumption; try lia.
  - reflexivity.
  - vm_compute. reflexivity.
  - repeat constructor.
  - exists 0%nat. split; [reflexivity |]. intros [H | []]. discriminate H.
Defined.

(** X23: reassembly tolerates duplicates, on a receiver whose table has
    no slot active for the message's id.  If, on such a receiver, the
    fragments of a message arrive in any order, some of them several times,
    and the last frame to arrive is the first copy of its fragment, the
    message is delivered exactly once, at that last frame, with the bytes
    that were sent: a fragment that is already marked only refreshes the
    slot's time stamp.  The table is again without a slot for the id
    afterwards.  The condition on the table is needed: with a message of
    another sequence number in flight for the id, X24 applies and nothing
    is delivered. *)
Theorem reassembly_tolerates_duplicates (subs : list can_bus_sub_t)
    (bs : list byte) (L sq std_id : Z) (g : list can_bus_reasm_slot_t)
    (rx : list (can_bus_rx_frame_t * Z)) (pre : list nat) (final : nat)
    (HL : 1 <= L <= 2048) (Hbs : Z.of_nat (length bs) = L)
    (Hsq : 0 <= sq < 256)
    (Hwf : reasm_wf g) (Hidle : reasm_idle_for (Z.land std_id 0x7FF) g)
    (Hrx : map fst rx = map (rx_frag std_id sq L bs) (pre ++ [final]))
    (Hlt : Forall (fun i => Z.of_nat i < frag_count L) (pre ++ [final]))
    (Hnew : ~ In final pre)
    (Hall : forall i : nat, Z.of_nat i < frag_count L -> In i (pre ++ [final])) :
  exists g',
    handle_rx_frames subs rx g = (g', can_bus_notify_rx subs bs L)
    /\ Forall (fun e => ev_data e = bs /\ ev_len e = L)
              (can_bus_notify_rx subs bs L)
    /\ reasm_wf g' /\ reasm_idle_for (Z.land std_id 0x7FF) g'.
Proof.
  pose proof (frag_count_small L HL) as Hsmall.
  rewrite map_app in Hrx. apply map_eq_app in Hrx as (rx1 & rx2 & -> & Hrx1 & Hrx2).
  assert (Hlt' : Forall (fun x => (x < Z.to_nat (frag_count L))%nat) (pre ++ [final])).
  { eapply Forall_impl; [exact Hlt |]. simpl. intros x Hx. lia. }
  apply Forall_app in Hlt' as [Hpre Hfin].
  apply Forall_cons in Hfin as [Hfin _].
  destruct (seen_props pre (Z.to_nat (frag_count L)) [] (List.NoDup_nil _)
              (List.Forall_nil _) Hpre) as (Hnd & Hslt & _ & Hmem).
  assert (Hnd1 : List.NoDup (final :: seen [] pre)).
  { constructor; [| exact Hnd]. rewrite Hmem. simpl. tauto. }
  assert (Hlt1 : Forall (fun x => (x < Z.to_nat (frag_count L))%nat)
                   (final :: seen [] pre)) by (constructor; assumption).
  assert (Hlen : length (final :: seen [] pre) = Z.to_nat (frag_count L)).
  { apply all_indices_length; [exact Hnd1 | exact Hlt1 |].
    intros x Hx. specialize (Hall x ltac:(lia)).
    apply in_app_or in Hall as [H | [<- | []]].
    - right. apply Hmem. right. exact H.
    - left. reflexivity. }
  destruct (collect_with_duplicates subs bs L sq std_id HL Hbs Hsq pre rx1 [] g
              Hrx1 Hpre (List.NoDup_nil _) (List.Forall_nil _))
    as (g1 & Hrun1 & Hst1).
  - simpl in Hlen. lia.
  - split; [exact Hwf | exact Hidle].
  - destruct rx2 as [| [f now] [| ? ?]]; try discriminate Hrx2.
    simpl in Hrx2. injection Hrx2 as ->.
    pose proof (handle_fragment_step subs bs L sq HL Hbs Hsq std_id
                  (seen [] pre) final now g1 Hst1 Hnd1 Hlt1) as Hstep.
    cbv zeta in Hstep.
    destruct (Z.eqb_spec (Z.of_nat (length (final :: seen [] pre))) (frag_count L))
      as [_ | Hne]; [| lia].
    destruct Hstep as [Hev [Hwf' Hidle']].
    eexists. split; [| split; [| split; [exact Hwf' | exact Hidle']]].
    + rewrite handle_rx_frames_app, Hrun1. simpl. rewrite Hev, app_nil_r.
      reflexivity.
    + pose proof (notify_rx_events subs bs L) as [Hevs _]. cbv zeta in Hevs.
      rewrite take_ge in Hevs by lia. exact Hevs.
Qed.

Lemma reassembly_tolerates_duplicates_witness :
  let bs := counting_bytes 150 in
  let rx := map (fun i => (rx_frag 3 0 150 bs i, 7)) [0; 1; 0; 1; 2]%nat in
  exists g',
    handle_rx_frames one_subscriber rx reasm_init
    = (g', can_bus_notify_rx one_subscriber bs 150)
    /\ Forall (fun e => ev_data e = bs /\ ev_len e = 150)
              (can_bus_notify_rx one_subscriber bs 150)
    /\ reasm_wf g' /\ reasm_idle_for (Z.land 3 0x7FF) g'.
Proof.
  intros bs rx.
  assert (Hwf : reasm_wf reasm_init).
  { split; [reflexivity |]. repeat constructor. }
  assert (Hidle : reasm_idle_for (Z.land 3 0x7FF) reasm_init).
  { repeat constructor; intros [Hact _]; discriminate Hact. }
  assert (Hlt : Forall (fun i => Z.of_nat i < frag_count 150)
                  ([0; 1; 0; 1]%nat ++ [2%nat])).
  { repeat constructor. }
  assert (Hnew : ~ In 2%nat [0; 1; 0; 1]%nat).
  { simpl. intros [H | [H | [H | [H | []]]]]; discriminate H. }
  assert (Hall : forall i : nat, Z.of_nat i < frag_count 150 ->
                                 In i ([0; 1; 0; 1]%nat ++ [2%nat])).
  { intros i Hi. change (frag_count 150) with 3 in Hi.
    assert (i = 0 \/ i = 1 \/ i = 2)%nat as [-> | [-> | ->]] by lia;
      simpl; auto 6. }
  exact (reassembly_tolerates_duplicates one_subscriber bs 150 0 3 reasm_init
           rx [0; 1; 0; 1]%nat 2%nat ltac:(lia) eq_refl ltac:(lia) Hwf Hidle
           eq_refl Hlt Hnew Hall).
Defined.

(** X24: a change of sequence number loses the next message.  While a
    message with another sequence number is in flight for the id, the first
    fragment of a new message of two or more fragments is stored in the old
    slot after the slot was reset and thereby marked free; the following
    fragments find no slot for the id and start over in a slot claimed
    afresh.  All fragments of the new message arrive, each exactly once, and
    no callback runs: the table ends up holding all of them but the first,
    until the timeout clears it. *)
Theorem seq_change_loses_next_message (subs : list can_bus_sub_t)
    (bs : list byte) (L sq std_id : Z) (g : list can_bus_reasm_slot_t)
    (k : nat) (s0 : can_bus_reasm_slot_t)
    (rx : list (can_bus_rx_frame_t * Z)) (idxs : list nat)
    (HL : 57 <= L <= 2048) (Hbs : Z.of_nat (length bs) = L)
    (Hsq : 0 <= sq < 256)
    (Hwf : reasm_wf g) (Hk : g !! k = Some s0)
    (Hfor : slot_is_for (Z.land std_id 0x7FF) s0) (Hseq : s_seq s0 <> sq)
    (Hothers : forall j s', j <> k -> g !! j = Some s' ->
                            ~ slot_is_for (Z.land std_id 0x7FF) s')
    (Hrx : map fst rx = map (rx_frag std_id sq L bs) idxs)
    (Hperm : Permutation idxs (seq 0 (Z.to_nat (frag_count L)))) :
  exists g',
    handle_rx_frames subs rx g = (g', [])
    /\ reasm_state (Z.land std_id 0x7FF) sq L bs (rev (tl idxs)) g'
    /\ Z.of_nat (length (tl idxs)) = frag_count L - 1.
Proof.
  assert (HL1 : 1 <= L <= 2048) by lia.
  pose proof (frag_count_small L HL1) as Hsmall.
  pose proof (frag_count_bounds L) as Hb.
  assert (Hcnt2 : 2 <= frag_count L) by lia.
  assert (Hlen : length idxs = Z.to_nat (frag_count L)).
  { rewrite (Permutation_length Hperm). apply length_seq. }
  assert (Hnd : List.NoDup idxs).
  { apply (Permutation_NoDup (Permutation_sym Hperm)), seq_NoDup. }
  assert (Hlt : Forall (fun x => (x < Z.to_nat (frag_count L))%nat) idxs).
  { apply List.Forall_forall. intros x Hx.
    apply (Permutation_in x Hperm) in Hx. apply in_seq in Hx. lia. }
  destruct idxs as [| i0 rest]; [simpl in Hlen; lia |].
  destruct rx as [| [f now] rx]; [discriminate Hrx |].
  simpl in Hrx. injection Hrx as -> Hrx.
  apply Forall_cons in Hlt as [Hi0 Hrest].
  destruct (seq_change_first subs bs L sq std_id HL1 Hbs Hsq i0 now k s0 g Hwf Hk
              Hfor Hseq Hothers ltac:(lia) Hcnt2) as (Hev & _ & Hst & _).
  destruct (collect_partial subs bs L sq std_id HL1 Hbs Hsq rest rx []
              (res_reasm (handle_rx_frame subs (rx_frag std_id sq L bs i0) now g))
              Hrx)
    as (g' & Hrun & Hfin).
  - rewrite app_nil_r. inversion Hnd; assumption.
  - rewrite app_nil_r. exact Hrest.
  - rewrite app_nil_r. simpl in Hlen. lia.
  - exact Hst.
  - exists g'. simpl handle_rx_frames. rewrite Hev, Hrun. simpl.
    rewrite app_nil_r in Hfin. split; [reflexivity |].
    split; [exact Hfin |]. simpl in Hlen. lia.
Qed.

Lemma seq_change_loses_next_message_witness :
  let g := res_reasm (handle_rx_frame one_subscriber
                        (rx_frag 3 0 100 stale_msg 0) 10 reasm_init) in
  let rx := [(rx_frag 3 1 100 stale_msg 0, 20);
             (rx_frag 3 1 100 stale_msg 1, 30)] in
  exists g',
    handle_rx_frames one_subscriber rx g = (g', [])
    /\ reasm_state (Z.land 3 0x7FF) 1 100 stale_msg (rev (tl [0; 1]%nat)) g'
    /\ Z.of_nat (length (tl [0; 1]%nat)) = frag_count 100 - 1.
Proof.
  intros g rx.
  assert (Hwf : reasm_wf g).
  { split; [reflexivity |]. repeat constructor. }
  assert (Hothers : forall j s', j <> 0%nat -> g !! j = Some s' ->
                                 ~ slot_is_for (Z.land 3 0x7FF) s').
  { intros j s' Hj Hs [Hact _].
    destruct j as [| [| [| [| j]]]]; try contradiction;
      vm_compute in Hs; try discriminate Hs;
      injection Hs as <-; discriminate Hact. }
  exact (seq_change_loses_next_message one_subscriber stale_msg 100 1 3 g
           0%nat (slot_at g 0) rx [0; 1]%nat ltac:(lia) eq_refl ltac:(lia) Hwf
           eq_refl (conj eq_refl eq_refl) ltac:(discriminate) Hothers eq_refl
           (Permutation_refl _)).
Defined.

(** ** A fragment that disagrees with the message in flight *)



(** ** Which slot [reasm_get_slot] hands out *)

Lemma slot_age_range (now : Z) (s : can_bus_reasm_slot_t) :
  0 <= slot_age now s < 2 ^ 32.
Proof. unfold slot_age. apply u32_range. Qed.

Lemma stalest_fold_max (now : Z) (g : list can_bus_reasm_slot_t)
    (l : list (nat * can_bus_reasm_slot_t)) :
  Forall (fun e => g !! fst e = Some (snd e)) l ->
  forall acc,
    (exists s, g !! fst acc = Some s /\ slot_age now s = snd acc) ->
    let r := fold_left (stalest_step now) l acc in
    snd acc <= snd r
    /\ Forall (fun e => slot_age now (snd e) <= snd r) l
    /\ exists s, g !! fst r = Some s /\ slot_age now s = snd r.
Proof.
  induction 1 as [| e l He _ IH]; intros acc Hacc; cbv zeta.
  - simpl. split; [lia |]. split; [constructor | exact Hacc].
  - simpl fold_left.
    change (stalest_step now acc e)
      with (if slot_age now (snd e) >=? snd acc
            then (fst e, slot_age now (snd e)) else acc).
    destruct (Z.geb_spec (slot_age now (snd e)) (snd acc)) as [Hge | Hlt].
    + destruct (IH (fst e, slot_age now (snd e))) as (H1 & H2 & H3).
      { exists (snd e). split; [exact He | reflexivity]. }
      cbn [fst snd] in *. split; [lia |].
      split; [constructor; [exact H1 | exact H2] | exact H3].
    + destruct (IH acc Hacc) as (H1 & H2 & H3).
      split; [exact H1 |]. split; [constructor; [lia | exact H2] | exact H3].
Qed.

Lemma reasm_stalest_max (now : Z) (g : list can_bus_reasm_slot_t) :
  (0 < length g)%nat ->
  forall j s, g !! j = Some s ->
              slot_age now s <= slot_age now (slot_at g (reasm_stalest now g)).
Proof.
  intros Hg j s Hj. unfold reasm_stalest.
  destruct g as [| s0 g0] eqn:Eg; [simpl in Hg; lia |]. rewrite <- Eg in *.
  (* after its first step the fold stands at slot 0 *)
  assert (Hstep : fold_left (stalest_step now) (imap pair g) (0%nat, 0)
                  = fold_left (stalest_step now) (imap (pair ∘ S) g0)
                      (0%nat, slot_age now s0)).
  { rewrite Eg. simpl.
    change (stalest_step now (0%nat, 0) (0%nat, s0))
      with (if slot_age now s0 >=? 0 then (0%nat, slot_age now s0)
            else (0%nat, 0)).
    pose proof (slot_age_range now s0).
    destruct (Z.geb_spec (slot_age now s0) 0); [reflexivity | lia]. }
  rewrite Hstep.
  assert (Hl0 : Forall (fun e => g !! fst e = Some (snd e)) (imap (pair ∘ S) g0)).
  { apply Forall_forall. intros e He.
    apply elem_of_lookup_imap_1 in He as (i & y & -> & Hi).
    rewrite Eg. exact Hi. }
  destruct (stalest_fold_max now g _ Hl0 (0%nat, slot_age now s0))
    as (H1 & H2 & (s' & Hs' & Hage)).
  { exists s0. rewrite Eg. split; reflexivity. }
  cbv zeta in *. cbn [fst snd] in *.
  match goal with
  | |- _ <= slot_age now (slot_at g ?k) =>
      assert (Hat : slot_at g k = s')
        by (unfold slot_at; rewrite Hs'; reflexivity)
  end.
  rewrite Hat, Hage.
  destruct j as [| j].
  - rewrite Eg in Hj. injection Hj as <-. exact H1.
  - rewrite Forall_forall in H2.
    apply (H2 (S j, s)).
    change (S j, s) with ((pair ∘ S) j s).
    apply elem_of_lookup_imap_2. rewrite Eg in Hj. exact Hj.
Qed.

(** X26: [reasm_get_slot] touches one slot and stamps it with the current
    tick.  It hands out the first slot that is active for the id; failing
    that, the first free slot, so that no message in flight is disturbed;
    and only when all slots are taken by other ids the one that has been
    idle longest, whose message is lost. *)
Theorem reasm_get_slot_choice (id sq now : Z) (g : list can_bus_reasm_slot_t)
    (Hg : length g = CAN_BUS_REASM_SLOTS) :
  let k := fst (reasm_get_slot id sq now g) in
  let g' := snd (reasm_get_slot id sq now g) in
  (k < length g)%nat /\ length g' = length g
  /\ (forall j, j <> k -> g' !! j = g !! j)
  /\ s_last_tick_ms (slot_at g' k) = now
  /\ (forall j s, g !! j = Some s -> slot_is_for id s ->
                  (k <= j)%nat /\ slot_is_for id (slot_at g k))
  /\ (reasm_idle_for id g ->
      slot_at g' k = reasm_claim id sq now (slot_at g k)
      /\ (forall j s, g !! j = Some s -> slot_is_free s ->
                      (k <= j)%nat /\ slot_is_free (slot_at g k))
      /\ (Forall (fun s => ~ slot_is_free s) g ->
          forall j s, g !! j = Some s ->
                      slot_age now s <= slot_age now (slot_at g k))).
Proof.
  cbv zeta.
  assert (Hpos : (0 < length g)%nat)
    by (rewrite Hg; unfold CAN_BUS_REASM_SLOTS; lia).
  unfold reasm_get_slot.
  destruct (list_find (slot_is_for id) g) as [[i s] |] eqn:Hfind.
  - apply list_find_Some in Hfind as (Hi & Hs & Hfirst).
    assert (Hlt : (i < length g)%nat) by (apply lookup_lt_Some in Hi; exact Hi).
    cbn [fst snd].
    assert (Hat : slot_at g i = s) by (unfold slot_at; rewrite Hi; reflexivity).
    split; [exact Hlt |]. split; [apply length_insert |].
    split; [intros j Hj; apply list_lookup_insert_ne; auto |].
    split.
    { unfold slot_at. rewrite list_lookup_insert_eq by exact Hlt. reflexivity. }
    split.
    { intros j y Hj Hy. rewrite Hat. split; [| exact Hs].
      destruct (Nat.le_gt_cases i j) as [H | H]; [exact H |].
      exfalso. exact (Hfirst j y Hj H Hy). }
    intros Hidle. exfalso.
    apply (Forall_lookup_1 _ _ _ _ Hidle Hi). exact Hs.
  - apply list_find_None in Hfind.
    assert (Hnone : forall j s, g !! j = Some s -> slot_is_for id s -> False).
    { intros j y Hj Hy. apply (Forall_lookup_1 _ _ _ _ Hfind Hj). exact Hy. }
    destruct (list_find slot_is_free g) as [[i s] |] eqn:Hfree.
    + apply list_find_Some in Hfree as (Hi & Hs & Hfirst).
      assert (Hlt : (i < length g)%nat) by (apply lookup_lt_Some in Hi; exact Hi).
      assert (Hat : slot_at g i = s) by (unfold slot_at; rewrite Hi; reflexivity).
      cbn [fst snd].
      split; [exact Hlt |]. split; [apply length_insert |].
      split; [intros j Hj; apply list_lookup_insert_ne; auto |].
      split.
      { unfold slot_at. rewrite list_lookup_insert_eq by exact Hlt. reflexivity. }
      split; [intros j y Hj Hy; exfalso; exact (Hnone j y Hj Hy) |].
      intros _. split.
      { unfold slot_at at 1. rewrite list_lookup_insert_eq by exact Hlt.
        rewrite Hat. reflexivity. }
      split.
      { intros j y Hj Hy. rewrite Hat. split; [| exact Hs].
        destruct (Nat.le_gt_cases i j) as [H | H]; [exact H |].
        exfalso. exact (Hfirst j y Hj H Hy). }
      intros Hfull. exfalso.
      apply (Forall_lookup_1 _ _ _ _ Hfull Hi). exact Hs.
    + apply list_find_None in Hfree.
      pose proof (reasm_stalest_lt now g Hpos) as Hlt.
      cbn [fst snd].
      split; [exact Hlt |]. split; [apply length_insert |].
      split; [intros j Hj; apply list_lookup_insert_ne; auto |].
      split.
      { unfold slot_at at 1. rewrite list_lookup_insert_eq by exact Hlt.
        reflexivity. }
      split; [intros j y Hj Hy; exfalso; exact (Hnone j y Hj Hy) |].
      intros _. split.
      { unfold slot_at at 1. rewrite list_lookup_insert_eq by exact Hlt.
        reflexivity. }
      split.
      { intros j y Hj Hy. exfalso.
        apply (Forall_lookup_1 _ _ _ _ Hfree Hj). exact Hy. }
      intros _ j y Hj. apply (reasm_stalest_max now g Hpos j y Hj).
Qed.

Lemma reasm_get_slot_choice_witness :
  let g := res_reasm (handle_rx_frame one_subscriber
                        (rx_frag 3 0 100 stale_msg 0) 10 reasm_init) in
  let k := fst (reasm_get_slot 5 0 20 g) in
  let g' := snd (reasm_get_slot 5 0 20 g) in
  (k < length g)%nat /\ length g' = length g
  /\ (forall j, j <> k -> g' !! j = g !! j)
  /\ s_last_tick_ms (slot_at g' k) = 20
  /\ (forall j s, g !! j = Some s -> slot_is_for 5 s ->
                  (k <= j)%nat /\ slot_is_for 5 (slot_at g k))
  /\ (reasm_idle_for 5 g ->
      slot_at g' k = reasm_claim 5 0 20 (slot_at g k)
      /\ (forall j s, g !! j = Some s -> slot_is_free s ->
                      (k <= j)%nat /\ slot_is_free (slot_at g k))
      /\ (Forall (fun s => ~ slot_is_free s) g ->
          forall j s, g !! j = Some s ->
                      slot_age 20 s <= slot_age 20 (slot_at g k))).
Proof.
  apply (reasm_get_slot_choice 5 0 20
           (res_reasm (handle_rx_frame one_subscriber
                         (rx_frag 3 0 100 stale_msg 0) 10 reasm_init))).
  reflexivity.
Defined.

(** ** Bookkeeping invariant of the reassembly table *)

Lemma filter_length_add (P P' : nat -> bool) (x : nat) (l : list nat) :
  List.NoDup l -> In x l -> P x = false ->
  (forall y, P' y = P y || (y =? x)%nat) ->
  length (List.filter P' l) = S (length (List.filter P l)).
Proof.
  intros Hnd Hin Hx HP'. induction l as [| a l IH]; [contradiction |].
  apply List.NoDup_cons_iff in Hnd as [Hna Hnd]. simpl. rewrite HP'.
  destruct Hin as [-> | Hin].
  - rewrite Hx, Nat.eqb_refl. simpl. f_equal. f_equal.
    apply List.filter_ext_in. intros y Hy. rewrite HP'.
    destruct (Nat.eqb_spec y x) as [-> | _]; [contradiction |].
    apply orb_false_r.
  - destruct (Nat.eqb_spec a x) as [-> | _]; [contradiction |].
    rewrite orb_false_r.
    destruct (P a); simpl; rewrite (IH Hnd Hin); reflexivity.
Qed.

Lemma filter_length_all (P : nat -> bool) (l : list nat) :
  (length (List.filter P l) <= length l)%nat
  /\ (length (List.filter P l) = length l -> forall x, In x l -> P x = true).
Proof.
  induction l as [| a l [IH1 IH2]]; simpl.
  - split; [lia | intros _ x []].
  - destruct (P a) eqn:Ea; simpl.
    + split; [lia |]. intros H x [<- | Hx]; [exact Ea | apply IH2; [lia | exact Hx]].
    + split; [lia |]. intros H. lia.
Qed.

Lemma bit_test_zeros (i : Z) : bit_test (replicate GOT_MASK_WORDS 0) i = false.
Proof.
  unfold bit_test, mask_word.
  assert (Hw : forall w, default 0 (replicate GOT_MASK_WORDS 0 !! w) = 0).
  { intros [| w]; reflexivity. }
  rewrite Hw, Z.shiftr_0_l. reflexivity.
Qed.

Lemma slot_ok_reset (s : can_bus_reasm_slot_t) :
  length (s_buf s) = Z.to_nat CAN_BUS_REASM_MAX_BYTES -> slot_ok (reasm_reset s).
Proof. intros H. split; [exact H |]. intros Hc. simpl in Hc. contradiction. Qed.

Lemma slot_ok_tick (now : Z) (s : can_bus_reasm_slot_t) :
  slot_ok s -> slot_ok (set_last_tick now s).
Proof. intros H. exact H. Qed.

Lemma slot_ok_init (hdr : can_bus_frag_hdr_t) (pl : Z) (s : can_bus_reasm_slot_t) :
  length (s_buf s) = Z.to_nat CAN_BUS_REASM_MAX_BYTES ->
  1 <= hdr_frag_cnt hdr <= 64 -> 1 <= hdr_total_len hdr <= 2048 ->
  slot_ok (slot_init_params hdr pl s).
Proof.
  intros Hb Hc Ht. split; [exact Hb |]. intros _.
  unfold CAN_BUS_REASM_MAX_FRAGS, CAN_BUS_REASM_MAX_BYTES. cbn -[marked].
  split; [exact Hc |]. split; [exact Ht |]. split; [reflexivity |].
  assert (Hm : marked (slot_init_params hdr pl s) (Z.to_nat (hdr_frag_cnt hdr)) = []).
  { unfold marked. cbn [slot_init_params s_got_mask].
    induction (seq 0 (Z.to_nat (hdr_frag_cnt hdr))) as [| a l IH]; [reflexivity |].
    simpl. rewrite bit_test_zeros. exact IH. }
  rewrite Hm. simpl. lia.
Qed.

(** What [reasm_store] does to a slot whose bookkeeping is sound. *)
Lemma reasm_store_inv (subs : list can_bus_sub_t) (hdr : can_bus_frag_hdr_t)
    (payload : list byte) (pl now : Z) (i : nat) (s : can_bus_reasm_slot_t)
    (g : list can_bus_reasm_slot_t) :
  slot_ok s -> s_frag_cnt s = hdr_frag_cnt hdr ->
  0 <= hdr_frag_idx hdr < hdr_frag_cnt hdr ->
  0 <= pl < 256 -> (Z.to_nat pl <= length payload)%nat ->
  let r := reasm_store subs hdr payload pl now i s g in
  (res_events r = []
   /\ exists s', res_reasm r = <[i := s']> g /\ slot_ok s')
  \/ (res_path r = PathAccepted
      /\ exists s', res_reasm r = <[i := reasm_reset s']> g
         /\ res_events r = can_bus_notify_rx subs (s_buf s') (s_total_len s')
         /\ slot_complete s'
         /\ length (s_buf s') = Z.to_nat CAN_BUS_REASM_MAX_BYTES
         /\ s_total_len s' = s_total_len s /\ s_frag_cnt s' = s_frag_cnt s).
Proof.
  intros [Hbuf Hcounts] Hcnt Hidx Hpl Hpay. cbv zeta.
  destruct Hcounts as (Hc & Ht & Hml & Hgc & Hlt); [lia |].
  unfold CAN_BUS_REASM_MAX_FRAGS, CAN_BUS_REASM_MAX_BYTES in *.
  change (Z.to_nat 2048) with 2048%nat in *.
  unfold reasm_store.
  set (off := u32 (hdr_frag_idx hdr * s_data_cap s)).
  pose proof (u32_range (hdr_frag_idx hdr * s_data_cap s)) as Hoff. fold off in Hoff.
  destruct (Z.geb_spec off (s_total_len s)) as [Hge | Hofflt].
  { left. cbn [res_events res_reasm]. split; [reflexivity |].
    exists s. split; [reflexivity |]. split; [exact Hbuf |]. intros _.
    unfold CAN_BUS_REASM_MAX_FRAGS, CAN_BUS_REASM_MAX_BYTES. auto. }
  set (tk := if u32 (off + pl) >? s_total_len s then u32 (s_total_len s - off)
             else pl).
  assert (Htk : 0 <= tk <= pl /\ off + tk <= s_total_len s).
  { subst tk. rewrite (u32_small (off + pl)) by lia.
    destruct (Z.gtb_spec (off + pl) (s_total_len s)).
    - rewrite u32_small by lia. lia.
    - lia. }
  destruct (s_got_mask s) as [| m [| ? ?]] eqn:Emask; try discriminate Hml.
  assert (Hidx64 : 0 <= hdr_frag_idx hdr < 64) by lia.
  assert (Hmarked : forall s2 m',
             s_got_mask s2 = [m'] ->
             marked s2 (Z.to_nat (s_frag_cnt s))
             = List.filter (fun j => Z.testbit m' (Z.of_nat j))
                 (seq 0 (Z.to_nat (s_frag_cnt s)))).
  { intros s2 m' Hm. unfold marked. rewrite Hm. apply List.filter_ext_in.
    intros j Hj. apply in_seq in Hj. apply bit_test_single. lia. }
  pose proof (Hmarked s m Emask) as Hmarked0.
  rewrite bit_test_single by exact Hidx64.
  destruct (Z.testbit m (hdr_frag_idx hdr)) eqn:Ebit; cbn [negb].
  - (* already received *)
    left. cbn [set_last_tick s_got_count s_frag_cnt].
    destruct (Z.eqb_spec (s_got_count s) (s_frag_cnt s)); [lia |].
    cbn [res_events res_reasm]. split; [reflexivity |].
    eexists. split; [reflexivity |]. split; [exact Hbuf |]. intros _.
    unfold CAN_BUS_REASM_MAX_FRAGS, CAN_BUS_REASM_MAX_BYTES.
    cbn -[marked]. rewrite Emask.
    split; [lia |]. split; [lia |]. split; [reflexivity |].
    split; [exact Hgc | exact Hlt].
  - (* new fragment *)
    unfold slot_mark_copy. cbn [set_last_tick s_got_count s_frag_cnt s_buf
                                s_total_len s_got_mask s_active s_std_id s_seq
                                s_data_cap s_last_tick_ms].
    rewrite Emask, bit_set_single by exact Hidx64.
    assert (Hlen' : length (List.filter
                              (fun j => Z.testbit (Z.lor m (2 ^ hdr_frag_idx hdr))
                                          (Z.of_nat j))
                              (seq 0 (Z.to_nat (s_frag_cnt s))))
                    = S (length (List.filter (fun j => Z.testbit m (Z.of_nat j))
                                   (seq 0 (Z.to_nat (s_frag_cnt s)))))).
    { apply (filter_length_add _ _ (Z.to_nat (hdr_frag_idx hdr))).
      - apply seq_NoDup.
      - apply in_seq. lia.
      - rewrite Z2Nat.id by lia. exact Ebit.
      - intros y. rewrite testbit_lor_pow2 by lia. f_equal.
        destruct (Nat.eqb_spec y (Z.to_nat (hdr_frag_idx hdr))) as [-> | Hne].
        + rewrite Z2Nat.id by lia. apply Z.eqb_refl.
        + apply Z.eqb_neq. lia. }
    rewrite Hmarked0 in Hgc.
    assert (Hle : (length (List.filter (fun j => Z.testbit (Z.lor m (2 ^ hdr_frag_idx hdr))
                                               (Z.of_nat j))
                              (seq 0 (Z.to_nat (s_frag_cnt s))))
                   <= Z.to_nat (s_frag_cnt s))%nat).
    { pose proof (filter_length_all
                    (fun j => Z.testbit (Z.lor m (2 ^ hdr_frag_idx hdr)) (Z.of_nat j))
                    (seq 0 (Z.to_nat (s_frag_cnt s)))) as [H _].
      rewrite length_seq in H. exact H. }
    rewrite (u16_small (s_got_count s + 1)) by lia.
    assert (Hbuf' : length (memcpy_at (s_buf s) (Z.to_nat off) payload (Z.to_nat tk))
                    = 2048%nat).
    { rewrite memcpy_at_length; [exact Hbuf | lia | lia]. }
    destruct (Z.eqb_spec (s_got_count s + 1) (s_frag_cnt s)) as [Hfull | Hnot].
    + right. cbn [res_path res_events res_reasm]. split; [reflexivity |].
      eexists. split; [reflexivity |]. split; [reflexivity |].
      cbn [set_last_tick s_buf s_total_len s_frag_cnt].
      split; [| split; [exact Hbuf' | split; reflexivity]].
      unfold slot_complete. cbn [set_last_tick s_frag_cnt s_got_mask].
      intros j Hj.
      rewrite bit_test_single by lia.
      pose proof (filter_length_all
                    (fun j => Z.testbit (Z.lor m (2 ^ hdr_frag_idx hdr)) (Z.of_nat j))
                    (seq 0 (Z.to_nat (s_frag_cnt s)))) as [_ Hall].
      rewrite length_seq in Hall.
      specialize (Hall ltac:(lia) (Z.to_nat j)).
      rewrite Z2Nat.id in Hall by lia. apply Hall. apply in_seq. lia.
    + left. cbn [res_events res_reasm]. split; [reflexivity |].
      eexists. split; [reflexivity |]. split; [exact Hbuf' |]. intros _.
      unfold CAN_BUS_REASM_MAX_FRAGS, CAN_BUS_REASM_MAX_BYTES.
      cbn -[marked].
      split; [lia |]. split; [lia |]. split; [reflexivity |].
      match goal with
      | |- context [marked ?s2 _] =>
          rewrite (Hmarked s2 (Z.lor m (2 ^ hdr_frag_idx hdr)) eq_refl)
      end.
      split; lia.
Qed.

Lemma hdr_accepted_bounds (bs : list byte) :
  hdr_rejected (hdr_of_bytes bs) = false ->
  1 <= hdr_frag_cnt (hdr_of_bytes bs) <= 64
  /\ 0 <= hdr_frag_idx (hdr_of_bytes bs) < hdr_frag_cnt (hdr_of_bytes bs)
  /\ 1 <= hdr_total_len (hdr_of_bytes bs) <= 2048.
Proof.
  intros H.
  assert (Hn : ~ (hdr_frag_cnt (hdr_of_bytes bs) = 0
                  \/ hdr_frag_idx (hdr_of_bytes bs) >= hdr_frag_cnt (hdr_of_bytes bs)
                  \/ hdr_frag_cnt (hdr_of_bytes bs) > 64
                  \/ hdr_total_len (hdr_of_bytes bs) = 0
                  \/ hdr_total_len (hdr_of_bytes bs) > 2048)).
  { intros Hb. apply hdr_rejected_spec in Hb. congruence. }
  pose proof (byte_at_range bs 3). pose proof (byte_at_range bs 4).
  pose proof (byte_at_range bs 6). pose proof (byte_at_range bs 7).
  rewrite hdr_total_len_le in *.
  change (hdr_frag_cnt (hdr_of_bytes bs)) with (byte_at bs 4) in *.
  change (hdr_frag_idx (hdr_of_bytes bs)) with (byte_at bs 3) in *.
  lia.
Qed.

Lemma handle_rx_frame_inv (subs : list can_bus_sub_t) (f : can_bus_rx_frame_t)
    (now : Z) (g : list can_bus_reasm_slot_t) :
  reasm_inv g -> frame_ok f ->
  let r := handle_rx_frame subs f now g in
  let hdr := hdr_of_bytes (rx_data f) in
  reasm_inv (res_reasm r)
  /\ (res_path r = PathRaw ->
      res_events r = can_bus_notify_rx subs (rx_data f) (rx_len f))
  /\ (res_path r <> PathRaw ->
      res_events r = []
      \/ exists s,
           res_path r = PathAccepted
           /\ res_events r = can_bus_notify_rx subs (s_buf s) (s_total_len s)
           /\ slot_complete s
           /\ s_frag_cnt s = hdr_frag_cnt hdr
           /\ s_total_len s = hdr_total_len hdr
           /\ length (s_buf s) = Z.to_nat CAN_BUS_REASM_MAX_BYTES
           /\ 1 <= s_total_len s <= CAN_BUS_REASM_MAX_BYTES).
Proof.
  intros [Hlen Hok] [Hflen Hfdata]. cbv zeta. unfold handle_rx_frame.
  destruct (Z.geb_spec (rx_len f) sizeof_hdr) as [Hge | _].
  2:{ cbn [res_reasm res_events res_path].
      split; [split; assumption |]. split; [reflexivity | congruence]. }
  destruct (hdr_magic (hdr_of_bytes (rx_data f)) =? CAN_BUS_FRAG_MAGIC).
  2:{ cbn [res_reasm res_events res_path].
      split; [split; assumption |]. split; [reflexivity | congruence]. }
  destruct (hdr_rejected (hdr_of_bytes (rx_data f))) eqn:Hrej.
  { cbn [res_reasm res_events res_path].
    split; [split; assumption |]. split; [discriminate | auto]. }
  destruct (hdr_accepted_bounds _ Hrej) as (Hcnt & Hidx & Htot).
  unfold sizeof_hdr in *.
  assert (Hpl : u8 (rx_len f - 8) = rx_len f - 8) by (apply u8_small; lia).
  rewrite Hpl.
  assert (Hpay : (Z.to_nat (rx_len f - 8)
                  <= length (drop (Z.to_nat 8) (rx_data f)))%nat).
  { rewrite length_drop. lia. }
  assert (Hg : (0 < length g)%nat)
    by (rewrite Hlen; unfold CAN_BUS_REASM_SLOTS; lia).
  destruct (reasm_get_slot_cases (rx_std_id f)
              (hdr_seq (hdr_of_bytes (rx_data f))) now g Hg)
    as (k & s0 & s1 & -> & Hk & Hcase).
  assert (Hklt : (k < length g)%nat) by (apply lookup_lt_Some in Hk; exact Hk).
  pose proof (Forall_lookup_1 _ _ _ _ Hok Hk) as Hs0.
  assert (Hs1 : slot_ok s1).
  { destruct Hcase as [(_ & _ & ->) | [(_ & _ & ->) | (_ & ->)]].
    - apply slot_ok_tick, Hs0.
    - apply slot_ok_tick, slot_ok_reset, Hs0.
    - split; [apply Hs0 |]. intros Hc. simpl in Hc. contradiction. }
  assert (Hat : slot_at (<[k := s1]> g) k = s1).
  { unfold slot_at. rewrite list_lookup_insert_eq by exact Hklt. reflexivity. }
  rewrite Hat. clear Hcase.
  assert (Hins : forall s', slot_ok s' ->
                            reasm_inv (<[k := s']> (<[k := s1]> g))).
  { intros s' Hs'. rewrite list_insert_insert_eq. split.
    - rewrite length_insert. exact Hlen.
    - apply Forall_insert; assumption. }
  assert (Hstore : forall s,
             slot_ok s -> s_frag_cnt s = hdr_frag_cnt (hdr_of_bytes (rx_data f)) ->
             s_total_len s = hdr_total_len (hdr_of_bytes (rx_data f)) ->
             let r := reasm_store subs (hdr_of_bytes (rx_data f))
                        (drop (Z.to_nat 8) (rx_data f)) (rx_len f - 8) now k s
                        (<[k := s1]> g) in
             reasm_inv (res_reasm r)
             /\ (res_path r = PathRaw ->
                 res_events r = can_bus_notify_rx subs (rx_data f) (rx_len f))
             /\ (res_path r <> PathRaw ->
                 res_events r = []
                 \/ exists s2,
                      res_path r = PathAccepted
                      /\ res_events r
                         = can_bus_notify_rx subs (s_buf s2) (s_total_len s2)
                      /\ slot_complete s2
                      /\ s_frag_cnt s2 = hdr_frag_cnt (hdr_of_bytes (rx_data f))
                      /\ s_total_len s2 = hdr_total_len (hdr_of_bytes (rx_data f))
                      /\ length (s_buf s2) = Z.to_nat CAN_BUS_REASM_MAX_BYTES
                      /\ 1 <= s_total_len s2 <= CAN_BUS_REASM_MAX_BYTES)).
  { intros s Hs Hsc Hst. cbv zeta.
    pose proof (reasm_store_path subs (hdr_of_bytes (rx_data f))
                  (drop (Z.to_nat 8) (rx_data f)) (rx_len f - 8) now k s
                  (<[k := s1]> g)) as Hpath. cbv zeta in Hpath.
    destruct (reasm_store_inv subs (hdr_of_bytes (rx_data f))
                (drop (Z.to_nat 8) (rx_data f)) (rx_len f - 8) now k s
                (<[k := s1]> g) Hs Hsc Hidx ltac:(lia) Hpay)
      as [(Hev & s' & Hres & Hs') | (Hp & s' & Hres & Hev & Hcomp & Hb & Ht & Hc)].
    - rewrite Hres. split; [apply Hins, Hs' |].
      split; [intros Hp; destruct Hpath as [H | H]; congruence |].
      intros _. left. exact Hev.
    - rewrite Hres. split; [apply Hins, slot_ok_reset, Hb |].
      split; [congruence |]. intros _. right. exists s'.
      unfold CAN_BUS_REASM_MAX_BYTES.
      split; [exact Hp |]. split; [exact Hev |]. split; [exact Hcomp |].
      split; [congruence |]. split; [congruence |]. split; [exact Hb |].
      rewrite Ht, Hst. exact Htot. }
  destruct (Z.eqb_spec (s_frag_cnt s1) 0) as [Hz | Hnz].
  - apply Hstore; [| reflexivity | reflexivity].
    apply slot_ok_init; [apply Hs1 | lia | lia].
  - destruct (Z.eqb_spec (s_frag_cnt s1) (hdr_frag_cnt (hdr_of_bytes (rx_data f))))
      as [Hc | Hc]; cbn [negb].
    + destruct (Z.eqb_spec (s_total_len s1)
                  (hdr_total_len (hdr_of_bytes (rx_data f)))) as [Ht | Ht];
        cbn [negb].
      * apply Hstore; assumption.
      * cbn [res_reasm res_events res_path].
        split; [apply Hins, slot_ok_reset, Hs1 |].
        split; [discriminate | auto].
    + cbn [res_reasm res_events res_path].
      split; [apply Hins, slot_ok_reset, Hs1 |].
      split; [discriminate | auto].
Qed.

Lemma reasm_init_inv : reasm_inv reasm_init.
Proof.
  split; [reflexivity |]. unfold reasm_init. apply Forall_replicate.
  split; [reflexivity |]. intros Hc. simpl in Hc. contradiction.
Qed.

(** When [reasm_store] notifies, the fragment at hand is the only one the
    slot was missing. *)
Lemma reasm_store_complete (subs : list can_bus_sub_t) (hdr : can_bus_frag_hdr_t)
    (payload : list byte) (pl now : Z) (i : nat) (s : can_bus_reasm_slot_t)
    (g : list can_bus_reasm_slot_t) :
  slot_ok s -> s_frag_cnt s = hdr_frag_cnt hdr ->
  0 <= hdr_frag_idx hdr < hdr_frag_cnt hdr ->
  let r := reasm_store subs hdr payload pl now i s g in
  res_events r <> [] ->
  bit_test (s_got_mask s) (hdr_frag_idx hdr) = false
  /\ s_got_count s = hdr_frag_cnt hdr - 1
  /\ (forall j, 0 <= j < hdr_frag_cnt hdr -> j <> hdr_frag_idx hdr ->
                bit_test (s_got_mask s) j = true)
  /\ exists s', res_reasm r = <[i := reasm_reset s']> g
       /\ res_events r = can_bus_notify_rx subs (s_buf s') (s_total_len s).
Proof.
  intros [Hbuf Hcounts] Hcnt Hidx. cbv zeta.
  destruct Hcounts as (Hc & Ht & Hml & Hgc & Hlt); [lia |].
  unfold CAN_BUS_REASM_MAX_FRAGS, CAN_BUS_REASM_MAX_BYTES in *.
  unfold reasm_store.
  destruct (_ >=? s_total_len s); [intros H; contradiction |].
  destruct (s_got_mask s) as [| m [| ? ?]] eqn:Emask; try discriminate Hml.
  assert (Hidx64 : 0 <= hdr_frag_idx hdr < 64) by lia.
  assert (Hmarked : marked s (Z.to_nat (s_frag_cnt s))
                    = List.filter (fun j => Z.testbit m (Z.of_nat j))
                        (seq 0 (Z.to_nat (s_frag_cnt s)))).
  { unfold marked. rewrite Emask. apply List.filter_ext_in.
    intros j Hj. apply in_seq in Hj. apply bit_test_single. lia. }
  rewrite Hmarked in Hgc.
  rewrite bit_test_single by exact Hidx64.
  destruct (Z.testbit m (hdr_frag_idx hdr)) eqn:Ebit; cbn [negb].
  - cbn [set_last_tick s_got_count s_frag_cnt].
    destruct (Z.eqb_spec (s_got_count s) (s_frag_cnt s)); [lia |].
    intros H. contradiction.
  - unfold slot_mark_copy. cbn [set_last_tick s_got_count s_frag_cnt s_buf
                                s_total_len s_got_mask s_active s_std_id s_seq
                                s_data_cap s_last_tick_ms].
    rewrite (u16_small (s_got_count s + 1)) by lia.
    destruct (Z.eqb_spec (s_got_count s + 1) (s_frag_cnt s)) as [Hfull | Hnot];
      [| intros H; contradiction].
    intros _. cbn [res_events res_reasm].
    split; [reflexivity |]. split; [lia |]. split; [| eexists; split; reflexivity].
    intros j Hj Hne. rewrite bit_test_single by lia.
    assert (Hlen' : length (List.filter
                              (fun j => Z.testbit (Z.lor m (2 ^ hdr_frag_idx hdr))
                                          (Z.of_nat j))
                              (seq 0 (Z.to_nat (s_frag_cnt s))))
                    = S (length (List.filter (fun j => Z.testbit m (Z.of_nat j))
                                   (seq 0 (Z.to_nat (s_frag_cnt s)))))).
    { apply (filter_length_add _ _ (Z.to_nat (hdr_frag_idx hdr))).
      - apply seq_NoDup.
      - apply in_seq. lia.
      - rewrite Z2Nat.id by lia. exact Ebit.
      - intros y. rewrite testbit_lor_pow2 by lia. f_equal.
        destruct (Nat.eqb_spec y (Z.to_nat (hdr_frag_idx hdr))) as [-> | Hny].
        + rewrite Z2Nat.id by lia. apply Z.eqb_refl.
        + apply Z.eqb_neq. lia. }
    pose proof (filter_length_all
                  (fun j => Z.testbit (Z.lor m (2 ^ hdr_frag_idx hdr)) (Z.of_nat j))
                  (seq 0 (Z.to_nat (s_frag_cnt s)))) as [_ Hall].
    rewrite length_seq in Hall.
    specialize (Hall ltac:(lia) (Z.to_nat j)).
    rewrite Z2Nat.id in Hall by lia.
    rewrite testbit_lor_pow2 in Hall by lia.
    destruct (Z.eqb_spec (hdr_frag_idx hdr) j) as [<- | _]; [contradiction |].
    rewrite orb_false_r in Hall. apply Hall. apply in_seq. lia.
Qed.

(** X27: a reassembled message is delivered only when it is whole.  On a
    table whose bookkeeping is sound, as it is from start-up on, any frame
    of at most 64 bytes keeps it sound -- slot buffers of 2048 bytes,
    counters that equal the number of marked fragments.  When a fragment
    triggers callbacks, it is the last one missing in the slot
    [reasm_get_slot] returns for it: unless its header announces a single
    fragment, that slot of the table was active for the frame's id and
    sequence number before the frame, with the announced count and total
    length, its counter one short of the count, the frame's own index
    unmarked and every other index below the count marked.  The callbacks
    get the buffer of that slot with the announced total length, 1 to 2048
    bytes, and the slot is free afterwards, the rest of the table being
    untouched. *)
Theorem fragment_delivery_needs_all_fragments (subs : list can_bus_sub_t)
    (f : can_bus_rx_frame_t) (now : Z) (g : list can_bus_reasm_slot_t)
    (Hinv : reasm_inv g) (Hf : frame_ok f) :
  let r := handle_rx_frame subs f now g in
  let hdr := hdr_of_bytes (rx_data f) in
  let k := fst (reasm_get_slot (rx_std_id f) (hdr_seq hdr) now g) in
  reasm_inv (res_reasm r)
  /\ (res_path r <> PathRaw -> res_events r <> [] ->
      res_path r = PathAccepted
      /\ 1 <= hdr_total_len hdr <= CAN_BUS_REASM_MAX_BYTES
      /\ (k < length g)%nat
      /\ res_events r
         = can_bus_notify_rx subs (s_buf (slot_at (res_reasm r) k))
             (hdr_total_len hdr)
      /\ res_reasm r = <[k := reasm_reset (slot_at (res_reasm r) k)]> g
      /\ (forall j, 0 <= j < hdr_frag_cnt hdr -> j <> hdr_frag_idx hdr ->
            slot_is_for (rx_std_id f) (slot_at g k)
            /\ s_seq (slot_at g k) = hdr_seq hdr
            /\ s_frag_cnt (slot_at g k) = hdr_frag_cnt hdr
            /\ s_total_len (slot_at g k) = hdr_total_len hdr
            /\ s_got_count (slot_at g k) = hdr_frag_cnt hdr - 1
            /\ bit_test (s_got_mask (slot_at g k)) (hdr_frag_idx hdr) = false
            /\ bit_test (s_got_mask (slot_at g k)) j = true))
  /\ (res_path r <> PathRaw ->
      Forall (fun e => ev_len e = hdr_total_len hdr
                       /\ Z.of_nat (length (ev_data e)) = hdr_total_len hdr)
             (res_events r)).
Proof.
  destruct (handle_rx_frame_inv subs f now g Hinv Hf) as (H1 & _ & H3).
  cbv zeta in *. split; [exact H1 |]. split.
  2:{ intros Hp.
      destruct (H3 Hp) as [-> | (s & _ & -> & _ & _ & Ht & Hb & Hr)];
        [constructor |].
      pose proof (notify_rx_events subs (s_buf s) (s_total_len s)) as [Hev _].
      cbv zeta in Hev. eapply Forall_impl; [exact Hev |].
      intros e [Hd Hl]. rewrite Hd, Hl, <- Ht. split; [reflexivity |].
      rewrite length_take, Hb. unfold CAN_BUS_REASM_MAX_BYTES in *. lia. }
  clear H1 H3. destruct Hinv as [Hlen Hok]. destruct Hf as [Hflen Hfdata].
  unfold handle_rx_frame.
  destruct (Z.geb_spec (rx_len f) sizeof_hdr) as [Hge | _];
    [| intros H; contradiction].
  destruct (hdr_magic (hdr_of_bytes (rx_data f)) =? CAN_BUS_FRAG_MAGIC);
    [| intros H; contradiction].
  destruct (hdr_rejected (hdr_of_bytes (rx_data f))) eqn:Hrej;
    [intros _ H; contradiction |].
  destruct (hdr_accepted_bounds _ Hrej) as (Hcnt & Hidx & Htot).
  assert (Hg : (0 < length g)%nat)
    by (rewrite Hlen; unfold CAN_BUS_REASM_SLOTS; lia).
  destruct (reasm_get_slot_cases (rx_std_id f)
              (hdr_seq (hdr_of_bytes (rx_data f))) now g Hg)
    as (k & s0 & s1 & -> & Hk & Hcase).
  cbn [fst].
  assert (Hklt : (k < length g)%nat) by (apply lookup_lt_Some in Hk; exact Hk).
  pose proof (Forall_lookup_1 _ _ _ _ Hok Hk) as Hs0.
  assert (Hs1 : slot_ok s1).
  { destruct Hcase as [(_ & _ & ->) | [(_ & _ & ->) | (_ & ->)]].
    - apply slot_ok_tick, Hs0.
    - apply slot_ok_tick, slot_ok_reset, Hs0.
    - split; [apply Hs0 |]. intros Hc. simpl in Hc. contradiction. }
  assert (Hat : slot_at (<[k := s1]> g) k = s1).
  { unfold slot_at. rewrite list_lookup_insert_eq by exact Hklt. reflexivity. }
  assert (Hat0 : slot_at g k = s0) by (unfold slot_at; rewrite Hk; reflexivity).
  rewrite Hat, Hat0.
  assert (Hstore : forall s,
             slot_ok s -> s_frag_cnt s = hdr_frag_cnt (hdr_of_bytes (rx_data f)) ->
             s_total_len s = hdr_total_len (hdr_of_bytes (rx_data f)) ->
             let r := reasm_store subs (hdr_of_bytes (rx_data f))
                        (drop (Z.to_nat sizeof_hdr) (rx_data f))
                        (u8 (rx_len f - sizeof_hdr)) now k s (<[k := s1]> g) in
             res_events r <> [] ->
             res_path r = PathAccepted
             /\ res_events r
                = can_bus_notify_rx subs (s_buf (slot_at (res_reasm r) k))
                    (hdr_total_len (hdr_of_bytes (rx_data f)))
             /\ res_reasm r = <[k := reasm_reset (slot_at (res_reasm r) k)]> g
             /\ bit_test (s_got_mask s) (hdr_frag_idx (hdr_of_bytes (rx_data f)))
                = false
             /\ s_got_count s = hdr_frag_cnt (hdr_of_bytes (rx_data f)) - 1
             /\ forall j, 0 <= j < hdr_frag_cnt (hdr_of_bytes (rx_data f)) ->
                          j <> hdr_frag_idx (hdr_of_bytes (rx_data f)) ->
                          bit_test (s_got_mask s) j = true).
  { intros s Hs Hsc Hst r Hev.
    pose proof (reasm_store_path subs (hdr_of_bytes (rx_data f))
                  (drop (Z.to_nat sizeof_hdr) (rx_data f))
                  (u8 (rx_len f - sizeof_hdr)) now k s (<[k := s1]> g)) as Hpath.
    cbv zeta in Hpath. fold r in Hpath.
    destruct (reasm_store_complete subs (hdr_of_bytes (rx_data f))
                (drop (Z.to_nat sizeof_hdr) (rx_data f))
                (u8 (rx_len f - sizeof_hdr)) now k s (<[k := s1]> g)
                Hs Hsc Hidx Hev) as (Hbit & Hcount & Hmarks & s' & Hres & He).
    fold r in Hres, He.
    assert (Hat' : slot_at (res_reasm r) k = reasm_reset s').
    { rewrite Hres, list_insert_insert_eq. unfold slot_at.
      rewrite list_lookup_insert_eq by exact Hklt. reflexivity. }
    rewrite Hat'. cbn [reasm_reset s_buf].
    split.
    { destruct Hpath as [Hp | Hp]; [| exact Hp].
      exfalso. apply Hev. unfold r, reasm_store in *.
      destruct (_ >=? s_total_len s); [reflexivity |].
      destruct (_ =? _); discriminate Hp. }
    split; [rewrite He, Hst; reflexivity |].
    split; [rewrite Hres, list_insert_insert_eq; reflexivity |].
    auto. }
  destruct (Z.eqb_spec (s_frag_cnt s1) 0) as [Hz | Hnz].
  - intros _ Hev.
    destruct (Hstore (slot_init_params (hdr_of_bytes (rx_data f))
                        (u8 (rx_len f - sizeof_hdr)) s1))
      as (Hp & He & Hres & _ & _ & Hmarks);
      [apply slot_ok_init; [apply Hs1 | lia | lia] | reflexivity | reflexivity
       | exact Hev |].
    split; [exact Hp |]. split; [exact Htot |]. split; [exact Hklt |].
    split; [exact He |]. split; [exact Hres |].
    intros j Hj Hne. specialize (Hmarks j Hj Hne).
    cbn [slot_init_params s_got_mask] in Hmarks.
    rewrite bit_test_zeros in Hmarks. discriminate Hmarks.
  - destruct (Z.eqb_spec (s_frag_cnt s1) (hdr_frag_cnt (hdr_of_bytes (rx_data f))))
      as [Hc | Hc]; cbn [negb]; [| intros _ H; contradiction].
    destruct (Z.eqb_spec (s_total_len s1)
                (hdr_total_len (hdr_of_bytes (rx_data f)))) as [Ht | Ht];
      cbn [negb]; [| intros _ H; contradiction].
    intros _ Hev.
    destruct (Hstore s1 Hs1 Hc Ht Hev) as (Hp & He & Hres & Hbit & Hcount & Hmarks).
    split; [exact Hp |]. split; [exact Htot |]. split; [exact Hklt |].
    split; [exact He |]. split; [exact Hres |].
    intros j Hj Hne.
    destruct Hcase as [(Hfor & Hsq & ->) | [(_ & _ & ->) | (_ & ->)]];
      [| contradiction Hnz; reflexivity | contradiction Hnz; reflexivity].
    cbn [set_last_tick s_frag_cnt s_total_len s_got_mask s_got_count] in *.
    auto 10.
Qed.

Lemma fragment_delivery_needs_all_fragments_witness :
  let g := res_reasm (handle_rx_frame one_subscriber
                        (rx_frag 3 0 100 stale_msg 0) 10 reasm_init) in
  let f := rx_frag 3 0 100 stale_msg 1 in
  let r := handle_rx_frame one_subscriber f 20 g in
  let hdr := hdr_of_bytes (rx_data f) in
  let k := fst (reasm_get_slot (rx_std_id f) (hdr_seq hdr) 20 g) in
  reasm_inv (res_reasm r)
  /\ (res_path r <> PathRaw -> res_events r <> [] ->
      res_path r = PathAccepted
      /\ 1 <= hdr_total_len hdr <= CAN_BUS_REASM_MAX_BYTES
      /\ (k < length g)%nat
      /\ res_events r
         = can_bus_notify_rx one_subscriber (s_buf (slot_at (res_reasm r) k))
             (hdr_total_len hdr)
      /\ res_reasm r = <[k := reasm_reset (slot_at (res_reasm r) k)]> g
      /\ (forall j, 0 <= j < hdr_frag_cnt hdr -> j <> hdr_frag_idx hdr ->
            slot_is_for (rx_std_id f) (slot_at g k)
            /\ s_seq (slot_at g k) = hdr_seq hdr
            /\ s_frag_cnt (slot_at g k) = hdr_frag_cnt hdr
            /\ s_total_len (slot_at g k) = hdr_total_len hdr
            /\ s_got_count (slot_at g k) = hdr_frag_cnt hdr - 1
            /\ bit_test (s_got_mask (slot_at g k)) (hdr_frag_idx hdr) = false
            /\ bit_test (s_got_mask (slot_at g k)) j = true))
  /\ (res_path r <> PathRaw ->
      Forall (fun e => ev_len e = hdr_total_len hdr
                       /\ Z.of_nat (length (ev_data e)) = hdr_total_len hdr)
             (res_events r)).
Proof.
  intros g f.
  assert (Hf0 : frame_ok (rx_frag 3 0 100 stale_msg 0)).
  { split; [vm_compute; split; discriminate | vm_compute; lia]. }
  assert (Hf : frame_ok f).
  { split; [vm_compute; split; discriminate | vm_compute; lia]. }
  destruct (handle_rx_frame_inv one_subscriber (rx_frag 3 0 100 stale_msg 0) 10
              reasm_init reasm_init_inv Hf0) as [Hg _].
  exact (fragment_delivery_needs_all_fragments one_subscriber f 20 g Hg Hf).
Defined.

Lemma handle_rx_frames_bounds (subs : list can_bus_sub_t)
    (rx : list (can_bus_rx_frame_t * Z)) :
  Forall (fun p => frame_ok (fst p)) rx ->
  forall g, reasm_inv g ->
            reasm_inv (fst (handle_rx_frames subs rx g))
            /\ Forall event_ok (snd (handle_rx_frames subs rx g)).
Proof.
  intros Hrx. induction Hrx as [| [f now] rx Hf _ IH]; intros g Hinv.
  - simpl. split; [exact Hinv | constructor].
  - simpl handle_rx_frames. cbn [fst] in Hf.
    destruct (handle_rx_frame_inv subs f now g Hinv Hf) as (H1 & H2 & H3).
    cbv zeta in H1, H2, H3.
    specialize (IH _ H1).
    destruct (handle_rx_frames subs rx
                (res_reasm (handle_rx_frame subs f now g))) as [g' evs].
    cbn [fst snd] in *.
    destruct IH as [IH1 IH2]. split; [exact IH1 |].
    apply Forall_app. split; [| exact IH2].
    destruct Hf as [Hflen Hfdata]. unfold CAN_BUS_REASM_MAX_BYTES in *.
    assert (Hn : forall data len,
               0 <= len <= 2048 -> (Z.to_nat len <= length data)%nat ->
               Forall event_ok (can_bus_notify_rx subs data len)).
    { intros data len Hl Hd.
      pose proof (notify_rx_events subs data len) as [Hev _]. cbv zeta in Hev.
      eapply Forall_impl; [exact Hev |]. intros e [He1 He2].
      unfold event_ok, CAN_BUS_REASM_MAX_BYTES. rewrite He1, He2.
      split; [exact Hl |]. rewrite length_take. lia. }
    destruct (res_path (handle_rx_frame subs f now g)) eqn:Hp.
    1:{ rewrite H2 by reflexivity. apply Hn; lia. }
    all: destruct H3 as [-> | (s & _ & -> & _ & _ & _ & Hb & Ht)];
      try discriminate; try constructor;
      apply Hn; [lia | rewrite Hb; change (Z.to_nat 2048) with 2048%nat; lia].
Qed.

(** ** From the bus to the callbacks *)

Lemma frame_ok_zero : frame_ok zero_frame.
Proof. split; simpl; lia. Qed.

Lemma rb_push_frames_ok (p : rb_push_args) (r : rx_ring) :
  push_ok p -> Forall frame_ok (g_rx_ring r) ->
  Forall frame_ok (g_rx_ring (rb_push p r)).
Proof.
  intros [Hlen Hdata] Hok. unfold rb_push, rb_push_drop_oldest.
  cbn [g_rx_ring]. apply Forall_insert; [exact Hok |].
  unfold push_clamped_len in Hdata.
  split; cbn [rx_len rx_data].
  - destruct (Z.gtb_spec (push_len p) 64); lia.
  - unfold memcpy, memcpy_at. simpl take at 1. simpl app.
    rewrite length_app, length_take. lia.
Qed.

Lemma rb_push_all_frames_ok (ps : list rb_push_args) (r : rx_ring) :
  Forall push_ok ps -> Forall frame_ok (g_rx_ring r) ->
  Forall frame_ok (g_rx_ring (rb_push_all ps r)).
Proof.
  intros Hps. revert r. induction Hps as [| p ps Hp _ IH]; intros r Hok.
  - exact Hok.
  - simpl. apply IH, rb_push_frames_ok; assumption.
Qed.

Lemma isr_frames_ok (new_message its : Z) (fifo : list rx_fifo_read)
    (r : rx_ring) :
  Forall (fun rd => (64 <= length (rd_data rd))%nat) fifo ->
  rb_wf r -> Forall frame_ok (g_rx_ring r) ->
  rb_wf (HAL_FDCAN_RxFifo1Callback new_message its fifo r)
  /\ Forall frame_ok (g_rx_ring (HAL_FDCAN_RxFifo1Callback new_message its fifo r)).
Proof.
  intros Hfifo Hwf Hok. unfold HAL_FDCAN_RxFifo1Callback.
  destruct (Z.land its new_message =? 0); [split; assumption |].
  rewrite isr_drain_fifo_pushes.
  split; [apply rb_push_all_wf, Hwf |].
  apply rb_push_all_frames_ok; [| exact Hok].
  apply Forall_map.
  induction Hfifo as [| rd fifo Hrd _ IH]; simpl; [constructor |].
  destruct (HAL_status_eqb (rd_status rd) HAL_OK); [| constructor].
  constructor; [apply isr_push_ok, Hrd | exact IH].
Qed.

Lemma rb_contents_ok (r : rx_ring) :
  Forall frame_ok (g_rx_ring r) -> Forall frame_ok (rb_contents r).
Proof.
  intros Hok. unfold rb_contents. apply Forall_map, Forall_forall.
  intros k _. unfold rb_slot.
  destruct (g_rx_ring r !! _) as [f |] eqn:E; simpl.
  - apply (Forall_lookup_1 _ _ _ _ Hok E).
  - apply frame_ok_zero.
Qed.

Lemma reasm_expire_old_inv (now : Z) (g : list can_bus_reasm_slot_t) :
  reasm_inv g -> reasm_inv (reasm_expire_old now g).
Proof.
  intros [Hlen Hok]. unfold reasm_expire_old. split.
  - rewrite length_map. exact Hlen.
  - apply Forall_map. eapply Forall_impl; [exact Hok |].
    intros s Hs. simpl. rewrite reasm_expire_slot_spec.
    destruct (s_active s && _); [apply slot_ok_reset, Hs | exact Hs].
Qed.

Lemma rx_step_ok (new_message : Z) (st : can_bus_rx * list rx_event)
    (op : rx_op) :
  rx_op_ok op ->
  rb_wf (rx_ringbuf (fst st)) /\ Forall frame_ok (g_rx_ring (rx_ringbuf (fst st)))
  /\ reasm_inv (g_reasm (fst st)) /\ Forall event_ok (snd st) ->
  let st' := rx_step new_message st op in
  rb_wf (rx_ringbuf (fst st')) /\ Forall frame_ok (g_rx_ring (rx_ringbuf (fst st')))
  /\ reasm_inv (g_reasm (fst st')) /\ Forall event_ok (snd st')
  /\ g_subs (fst st') = g_subs (fst st)
  /\ match op with
     | RxIsr _ _ => snd st' = snd st
     | RxWorker _ => rb_contents (rx_ringbuf (fst st')) = []
     end.
Proof.
  intros Hop (Hwf & Hfr & Hinv & Hev). cbv zeta.
  destruct op as [its fifo | now]; cbn [rx_step].
  - cbn [fst snd rx_ringbuf g_reasm g_subs].
    destruct (isr_frames_ok new_message its fifo _ Hop Hwf Hfr) as [H1 H2].
    auto 10.
  - unfold can_bus_process_rx.
    pose proof (rb_count_range (rx_ringbuf (fst st))) as Hc.
    rewrite process_rx_loop_frames; cbn [rx_ringbuf g_reasm g_subs];
      [| exact Hwf | unfold CAN_BUS_RX_RING_DEPTH; lia].
    cbn [fst snd rx_ringbuf g_reasm g_subs g_rx_ring].
    destruct (handle_rx_frames_bounds (g_subs (fst st))
                (map (fun f => (f, now)) (rb_contents (rx_ringbuf (fst st)))))
      with (g := reasm_expire_old now (g_reasm (fst st))) as [H1 H2].
    { apply Forall_map. eapply Forall_impl; [apply rb_contents_ok, Hfr |].
      intros f Hf. exact Hf. }
    { apply reasm_expire_old_inv, Hinv. }
    destruct Hwf as (Hl & Hh & Ht).
    split; [unfold rb_wf; cbn [g_rx_head g_rx_tail g_rx_ring]; auto |].
    split; [exact Hfr |]. split; [exact H1 |].
    split; [apply Forall_app; split; [exact Hev | exact H2] |].
    split; [reflexivity |].
    unfold rb_contents, rb_count. cbn [g_rx_head g_rx_tail].
    rewrite Z.sub_diag. reflexivity.
Qed.

(** X28: from start-up on, whatever arrives.  For any sequence of receive
    interrupts and worker calls, each run to completion, with any frames on
    the bus and any tick values, every callback invocation gets a length of
    at most 2048 bytes with a buffer that holds them, the ring keeps its
    indices in range, every queued frame has at most 64 bytes, the
    reassembly table stays sound and the subscriber table untouched. *)
Theorem rx_callbacks_always_in_bounds (new_message : Z)
    (subs : list can_bus_sub_t) (ops : list rx_op)
    (Hops : Forall rx_op_ok ops) :
  let st := fst (rx_run new_message subs ops) in
  let evs := snd (rx_run new_message subs ops) in
  Forall (fun e => 0 <= ev_len e <= 2048
                   /\ Z.of_nat (length (ev_data e)) = ev_len e) evs
  /\ rb_wf (rx_ringbuf st)
  /\ Forall (fun f => 0 <= rx_len f <= 64
                      /\ (Z.to_nat (rx_len f) <= length (rx_data f))%nat)
       (rb_drain 64 (rx_ringbuf st))
  /\ reasm_inv (g_reasm st)
  /\ g_subs st = subs.
Proof.
  cbv zeta. unfold rx_run.
  set (st0 := ({| rx_ringbuf := rb_init; g_reasm := reasm_init; g_subs := subs |},
               @nil rx_event)).
  assert (H0 : rb_wf (rx_ringbuf (fst st0))
               /\ Forall frame_ok (g_rx_ring (rx_ringbuf (fst st0)))
               /\ reasm_inv (g_reasm (fst st0)) /\ Forall event_ok (snd st0)
               /\ g_subs (fst st0) = subs).
  { subst st0. cbn [fst snd rx_ringbuf g_reasm g_subs].
    split; [exact rb_init_wf |].
    split; [apply Forall_replicate, frame_ok_zero |].
    split; [exact reasm_init_inv |]. split; [constructor | reflexivity]. }
  revert H0. generalize st0 as st. clear st0.
  induction Hops as [| op ops Hop _ IH]; intros st (Hwf & Hfr & Hinv & Hev & Hs).
  - cbn [fold_left]. split; [exact Hev |]. split; [exact Hwf |].
    split; [| split; [exact Hinv | exact Hs]].
    rewrite rb_drain_all by exact Hwf. apply rb_contents_ok, Hfr.
  - cbn [fold_left].
    destruct (rx_step_ok new_message st op Hop (conj Hwf (conj Hfr (conj Hinv Hev))))
      as (H1 & H2 & H3 & H4 & H5 & _).
    apply IH. rewrite H5. auto.
Qed.

Lemma rx_callbacks_always_in_bounds_witness :
  let bs := counting_bytes 150 in
  let ops := [RxIsr 1 (map read_of_call (map (frag_call 3 0 150 bs) [0; 2]%nat));
              RxWorker 5;
              RxIsr 1 (map read_of_call (map (frag_call 3 0 150 bs) [1]%nat));
              RxWorker 9] in
  let st := fst (rx_run 1 one_subscriber ops) in
  let evs := snd (rx_run 1 one_subscriber ops) in
  Forall (fun e => 0 <= ev_len e <= 2048
                   /\ Z.of_nat (length (ev_data e)) = ev_len e) evs
  /\ rb_wf (rx_ringbuf st)
  /\ Forall (fun f => 0 <= rx_len f <= 64
                      /\ (Z.to_nat (rx_len f) <= length (rx_data f))%nat)
       (rb_drain 64 (rx_ringbuf st))
  /\ reasm_inv (g_reasm st)
  /\ g_subs st = one_subscriber.
Proof.
  apply (rx_callbacks_always_in_bounds 1 one_subscriber
           [RxIsr 1 (map read_of_call
                       (map (frag_call 3 0 150 (counting_bytes 150)) [0; 2]%nat));
            RxWorker 5;
            RxIsr 1 (map read_of_call
                       (map (frag_call 3 0 150 (counting_bytes 150)) [1]%nat));
            RxWorker 9]).
  repeat constructor.
Defined.

